(** * The .bunz directory archiver: container codec, packer and unpacker

    A shallow embedding of [archiver.ts] (the Bun script that packs a
    directory into a gzip-wrapped container and unpacks it again) and the
    properties of its container format.

    Conventions.
    - A JavaScript number that holds a length or an offset is a [Z].
    - A [Uint8Array] that owns its storage is a [list byte]; the buffer
      returned by [gunzipSync] keeps its backing [ArrayBuffer] and offset
      ([Buffer]), because [new DataView(decompressed.buffer, ...)] is
      checked against the backing store.
    - A JavaScript string is the list of its UTF-16 code units ([jsstring]).
    - The runtime's own functions ([TextEncoder], [TextDecoder],
      [JSON.stringify], [JSON.parse], [DataView], [path.join], the [fs]
      calls) are modelled from their standards (WHATWG Encoding,
      ECMA-262, the POSIX flavour of Node's [path]); [gzipSync] and
      [gunzipSync] stay abstract. *)

From Stdlib Require Import ZArith List Lia Bool Permutation Sorted Ascii String.
From stdpp Require Import gmap list.
From Equations Require Import Equations.

Local Open Scope Z_scope.
Set Warnings "-register-all".

(** ** Bytes and 32-bit little-endian fields *)

Definition byte := Byte.byte.

Definition byteToZ (b : byte) : Z := Z.of_N (Byte.to_N b).

Definition byteOfZ (z : Z) : byte :=
  default Byte.x00 (Byte.of_N (Z.to_N (z mod 256))).

(** [array.length] of a typed array, as a JavaScript number. *)
Definition len {A} (l : list A) : Z := Z.of_nat (length l).

(** [new ArrayBuffer(n)]: [n] zero bytes. *)
Definition newArrayBuffer (n : nat) : list byte := replicate n Byte.x00.

(** [ToUint32] on an integral number: reduction modulo 2^32. *)
Definition toUint32 (n : Z) : Z := n mod 2 ^ 32.

(** [view.setUint32(pos, value, true)] on a view over the whole of [buf]. *)
Definition setUint32 (buf : list byte) (pos : nat) (value : Z) : list byte :=
  let w := toUint32 value in
  <[(pos + 3)%nat := byteOfZ (Z.shiftr w 24)]>
  (<[(pos + 2)%nat := byteOfZ (Z.shiftr w 16)]>
  (<[(pos + 1)%nat := byteOfZ (Z.shiftr w 8)]>
  (<[pos := byteOfZ w]> buf))).

(** [view.getUint32(pos, true)]. *)
Definition getUint32 (view : list byte) (pos : nat) : Z :=
  let b i := byteToZ (nth (pos + i)%nat view Byte.x00) in
  b 0%nat + Z.shiftl (b 1%nat) 8 + Z.shiftl (b 2%nat) 16 + Z.shiftl (b 3%nat) 24.

(** The four bytes of a length field. *)
Definition uint32LE (n : Z) : list byte := setUint32 (newArrayBuffer 4) 0 n.

(** A Node/Bun [Buffer]: a window of [length_] bytes at [byteOffset] into
    its backing [ArrayBuffer]. *)
Record Buffer := mkBuffer {
  buffer : list byte;
  byteOffset : Z;
  length_ : Z
}.

(** A buffer that spans the whole of its backing store. *)
Definition ofBytes (bs : list byte) : Buffer :=
  {| buffer := bs; byteOffset := 0; length_ := len bs |}.

(** The bytes seen through the window. *)
Definition viewBytes (d : Buffer) : list byte :=
  take (Z.to_nat (length_ d)) (drop (Z.to_nat (byteOffset d)) (buffer d)).

(** [new DataView(arrayBuffer, byteOffset, byteLength)]: [None] is the
    [RangeError] raised when the window does not fit in the backing store. *)
Definition newDataView (arrayBuffer : list byte) (offset length : Z)
  : option (list byte) :=
  if (offset <=? len arrayBuffer) && (offset + length <=? len arrayBuffer)
  then Some (take (Z.to_nat length) (drop (Z.to_nat offset) arrayBuffer))
  else None.

(** [d.subarray(begin, end)] for [0 <= begin]: both ends are clamped to the
    length of [d]; an empty range gives an empty array. *)
Definition subarray (d : Buffer) (begin end_ : Z) : list byte :=
  let b := Z.min begin (length_ d) in
  let e := Z.min end_ (length_ d) in
  take (Z.to_nat (Z.max (e - b) 0)) (drop (Z.to_nat b) (viewBytes d)).

(** ** JavaScript strings *)

Definition jsstring := list Z.

(** An ASCII literal as a JavaScript string. *)
Definition js (s : string) : jsstring :=
  map (fun a => Z.of_N (N_of_ascii a)) (list_ascii_of_string s).

Definition isCodeUnit (u : Z) : Prop := 0 <= u < 65536.

Definition isHighSurrogate (u : Z) : bool := (0xD800 <=? u) && (u <=? 0xDBFF).
Definition isLowSurrogate (u : Z) : bool := (0xDC00 <=? u) && (u <=? 0xDFFF).

(** Conversion of a string to scalar values as [TextEncoder] does it: a
    surrogate pair is one code point, a lone surrogate becomes U+FFFD. *)
Fixpoint toScalarValues (s : jsstring) : list Z :=
  match s with
  | [] => []
  | u :: rest =>
      if isHighSurrogate u then
        match rest with
        | v :: rest' =>
            if isLowSurrogate v
            then (0x10000 + (u - 0xD800) * 0x400 + (v - 0xDC00)) :: toScalarValues rest'
            else 0xFFFD :: toScalarValues rest
        | [] => [0xFFFD]
        end
      else if isLowSurrogate u then 0xFFFD :: toScalarValues rest
      else u :: toScalarValues rest
  end.

(** The UTF-8 bytes of one scalar value. *)
Definition utf8EncodeCodePoint (c : Z) : list byte :=
  if c <? 0x80 then [byteOfZ c]
  else if c <? 0x800 then
    [byteOfZ (0xC0 + c / 64); byteOfZ (0x80 + c mod 64)]
  else if c <? 0x10000 then
    [byteOfZ (0xE0 + c / 4096); byteOfZ (0x80 + (c / 64) mod 64);
     byteOfZ (0x80 + c mod 64)]
  else
    [byteOfZ (0xF0 + c / 262144); byteOfZ (0x80 + (c / 4096) mod 64);
     byteOfZ (0x80 + (c / 64) mod 64); byteOfZ (0x80 + c mod 64)].

(** [new TextEncoder().encode(text)]. *)
Definition textToUint8Array (text : jsstring) : list byte :=
  flat_map utf8EncodeCodePoint (toScalarValues text).

(** The WHATWG UTF-8 decoder in replacement mode. The state is the code
    point under construction, the number of continuation bytes still
    needed, and the bounds allowed for the next byte. A byte that cannot
    continue a sequence yields U+FFFD and is then read again as a first
    byte. *)
Fixpoint utf8Decode (bs : list byte) (cp : Z) (needed : nat) (lower upper : Z)
  : list Z :=
  match bs with
  | [] => match needed with O => [] | S _ => [0xFFFD] end
  | b :: rest =>
      let z := byteToZ b in
      let first :=
        if z <=? 0x7F then z :: utf8Decode rest 0 0 0x80 0xBF
        else if (0xC2 <=? z) && (z <=? 0xDF) then
          utf8Decode rest (z - 0xC0) 1 0x80 0xBF
        else if (0xE0 <=? z) && (z <=? 0xEF) then
          utf8Decode rest (z - 0xE0) 2
            (if z =? 0xE0 then 0xA0 else 0x80) (if z =? 0xED then 0x9F else 0xBF)
        else if (0xF0 <=? z) && (z <=? 0xF4) then
          utf8Decode rest (z - 0xF0) 3
            (if z =? 0xF0 then 0x90 else 0x80) (if z =? 0xF4 then 0x8F else 0xBF)
        else 0xFFFD :: utf8Decode rest 0 0 0x80 0xBF in
      match needed with
      | O => first
      | S n =>
          if (lower <=? z) && (z <=? upper) then
            let cp' := cp * 64 + z mod 64 in
            match n with
            | O => cp' :: utf8Decode rest 0 0 0x80 0xBF
            | S _ => utf8Decode rest cp' n 0x80 0xBF
            end
          else 0xFFFD :: first
      end
  end.

(** The UTF-16 code units of a code point. *)
Definition codePointToUnits (c : Z) : jsstring :=
  if c <? 0x10000 then [c]
  else [0xD800 + (c - 0x10000) / 0x400; 0xDC00 + (c - 0x10000) mod 0x400].

(** A decoder created without [ignoreBOM] drops a leading U+FEFF. *)
Definition stripBOM (cps : list Z) : list Z :=
  match cps with
  | c :: rest => if c =? 0xFEFF then rest else cps
  | [] => []
  end.

(** [new TextDecoder().decode(array)]. *)
Definition uint8ArrayToText (array : list byte) : jsstring :=
  flat_map codePointToUnits (stripBOM (utf8Decode array 0 0 0x80 0xBF)).


(** An ASCII literal in which an apostrophe stands for a double quote. *)
Definition jsq (s : string) : jsstring :=
  map (fun u => if u =? 39 then 34 else u) (js s).

(** ** JSON *)

(** A JSON value; a number keeps its lexeme (the code never computes with a
    parsed number). *)
Inductive json :=
| JNull
| JBool (b : bool)
| JNumber (lexeme : jsstring)
| JString (s : jsstring)
| JArray (elements : list json)
| JObject (members : list (jsstring * json)).

Definition hexDigit (n : Z) : Z := if n <? 10 then 48 + n else 87 + n.

(** The escape [\uXXXX] with lower-case hexadecimal digits. *)
Definition unicodeEscape (u : Z) : jsstring :=
  [92; 117; hexDigit (u / 4096); hexDigit ((u / 256) mod 16);
   hexDigit ((u / 16) mod 16); hexDigit (u mod 16)].

(** The body of [QuoteJSONString] (ECMA-262, well-formed [JSON.stringify]):
    short escapes, [\u] escapes for control characters and lone surrogates,
    everything else as it is. *)
Fixpoint quoteChars (s : jsstring) : jsstring :=
  match s with
  | [] => []
  | u :: rest =>
      if u =? 8 then 92 :: 98 :: quoteChars rest
      else if u =? 9 then 92 :: 116 :: quoteChars rest
      else if u =? 10 then 92 :: 110 :: quoteChars rest
      else if u =? 12 then 92 :: 102 :: quoteChars rest
      else if u =? 13 then 92 :: 114 :: quoteChars rest
      else if u =? 34 then 92 :: 34 :: quoteChars rest
      else if u =? 92 then 92 :: 92 :: quoteChars rest
      else if u <? 32 then unicodeEscape u ++ quoteChars rest
      else if isHighSurrogate u then
        match rest with
        | v :: rest' =>
            if isLowSurrogate v then u :: v :: quoteChars rest'
            else unicodeEscape u ++ quoteChars rest
        | [] => unicodeEscape u
        end
      else if isLowSurrogate u then unicodeEscape u ++ quoteChars rest
      else u :: quoteChars rest
  end.

Definition quoteJSONString (s : jsstring) : jsstring :=
  34 :: quoteChars s ++ [34].

(** Decimal digits of a positive integer, most significant first. *)
Fixpoint digitsAux (fuel : nat) (n : Z) (acc : jsstring) : jsstring :=
  match fuel with
  | O => acc
  | S fuel' =>
      if n <? 10 then (48 + n) :: acc
      else digitsAux fuel' (n / 10) ((48 + n mod 10) :: acc)
  end.

(** [Number::toString] on a non-negative integer below 10^21 (a byte
    length is one). *)
Definition numberToString (n : Z) : jsstring :=
  digitsAux (S (Z.to_nat (Z.log2 n))) n [].

(** [JSON.stringify(value)] without indentation. *)
Fixpoint stringify (v : json) : jsstring :=
  match v with
  | JNull => js "null"
  | JBool true => js "true"
  | JBool false => js "false"
  | JNumber lexeme => lexeme
  | JString s => quoteJSONString s
  | JArray vs =>
      91 :: (fix elements (vs : list json) : jsstring :=
               match vs with
               | [] => []
               | [v] => stringify v
               | v :: vs' => stringify v ++ 44 :: elements vs'
               end) vs ++ [93]
  | JObject ms =>
      123 :: (fix members (ms : list (jsstring * json)) : jsstring :=
                match ms with
                | [] => []
                | [(k, v)] => quoteJSONString k ++ 58 :: stringify v
                | (k, v) :: ms' =>
                    quoteJSONString k ++ 58 :: stringify v ++ 44 :: members ms'
                end) ms ++ [125]
  end.

(** Outcome of a parsing function: a value and the unread input, a
    [SyntaxError], or exhausted recursion fuel. *)
Inductive presult (A : Type) :=
| POk (a : A) (rest : jsstring)
| PErr
| PFuel.
Arguments POk {A} a rest.
Arguments PErr {A}.
Arguments PFuel {A}.

Definition isWs (c : Z) : bool := (c =? 32) || (c =? 9) || (c =? 10) || (c =? 13).

Fixpoint skipWs (s : jsstring) : jsstring :=
  match s with
  | c :: r => if isWs c then skipWs r else s
  | [] => []
  end.

Definition isDigit (c : Z) : bool := (48 <=? c) && (c <=? 57).

Definition hexVal (c : Z) : option Z :=
  if isDigit c then Some (c - 48)
  else if (97 <=? c) && (c <=? 102) then Some (c - 87)
  else if (65 <=? c) && (c <=? 70) then Some (c - 55)
  else None.

(** The characters of a string literal after its opening quote, up to and
    including the closing quote. *)
Fixpoint parseStringChars (s : jsstring) : option (jsstring * jsstring) :=
  match s with
  | [] => None
  | c :: r =>
      if c =? 34 then Some ([], r)
      else if c <? 32 then None
      else if c =? 92 then
        match r with
        | [] => None
        | e :: r1 =>
            let simple (u : Z) :=
              match parseStringChars r1 with
              | Some (t, r') => Some (u :: t, r')
              | None => None
              end in
            if e =? 34 then simple 34
            else if e =? 92 then simple 92
            else if e =? 47 then simple 47
            else if e =? 98 then simple 8
            else if e =? 102 then simple 12
            else if e =? 110 then simple 10
            else if e =? 114 then simple 13
            else if e =? 116 then simple 9
            else if e =? 117 then
              match r1 with
              | h1 :: h2 :: h3 :: h4 :: r2 =>
                  match hexVal h1, hexVal h2, hexVal h3, hexVal h4 with
                  | Some a, Some b, Some c', Some d =>
                      match parseStringChars r2 with
                      | Some (t, r') =>
                          Some ((a * 4096 + b * 256 + c' * 16 + d) :: t, r')
                      | None => None
                      end
                  | _, _, _, _ => None
                  end
              | _ => None
              end
            else None
        end
      else
        match parseStringChars r with
        | Some (t, r') => Some (c :: t, r')
        | None => None
        end
  end.

(** The longest prefix of digits, and what follows it. *)
Fixpoint spanDigits (s : jsstring) : jsstring * jsstring :=
  match s with
  | c :: r =>
      if isDigit c then let '(ds, r') := spanDigits r in (c :: ds, r')
      else ([], s)
  | [] => ([], [])
  end.

(** A JSON number: an optional minus, an integer part without a leading
    zero, an optional fraction and an optional exponent; each part gives
    its lexeme and the unread input. *)
Definition numberSign (s : jsstring) : jsstring * jsstring :=
  match s with
  | c :: r => if c =? 45 then ([45], r) else ([], s)
  | [] => ([], s)
  end.

Definition numberInt (s : jsstring) : option (jsstring * jsstring) :=
  match s with
  | [] => None
  | c :: r =>
      if negb (isDigit c) then None
      else if c =? 48 then Some ([c], r)
      else let '(ds, r') := spanDigits r in Some (c :: ds, r')
  end.

Definition numberFraction (s : jsstring) : option (jsstring * jsstring) :=
  match s with
  | p :: r =>
      if p =? 46 then
        let '(ds, r') := spanDigits r in
        match ds with [] => None | _ :: _ => Some (p :: ds, r') end
      else Some ([], s)
  | [] => Some ([], s)
  end.

Definition numberExponent (s : jsstring) : option (jsstring * jsstring) :=
  match s with
  | e :: r =>
      if (e =? 101) || (e =? 69) then
        let '(esign, r1) :=
          match r with
          | g :: r1 => if (g =? 43) || (g =? 45) then ([g], r1) else ([], r)
          | [] => ([], r)
          end in
        let '(ds, r2) := spanDigits r1 in
        match ds with [] => None | _ :: _ => Some (e :: esign ++ ds, r2) end
      else Some ([], s)
  | [] => Some ([], s)
  end.

Definition parseNumber (s : jsstring) : option (jsstring * jsstring) :=
  let '(sign, s1) := numberSign s in
  match numberInt s1 with
  | None => None
  | Some (int, s2) =>
      match numberFraction s2 with
      | None => None
      | Some (fr, s3) =>
          match numberExponent s3 with
          | None => None
          | Some (ex, r) => Some (sign ++ int ++ fr ++ ex, r)
          end
      end
  end.

(** [s] starts with the literal [lit]: the rest after it. *)
Fixpoint stripPrefix (lit s : jsstring) : option jsstring :=
  match lit, s with
  | [], _ => Some s
  | a :: lit', b :: s' => if a =? b then stripPrefix lit' s' else None
  | _ :: _, [] => None
  end.

(** Recursive descent over the JSON grammar. [parseElements] reads the
    elements of an array after the first check for [\]], [parseMembers] the
    members of an object; both accumulate in reverse. *)
Fixpoint parseValue (fuel : nat) (s : jsstring) {struct fuel} : presult json :=
  match fuel with
  | O => PFuel
  | S fuel' =>
      match skipWs s with
      | [] => PErr
      | c :: r =>
          if c =? 123 then
            match skipWs r with
            | c' :: r' =>
                if c' =? 125 then POk (JObject []) r'
                else parseMembers fuel' r []
            | [] => PErr
            end
          else if c =? 91 then
            match skipWs r with
            | c' :: r' =>
                if c' =? 93 then POk (JArray []) r'
                else parseElements fuel' r []
            | [] => PErr
            end
          else if c =? 34 then
            match parseStringChars r with
            | Some (t, r') => POk (JString t) r'
            | None => PErr
            end
          else if c =? 116 then
            match stripPrefix (js "true") (c :: r) with
            | Some r' => POk (JBool true) r'
            | None => PErr
            end
          else if c =? 102 then
            match stripPrefix (js "false") (c :: r) with
            | Some r' => POk (JBool false) r'
            | None => PErr
            end
          else if c =? 110 then
            match stripPrefix (js "null") (c :: r) with
            | Some r' => POk JNull r'
            | None => PErr
            end
          else
            match parseNumber (c :: r) with
            | Some (lexeme, r') => POk (JNumber lexeme) r'
            | None => PErr
            end
      end
  end
with parseElements (fuel : nat) (s : jsstring) (acc : list json) {struct fuel}
  : presult json :=
  match fuel with
  | O => PFuel
  | S fuel' =>
      match parseValue fuel' s with
      | POk v r =>
          match skipWs r with
          | c :: r' =>
              if c =? 44 then parseElements fuel' r' (v :: acc)
              else if c =? 93 then POk (JArray (rev (v :: acc))) r'
              else PErr
          | [] => PErr
          end
      | PErr => PErr
      | PFuel => PFuel
      end
  end
with parseMembers (fuel : nat) (s : jsstring) (acc : list (jsstring * json))
  {struct fuel} : presult json :=
  match fuel with
  | O => PFuel
  | S fuel' =>
      match skipWs s with
      | q :: r =>
          if q =? 34 then
            match parseStringChars r with
            | Some (k, r1) =>
                match skipWs r1 with
                | c :: r2 =>
                    if c =? 58 then
                      match parseValue fuel' r2 with
                      | POk v r3 =>
                          match skipWs r3 with
                          | c' :: r4 =>
                              if c' =? 44 then parseMembers fuel' r4 ((k, v) :: acc)
                              else if c' =? 125
                              then POk (JObject (rev ((k, v) :: acc))) r4
                              else PErr
                          | [] => PErr
                          end
                      | PErr => PErr
                      | PFuel => PFuel
                      end
                    else PErr
                | [] => PErr
                end
            | None => PErr
            end
          else PErr
      | [] => PErr
      end
  end.

(** Fuel that the descent cannot exhaust on [s] (see [parseValue_fuel]). *)
Definition parseFuel (s : jsstring) : nat := (2 * length s + 2)%nat.

(** [JSON.parse(text)]: [None] is the [SyntaxError]. *)
Definition JSON_parse (text : jsstring) : option json :=
  match parseValue (parseFuel text) text with
  | POk v rest => match skipWs rest with [] => Some v | _ :: _ => None end
  | PErr => None
  | PFuel => None
  end.


(** Property access [value.key] for a key that no prototype defines: a
    [TypeError] on [null] (outer [None]), the own property of an object
    (the last one when the text repeats a key), [undefined] (inner [None])
    otherwise. *)
Definition getProperty (v : json) (key : jsstring) : option (option json) :=
  match v with
  | JNull => None
  | JObject ms =>
      Some (snd <$> head (filter (fun m => bool_decide (m.1 = key)) (rev ms)))
  | _ => Some None
  end.

(** The digits of the mantissa of a number lexeme are all zero. *)
Fixpoint isZeroLexeme (l : jsstring) : bool :=
  match l with
  | [] => true
  | c :: r =>
      if (c =? 101) || (c =? 69) then true
      else if isDigit c && negb (c =? 48) then false
      else isZeroLexeme r
  end.

(** [ToBoolean] of a property value ([None] is [undefined]). *)
Definition toBoolean (v : option json) : bool :=
  match v with
  | None => false
  | Some JNull => false
  | Some (JBool b) => b
  | Some (JNumber l) => negb (isZeroLexeme l)
  | Some (JString s) => negb (bool_decide (s = []))
  | Some (JArray _) => true
  | Some (JObject _) => true
  end.

(** [Array.isArray]. *)
Definition isArray (v : option json) : bool :=
  match v with
  | Some (JArray _) => true
  | _ => false
  end.

(** ** Objects used as maps, and sorting *)

(** The object [files]: its own properties in creation order, one per key. *)
Definition JSObject := list (jsstring * list byte).

Fixpoint indexValue (k : jsstring) (acc : Z) : Z :=
  match k with
  | [] => acc
  | c :: r => indexValue r (acc * 10 + (c - 48))
  end.

(** An array index: the canonical decimal form of an integer below 2^32 - 1. *)
Definition isArrayIndex (k : jsstring) : bool :=
  match k with
  | [] => false
  | c :: r =>
      forallb isDigit k && ((negb (c =? 48)) || bool_decide (r = []))
      && (length k <=? 10)%nat && (indexValue k 0 <? 2 ^ 32 - 1)
  end.

(** Insertion into a list sorted by [lt], after the elements that are not
    greater (so that the sort below is stable). *)
Fixpoint insertSorted {A} (lt : A -> A -> bool) (x : A) (l : list A) : list A :=
  match l with
  | [] => [x]
  | y :: l' => if lt x y then x :: l else y :: insertSorted lt x l'
  end.

Definition sortBy {A} (lt : A -> A -> bool) (l : list A) : list A :=
  fold_left (fun sorted x => insertSorted lt x sorted) l [].

(** [a < b] on strings: lexicographic on UTF-16 code units. *)
Fixpoint stringLt (a b : jsstring) : bool :=
  match a, b with
  | _, [] => false
  | [], _ :: _ => true
  | x :: a', y :: b' => (x <? y) || ((x =? y) && stringLt a' b')
  end.

(** [array.sort()] on an array of strings. *)
Definition sortStrings (l : list jsstring) : list jsstring := sortBy stringLt l.

(** [Object.keys(o)]: array indices in ascending numeric order, then the
    other keys in creation order. *)
Definition objectKeys {V} (o : list (jsstring * V)) : list jsstring :=
  let keys := map fst o in
  sortBy (fun a b => indexValue a 0 <? indexValue b 0) (filter (fun k => Is_true (isArrayIndex k)) keys)
  ++ filter (fun k => ~ Is_true (isArrayIndex k)) keys.

(** [o[key]]. *)
Definition objectGet {V} (o : list (jsstring * V)) (key : jsstring) : option V :=
  snd <$> head (filter (fun p => bool_decide (p.1 = key)) o).

(** The own property [key] of [o] set to [v]: an existing property keeps
    its place, a new one comes last. *)
Fixpoint setOwnProperty {V} (o : list (jsstring * V)) (key : jsstring) (v : V)
  : list (jsstring * V) :=
  match o with
  | [] => [(key, v)]
  | (k, w) :: o' =>
      if bool_decide (k = key) then (k, v) :: o' else (k, w) :: setOwnProperty o' key v
  end.

(** [o[key] = v] on an object created by [{}], for a value that is an
    object (here a [Uint8Array]). For the key [__proto__] the assignment
    runs the setter inherited from [Object.prototype]: the value becomes
    the prototype of [o] and no own property is created. The prototype is
    not part of the model; the statements about the keys of such an object
    are made for directories without a file of that name. *)
Definition objectSet {V} (o : list (jsstring * V)) (key : jsstring) (v : V)
  : list (jsstring * V) :=
  if bool_decide (key = js "__proto__") then o else setOwnProperty o key v.

(** [Object.values(o)]. *)
Definition objectValues {V} (o : list (jsstring * V)) : list V :=
  omap (objectGet o) (objectKeys o).

(** ** The container codec: writing (compressDirectory, lines 159-217) *)

(** [files[path]] for a key that [Object.keys(files)] returned. *)
Definition fileContent (files : JSObject) (path : jsstring) : list byte :=
  default [] (objectGet files path).

(** The object [archive]: version, creation time and the list of
    (path, size) in the order of [Object.keys(files)]. *)
Definition archiveMetadata (created : jsstring) (files : JSObject) : json :=
  JObject
    [(js "version", JString (js "1.0"));
     (js "created", JString created);
     (js "files",
      JArray (map (fun path =>
                     JObject [(js "path", JString path);
                              (js "size", JNumber (numberToString (len (fileContent files path))))])
                  (objectKeys files)))].

Definition metadataBuffer (created : jsstring) (files : JSObject) : list byte :=
  textToUint8Array (stringify (archiveMetadata created files)).

(** What one iteration of the loop over [Object.keys(files).sort()] pushes
    on [contentBuffers]: the 8-byte header, the path and the content. *)
Definition entryBuffers (files : JSObject) (filePath : jsstring) : list (list byte) :=
  let pathBuffer := textToUint8Array filePath in
  let content := fileContent files filePath in
  let headerBuffer := newArrayBuffer 8 in
  let headerBuffer := setUint32 headerBuffer 0 (len pathBuffer) in
  let headerBuffer := setUint32 headerBuffer 4 (len content) in
  [headerBuffer; pathBuffer; content].

Definition contentBuffers (files : JSObject) : list (list byte) :=
  flat_map (entryBuffers files) (sortStrings (objectKeys files)).

(** [target.set(source, offset)] when the source fits. *)
Definition typedArraySet (target source : list byte) (offset : Z) : list byte :=
  take (Z.to_nat offset) target ++ source
  ++ drop (Z.to_nat offset + length source) target.

(** The container: all parts copied one after the other into a buffer of
    the total length (lines 211-217), once that buffer has been created. *)
Definition finalBuffer (created : jsstring) (files : JSObject) : list byte :=
  let metadataBuffer := metadataBuffer created files in
  let headerBuffer := setUint32 (newArrayBuffer 4) 0 (len metadataBuffer) in
  let allBuffers := headerBuffer :: metadataBuffer :: contentBuffers files in
  let totalLength := fold_left (fun sum b => sum + len b) allBuffers 0 in
  fst (fold_left
         (fun '(final, offset) b => (typedArraySet final b offset, offset + len b))
         allBuffers (newArrayBuffer (Z.to_nat totalLength), 0)).

(** [totalLength] (line 208): the length asked of [new Uint8Array] at
    line 211. *)
Definition totalLength (created : jsstring) (files : JSObject) : Z :=
  let metadataBuffer := metadataBuffer created files in
  let headerBuffer := setUint32 (newArrayBuffer 4) 0 (len metadataBuffer) in
  let allBuffers := headerBuffer :: metadataBuffer :: contentBuffers files in
  fold_left (fun sum b => sum + len b) allBuffers 0.

(** ** The container codec: reading (uncompressArchive, lines 271-311) *)

Definition inspect {A} (a : A) : {b | a = b} := exist _ a eq_refl.

(** How an invocation ends when it does not succeed: one of the messages
    followed by [process.exit(1)], or an exception caught by the handler. *)
Inductive exn :=
| StatError | MkdirError | ReadError | WriteError
| ZlibError | RangeError | SyntaxError | TypeError | OutOfMemory.

Inductive failure :=
| NotADirectory
| NotAFile
| NoFilesInDirectory
| InvalidArchiveFormat
| NoFilesInArchive
| Caught (e : exn).

(** Lines 271-289: the metadata length, the metadata, and the checks on
    its [files]. Gives the metadata length and [metadata.files]. *)
Definition readMetadata (decompressed : Buffer) : failure + (Z * list json) :=
  match newDataView (buffer decompressed) (byteOffset decompressed) 4 with
  | None => inl (Caught RangeError)
  | Some headerView =>
      let metadataLength := getUint32 headerView 0 in
      let metadataBuffer := subarray decompressed 4 (4 + metadataLength) in
      let metadataJson := uint8ArrayToText metadataBuffer in
      match JSON_parse metadataJson with
      | None => inl (Caught SyntaxError)
      | Some metadata =>
          match getProperty metadata (js "files") with
          | None => inl (Caught TypeError)
          | Some files =>
              if negb (toBoolean files) || negb (isArray files)
              then inl InvalidArchiveFormat
              else
                match files with
                | Some (JArray elements) =>
                    if len elements =? 0 then inl NoFilesInArchive
                    else inr (metadataLength, elements)
                | _ => inl InvalidArchiveFormat
                end
          end
      end
  end.

(** Lines 298-311: one entry at [offset]. [None] is the [RangeError] of the
    header view; the path and the content are whatever [subarray] leaves. *)
Definition readEntry (decompressed : Buffer) (offset : Z)
  : option (jsstring * list byte * Z) :=
  match newDataView (buffer decompressed) (byteOffset decompressed + offset) 8 with
  | None => None
  | Some fileHeaderView =>
      let pathLength := getUint32 fileHeaderView 0 in
      let contentLength := getUint32 fileHeaderView 4 in
      let offset := offset + 8 in
      let pathBuffer := subarray decompressed offset (offset + pathLength) in
      let path := uint8ArrayToText pathBuffer in
      let offset := offset + pathLength in
      let content := subarray decompressed offset (offset + contentLength) in
      let offset := offset + contentLength in
      Some (path, content, offset)
  end.

(** The decode operation of the codec: the entries met by the loop of lines
    297-327 from [offset] on, without the writes. [None] is the
    [RangeError] of a header view that does not fit. *)
Equations? decodeEntries (decompressed : Buffer) (offset : Z)
  : option (list (jsstring * list byte))
  by wf (Z.to_nat (length_ decompressed - offset)) lt :=
  decodeEntries decompressed offset with inspect (offset <? length_ decompressed) := {
    | exist _ false _ => Some []
    | exist _ true Hlt with inspect (readEntry decompressed offset) := {
        | exist _ None _ => None
        | exist _ (Some (path, content, offset')) Hentry
            with decodeEntries decompressed offset' := {
            | None => None
            | Some entries => Some ((path, content) :: entries) } } }.
Proof.
  apply Z.ltb_lt in Hlt. unfold readEntry in Hentry.
  destruct (newDataView _ _ _) as [v|]; [|discriminate].
  injection Hentry as _ _ <-.
  assert (Hpos : forall k, 0 <= getUint32 v k).
  { intros k. unfold getUint32. rewrite !Z.shiftl_mul_pow2 by lia.
    assert (Hb : forall b, 0 <= byteToZ b) by (intros b; unfold byteToZ; lia).
    repeat apply Z.add_nonneg_nonneg; try apply Z.mul_nonneg_nonneg;
      try apply Hb; lia. }
  pose proof (Hpos 0%nat). pose proof (Hpos 4%nat). lia.
Qed.

(** The whole decode operation on a decompressed container. *)
Definition decodeContainer (decompressed : Buffer)
  : failure + (list json * list (jsstring * list byte)) :=
  match readMetadata decompressed with
  | inl e => inl e
  | inr (metadataLength, files) =>
      match decodeEntries decompressed (4 + metadataLength) with
      | None => inl (Caught RangeError)
      | Some entries => inr (files, entries)
      end
  end.

(** ** Paths (the POSIX flavour of Node's [path] module) *)

(** [s.split(sep)]. *)
Fixpoint splitOn (sep : Z) (s : jsstring) : list jsstring :=
  match s with
  | [] => [[]]
  | c :: r =>
      if c =? sep then [] :: splitOn sep r
      else
        match splitOn sep r with
        | seg :: segs => (c :: seg) :: segs
        | [] => [[c]]
        end
  end.

(** [segments.join(sep)]. *)
Fixpoint joinWith (sep : Z) (segs : list jsstring) : jsstring :=
  match segs with
  | [] => []
  | [seg] => seg
  | seg :: segs' => seg ++ sep :: joinWith sep segs'
  end.

Definition dotdot : jsstring := [46; 46].

(** One segment of [normalizeString], on the reversed list of the segments
    kept so far: empty segments and [.] vanish, [..] removes the segment
    before it, or stays when there is none and the path is relative. *)
Definition normalizeStep (allowAboveRoot : bool) (res : list jsstring) (seg : jsstring)
  : list jsstring :=
  if bool_decide (seg = []) || bool_decide (seg = [46]) then res
  else if bool_decide (seg = dotdot) then
    match res with
    | last :: res' =>
        if bool_decide (last = dotdot)
        then (if allowAboveRoot then seg :: res else res)
        else res'
    | [] => if allowAboveRoot then [seg] else []
    end
  else seg :: res.

Definition normalizeSegments (allowAboveRoot : bool) (segs : list jsstring)
  : list jsstring :=
  rev (fold_left (normalizeStep allowAboveRoot) segs []).

Definition isAbsolute (path : jsstring) : bool :=
  match path with
  | c :: _ => c =? 47
  | [] => false
  end.

Definition hasTrailingSlash (path : jsstring) : bool :=
  match rev path with
  | c :: _ => c =? 47
  | [] => false
  end.

(** [path.normalize(path)]. *)
Definition normalize (path : jsstring) : jsstring :=
  match path with
  | [] => [46]
  | _ :: _ =>
      let p := joinWith 47 (normalizeSegments (negb (isAbsolute path)) (splitOn 47 path)) in
      match p with
      | [] =>
          if isAbsolute path then [47]
          else if hasTrailingSlash path then [46; 47] else [46]
      | _ :: _ =>
          let p := if hasTrailingSlash path then p ++ [47] else p in
          if isAbsolute path then 47 :: p else p
      end
  end.

(** [path.join(a, b)]. *)
Definition join (a b : jsstring) : jsstring :=
  match a, b with
  | [], [] => [46]
  | [], _ => normalize b
  | _, [] => normalize a
  | _, _ => normalize (a ++ 47 :: b)
  end.

Fixpoint dropWhile {A} (p : A -> bool) (l : list A) : list A :=
  match l with
  | x :: l' => if p x then dropWhile p l' else l
  | [] => []
  end.

(** [path.dirname(path)]: the path up to the last slash that is followed by
    a component, trailing slashes aside. *)
Definition dirname (path : jsstring) : jsstring :=
  match path with
  | [] => [46]
  | c0 :: tl =>
      let r := dropWhile (fun c => c =? 47) (rev tl) in
      let r := dropWhile (fun c => negb (c =? 47)) r in
      match r with
      | [] => if c0 =? 47 then [47] else [46]
      | _ :: r' =>
          if (c0 =? 47) && bool_decide (r' = []) then [47; 47] else c0 :: rev r'
      end
  end.

(** The scan of [path.basename(path, suffix)] from the last character to
    the first; [i] is the index of the head of [chars]. *)
Record basenameState := mkBasenameState {
  bStart : Z; bEnd : Z; matchedSlash : bool; extIdx : Z;
  firstNonSlashEnd : Z; stopped : bool
}.

Definition basenameStep (suffix : jsstring) (st : basenameState) (ic : Z * Z)
  : basenameState :=
  let '(i, code) := ic in
  if stopped st then st
  else if code =? 47 then
    if matchedSlash st then st
    else mkBasenameState (i + 1) (bEnd st) false (extIdx st) (firstNonSlashEnd st) true
  else
    let st1 :=
      if firstNonSlashEnd st =? -1
      then mkBasenameState (bStart st) (bEnd st) false (extIdx st) (i + 1) false
      else st in
    if 0 <=? extIdx st1 then
      if code =? nth (Z.to_nat (extIdx st1)) suffix 0 then
        mkBasenameState (bStart st1)
          (if extIdx st1 - 1 =? -1 then i else bEnd st1)
          (matchedSlash st1) (extIdx st1 - 1) (firstNonSlashEnd st1) false
      else
        mkBasenameState (bStart st1) (firstNonSlashEnd st1) (matchedSlash st1) (-1)
          (firstNonSlashEnd st1) false
    else st1.

Definition indexed (s : jsstring) : list (Z * Z) :=
  zip (map Z.of_nat (seq 0 (length s))) s.

Definition slice (s : jsstring) (start end_ : Z) : jsstring :=
  take (Z.to_nat (end_ - start)) (drop (Z.to_nat start) s).

(** [path.basename(path, suffix)] for a non-empty suffix. *)
Definition basenameExt (path suffix : jsstring) : jsstring :=
  if (len suffix <=? len path) then
    if bool_decide (suffix = path) then []
    else
      let st := fold_left (basenameStep suffix) (rev (indexed path))
                  (mkBasenameState 0 (-1) true (len suffix - 1) (-1) false) in
      let e := if bStart st =? bEnd st then firstNonSlashEnd st
               else if bEnd st =? -1 then len path else bEnd st in
      slice path (bStart st) e
  else
    let st := fold_left (basenameStep []) (rev (indexed path))
                (mkBasenameState 0 (-1) true (-1) (-1) false) in
    if firstNonSlashEnd st =? -1 then [] else slice path (bStart st) (firstNonSlashEnd st).

(** [path.basename(path)]. *)
Definition basename (path : jsstring) : jsstring :=
  let st := fold_left (basenameStep []) (rev (indexed path))
              (mkBasenameState 0 (-1) true (-1) (-1) false) in
  if firstNonSlashEnd st =? -1 then [] else slice path (bStart st) (firstNonSlashEnd st).

Definition DEFAULT_EXTENSION : jsstring := js ".bunz".

(** ** The file system *)

Inductive node :=
| File (content : list byte)
| Directory.

(** A file system: the nodes below the root, by their absolute path as a
    list of components. *)
Abbreviation FS := (gmap (list jsstring) node).

(** A number that [parseInt] returns, [NaN] apart: an integer that a
    double holds, or an infinity. *)
Inductive number :=
| Finite (value : Z)
| Infinity (negative : bool).

(** The Number value of an integer: the integer itself below 2^53 in
    magnitude; beyond, the nearest integer with 53 significant bits, the
    even one of two, and an infinity from 2^1024 on. *)
Definition roundToDouble (n : Z) : number :=
  let a := Z.abs n in
  if a <? 2 ^ 53 then Finite n
  else
    let shift := Z.log2 a - 52 in
    let q := a / 2 ^ shift in
    let r := a mod 2 ^ shift in
    let half := 2 ^ (shift - 1) in
    let q := if (half <? r) || ((r =? half) && Z.odd q) then q + 1 else q in
    let v := q * 2 ^ shift in
    if 2 ^ 1024 <=? v then Infinity (n <? 0) else Finite (Z.sgn n * v).

Definition isStrWhiteSpace (c : Z) : bool :=
  ((9 <=? c) && (c <=? 13)) || (c =? 32) || (c =? 0xA0) || (c =? 0x1680)
  || ((0x2000 <=? c) && (c <=? 0x200A)) || (c =? 0x2028) || (c =? 0x2029)
  || (c =? 0x202F) || (c =? 0x205F) || (c =? 0x3000) || (c =? 0xFEFF).

Definition digitValue (c : Z) : option Z :=
  if isDigit c then Some (c - 48)
  else if (97 <=? c) && (c <=? 122) then Some (c - 87)
  else if (65 <=? c) && (c <=? 90) then Some (c - 55)
  else None.

(** The value of the longest prefix of digits of the radix; [None] when
    there is no digit. *)
Fixpoint parseDigits (radix : Z) (s : jsstring) (acc : option Z) : option Z :=
  match s with
  | [] => acc
  | c :: r =>
      match digitValue c with
      | Some d =>
          if d <? radix then parseDigits radix r (Some (default 0 acc * radix + d))
          else acc
      | None => acc
      end
  end.

(** [parseInt(s)] without a radix: [None] is [NaN]. *)
Definition parseInt (s : jsstring) : option number :=
  let s := dropWhile isStrWhiteSpace s in
  let '(sign, s) :=
    match s with
    | c :: r => if c =? 45 then (-1, r) else if c =? 43 then (1, r) else (1, s)
    | [] => (1, s)
    end in
  let '(radix, s) :=
    match s with
    | z :: x :: r =>
        if (z =? 48) && ((x =? 120) || (x =? 88)) then (16, r) else (10, s)
    | _ => (10, s)
    end in
  match parseDigits radix s None with
  | Some n => Some (roundToDouble (sign * n))
  | None => None
  end.

(** [s.startsWith(prefix)]. *)
Definition startsWith (s prefix : jsstring) : bool :=
  bool_decide (take (length prefix) s = prefix).

(** The summaries printed on success. *)
Record CompressStats := mkCompressStats {
  cFileCount : Z; originalSize : Z; compressedSize : Z
}.

Record ExtractStats := mkExtractStats {
  fileCount : Z;
  totalExtractedSize : Z
}.

(** [x.toFixed(2)] for the quotient [x] of a non-negative integer [num]
    by a power of two [den]: such a quotient is exact in a double when
    [num] is below 2^53, and [toFixed] takes the integer [n] for which
    [n / 100] is nearest to [x], the larger one of two, and prints it with
    its last two digits after the point, zeros added in front when it has
    fewer than three. *)
Definition toFixed2 (num den : Z) : jsstring :=
  let n := (200 * num + den) / (2 * den) in
  let m := numberToString n in
  let m := if (length m <=? 2)%nat then replicate (3 - length m) 48 ++ m else m in
  take (length m - 2) m ++ 46 :: drop (length m - 2) m.

(** [formatSize(bytes)] (lines 89-94), for a length or a sum of lengths. *)
Definition formatSize (bytes : Z) : jsstring :=
  if bytes <? 1024 then numberToString bytes ++ js " bytes"
  else if bytes <? 1024 * 1024 then toFixed2 bytes 1024 ++ js " KB"
  else if bytes <? 1024 * 1024 * 1024 then toFixed2 bytes (1024 * 1024) ++ js " MB"
  else toFixed2 bytes (1024 * 1024 * 1024) ++ js " GB".

(** How a run of the script ends: the usage text (exit 0), one of the
    three messages about the command line (exit 1), or the result of the
    command. *)
Inductive outcome :=
| Usage
| NoCommand
| NoInputPath
| UnknownCommand (command : jsstring)
| Packed (result : failure + CompressStats)
| Unpacked (result : failure + ExtractStats) (written : list (jsstring * list byte)).

(** The exit code of the process. *)
Definition exitCode (o : outcome) : Z :=
  match o with
  | Usage => 0
  | Packed (inr _) => 0
  | Unpacked (inr _) _ => 0
  | _ => 1
  end.

Section Archiver.

(** The working directory, the command line ([process.argv.slice(2)]), the
    clock reading [new Date().toISOString()], and zlib: [None] is an
    exception thrown by [gzipSync] or [gunzipSync]. *)
Variable cwd : list jsstring.
Variable args : list jsstring.
Variable now : jsstring.
Variable gzipSync : list byte -> number -> option (list byte).
Variable gunzipSync : list byte -> option Buffer.

(** The largest length for which the runtime creates a typed array:
    [new Uint8Array(n)] throws for a larger [n] (Bun: "Out of memory"). *)
Variable maxByteLength : Z.

Definition flags : list jsstring :=
  filter (fun arg => Is_true (startsWith arg (js "-"))) args.

Definition isVerbose : bool :=
  bool_decide (js "-v" ∈ flags) || bool_decide (js "--verbose" ∈ flags).

Definition compressionLevelArg : option jsstring :=
  head (filter (fun arg => Is_true (startsWith arg (js "--level=") || startsWith arg (js "-l=")))
               flags).

(** Lines 36-38: [parseInt(arg.split('=')[1]) || 9], or 9 without the
    option. [NaN] and 0 are the falsy numbers. *)
Definition level : number :=
  match compressionLevelArg with
  | Some arg =>
      match (match splitOn 61 arg !! 1%nat with
             | Some v => parseInt v
             | None => None
             end) with
      | Some (Finite 0) => Finite 9
      | Some n => n
      | None => Finite 9
      end
  | None => Finite 9
  end.

(** The absolute components of a path; [..] is resolved on the text, as
    [path.resolve] does, which is what the file system does as long as the
    names before a [..] are directories. *)
Definition resolve (path : jsstring) : list jsstring :=
  normalizeSegments false ((if isAbsolute path then [] else cwd) ++ splitOn 47 path).

(** The node at a path; the root is a directory, and a path that ends in a
    slash names nothing but a directory. *)
Definition lookupPath (fs : FS) (path : jsstring) : option node :=
  match resolve path with
  | [] => Some Directory
  | k =>
      match fs !! k with
      | Some (File c) => if hasTrailingSlash path then None else Some (File c)
      | r => r
      end
  end.

(** [existsSync(path)]. *)
Definition existsSync (fs : FS) (path : jsstring) : bool :=
  bool_decide (is_Some (lookupPath fs path)).

(** Creation of the missing directories along [segs] below [pre]; a file on
    the way is an error. *)
Fixpoint mkdirs (fs : FS) (pre segs : list jsstring) : option FS :=
  match segs with
  | [] => Some fs
  | seg :: rest =>
      let k := pre ++ [seg] in
      match fs !! k with
      | Some (File _) => None
      | Some Directory => mkdirs fs k rest
      | None => mkdirs (<[k := Directory]> fs) k rest
      end
  end.

(** [mkdirSync(path, { recursive: true })]; a path that holds a NUL
    character is refused before anything is done. *)
Definition mkdirSync (fs : FS) (path : jsstring) : option FS :=
  if bool_decide (0 ∈ path) then None else mkdirs fs [] (resolve path).

(** [ensureDirectoryExists(dirPath)] (lines 100-104). *)
Definition ensureDirectoryExists (fs : FS) (dirPath : jsstring) : option FS :=
  if negb (existsSync fs dirPath) then mkdirSync fs dirPath else Some fs.

(** The parent of a node is a directory. *)
Definition parentIsDirectory (fs : FS) (k : list jsstring) : bool :=
  match removelast k with
  | [] => true
  | parent =>
      match fs !! parent with
      | Some Directory => true
      | _ => false
      end
  end.

(** [writeFileSync(path, data)]: creates or replaces a regular file in an
    existing directory; a path that holds a NUL character is refused. *)
Definition writeFileSync (fs : FS) (path : jsstring) (data : list byte) : option FS :=
  let k := resolve path in
  match k with
  | [] => None
  | _ :: _ =>
      if bool_decide (0 ∈ path) || hasTrailingSlash path || negb (parentIsDirectory fs k)
      then None
      else
        match fs !! k with
        | Some Directory => None
        | _ => Some (<[k := File data]> fs)
        end
  end.

(** [readFileSync(path)]. *)
Definition readFileSync (fs : FS) (path : jsstring) : option (list byte) :=
  match lookupPath fs path with
  | Some (File c) => Some c
  | _ => None
  end.

(** [readdir(dir, { withFileTypes: true })]: the names in the directory and
    whether each is a directory. *)
Definition readdir (fs : FS) (dir : jsstring) : list (jsstring * bool) :=
  omap (fun '(k, n) =>
          match last k with
          | Some name =>
              if bool_decide (removelast k = resolve dir)
              then Some (name, match n with Directory => true | File _ => false end)
              else None
          | None => None
          end)
       (map_to_list fs).

(** [readFilesRecursively(dir, baseDir)] (lines 64-82); [depth] bounds the
    nesting of directories. *)
Fixpoint readFilesRecursively (depth : nat) (fs : FS) (dir baseDir : jsstring)
  : JSObject :=
  match depth with
  | O => []
  | S depth' =>
      fold_left
        (fun (files : JSObject) '(name, isDir) =>
           let fullPath := join dir name in
           let relativePath := drop (length baseDir + 1) fullPath in
           if (isDir : bool) then
             let subDirFiles := readFilesRecursively depth' fs fullPath baseDir in
             fold_left (fun files key => objectSet files key (fileContent subDirFiles key))
                       (objectKeys subDirFiles) files
           else
             objectSet files relativePath (default [] (readFileSync fs fullPath)))
        (readdir fs dir) []
  end.

(** [compressDirectory(directoryPath, outputFile)] (lines 129-240). *)
Definition compressDirectory (fs : FS) (directoryPath : jsstring)
  (outputFile : option jsstring) : (failure + CompressStats) * FS :=
  match lookupPath fs directoryPath with
  | None => (inl (Caught StatError), fs)
  | Some (File _) => (inl NotADirectory, fs)
  | Some Directory =>
      let outputFile :=
        match outputFile with
        | Some (c :: f) => c :: f
        | _ => basename directoryPath ++ DEFAULT_EXTENSION
        end in
      let files := readFilesRecursively (S (size fs)) fs directoryPath directoryPath in
      let fileCount := len (objectKeys files) in
      if fileCount =? 0 then (inl NoFilesInDirectory, fs)
      else
        let metadataBuffer := metadataBuffer now files in
        let totalContentSize :=
          fold_left (fun sum content => sum + len content) (objectValues files) 0 in
        let totalLength := totalLength now files in
        if maxByteLength <? totalLength then (inl (Caught OutOfMemory), fs)
        else
          let finalBuffer := finalBuffer now files in
          match gzipSync finalBuffer level with
          | None => (inl (Caught ZlibError), fs)
          | Some compressed =>
              match writeFileSync fs outputFile compressed with
              | None => (inl (Caught WriteError), fs)
              | Some fs' =>
                  (inr (mkCompressStats fileCount (totalContentSize + len metadataBuffer)
                          (len compressed)), fs')
              end
          end
  end.

(** The extraction loop (lines 297-327): entries are read at [offset] and
    written one by one. Besides the running total, the loop carries the
    list [extracted] of the entries it has written so far, each at
    [join outputDir path]. *)
Equations? extractLoop (outputDir : jsstring) (decompressed : Buffer) (offset : Z)
  (totalExtractedSize : Z) (extracted : list (jsstring * list byte)) (fs : FS)
  : (failure + Z) * list (jsstring * list byte) * FS
  by wf (Z.to_nat (length_ decompressed - offset)) lt :=
  extractLoop outputDir decompressed offset totalExtractedSize extracted fs
    with inspect (offset <? length_ decompressed) := {
    | exist _ false _ => (inr totalExtractedSize, extracted, fs)
    | exist _ true Hlt with inspect (readEntry decompressed offset) := {
        | exist _ None _ => (inl (Caught RangeError), extracted, fs)
        | exist _ (Some (path, content, offset')) Hentry
            with ensureDirectoryExists fs (dirname (join outputDir path)) := {
            | None => (inl (Caught MkdirError), extracted, fs)
            | Some fs1 with writeFileSync fs1 (join outputDir path) content := {
                | None => (inl (Caught WriteError), extracted, fs1)
                | Some fs2 =>
                    extractLoop outputDir decompressed offset'
                      (totalExtractedSize + len content)
                      (extracted ++ [(path, content)]) fs2 } } } }.
Proof.
  apply Z.ltb_lt in Hlt. unfold readEntry in Hentry.
  destruct (newDataView _ _ _) as [v|]; [|discriminate].
  injection Hentry as _ _ <-.
  assert (Hpos : forall k, 0 <= getUint32 v k).
  { intros k. unfold getUint32. rewrite !Z.shiftl_mul_pow2 by lia.
    assert (Hb : forall b, 0 <= byteToZ b) by (intros b; unfold byteToZ; lia).
    repeat apply Z.add_nonneg_nonneg; try apply Z.mul_nonneg_nonneg;
      try apply Hb; lia. }
  pose proof (Hpos 0%nat). pose proof (Hpos 4%nat). lia.
Qed.

(** Lines 271-330: from the decompressed container to the files. *)
Definition extractContainer (fs : FS) (outputDir : jsstring) (decompressed : Buffer)
  : (failure + ExtractStats) * list (jsstring * list byte) * FS :=
  match readMetadata decompressed with
  | inl e => (inl e, [], fs)
  | inr (metadataLength, files) =>
      let fileCount := len files in
      match extractLoop outputDir decompressed (4 + metadataLength) 0 [] fs with
      | (inl e, extracted, fs') => (inl e, extracted, fs')
      | (inr totalExtractedSize, extracted, fs') =>
          (inr (mkExtractStats fileCount totalExtractedSize), extracted, fs')
      end
  end.

(** The output directory when none is given (lines 257-260). *)
Definition defaultOutputDir (archivePath : jsstring) : jsstring :=
  join (dirname archivePath) (basenameExt archivePath DEFAULT_EXTENSION).

(** Lines 257-260: the output directory that was given, if any. *)
Definition outputDirOrDefault (archivePath : jsstring) (outputDir : option jsstring)
  : jsstring :=
  match outputDir with
  | Some (c :: d) => c :: d
  | _ => defaultOutputDir archivePath
  end.

(** [uncompressArchive(archivePath, outputDir)] (lines 247-335). *)
Definition uncompressArchive (fs : FS) (archivePath : jsstring)
  (outputDir : option jsstring)
  : (failure + ExtractStats) * list (jsstring * list byte) * FS :=
  match lookupPath fs archivePath with
  | None => (inl (Caught StatError), [], fs)
  | Some Directory => (inl NotAFile, [], fs)
  | Some (File _) =>
      let outputDir := outputDirOrDefault archivePath outputDir in
      match ensureDirectoryExists fs outputDir with
      | None => (inl (Caught MkdirError), [], fs)
      | Some fs1 =>
          match readFileSync fs1 archivePath with
          | None => (inl (Caught ReadError), [], fs1)
          | Some archiveData =>
              match gunzipSync archiveData with
              | None => (inl (Caught ZlibError), [], fs1)
              | Some decompressed => extractContainer fs1 outputDir decompressed
              end
          end
      end
  end.

(** Line 14: the arguments that are not options. *)
Definition positionalArgs : list jsstring :=
  filter (fun arg => ~ Is_true (startsWith arg (js "-"))) args.

(** The script as a whole (lines 12-56 and 337-345): the help check, the
    checks of the command and of the input path (a missing argument and an
    empty one are both falsy), then the command. *)
Definition main (fs : FS) : outcome * FS :=
  if bool_decide (js "-h" ∈ flags) || bool_decide (js "--help" ∈ flags)
     || (len args =? 0)
  then (Usage, fs)
  else
    match positionalArgs !! 0%nat with
    | None | Some [] => (NoCommand, fs)
    | Some command =>
        match positionalArgs !! 1%nat with
        | None | Some [] => (NoInputPath, fs)
        | Some inputPath =>
            let outputPath := positionalArgs !! 2%nat in
            if bool_decide (command = js "compress") then
              let '(result, fs') := compressDirectory fs inputPath outputPath in
              (Packed result, fs')
            else if bool_decide (command = js "uncompress") then
              let '(result, written, fs') := uncompressArchive fs inputPath outputPath in
              (Unpacked result written, fs')
            else (UnknownCommand command, fs)
        end
    end.

End Archiver.

(** * Definitions used in the statements *)

(** One entry of the physical stream, and a container, as byte layouts. *)
Definition entryBytes (pathBuffer content : list byte) : list byte :=
  uint32LE (len pathBuffer) ++ uint32LE (len content) ++ pathBuffer ++ content.

Definition container (metadata stream : list byte) : list byte :=
  uint32LE (len metadata) ++ metadata ++ stream.

Definition entryStream (files : JSObject) : list byte :=
  flat_map (fun path => entryBytes (textToUint8Array path) (fileContent files path))
           (sortStrings (objectKeys files)).

(** A string without lone surrogates, all of whose code units are 16-bit. *)
Fixpoint wellFormed (s : jsstring) : bool :=
  match s with
  | [] => true
  | u :: rest =>
      (0 <=? u) && (u <? 65536) &&
      (if isHighSurrogate u then
         match rest with
         | v :: rest' => isLowSurrogate v && wellFormed rest'
         | [] => false
         end
       else negb (isLowSurrogate u) && wellFormed rest)
  end.

Definition isScalar (c : Z) : Prop :=
  0 <= c < 0xD800 \/ 0xE000 <= c < 0x110000.

(** Decide the integer comparisons of the goal from the context. *)
Ltac ztests :=
  repeat match goal with
  | |- context [?a <=? ?b] =>
      first [ replace (a <=? b) with true by (symmetry; apply Z.leb_le; lia)
            | replace (a <=? b) with false by (symmetry; apply Z.leb_gt; lia) ]
  | |- context [?a <? ?b] =>
      first [ replace (a <? b) with true by (symmetry; apply Z.ltb_lt; lia)
            | replace (a <? b) with false by (symmetry; apply Z.ltb_ge; lia) ]
  | |- context [?a =? ?b] =>
      first [ replace (a =? b) with true by (symmetry; apply Z.eqb_eq; lia)
            | replace (a =? b) with false by (symmetry; apply Z.eqb_neq; lia) ]
  end; cbn [andb orb negb].

(** One step of [parseStringChars]: the closing quote ([None]) or one
    character, escaped or not. *)
Definition stringStep (s : jsstring) : option (option Z * jsstring) :=
  match s with
  | [] => None
  | c :: r =>
      if c =? 34 then Some (None, r)
      else if c <? 32 then None
      else if c =? 92 then
        match r with
        | [] => None
        | e :: r1 =>
            if e =? 34 then Some (Some 34, r1)
            else if e =? 92 then Some (Some 92, r1)
            else if e =? 47 then Some (Some 47, r1)
            else if e =? 98 then Some (Some 8, r1)
            else if e =? 102 then Some (Some 12, r1)
            else if e =? 110 then Some (Some 10, r1)
            else if e =? 114 then Some (Some 13, r1)
            else if e =? 116 then Some (Some 9, r1)
            else if e =? 117 then
              match r1 with
              | h1 :: h2 :: h3 :: h4 :: r2 =>
                  match hexVal h1, hexVal h2, hexVal h3, hexVal h4 with
                  | Some a, Some b, Some c', Some d =>
                      Some (Some (a * 4096 + b * 256 + c' * 16 + d), r2)
                  | _, _, _, _ => None
                  end
              | _ => None
              end
            else None
        end
      else Some (Some c, r)
  end.

(** A character that can end a JSON value. *)
Definition closer (c : Z) : Prop := 34 <= c <= 125.

(** [r] is what is left of [s] after a non-empty prefix ending in a closer. *)
Definition consumed (s r : jsstring) : Prop :=
  exists pre c, s = pre ++ c :: r /\ closer c.

Definition isNumber (v : json) : bool :=
  match v with JNumber _ => true | _ => false end.

(** What one character, or one surrogate pair, is quoted to. *)
Inductive quoted : jsstring -> jsstring -> Prop :=
| quoted_nil : quoted [] []
| quoted_escape u s q e :
    isCodeUnit u -> quoted s q ->
    (forall r, stringStep (e ++ r) = Some (Some u, r)) ->
    wellFormed e = true ->
    quoted (u :: s) (e ++ q)
| quoted_pair u v s q :
    isHighSurrogate u = true -> isLowSurrogate v = true -> quoted s q ->
    quoted (u :: v :: s) (u :: v :: q).

(** The entry of [archive.files] for one file. *)
Definition fileDescriptor (path : jsstring) (size : Z) : json :=
  JObject [(js "path", JString path); (js "size", JNumber (numberToString size))].

Fixpoint stringifyElements (vs : list json) : jsstring :=
  match vs with
  | [] => []
  | v :: vs' =>
      match vs' with
      | [] => stringify v
      | _ :: _ => stringify v ++ 44 :: stringifyElements vs'
      end
  end.

Definition descriptors (files : JSObject) : list (jsstring * Z) :=
  map (fun path => (path, len (fileContent files path))) (objectKeys files).

(** [a] is not after [b] in the order [lt]. *)
Definition notAfter {A : Type} (lt : A -> A -> bool) (a b : A) : Prop := lt b a = false.

(** What lines 278-289 make of the metadata text. *)
Definition checkMetadata (metadataLength : Z) (metadataJson : jsstring)
  : failure + (Z * list json) :=
  match JSON_parse metadataJson with
  | None => inl (Caught SyntaxError)
  | Some metadata =>
      match getProperty metadata (js "files") with
      | None => inl (Caught TypeError)
      | Some files =>
          if negb (toBoolean files) || negb (isArray files)
          then inl InvalidArchiveFormat
          else
            match files with
            | Some (JArray elements) =>
                if len elements =? 0 then inl NoFilesInArchive
                else inr (metadataLength, elements)
            | _ => inl InvalidArchiveFormat
            end
      end
  end.

(** The stack of segments after reading [segs] from the stack [st]. *)
Definition run (allow : bool) (segs st : list jsstring) : list jsstring :=
  fold_left (normalizeStep allow) segs st.

Definition proper (seg : jsstring) : Prop := seg <> [] /\ seg <> [46].

Definition noSlash (seg : jsstring) : Prop := 47 ∉ seg.

(** A cut container, as the decoder is led through it: whether the cut is
    strictly inside the 8-byte header of an entry ([k] counts from the
    start of the entry stream) ... *)
Fixpoint cutInHeader (es : list (list byte * list byte)) (k : Z) : bool :=
  match es with
  | [] => false
  | (p, c) :: es' =>
      if k <=? 0 then false
      else if k <? 8 then true
      else cutInHeader es' (k - len (entryBytes p c))
  end.

(** ... and the entries that remain otherwise, the last one with what is
    left of its path and content. *)
Fixpoint truncatedEntries (es : list (list byte * list byte)) (k : Z)
  : list (jsstring * list byte) :=
  match es with
  | [] => []
  | (p, c) :: es' =>
      if k <=? 0 then []
      else (uint8ArrayToText (take (Z.to_nat (k - 8)) p),
            take (Z.to_nat (k - 8 - len p)) c)
           :: truncatedEntries es' (k - len (entryBytes p c))
  end.

(** The entries of the physical stream of [files]: encoded path and content,
    in the sorted order of the keys. *)
Definition streamEntries (files : JSObject) : list (list byte * list byte) :=
  map (fun path => (textToUint8Array path, fileContent files path))
      (sortStrings (objectKeys files)).

(** The list [metadata.files] that [compressDirectory] writes. *)
Definition metadataList (files : JSObject) : list json :=
  map (fun d => fileDescriptor d.1 d.2) (descriptors files).

(** Every length field of the container of [files] fits in 32 bits. *)
Definition fitsUint32 (created : jsstring) (files : JSObject) : Prop :=
  len (metadataBuffer created files) < 2 ^ 32
  /\ Forall (fun f => len (textToUint8Array f.1) < 2 ^ 32 /\ len f.2 < 2 ^ 32) files.

(** A path that is well-formed text and does not begin with U+FEFF. *)
Definition plainPath (path : jsstring) : Prop :=
  wellFormed path = true /\ head path <> Some 0xFEFF.

(** The decimal text of an integer, as it is written on the command line. *)
Definition decimal (n : Z) : jsstring :=
  if n <? 0 then 45 :: numberToString (- n) else numberToString n.

Definition exampleCreated : jsstring := js "2024-01-01T00:00:00.000Z".

(** The files of the example of the specification. *)
Definition exampleFiles : JSObject :=
  [(js "a.txt", [Byte.x68; Byte.x69]); (js "sub/b.txt", [])].

(** A stand-in for zlib that stores the data as it is. *)
Definition storeGzip (data : list byte) (level : number) : option (list byte) := Some data.

(** A limit of the typed arrays: 2^32 bytes. *)
Definition exampleLimit : Z := 2 ^ 32.
Definition storeGunzip (data : list byte) : option Buffer := Some (ofBytes data).

(** A container with the given metadata text and entries. *)
Definition exampleContainer (metadataJson : jsstring)
  (entries : list (jsstring * list byte)) : list byte :=
  container (textToUint8Array metadataJson)
            (flat_map (fun e => entryBytes (textToUint8Array e.1) e.2) entries).

(** A working directory [/w] that holds the archive [a.bunz]. *)
Definition exampleFS (archive : list byte) : FS :=
  {[ [js "w"] := Directory; [js "w"; js "a.bunz"] := File archive ]}.

Definition unpackExample (archive : list byte) (outputDir : option jsstring) :=
  uncompressArchive [js "w"] storeGunzip (exampleFS archive) (js "a.bunz") outputDir.

(** The content of the regular file at [k], if there is one. *)
Definition fileAt (fs : FS) (k : list jsstring) : option (list byte) :=
  match fs !! k with
  | Some (File c) => Some c
  | _ => None
  end.

(** The content that the writes of [log], made in order below [outputDir],
    leave at [k]: that of the last entry written there. *)
Fixpoint lastWrite (cwd : list jsstring) (outputDir : jsstring)
  (log : list (jsstring * list byte)) (k : list jsstring) : option (list byte) :=
  match log with
  | [] => None
  | (path, content) :: rest =>
      match lastWrite cwd outputDir rest k with
      | Some c => Some c
      | None =>
          if bool_decide (resolve cwd (join outputDir path) = k) then Some content
          else None
      end
  end.

(** The sum of the content lengths of the entries. *)
Definition contentSize (entries : list (jsstring * list byte)) : Z :=
  foldr (fun e sum => len e.2 + sum) 0 entries.

(** The segments of a path that name something: not empty, not [.]. *)
Definition names (path : jsstring) : list jsstring :=
  filter (fun seg => seg <> [] /\ seg <> [46]) (splitOn 47 path).

(** The working directory [/w] with the directory [d] of the example of
    the specification: [d/a.txt] and [d/sub/b.txt]. *)
Definition exampleTree : FS :=
  {[ [js "w"] := Directory;
     [js "w"; js "d"] := Directory;
     [js "w"; js "d"; js "a.txt"] := File [Byte.x68; Byte.x69];
     [js "w"; js "d"; js "sub"] := Directory;
     [js "w"; js "d"; js "sub"; js "b.txt"] := File [] ]}.

(** The name of a directory entry: not empty, without a slash, and neither
    [.] nor [..]. *)
Definition segmentName (s : jsstring) : Prop := proper s /\ noSlash s /\ s <> dotdot.

(** A path that [path.normalize] leaves as it is, that does not end in a
    slash, and that is not [.]. *)
Definition normalPath (p : jsstring) : Prop :=
  normalize p = p /\ hasTrailingSlash p = false /\ p <> [46].

(** A file system in which the names are names of directory entries and
    every node lies in directories. *)
Definition wellFormedTree (fs : FS) : Prop :=
  forall k n, fs !! k = Some n ->
    Forall segmentName k
    /\ forall pre, pre <> [] -> pre `prefix_of` k -> pre <> k -> fs !! pre = Some Directory.

(** [given] is another way to write the normal path [dir]: the same
    segments after normalisation, absolute or relative alike. *)
Definition sameDirectory (given dir : jsstring) : Prop :=
  given <> [] /\ isAbsolute given = isAbsolute dir
  /\ forall allow, normalizeSegments allow (splitOn 47 given)
                   = normalizeSegments allow (splitOn 47 dir).

(** The path of the directory reached from [dir] through the entries
    [pre]. *)
Definition below (dir : jsstring) (pre : list jsstring) : jsstring :=
  fold_left (fun p s => p ++ 47 :: s) pre dir.

(** What the loop of [readFilesRecursively] (lines 68-79) does with one
    entry; [subDir] stands for the recursive call. *)
Definition walkEntry (cwd : list jsstring) (subDir : jsstring -> JSObject) (fs : FS)
  (dir baseDir : jsstring) (files : JSObject) (entry : jsstring * bool) : JSObject :=
  let '(name, isDir) := entry in
  let fullPath := join dir name in
  let relativePath := drop (length baseDir + 1) fullPath in
  if (isDir : bool) then
    let subDirFiles := subDir fullPath in
    fold_left (fun files key => objectSet files key (fileContent subDirFiles key))
              (objectKeys subDirFiles) files
  else
    objectSet files relativePath (default [] (readFileSync cwd fs fullPath)).

(** The content that one entry gives to the path [path], if any; the
    assignment to [__proto__] gives none. *)
Definition contribution (cwd : list jsstring) (subDir : jsstring -> JSObject) (fs : FS)
  (dir baseDir : jsstring) (entry : jsstring * bool) (path : jsstring)
  : option (list byte) :=
  let '(name, isDir) := entry in
  if (isDir : bool) then objectGet (subDir (join dir name)) path
  else if bool_decide (drop (length baseDir + 1) (join dir name) = path)
          && negb (bool_decide (path = js "__proto__"))
       then Some (default [] (readFileSync cwd fs (join dir name)))
       else None.

(** The relative path that the walker gives to the file reached from the
    directory [dir] through [segs], when the base directory was given as
    [baseDir] (line 70). *)
Definition relativeTo (baseDir dir : jsstring) (segs : list jsstring) : jsstring :=
  drop (length baseDir + 1) (below dir segs).

(** A regular file with content [c], at most [n] levels below the
    directory reached from [dir] through [pre], to which the walker gives
    the relative path [path]. *)
Definition foundBelow (cwd : list jsstring) (fs : FS) (dir baseDir : jsstring) (n : nat)
  (pre : list jsstring) (path : jsstring) (c : list byte) : Prop :=
  exists segs, segs <> [] /\ (length segs <= n)%nat
               /\ path = relativeTo baseDir dir (pre ++ segs)
               /\ fs !! (resolve cwd dir ++ pre ++ segs) = Some (File c).

(** No two regular files below [dir] get the same relative path. *)
Definition distinctPaths (cwd : list jsstring) (fs : FS) (dir baseDir : jsstring) : Prop :=
  forall segs segs' c c',
    fs !! (resolve cwd dir ++ segs) = Some (File c) ->
    fs !! (resolve cwd dir ++ segs') = Some (File c') ->
    relativeTo baseDir dir segs = relativeTo baseDir dir segs' -> segs = segs'.

(** A directory [e] that holds nothing but an empty directory. *)
Definition emptyTree : FS :=
  {[ [js "w"] := Directory;
     [js "w"; js "e"] := Directory;
     [js "w"; js "e"; js "sub"] := Directory ]}.

(** The archive file that [compressDirectory] writes (line 139). *)
Definition outputFileOrDefault (directoryPath : jsstring) (outputFile : option jsstring)
  : jsstring :=
  match outputFile with
  | Some (c :: f) => c :: f
  | _ => basename directoryPath ++ DEFAULT_EXTENSION
  end.

(** The scan of [path.basename] over [s], from its last character. *)
Definition scan (suffix s : jsstring) (st : basenameState) : basenameState :=
  fold_left (basenameStep suffix) (rev (indexed s)) st.

(** The states of the scan of a last component: [looking k] before its
    last character, [searching k L] while the characters seen are the
    last ones of the suffix, [givenUp L] after one that is not. *)
Definition looking (k : Z) : basenameState := mkBasenameState 0 (-1) true k (-1) false.

Definition searching (k L : Z) : basenameState := mkBasenameState 0 (-1) false k L false.

Definition givenUp (L : Z) : basenameState := mkBasenameState 0 L false (-1) L false.

Ltac step_cases :=
  unfold basenameStep, looking, searching, givenUp; cbv zeta;
  repeat (cbn [stopped bStart bEnd matchedSlash extIdx firstNonSlashEnd] in *;
          match goal with
          | |- context [Z.eqb ?a ?b] => destruct (Z.eqb_spec a b)
          | |- context [Z.leb ?a ?b] => destruct (Z.leb_spec a b)
          end);
  cbn [stopped bStart bEnd matchedSlash extIdx firstNonSlashEnd] in *;
  try reflexivity; try congruence; try lia.

(** The places at which the entries of [log] were written below
    [outputDir], each once. *)
Definition placesWritten (cwd : list jsstring) (outputDir : jsstring)
  (log : list (jsstring * list byte)) : list (list jsstring) :=
  remove_dups (map (fun e => resolve cwd (join outputDir e.1)) log).

(** A stand-in for zlib that puts the level it is given in front of the
    data. *)
Definition recordGzip (data : list byte) (level : number) : option (list byte) :=
  Some (match level with
        | Finite value => byteOfZ value
        | Infinity _ => Byte.xff
        end :: data).

(** * Properties *)

(** * Bytes and length fields *)

Lemma byteToZ_range (b : byte) : 0 <= byteToZ b < 256.
Proof.
  unfold byteToZ. pose proof (Byte.to_N_bounded b). lia.
Qed.

Lemma byteToZ_byteOfZ (z : Z) : byteToZ (byteOfZ z) = z mod 256.
Proof.
  unfold byteToZ, byteOfZ.
  assert (Hr : 0 <= z mod 256 < 256) by (apply Z.mod_pos_bound; lia).
  destruct (Byte.of_N (Z.to_N (z mod 256))) as [b|] eqn:E.
  - apply Byte.to_of_N in E. simpl. rewrite E. lia.
  - apply Byte.of_N_None_iff in E. lia.
Qed.

Lemma byteOfZ_byteToZ (b : byte) : byteOfZ (byteToZ b) = b.
Proof.
  unfold byteOfZ, byteToZ. pose proof (Byte.to_N_bounded b).
  rewrite Z.mod_small by lia. rewrite N2Z.id, Byte.of_to_N. reflexivity.
Qed.

Lemma byteToZ_inj (a b : byte) : byteToZ a = byteToZ b -> a = b.
Proof.
  intros H. rewrite <- (byteOfZ_byteToZ a), <- (byteOfZ_byteToZ b), H. reflexivity.
Qed.

Lemma len_app {A} (l1 l2 : list A) : len (l1 ++ l2) = len l1 + len l2.
Proof. unfold len. rewrite length_app. lia. Qed.

Lemma len_nonneg {A} (l : list A) : 0 <= len l.
Proof. unfold len. lia. Qed.

Lemma len_cons {A} (x : A) (l : list A) : len (x :: l) = 1 + len l.
Proof. unfold len. simpl. lia. Qed.

Lemma uint32LE_bytes (n : Z) :
  uint32LE n =
  [byteOfZ (toUint32 n); byteOfZ (Z.shiftr (toUint32 n) 8);
   byteOfZ (Z.shiftr (toUint32 n) 16); byteOfZ (Z.shiftr (toUint32 n) 24)].
Proof. reflexivity. Qed.

Lemma len_uint32LE (n : Z) : len (uint32LE n) = 4.
Proof. reflexivity. Qed.

Lemma length_uint32LE (n : Z) : length (uint32LE n) = 4%nat.
Proof. reflexivity. Qed.

Lemma header_bytes (a b : Z) :
  setUint32 (setUint32 (newArrayBuffer 8) 0 a) 4 b = uint32LE a ++ uint32LE b.
Proof. reflexivity. Qed.

Lemma toUint32_range (n : Z) : 0 <= toUint32 n < 2 ^ 32.
Proof. unfold toUint32. apply Z.mod_pos_bound. lia. Qed.

Lemma getUint32_bytes (b0 b1 b2 b3 : byte) (rest : list byte) :
  getUint32 (b0 :: b1 :: b2 :: b3 :: rest) 0
  = byteToZ b0 + byteToZ b1 * 2 ^ 8 + byteToZ b2 * 2 ^ 16 + byteToZ b3 * 2 ^ 24.
Proof. unfold getUint32. simpl nth. rewrite !Z.shiftl_mul_pow2 by lia. reflexivity. Qed.

Lemma getUint32_uint32LE (n : Z) (rest : list byte) :
  getUint32 (uint32LE n ++ rest) 0 = toUint32 n.
Proof.
  rewrite uint32LE_bytes. simpl app. rewrite getUint32_bytes.
  rewrite !byteToZ_byteOfZ, !Z.shiftr_div_pow2 by lia.
  pose proof (toUint32_range n) as H. set (w := toUint32 n) in *.
  change (2 ^ 8) with 256. change (2 ^ 16) with 65536. change (2 ^ 24) with 16777216.
  change (2 ^ 32) with 4294967296 in H.
  Z.div_mod_to_equations. lia.
Qed.

Lemma getUint32_shift (pre view : list byte) (k : nat) :
  getUint32 (pre ++ view) (length pre + k) = getUint32 view k.
Proof.
  unfold getUint32.
  assert (E : forall i, nth (length pre + k + i)%nat (pre ++ view) Byte.x00
                        = nth (k + i)%nat view Byte.x00).
  { intros i. rewrite app_nth2 by lia. f_equal. lia. }
  rewrite !E. reflexivity.
Qed.

Lemma getUint32_header (a b : Z) (rest : list byte) :
  getUint32 (uint32LE a ++ uint32LE b ++ rest) 0 = toUint32 a
  /\ getUint32 (uint32LE a ++ uint32LE b ++ rest) 4 = toUint32 b.
Proof.
  split; [apply getUint32_uint32LE|].
  change 4%nat with (length (uint32LE a) + 0)%nat.
  rewrite getUint32_shift. apply getUint32_uint32LE.
Qed.

Lemma getUint32_nonneg (v : list byte) (k : nat) : 0 <= getUint32 v k.
Proof.
  unfold getUint32. rewrite !Z.shiftl_mul_pow2 by lia.
  pose proof (fun i => proj1 (byteToZ_range (nth (k + i) v Byte.x00))) as Hb.
  pose proof (Hb 0%nat); pose proof (Hb 1%nat); pose proof (Hb 2%nat); pose proof (Hb 3%nat).
  lia.
Qed.

(** The copy loop of [finalBuffer] concatenates its parts. *)
Lemma typedArraySet_fill (done part : list byte) (n : nat) :
  typedArraySet (done ++ newArrayBuffer (length part + n)) part (len done)
  = (done ++ part) ++ newArrayBuffer n.
Proof.
  unfold typedArraySet, len, newArrayBuffer. rewrite Nat2Z.id.
  rewrite take_app_length.
  rewrite drop_app_ge by lia.
  replace (length done + length part - length done)%nat with (length part) by lia.
  rewrite replicate_add, drop_app_length'; [|by rewrite length_replicate].
  by rewrite <- app_assoc.
Qed.

Lemma copy_loop (parts : list (list byte)) : forall (done : list byte),
  fst (fold_left
         (fun '(final, offset) b => (typedArraySet final b offset, offset + len b))
         parts (done ++ newArrayBuffer (length (concat parts)), len done))
  = done ++ concat parts.
Proof.
  induction parts as [|p parts IH]; intros done; simpl.
  - unfold newArrayBuffer. simpl. reflexivity.
  - rewrite length_app, typedArraySet_fill, <- len_app, IH.
    by rewrite <- app_assoc.
Qed.

Lemma total_length (parts : list (list byte)) : forall (acc : Z),
  fold_left (fun sum b => sum + len b) parts acc = acc + len (concat parts).
Proof.
  induction parts as [|p parts IH]; intros acc; simpl.
  - unfold len; simpl; lia.
  - rewrite IH, len_app. lia.
Qed.

Lemma concat_contentBuffers (files : JSObject) :
  concat (contentBuffers files) = entryStream files.
Proof.
  unfold contentBuffers, entryStream.
  induction (sortStrings (objectKeys files)) as [|k ks IH]; [reflexivity|].
  cbn [flat_map]. rewrite concat_app, IH. f_equal.
  unfold entryBuffers, entryBytes. rewrite header_bytes. cbn [concat].
  rewrite app_nil_r, <- !app_assoc. reflexivity.
Qed.

Lemma finalBuffer_layout (created : jsstring) (files : JSObject) :
  finalBuffer created files
  = container (metadataBuffer created files) (entryStream files).
Proof.
  unfold finalBuffer, container.
  set (parts := _ :: _ :: contentBuffers files).
  rewrite total_length, Z.add_0_l.
  replace (Z.to_nat (len (concat parts))) with (length (concat parts))
    by (unfold len; lia).
  change (newArrayBuffer (length (concat parts)), 0)
    with ([] ++ newArrayBuffer (length (concat parts)), len (@nil byte)).
  rewrite copy_loop. subst parts. simpl.
  rewrite concat_contentBuffers. reflexivity.
Qed.

(** * Reading a buffer that owns its storage *)

Lemma viewBytes_ofBytes (bs : list byte) : viewBytes (ofBytes bs) = bs.
Proof.
  unfold viewBytes, ofBytes, len. simpl. rewrite Nat2Z.id. apply firstn_all.
Qed.

Lemma newDataView_ofBytes (bs : list byte) (o n : Z) :
  0 <= o -> 0 <= n ->
  newDataView bs o n
  = if o + n <=? len bs then Some (take (Z.to_nat n) (drop (Z.to_nat o) bs)) else None.
Proof.
  intros Ho Hn. unfold newDataView.
  destruct (o + n <=? len bs) eqn:E.
  - apply Z.leb_le in E. replace (o <=? len bs) with true; [reflexivity|].
    symmetry. apply Z.leb_le. lia.
  - by rewrite andb_false_r.
Qed.

Lemma subarray_ofBytes (bs : list byte) (b e : Z) :
  0 <= b -> b <= e ->
  subarray (ofBytes bs) b e = take (Z.to_nat (e - b)) (drop (Z.to_nat b) bs).
Proof.
  intros Hb He. unfold subarray. rewrite viewBytes_ofBytes. cbn [length_ ofBytes].
  pose proof (len_nonneg bs) as Hl. unfold len in *.
  destruct (Z.le_gt_cases b (Z.of_nat (length bs))) as [Hle|Hgt].
  - replace (Z.min b (Z.of_nat (length bs))) with b by lia.
    destruct (Z.le_gt_cases e (Z.of_nat (length bs))) as [Hle'|Hgt'].
    + f_equal. lia.
    + rewrite !take_ge by (rewrite length_drop; lia). reflexivity.
  - rewrite !take_ge by (rewrite length_drop; lia).
    rewrite !drop_ge by lia. reflexivity.
Qed.

(** The loops, unfolded once. *)
Lemma decodeEntries_eq (d : Buffer) (offset : Z) :
  decodeEntries d offset =
  if offset <? length_ d then
    match readEntry d offset with
    | None => None
    | Some (path, content, offset') =>
        match decodeEntries d offset' with
        | None => None
        | Some entries => Some ((path, content) :: entries)
        end
    end
  else Some [].
Proof.
  simp decodeEntries.
  generalize (inspect (offset <? length_ d)). intros [b Hb].
  etransitivity; [|symmetry; rewrite Hb; reflexivity].
  destruct b; simp decodeEntries; [|reflexivity].
  generalize (inspect (readEntry d offset)). intros [r Hr].
  etransitivity; [|symmetry; rewrite Hr; reflexivity].
  destruct r as [[[p c] o']|]; simp decodeEntries; [|reflexivity].
  destruct (decodeEntries d o'); reflexivity.
Qed.

Section Loop.
Variable cwd : list jsstring.

Lemma extractLoop_eq (outputDir : jsstring) (d : Buffer) (offset total : Z)
  (extracted : list (jsstring * list byte)) (fs : FS) :
  extractLoop cwd outputDir d offset total extracted fs =
  if offset <? length_ d then
    match readEntry d offset with
    | None => (inl (Caught RangeError), extracted, fs)
    | Some (path, content, offset') =>
        match ensureDirectoryExists cwd fs (dirname (join outputDir path)) with
        | None => (inl (Caught MkdirError), extracted, fs)
        | Some fs1 =>
            match writeFileSync cwd fs1 (join outputDir path) content with
            | None => (inl (Caught WriteError), extracted, fs1)
            | Some fs2 =>
                extractLoop cwd outputDir d offset' (total + len content)
                  (extracted ++ [(path, content)]) fs2
            end
        end
    end
  else (inr total, extracted, fs).
Proof.
  simp extractLoop.
  generalize (inspect (offset <? length_ d)). intros [b Hb].
  etransitivity; [|symmetry; rewrite Hb; reflexivity].
  destruct b; simp extractLoop; [|reflexivity].
  generalize (inspect (readEntry d offset)). intros [r Hr].
  etransitivity; [|symmetry; rewrite Hr; reflexivity].
  destruct r as [[[p c] o']|]; simp extractLoop; [|reflexivity].
  destruct (ensureDirectoryExists _ _ _); simp extractLoop; [|reflexivity].
  destruct (writeFileSync _ _ _ _); simp extractLoop; reflexivity.
Qed.
End Loop.

Lemma readEntry_offset (d : Buffer) (o : Z) p c o' :
  readEntry d o = Some (p, c, o') -> o + 8 <= o'.
Proof.
  unfold readEntry. destruct (newDataView _ _ _) as [v|]; [|discriminate].
  intros [= _ _ <-].
  pose proof (getUint32_nonneg v 0). pose proof (getUint32_nonneg v 4). lia.
Qed.

(** Reading at [len pre + o] in [pre ++ s] is reading at [o] in [s]. *)
Lemma readEntry_shift (pre s : list byte) (o : Z) :
  0 <= o ->
  readEntry (ofBytes (pre ++ s)) (len pre + o)
  = (fun '(p, c, o') => (p, c, len pre + o')) <$> readEntry (ofBytes s) o.
Proof.
  intros Ho. unfold readEntry. cbn [buffer byteOffset ofBytes].
  pose proof (len_nonneg pre) as Hp.
  rewrite !Z.add_0_l, !newDataView_ofBytes by lia.
  rewrite len_app.
  replace (len pre + o + 8 <=? len pre + len s) with (o + 8 <=? len s)
    by (destruct (Z.leb_spec (o + 8) (len s)), (Z.leb_spec (len pre + o + 8) (len pre + len s)); lia).
  destruct (o + 8 <=? len s); [|reflexivity].
  assert (Hd : drop (Z.to_nat (len pre + o)) (pre ++ s) = drop (Z.to_nat o) s).
  { unfold len. rewrite Z2Nat.inj_add, Nat2Z.id by lia.
    rewrite drop_app_ge by lia. f_equal. lia. }
  rewrite Hd. set (v := take _ _). cbn [fmap option_fmap option_map].
  pose proof (getUint32_nonneg v 0). pose proof (getUint32_nonneg v 4).
  assert (Hs : forall x y, 0 <= x -> x <= y ->
            subarray (ofBytes (pre ++ s)) (len pre + x) (len pre + y)
            = subarray (ofBytes s) x y).
  { intros x y Hx Hy. rewrite !subarray_ofBytes by lia.
    replace (len pre + y - (len pre + x)) with (y - x) by lia.
    f_equal. unfold len. rewrite Z2Nat.inj_add, Nat2Z.id by lia.
    rewrite drop_app_ge by lia. f_equal. lia. }
  f_equal. f_equal; [f_equal|].
  - f_equal. rewrite <- !Z.add_assoc. apply Hs; lia.
  - rewrite <- !Z.add_assoc. apply Hs; lia.
  - lia.
Qed.

Lemma decodeEntries_shift (pre s : list byte) (o : Z) :
  0 <= o ->
  decodeEntries (ofBytes (pre ++ s)) (len pre + o) = decodeEntries (ofBytes s) o.
Proof.
  remember (Z.to_nat (len s - o)) as n eqn:Hn.
  revert o Hn. induction n as [n IH] using lt_wf_ind. intros o Hn Ho.
  rewrite (decodeEntries_eq (ofBytes (pre ++ s))), (decodeEntries_eq (ofBytes s)).
  cbn [length_ ofBytes]. rewrite len_app.
  replace (len pre + o <? len pre + len s) with (o <? len s)
    by (destruct (Z.ltb_spec o (len s)), (Z.ltb_spec (len pre + o) (len pre + len s)); lia).
  destruct (o <? len s) eqn:Hlt; [|reflexivity].
  apply Z.ltb_lt in Hlt.
  rewrite readEntry_shift by assumption.
  destruct (readEntry (ofBytes s) o) as [[[p c] o']|] eqn:He; [|reflexivity].
  cbn [fmap option_fmap option_map].
  apply readEntry_offset in He.
  rewrite (IH (Z.to_nat (len s - o'))); [reflexivity| lia | reflexivity | lia].
Qed.

Section LoopShift.
Variable cwd : list jsstring.

Lemma extractLoop_shift (outputDir : jsstring) (pre s : list byte) (o total : Z)
  (extracted : list (jsstring * list byte)) (fs : FS) :
  0 <= o ->
  extractLoop cwd outputDir (ofBytes (pre ++ s)) (len pre + o) total extracted fs
  = extractLoop cwd outputDir (ofBytes s) o total extracted fs.
Proof.
  remember (Z.to_nat (len s - o)) as n eqn:Hn.
  revert o total extracted fs Hn. induction n as [n IH] using lt_wf_ind.
  intros o total extracted fs Hn Ho.
  rewrite (extractLoop_eq _ _ (ofBytes (pre ++ s))), (extractLoop_eq _ _ (ofBytes s)).
  cbn [length_ ofBytes]. rewrite len_app.
  replace (len pre + o <? len pre + len s) with (o <? len s)
    by (destruct (Z.ltb_spec o (len s)), (Z.ltb_spec (len pre + o) (len pre + len s)); lia).
  destruct (o <? len s) eqn:Hlt; [|reflexivity].
  apply Z.ltb_lt in Hlt.
  rewrite readEntry_shift by assumption.
  destruct (readEntry (ofBytes s) o) as [[[p c] o']|] eqn:He; [|reflexivity].
  cbn [fmap option_fmap option_map].
  apply readEntry_offset in He.
  destruct (ensureDirectoryExists _ _ _); [|reflexivity].
  destruct (writeFileSync _ _ _ _); [|reflexivity].
  apply (IH (Z.to_nat (len s - o'))); lia.
Qed.
End LoopShift.

(** A whole entry is read back as it was laid out. *)
Lemma readEntry_entryBytes (p c rest : list byte) :
  len p < 2 ^ 32 -> len c < 2 ^ 32 ->
  readEntry (ofBytes (entryBytes p c ++ rest)) 0
  = Some (uint8ArrayToText p, c, len (entryBytes p c)).
Proof.
  intros Hp Hc. unfold readEntry. cbn [buffer byteOffset ofBytes].
  pose proof (len_nonneg p). pose proof (len_nonneg c). pose proof (len_nonneg rest).
  rewrite newDataView_ofBytes by lia.
  unfold entryBytes. rewrite !len_app, !len_uint32LE.
  replace (0 + 0 + 8 <=? _) with true by (symmetry; apply Z.leb_le; lia).
  assert (Hv : take (Z.to_nat 8) (drop (Z.to_nat (0 + 0))
                 ((uint32LE (len p) ++ uint32LE (len c) ++ p ++ c) ++ rest))
               = uint32LE (len p) ++ uint32LE (len c) ++ []).
  { change (Z.to_nat (0 + 0)) with 0%nat. rewrite drop_0, <- !app_assoc, app_nil_r.
    rewrite (app_assoc (uint32LE (len p))).
    apply take_app_length'. by rewrite length_app. }
  rewrite Hv. destruct (getUint32_header (len p) (len c) []) as [-> ->].
  unfold toUint32. rewrite !Z.mod_small by lia.
  rewrite !subarray_ofBytes by lia.
  replace (0 + 8 + len p - (0 + 8)) with (len p) by lia.
  replace (0 + 8 + len p + len c - (0 + 8 + len p)) with (len c) by lia.
  assert (Hpath : take (Z.to_nat (len p)) (drop (Z.to_nat (0 + 8))
                    ((uint32LE (len p) ++ uint32LE (len c) ++ p ++ c) ++ rest)) = p).
  { rewrite <- !app_assoc. rewrite (app_assoc (uint32LE (len p))).
    rewrite drop_app_length' by reflexivity.
    unfold len. rewrite Nat2Z.id. apply take_app_length. }
  assert (Hcontent : take (Z.to_nat (len c)) (drop (Z.to_nat (0 + 8 + len p))
                    ((uint32LE (len p) ++ uint32LE (len c) ++ p ++ c) ++ rest)) = c).
  { rewrite <- !app_assoc. rewrite (app_assoc (uint32LE (len p))).
    rewrite (app_assoc (_ ++ _) p).
    rewrite drop_app_length'.
    - unfold len. rewrite Nat2Z.id. apply take_app_length.
    - rewrite !length_app. unfold len.
      change (length (uint32LE (Z.of_nat (length p)))) with 4%nat.
      change (length (uint32LE (Z.of_nat (length c)))) with 4%nat. lia. }
  rewrite Hpath, Hcontent. f_equal. f_equal. lia.
Qed.

Lemma decodeEntries_stream (es : list (list byte * list byte)) :
  Forall (fun e => len e.1 < 2 ^ 32 /\ len e.2 < 2 ^ 32) es ->
  decodeEntries (ofBytes (flat_map (fun e => entryBytes e.1 e.2) es)) 0
  = Some (map (fun e => (uint8ArrayToText e.1, e.2)) es).
Proof.
  induction 1 as [|[p c] es [Hp Hc] _ IH].
  - rewrite decodeEntries_eq. reflexivity.
  - cbn [flat_map map fst snd] in *. rewrite decodeEntries_eq.
    cbn [length_ ofBytes]. rewrite len_app.
    assert (0 < len (entryBytes p c)).
    { unfold entryBytes. rewrite !len_app, !len_uint32LE.
      pose proof (len_nonneg p). pose proof (len_nonneg c). lia. }
    pose proof (len_nonneg (flat_map (fun e => entryBytes e.1 e.2) es)).
    replace (0 <? _) with true by (symmetry; apply Z.ltb_lt; lia).
    rewrite readEntry_entryBytes by assumption.
    rewrite <- (Z.add_0_r (len (entryBytes p c))), decodeEntries_shift, IH by lia.
    reflexivity.
Qed.

(** * UTF-8 *)

Lemma utf8Decode_ascii b rest :
  byteToZ b <= 0x7F ->
  utf8Decode (b :: rest) 0 0 0x80 0xBF = byteToZ b :: utf8Decode rest 0 0 0x80 0xBF.
Proof. intros H. cbn [utf8Decode]. ztests. reflexivity. Qed.

Lemma utf8Decode_lead2 b rest :
  0xC2 <= byteToZ b <= 0xDF ->
  utf8Decode (b :: rest) 0 0 0x80 0xBF = utf8Decode rest (byteToZ b - 0xC0) 1 0x80 0xBF.
Proof. intros H. cbn [utf8Decode]. ztests. reflexivity. Qed.

Lemma utf8Decode_lead3 b rest :
  0xE0 <= byteToZ b <= 0xEF ->
  utf8Decode (b :: rest) 0 0 0x80 0xBF
  = utf8Decode rest (byteToZ b - 0xE0) 2
      (if byteToZ b =? 0xE0 then 0xA0 else 0x80) (if byteToZ b =? 0xED then 0x9F else 0xBF).
Proof. intros H. cbn [utf8Decode]. ztests. reflexivity. Qed.

Lemma utf8Decode_lead4 b rest :
  0xF0 <= byteToZ b <= 0xF4 ->
  utf8Decode (b :: rest) 0 0 0x80 0xBF
  = utf8Decode rest (byteToZ b - 0xF0) 3
      (if byteToZ b =? 0xF0 then 0x90 else 0x80) (if byteToZ b =? 0xF4 then 0x8F else 0xBF).
Proof. intros H. cbn [utf8Decode]. ztests. reflexivity. Qed.

Lemma utf8Decode_last b rest cp lo hi :
  lo <= byteToZ b <= hi ->
  utf8Decode (b :: rest) cp 1 lo hi
  = (cp * 64 + byteToZ b mod 64) :: utf8Decode rest 0 0 0x80 0xBF.
Proof. intros H. cbn [utf8Decode]. ztests. reflexivity. Qed.

Lemma utf8Decode_more b rest cp n lo hi :
  lo <= byteToZ b <= hi ->
  utf8Decode (b :: rest) cp (S (S n)) lo hi
  = utf8Decode rest (cp * 64 + byteToZ b mod 64) (S n) 0x80 0xBF.
Proof. intros H. cbn [utf8Decode]. ztests. reflexivity. Qed.

Lemma byteToZ_byteOfZ_small z : 0 <= z < 256 -> byteToZ (byteOfZ z) = z.
Proof. intros H. rewrite byteToZ_byteOfZ. apply Z.mod_small. exact H. Qed.

(** The decoder reads back the encoding of a scalar value. *)
Lemma utf8Decode_encode (c : Z) (rest : list byte) :
  isScalar c ->
  utf8Decode (utf8EncodeCodePoint c ++ rest) 0 0 0x80 0xBF
  = c :: utf8Decode rest 0 0 0x80 0xBF.
Proof.
  intros Hc. unfold utf8EncodeCodePoint, isScalar in *.
  destruct (Z.ltb_spec c 0x80) as [H1|H1].
  { cbn [app]. rewrite utf8Decode_ascii; rewrite byteToZ_byteOfZ_small; (reflexivity || lia). }
  destruct (Z.ltb_spec c 0x800) as [H2|H2].
  { cbn [app].
    assert (0x80 <= 0x80 + c mod 64 <= 0xBF /\ 0xC2 <= 0xC0 + c / 64 <= 0xDF
            /\ (0xC0 + c / 64 - 0xC0) * 64 + (0x80 + c mod 64) mod 64 = c) as (Ha & Hb & He)
      by (Z.div_mod_to_equations; lia).
    rewrite utf8Decode_lead2; rewrite !byteToZ_byteOfZ_small by lia; [|lia].
    rewrite utf8Decode_last; rewrite !byteToZ_byteOfZ_small by lia; [|lia].
    rewrite He. reflexivity. }
  destruct (Z.ltb_spec c 0x10000) as [H3|H3].
  { cbn [app].
    set (b1 := 0xE0 + c / 4096). set (b2 := 0x80 + (c / 64) mod 64).
    set (b3 := 0x80 + c mod 64).
    assert (0xE0 <= b1 <= 0xEF /\ 0x80 <= b2 <= 0xBF /\ 0x80 <= b3 <= 0xBF
            /\ (b1 = 0xE0 -> 0xA0 <= b2) /\ (b1 = 0xED -> b2 <= 0x9F)
            /\ ((b1 - 0xE0) * 64 + b2 mod 64) * 64 + b3 mod 64 = c)
      as (Ha & Hb & Hd & Hlo & Hhi & He)
      by (subst b1 b2 b3; Z.div_mod_to_equations; lia).
    rewrite utf8Decode_lead3; rewrite !byteToZ_byteOfZ_small by lia; [|lia].
    rewrite utf8Decode_more; rewrite !byteToZ_byteOfZ_small by lia.
    2:{ destruct (Z.eqb_spec b1 0xE0), (Z.eqb_spec b1 0xED); lia. }
    rewrite utf8Decode_last; rewrite !byteToZ_byteOfZ_small by lia; [|lia].
    rewrite He. reflexivity. }
  { cbn [app].
    set (b1 := 0xF0 + c / 262144). set (b2 := 0x80 + (c / 4096) mod 64).
    set (b3 := 0x80 + (c / 64) mod 64). set (b4 := 0x80 + c mod 64).
    assert (0xF0 <= b1 <= 0xF4 /\ 0x80 <= b2 <= 0xBF /\ 0x80 <= b3 <= 0xBF
            /\ 0x80 <= b4 <= 0xBF
            /\ (b1 = 0xF0 -> 0x90 <= b2) /\ (b1 = 0xF4 -> b2 <= 0x8F)
            /\ (((b1 - 0xF0) * 64 + b2 mod 64) * 64 + b3 mod 64) * 64 + b4 mod 64 = c)
      as (Ha & Hb & Hd & Hf & Hlo & Hhi & He)
      by (subst b1 b2 b3 b4; Z.div_mod_to_equations; lia).
    rewrite utf8Decode_lead4; rewrite !byteToZ_byteOfZ_small by lia; [|lia].
    rewrite utf8Decode_more; rewrite !byteToZ_byteOfZ_small by lia.
    2:{ destruct (Z.eqb_spec b1 0xF0), (Z.eqb_spec b1 0xF4); lia. }
    rewrite utf8Decode_more; rewrite !byteToZ_byteOfZ_small by lia; [|lia].
    rewrite utf8Decode_last; rewrite !byteToZ_byteOfZ_small by lia; [|lia].
    rewrite He. reflexivity. }
Qed.

Lemma utf8Decode_encode_all (cps : list Z) :
  Forall isScalar cps ->
  utf8Decode (flat_map utf8EncodeCodePoint cps) 0 0 0x80 0xBF = cps.
Proof.
  induction 1 as [|c cps Hc _ IH]; [reflexivity|].
  cbn [flat_map]. rewrite utf8Decode_encode, IH by assumption. reflexivity.
Qed.

(** Induction on strings two code units at a time. *)
Lemma jsstring_ind2 (P : jsstring -> Prop) :
  P [] -> (forall u, P [u]) ->
  (forall u v s, P s -> P (v :: s) -> P (u :: v :: s)) ->
  forall s, P s.
Proof.
  intros H0 H1 H2 s.
  assert (H : P s /\ forall u, P (u :: s)); [|exact (proj1 H)].
  induction s as [|v s [IH1 IH2]]; split; auto.
Qed.

Lemma toScalarValues_cons (u : Z) (rest : jsstring) :
  toScalarValues (u :: rest) =
  if isHighSurrogate u then
    match rest with
    | v :: rest' =>
        if isLowSurrogate v
        then (0x10000 + (u - 0xD800) * 0x400 + (v - 0xDC00)) :: toScalarValues rest'
        else 0xFFFD :: toScalarValues rest
    | [] => [0xFFFD]
    end
  else if isLowSurrogate u then 0xFFFD :: toScalarValues rest
  else u :: toScalarValues rest.
Proof. destruct rest; reflexivity. Qed.

Lemma wellFormed_cons (u : Z) (rest : jsstring) :
  wellFormed (u :: rest) =
  (0 <=? u) && (u <? 65536) &&
  (if isHighSurrogate u then
     match rest with
     | v :: rest' => isLowSurrogate v && wellFormed rest'
     | [] => false
     end
   else negb (isLowSurrogate u) && wellFormed rest).
Proof. destruct rest; reflexivity. Qed.

Lemma wellFormed_scalars (s : jsstring) :
  wellFormed s = true ->
  Forall isScalar (toScalarValues s)
  /\ flat_map codePointToUnits (toScalarValues s) = s.
Proof.
  induction s as [| u | u v s IH1 IH2] using jsstring_ind2.
  - split; [constructor|reflexivity].
  - cbn [wellFormed toScalarValues]. intros H.
    apply andb_true_iff in H as [Hr H]. apply andb_true_iff in Hr as [Hr1 Hr2].
    apply Z.leb_le in Hr1. apply Z.ltb_lt in Hr2.
    destruct (isHighSurrogate u) eqn:Hhi; [discriminate|].
    destruct (isLowSurrogate u) eqn:Hl; [discriminate|].
    unfold isHighSurrogate, isLowSurrogate in *.
    apply andb_false_iff in Hhi, Hl.
    assert (isScalar u).
    { unfold isScalar. destruct Hhi as [Hhi|Hhi], Hl as [Hl|Hl];
        apply Z.leb_gt in Hhi; apply Z.leb_gt in Hl; lia. }
    split; [constructor; [assumption|constructor]|].
    cbn [flat_map app]. unfold codePointToUnits. ztests. reflexivity.
  - rewrite wellFormed_cons, toScalarValues_cons. intros H.
    apply andb_true_iff in H as [Hr H]. apply andb_true_iff in Hr as [Hr1 Hr2].
    apply Z.leb_le in Hr1. apply Z.ltb_lt in Hr2.
    destruct (isHighSurrogate u) eqn:Hhi.
    + apply andb_true_iff in H as [Hv Hs]. rewrite Hv.
      unfold isHighSurrogate, isLowSurrogate in Hhi, Hv.
      apply andb_true_iff in Hhi as [Hh1 Hh2]. apply Z.leb_le in Hh1, Hh2.
      apply andb_true_iff in Hv as [Hv1 Hv2]. apply Z.leb_le in Hv1, Hv2.
      destruct (IH1 Hs) as [IHa IHb]. split.
      * constructor; [unfold isScalar; lia|exact IHa].
      * cbn [flat_map]. rewrite IHb. unfold codePointToUnits. ztests. cbn [app].
        f_equal; [|f_equal]; Z.div_mod_to_equations; lia.
    + apply andb_true_iff in H as [Hlo Hs].
      destruct (isLowSurrogate u) eqn:Hl; [discriminate|].
      unfold isHighSurrogate, isLowSurrogate in Hhi, Hl.
      apply andb_false_iff in Hhi, Hl.
      assert (isScalar u).
      { unfold isScalar. destruct Hhi as [Hhi|Hhi], Hl as [Hl|Hl];
          apply Z.leb_gt in Hhi; apply Z.leb_gt in Hl; lia. }
      destruct (IH2 Hs) as [IHa IHb]. split.
      * constructor; assumption.
      * cbn [flat_map]. rewrite IHb. unfold codePointToUnits.
        ztests. reflexivity.
Qed.

Lemma stripBOM_scalars (s : jsstring) :
  wellFormed s = true ->
  flat_map codePointToUnits (stripBOM (toScalarValues s)) = stripBOM s.
Proof.
  intros H. destruct s as [|u s]; [reflexivity|].
  pose proof (wellFormed_scalars _ H) as [_ Hr].
  cbn [wellFormed toScalarValues] in *. unfold stripBOM at 2.
  apply andb_true_iff in H as [_ H].
  destruct (isHighSurrogate u) eqn:Hhi.
  - destruct s as [|v s]; [discriminate|].
    apply andb_true_iff in H as [Hv Hs]. rewrite Hv in *.
    unfold isHighSurrogate, isLowSurrogate in Hhi, Hv.
    apply andb_true_iff in Hhi as [Hh1 Hh2]. apply Z.leb_le in Hh1, Hh2.
    apply andb_true_iff in Hv as [Hv1 Hv2]. apply Z.leb_le in Hv1, Hv2.
    unfold stripBOM. ztests. exact Hr.
  - destruct (isLowSurrogate u) eqn:Hl; [discriminate|].
    unfold stripBOM. destruct (Z.eqb_spec u 0xFEFF) as [->|]; [|exact Hr].
    cbn [flat_map] in Hr. unfold codePointToUnits at 1 in Hr.
    cbn in Hr. by injection Hr.
Qed.

(** Text survives encoding and decoding, a leading U+FEFF aside. *)
Lemma text_roundtrip (s : jsstring) :
  wellFormed s = true ->
  uint8ArrayToText (textToUint8Array s) = stripBOM s.
Proof.
  intros H. unfold uint8ArrayToText, textToUint8Array.
  rewrite utf8Decode_encode_all by (apply wellFormed_scalars; exact H).
  apply stripBOM_scalars. exact H.
Qed.

(** * The JSON parser *)

(** The three parsing functions, unfolded once. *)
Lemma parseValue_S (fuel : nat) (s : jsstring) :
  parseValue (S fuel) s =
  match skipWs s with
  | [] => PErr
  | c :: r =>
      if c =? 123 then
        match skipWs r with
        | c' :: r' =>
            if c' =? 125 then POk (JObject []) r' else parseMembers fuel r []
        | [] => PErr
        end
      else if c =? 91 then
        match skipWs r with
        | c' :: r' =>
            if c' =? 93 then POk (JArray []) r' else parseElements fuel r []
        | [] => PErr
        end
      else if c =? 34 then
        match parseStringChars r with
        | Some (t, r') => POk (JString t) r'
        | None => PErr
        end
      else if c =? 116 then
        match stripPrefix (js "true") (c :: r) with
        | Some r' => POk (JBool true) r'
        | None => PErr
        end
      else if c =? 102 then
        match stripPrefix (js "false") (c :: r) with
        | Some r' => POk (JBool false) r'
        | None => PErr
        end
      else if c =? 110 then
        match stripPrefix (js "null") (c :: r) with
        | Some r' => POk JNull r'
        | None => PErr
        end
      else
        match parseNumber (c :: r) with
        | Some (lexeme, r') => POk (JNumber lexeme) r'
        | None => PErr
        end
  end.
Proof. reflexivity. Qed.

Lemma parseElements_S (fuel : nat) (s : jsstring) (acc : list json) :
  parseElements (S fuel) s acc =
  match parseValue fuel s with
  | POk v r =>
      match skipWs r with
      | c :: r' =>
          if c =? 44 then parseElements fuel r' (v :: acc)
          else if c =? 93 then POk (JArray (rev (v :: acc))) r'
          else PErr
      | [] => PErr
      end
  | PErr => PErr
  | PFuel => PFuel
  end.
Proof. destruct fuel; reflexivity. Qed.

Lemma parseMembers_S (fuel : nat) (s : jsstring) (acc : list (jsstring * json)) :
  parseMembers (S fuel) s acc =
  match skipWs s with
  | q :: r =>
      if q =? 34 then
        match parseStringChars r with
        | Some (k, r1) =>
            match skipWs r1 with
            | c :: r2 =>
                if c =? 58 then
                  match parseValue fuel r2 with
                  | POk v r3 =>
                      match skipWs r3 with
                      | c' :: r4 =>
                          if c' =? 44 then parseMembers fuel r4 ((k, v) :: acc)
                          else if c' =? 125
                          then POk (JObject (rev ((k, v) :: acc))) r4
                          else PErr
                      | [] => PErr
                      end
                  | PErr => PErr
                  | PFuel => PFuel
                  end
                else PErr
            | [] => PErr
            end
        | None => PErr
        end
      else PErr
  | [] => PErr
  end.
Proof. destruct fuel; reflexivity. Qed.

Lemma parse_O :
  (forall s, parseValue 0 s = PFuel)
  /\ (forall s acc, parseElements 0 s acc = PFuel)
  /\ (forall s acc, parseMembers 0 s acc = PFuel).
Proof. repeat split. Qed.

Global Opaque parseValue parseElements parseMembers.

(** ** More fuel does not change an answer *)

Lemma parse_fuel_S (n : nat) :
  (forall s, parseValue n s <> PFuel -> parseValue (S n) s = parseValue n s)
  /\ (forall s acc, parseElements n s acc <> PFuel ->
        parseElements (S n) s acc = parseElements n s acc)
  /\ (forall s acc, parseMembers n s acc <> PFuel ->
        parseMembers (S n) s acc = parseMembers n s acc).
Proof.
  induction n as [|n (IHv & IHe & IHm)].
  - destruct parse_O as (Hv & He & Hm).
    repeat split; intros; exfalso; auto.
  - repeat split.
    + intros s. rewrite (parseValue_S (S n)), (parseValue_S n).
      destruct (skipWs s) as [|c r]; [reflexivity|].
      repeat (destruct (_ =? _); try (destruct (skipWs r) as [|c' r']; [reflexivity|]);
              try reflexivity); auto.
    + intros s acc. rewrite (parseElements_S (S n)), (parseElements_S n).
      destruct (parseValue n s) as [v r| |] eqn:Ev.
      * rewrite IHv, Ev by (rewrite Ev; discriminate).
        destruct (skipWs r) as [|c r']; [reflexivity|].
        repeat (destruct (_ =? _); try reflexivity); auto.
      * rewrite IHv, Ev by (rewrite Ev; discriminate). reflexivity.
      * intros H. exfalso. auto.
    + intros s acc. rewrite (parseMembers_S (S n)), (parseMembers_S n).
      destruct (skipWs s) as [|q r]; [reflexivity|].
      destruct (q =? 34); [|reflexivity].
      destruct (parseStringChars r) as [[k r1]|]; [|reflexivity].
      destruct (skipWs r1) as [|c r2]; [reflexivity|].
      destruct (c =? 58); [|reflexivity].
      destruct (parseValue n r2) as [v r3| |] eqn:Ev.
      * rewrite IHv, Ev by (rewrite Ev; discriminate).
        destruct (skipWs r3) as [|c' r4]; [reflexivity|].
        repeat (destruct (_ =? _); try reflexivity); auto.
      * rewrite IHv, Ev by (rewrite Ev; discriminate). reflexivity.
      * intros H. exfalso. auto.
Qed.

Lemma parseValue_fuel_mono (n m : nat) (s : jsstring) :
  (n <= m)%nat -> parseValue n s <> PFuel -> parseValue m s = parseValue n s.
Proof.
  induction 1 as [|m Hle IH]; [reflexivity|].
  intros H. rewrite <- (IH H). apply parse_fuel_S. rewrite (IH H). exact H.
Qed.

Lemma parseValue_fuel_agree (n m : nat) (s : jsstring) :
  parseValue n s <> PFuel -> parseValue m s <> PFuel -> parseValue n s = parseValue m s.
Proof.
  intros Hn Hm. destruct (Nat.le_ge_cases n m).
  - symmetry. by apply parseValue_fuel_mono.
  - by apply parseValue_fuel_mono.
Qed.

(** ** Lexical functions: what they consume, and how they extend *)

Lemma parseStringChars_eq (s : jsstring) :
  parseStringChars s =
  match stringStep s with
  | None => None
  | Some (None, r) => Some ([], r)
  | Some (Some u, r) =>
      match parseStringChars r with
      | Some (t, r') => Some (u :: t, r')
      | None => None
      end
  end.
Proof.
  destruct s as [|c r]; [reflexivity|]. cbn [parseStringChars stringStep].
  destruct (c =? 34); [reflexivity|]. destruct (c <? 32); [reflexivity|].
  destruct (c =? 92); [|reflexivity].
  destruct r as [|e r1]; [reflexivity|].
  repeat (destruct (e =? _); [reflexivity|]).
  destruct (e =? 117); [|reflexivity].
  destruct r1 as [|h1 [|h2 [|h3 [|h4 r2]]]]; try reflexivity.
  destruct (hexVal h1), (hexVal h2), (hexVal h3), (hexVal h4); reflexivity.
Qed.

Lemma hexVal_range h a : hexVal h = Some a -> 48 <= h <= 102.
Proof.
  unfold hexVal, isDigit. intros H.
  destruct (Z.leb_spec 48 h), (Z.leb_spec h 57), (Z.leb_spec 97 h),
    (Z.leb_spec h 102), (Z.leb_spec 65 h), (Z.leb_spec h 70);
    cbn in H; try discriminate; lia.
Qed.

(** A step consumes a non-empty prefix; the closing quote is a closer. *)
Lemma stringStep_consumes (s : jsstring) o r :
  stringStep s = Some (o, r) ->
  exists pre c, s = pre ++ c :: r /\ (o = None -> closer c).
Proof.
  unfold stringStep, closer. destruct s as [|c s]; [discriminate|].
  destruct (Z.eqb_spec c 34) as [->|].
  { intros [= <- <-]. exists [], 34. split; [reflexivity|lia]. }
  destruct (c <? 32); [discriminate|].
  destruct (c =? 92).
  2:{ intros [= <- <-]. exists [], c. split; [reflexivity|discriminate]. }
  destruct s as [|e r1]; [discriminate|].
  repeat (destruct (e =? _);
          [intros [= <- <-]; exists [c], e; split; [reflexivity|discriminate]|]).
  destruct (e =? 117); [|discriminate].
  destruct r1 as [|h1 [|h2 [|h3 [|h4 r2]]]]; try discriminate.
  destruct (hexVal h1), (hexVal h2), (hexVal h3), (hexVal h4); try discriminate.
  intros [= <- <-]. exists [c; e; h1; h2; h3], h4. split; [reflexivity|discriminate].
Qed.

Lemma stringStep_app (p x : jsstring) o r :
  stringStep p = Some (o, r) -> stringStep (p ++ x) = Some (o, r ++ x).
Proof.
  unfold stringStep. destruct p as [|c s]; [discriminate|]. cbn [app].
  destruct (c =? 34); [by intros [= <- <-]|].
  destruct (c <? 32); [discriminate|].
  destruct (c =? 92); [|by intros [= <- <-]].
  destruct s as [|e r1]; [discriminate|]. cbn [app].
  repeat (destruct (e =? _); [by intros [= <- <-]|]).
  destruct (e =? 117); [|discriminate].
  destruct r1 as [|h1 [|h2 [|h3 [|h4 r2]]]]; try discriminate. cbn [app].
  destruct (hexVal h1), (hexVal h2), (hexVal h3), (hexVal h4); try discriminate.
  by intros [= <- <-].
Qed.

Lemma list_length_ind {A} (P : list A -> Prop) :
  (forall l, (forall l', (length l' < length l)%nat -> P l') -> P l) ->
  forall l, P l.
Proof.
  intros H l. remember (length l) as n eqn:Hn. revert l Hn.
  induction n as [n IH] using lt_wf_ind. intros l ->.
  apply H. intros l' Hl'. by apply (IH (length l')).
Qed.

Lemma parseStringChars_consumes (s : jsstring) :
  forall t r, parseStringChars s = Some (t, r) ->
  exists pre, s = pre ++ 34 :: r.
Proof.
  induction s as [s IH] using list_length_ind. intros t r.
  rewrite parseStringChars_eq.
  destruct (stringStep s) as [[[u|] r1]|] eqn:Es; [| |discriminate].
  - destruct (stringStep_consumes _ _ _ Es) as (pre & c & -> & _).
    destruct (parseStringChars r1) as [[t' r']|] eqn:Et; [|discriminate].
    intros [= <- <-].
    destruct (IH r1) with (t := t') (r := r') as [pre' ->]; [|assumption|].
    { rewrite length_app. simpl. lia. }
    exists (pre ++ c :: pre'). by rewrite <- app_assoc.
  - intros [= <- <-]. unfold stringStep in Es.
    destruct s as [|c s]; [discriminate|].
    destruct (Z.eqb_spec c 34) as [->|].
    + injection Es as <-. by exists [].
    + destruct (c <? 32); [discriminate|]. destruct (c =? 92).
      * destruct s as [|e r0]; [discriminate|].
        repeat (destruct (e =? _); [discriminate|]).
        destruct (e =? 117); [|discriminate].
        destruct r0 as [|h1 [|h2 [|h3 [|h4 r2]]]]; try discriminate.
        destruct (hexVal h1), (hexVal h2), (hexVal h3), (hexVal h4); discriminate.
      * discriminate.
Qed.

Lemma parseStringChars_app (p : jsstring) :
  forall x t r, parseStringChars p = Some (t, r) ->
  parseStringChars (p ++ x) = Some (t, r ++ x).
Proof.
  induction p as [p IH] using list_length_ind. intros x t r.
  rewrite (parseStringChars_eq p), (parseStringChars_eq (p ++ x)).
  destruct (stringStep p) as [[[u|] r1]|] eqn:Es; [| |discriminate].
  - rewrite (stringStep_app _ x _ _ Es).
    destruct (stringStep_consumes _ _ _ Es) as (pre & c & -> & _).
    destruct (parseStringChars r1) as [[t' r']|] eqn:Et; [|discriminate].
    intros [= <- <-]. rewrite (IH r1) with (t := t') (r := r'); [reflexivity| |assumption].
    rewrite length_app. simpl. lia.
  - rewrite (stringStep_app _ x _ _ Es). by intros [= <- <-].
Qed.

Lemma skipWs_consumes (s : jsstring) :
  exists pre, s = pre ++ skipWs s /\ Forall (fun c => isWs c = true) pre.
Proof.
  induction s as [|c s (pre & IH & Hws)]; [by exists []|].
  cbn [skipWs]. destruct (isWs c) eqn:E.
  - exists (c :: pre). split; [cbn; by f_equal|by constructor].
  - by exists [].
Qed.

Lemma skipWs_app (s x : jsstring) c r :
  skipWs s = c :: r -> skipWs (s ++ x) = c :: r ++ x.
Proof.
  induction s as [|a s IH]; [discriminate|]. cbn [skipWs app].
  destruct (isWs a); [exact IH|]. by intros [= -> ->].
Qed.

Lemma skipWs_head (s : jsstring) c r : skipWs s = c :: r -> isWs c = false.
Proof.
  induction s as [|a s IH]; [discriminate|]. cbn [skipWs].
  destruct (isWs a) eqn:E; [exact IH|]. by intros [= -> ->].
Qed.

Lemma stripPrefix_consumes (lit s r : jsstring) :
  stripPrefix lit s = Some r -> s = lit ++ r.
Proof.
  revert s. induction lit as [|a lit IH]; intros s; cbn [stripPrefix].
  - destruct s; intros [= <-]; reflexivity.
  - destruct s as [|b s]; [discriminate|].
    destruct (Z.eqb_spec a b) as [->|]; [|discriminate].
    intros H. cbn. f_equal. by apply IH.
Qed.

Lemma stripPrefix_app (lit s r x : jsstring) :
  stripPrefix lit s = Some r -> stripPrefix lit (s ++ x) = Some (r ++ x).
Proof.
  revert s. induction lit as [|a lit IH]; intros s; cbn [stripPrefix].
  - destruct s; intros [= <-]; reflexivity.
  - destruct s as [|b s]; [discriminate|]. cbn [app].
    destruct (a =? b); [apply IH|discriminate].
Qed.

Lemma spanDigits_spec (s : jsstring) :
  s = (spanDigits s).1 ++ (spanDigits s).2
  /\ Forall (fun c => isDigit c = true) (spanDigits s).1
  /\ match (spanDigits s).2 with c :: _ => isDigit c = false | [] => True end.
Proof.
  induction s as [|c s (IH1 & IH2 & IH3)]; [repeat split; constructor|].
  cbn [spanDigits]. destruct (isDigit c) eqn:E.
  - destruct (spanDigits s) as [ds r]. cbn in *. repeat split.
    + by f_equal.
    + by constructor.
    + exact IH3.
  - cbn. repeat split; [constructor|exact E].
Qed.

Lemma spanDigits_app (s x : jsstring) :
  (spanDigits s).2 <> [] ->
  spanDigits (s ++ x) = ((spanDigits s).1, (spanDigits s).2 ++ x).
Proof.
  induction s as [|c s IH]; [done|]. cbn [spanDigits app].
  destruct (isDigit c) eqn:E.
  - destruct (spanDigits s) as [ds r] eqn:Er. cbn. intros Hr.
    rewrite IH by exact Hr. reflexivity.
  - reflexivity.
Qed.

Lemma spanDigits_digits (ds rest : jsstring) :
  Forall (fun c => isDigit c = true) ds ->
  match rest with c :: _ => isDigit c = false | [] => True end ->
  spanDigits (ds ++ rest) = (ds, rest).
Proof.
  intros Hd Hr. induction Hd as [|d ds Hd _ IH].
  - destruct rest as [|c rest]; [reflexivity|]. cbn. by rewrite Hr.
  - cbn [app spanDigits]. by rewrite Hd, IH.
Qed.

Lemma digit_closer c : isDigit c = true -> closer c.
Proof.
  unfold isDigit, closer. intros H. apply andb_true_iff in H as [H1 H2].
  apply Z.leb_le in H1, H2. lia.
Qed.

Lemma digits_closers ds : Forall (fun c => isDigit c = true) ds -> Forall closer ds.
Proof. intros H. eapply Forall_impl; [exact H|exact digit_closer]. Qed.

(** ** Numbers *)

Lemma numberSign_spec (s : jsstring) :
  s = (numberSign s).1 ++ (numberSign s).2 /\ Forall closer (numberSign s).1.
Proof.
  unfold numberSign. destruct s as [|c r]; [split; [reflexivity|constructor]|].
  destruct (Z.eqb_spec c 45) as [->|]; cbn; (split; [reflexivity|]).
  - constructor; [unfold closer; lia|constructor].
  - constructor.
Qed.

Lemma numberSign_app (s x : jsstring) :
  s <> [] -> numberSign (s ++ x) = ((numberSign s).1, (numberSign s).2 ++ x).
Proof.
  unfold numberSign. destruct s as [|c r]; [done|]. intros _. cbn [app].
  destruct (c =? 45); reflexivity.
Qed.

Lemma numberInt_spec (s l r : jsstring) :
  numberInt s = Some (l, r) -> s = l ++ r /\ Forall closer l /\ l <> [].
Proof.
  unfold numberInt. destruct s as [|c s]; [discriminate|].
  destruct (isDigit c) eqn:Ec; [|discriminate]. cbn [negb].
  destruct (c =? 48).
  - intros [= <- <-]. split; [reflexivity|]. split; [|discriminate].
    constructor; [by apply digit_closer|constructor].
  - destruct (spanDigits s) as [ds r'] eqn:Esp.
  pose proof (spanDigits_spec s) as Hsp. rewrite Esp in Hsp.
  cbn [fst snd] in Hsp. destruct Hsp as (H1 & H2 & _). cbn [fst snd] in *. intros [= <- <-].
    split; [cbn in *; congruence|]. split; [|discriminate].
    constructor; [by apply digit_closer|by apply digits_closers].
Qed.

Lemma numberInt_app (s l r x : jsstring) :
  numberInt s = Some (l, r) -> r <> [] -> numberInt (s ++ x) = Some (l, r ++ x).
Proof.
  unfold numberInt. destruct s as [|c s]; [discriminate|]. cbn [app].
  destruct (isDigit c); [|discriminate]. cbn [negb].
  destruct (c =? 48); [by intros [= <- <-]|].
  destruct (spanDigits s) as [ds r'] eqn:E. intros [= <- <-] Hr.
  rewrite spanDigits_app; rewrite E; [reflexivity|exact Hr].
Qed.

Lemma numberFraction_spec (s l r : jsstring) :
  numberFraction s = Some (l, r) -> s = l ++ r /\ Forall closer l.
Proof.
  unfold numberFraction. destruct s as [|p s]; [by intros [= <- <-]|].
  destruct (Z.eqb_spec p 46) as [->|]; [|by intros [= <- <-]].
  destruct (spanDigits s) as [[|d ds] r'] eqn:Esp; [discriminate|].
  pose proof (spanDigits_spec s) as Hsp. rewrite Esp in Hsp.
  cbn [fst snd] in Hsp. destruct Hsp as (H1 & H2 & _). cbn [fst snd] in *.
  intros [= <- <-]. split; [cbn in *; congruence|].
  constructor; [unfold closer; lia|by apply digits_closers].
Qed.

Lemma numberFraction_app (s l r x : jsstring) :
  numberFraction s = Some (l, r) -> r <> [] ->
  numberFraction (s ++ x) = Some (l, r ++ x).
Proof.
  unfold numberFraction. destruct s as [|p s]; [by intros [= <- <-]|]. cbn [app].
  destruct (p =? 46); [|by intros [= <- <-]].
  destruct (spanDigits s) as [[|d ds] r'] eqn:E; [discriminate|].
  intros [= <- <-] Hr. rewrite spanDigits_app; rewrite E; [reflexivity|exact Hr].
Qed.

Lemma numberExponent_spec (s l r : jsstring) :
  numberExponent s = Some (l, r) -> s = l ++ r /\ Forall closer l.
Proof.
  unfold numberExponent. destruct s as [|e s]; [by intros [= <- <-]|].
  destruct ((e =? 101) || (e =? 69)) eqn:Ee; [|by intros [= <- <-]].
  assert (He : closer e).
  { apply orb_true_iff in Ee as [Ee|Ee]; apply Z.eqb_eq in Ee; unfold closer; lia. }
  destruct s as [|g s1].
  - cbn. discriminate.
  - destruct ((g =? 43) || (g =? 45)) eqn:Eg.
    + assert (Hg : closer g).
      { apply orb_true_iff in Eg as [Eg|Eg]; apply Z.eqb_eq in Eg; unfold closer; lia. }
      destruct (spanDigits s1) as [[|d ds] r'] eqn:Esp; [discriminate|].
      pose proof (spanDigits_spec s1) as Hsp. rewrite Esp in Hsp.
      cbn [fst snd] in Hsp. destruct Hsp as (H1 & H2 & _). cbn [fst snd] in *.
      intros [= <- <-]. split; [cbn in *; congruence|].
      constructor; [assumption|]. constructor; [assumption|]. by apply digits_closers.
    + destruct (spanDigits (g :: s1)) as [[|d ds] r'] eqn:Esp; [discriminate|].
      pose proof (spanDigits_spec (g :: s1)) as Hsp. rewrite Esp in Hsp.
      cbn [fst snd] in Hsp. destruct Hsp as (H1 & H2 & _).
      cbn [fst snd] in *.
      intros [= <- <-]. split; [cbn in *; congruence|].
      constructor; [assumption|]. by apply digits_closers.
Qed.

Lemma numberExponent_app (s l r x : jsstring) :
  numberExponent s = Some (l, r) -> r <> [] ->
  numberExponent (s ++ x) = Some (l, r ++ x).
Proof.
  unfold numberExponent. destruct s as [|e s]; [by intros [= <- <-]|]. cbn [app].
  destruct ((e =? 101) || (e =? 69)); [|by intros [= <- <-]].
  destruct s as [|g s1]; [cbn; discriminate|]. cbn [app].
  destruct ((g =? 43) || (g =? 45)).
  - destruct (spanDigits s1) as [[|d ds] r'] eqn:E; [discriminate|].
    intros [= <- <-] Hr. rewrite spanDigits_app; rewrite E; [reflexivity|exact Hr].
  - destruct (spanDigits (g :: s1)) as [[|d ds] r'] eqn:E; [discriminate|].
    intros [= <- <-] Hr.
    change (g :: s1 ++ x) with ((g :: s1) ++ x).
    rewrite spanDigits_app; rewrite E; [reflexivity|exact Hr].
Qed.

Lemma parseNumber_spec (s lex r : jsstring) :
  parseNumber s = Some (lex, r) ->
  s = lex ++ r /\ Forall closer lex /\ lex <> [].
Proof.
  unfold parseNumber. pose proof (numberSign_spec s) as [Hs1 Hs2].
  destruct (numberSign s) as [sign s1]. cbn in Hs1, Hs2.
  destruct (numberInt s1) as [[int s2]|] eqn:Ei; [|discriminate].
  destruct (numberFraction s2) as [[fr s3]|] eqn:Ef; [|discriminate].
  destruct (numberExponent s3) as [[ex r']|] eqn:Ee; [|discriminate].
  intros [= <- <-].
  apply numberInt_spec in Ei as (-> & Hi & Hne).
  apply numberFraction_spec in Ef as (-> & Hf).
  apply numberExponent_spec in Ee as (-> & He).
  split; [|split].
  - rewrite Hs1, <- !app_assoc. reflexivity.
  - repeat (apply Forall_app; split); assumption.
  - destruct sign, int; try done.
Qed.

Lemma parseNumber_app (s lex r x : jsstring) :
  parseNumber s = Some (lex, r) -> r <> [] ->
  parseNumber (s ++ x) = Some (lex, r ++ x).
Proof.
  unfold parseNumber. intros H Hr.
  assert (Hs : s <> []) by (intros ->; discriminate).
  rewrite numberSign_app by exact Hs.
  destruct (numberSign s) as [sign s1]. cbn [fst snd].
  destruct (numberInt s1) as [[int s2]|] eqn:Ei; [|discriminate].
  destruct (numberFraction s2) as [[fr s3]|] eqn:Ef; [|discriminate].
  destruct (numberExponent s3) as [[ex r']|] eqn:Ee; [|discriminate].
  injection H as <- <-.
  pose proof (numberExponent_spec _ _ _ Ee) as [-> _].
  pose proof (numberFraction_spec _ _ _ Ef) as [-> _].
  rewrite (numberInt_app _ _ _ x Ei) by (destruct fr, ex, r'; done).
  rewrite (numberFraction_app _ _ _ x Ef) by (destruct ex, r'; done).
  rewrite (numberExponent_app _ _ _ x Ee) by exact Hr.
  reflexivity.
Qed.

(** ** What a successful parse consumes *)

Lemma consumed_here (pre : jsstring) c (r : jsstring) :
  closer c -> consumed (pre ++ c :: r) r.
Proof. intros H. by exists pre, c. Qed.

Lemma consumed_more (pre s r : jsstring) :
  consumed s r -> consumed (pre ++ s) r.
Proof.
  intros (p & c & -> & H). exists (pre ++ p), c. by rewrite <- app_assoc.
Qed.

Lemma consumed_trans (s r r' : jsstring) :
  consumed s r -> consumed r r' -> consumed s r'.
Proof.
  intros (p & c & -> & H) H'. apply (consumed_more (p ++ [c])) in H'.
  by rewrite <- app_assoc in H'.
Qed.

Lemma consumed_skipWs (s r : jsstring) : consumed (skipWs s) r -> consumed s r.
Proof.
  destruct (skipWs_consumes s) as (pre & E & _). intros H.
  rewrite E. by apply consumed_more.
Qed.

Lemma consumed_length (s r : jsstring) :
  consumed s r -> (length r < length s)%nat.
Proof. intros (p & c & -> & _). rewrite length_app. cbn. lia. Qed.

Lemma consumed_string (s t r : jsstring) :
  parseStringChars s = Some (t, r) -> consumed s r.
Proof.
  intros H. destruct (parseStringChars_consumes _ _ _ H) as [pre ->].
  apply consumed_here. unfold closer. lia.
Qed.

Lemma consumed_number (s lex r : jsstring) :
  parseNumber s = Some (lex, r) -> consumed s r.
Proof.
  intros H. apply parseNumber_spec in H as (-> & Hc & Hne).
  destruct (exists_last Hne) as (pre & d & ->).
  rewrite <- app_assoc. apply consumed_here.
  apply Forall_app in Hc as [_ Hd]. by inversion Hd.
Qed.

Lemma consumed_literal (lit s r : jsstring) :
  lit <> [] -> Forall closer lit -> stripPrefix lit s = Some r -> consumed s r.
Proof.
  intros Hne Hc H. apply stripPrefix_consumes in H as ->.
  destruct (exists_last Hne) as (pre & d & ->).
  rewrite <- app_assoc. apply consumed_here.
  apply Forall_app in Hc as [_ Hd]. by inversion Hd.
Qed.

Lemma literal_closers :
  Forall closer (js "true") /\ Forall closer (js "false") /\ Forall closer (js "null").
Proof.
  assert (H : forall l, forallb (fun c => (34 <=? c) && (c <=? 125)) l = true ->
                        Forall closer l).
  { induction l as [|c l IH]; cbn; [constructor|].
    intros Hc. apply andb_true_iff in Hc as [Hc Hl].
    apply andb_true_iff in Hc as [H1 H2]. apply Z.leb_le in H1, H2.
    constructor; [split; assumption|by apply IH]. }
  repeat split; apply H; reflexivity.
Qed.

Lemma parse_consumed (n : nat) :
  (forall s v r, parseValue n s = POk v r -> consumed s r)
  /\ (forall s acc v r, parseElements n s acc = POk v r -> consumed s r)
  /\ (forall s acc v r, parseMembers n s acc = POk v r -> consumed s r).
Proof.
  destruct literal_closers as (Ht & Hf & Hn).
  induction n as [|n (IHv & IHe & IHm)].
  { destruct parse_O as (Hv & He & Hm).
    repeat split; intros *; rewrite ?Hv, ?He, ?Hm; discriminate. }
  repeat split.
  - intros s v r. rewrite parseValue_S. intros H. apply consumed_skipWs.
    destruct (skipWs s) as [|c s0]; [discriminate|].
    destruct (c =? 123).
    { destruct (skipWs_consumes s0) as (ws & E & _).
      destruct (skipWs s0) as [|c' r']; [discriminate|].
      destruct (Z.eqb_spec c' 125) as [->|].
      - injection H as _ <-. rewrite E. apply (consumed_more [c]), consumed_here.
        unfold closer. lia.
      - apply (consumed_more [c]). by apply IHm in H. }
    destruct (c =? 91).
    { destruct (skipWs_consumes s0) as (ws & E & _).
      destruct (skipWs s0) as [|c' r']; [discriminate|].
      destruct (Z.eqb_spec c' 93) as [->|].
      - injection H as _ <-. rewrite E. apply (consumed_more [c]), consumed_here.
        unfold closer. lia.
      - apply (consumed_more [c]). by apply IHe in H. }
    destruct (c =? 34).
    { destruct (parseStringChars s0) as [[t r']|] eqn:E; [|discriminate].
      injection H as _ <-. apply (consumed_more [c]). by apply consumed_string in E. }
    destruct (c =? 116).
    { destruct (stripPrefix _ _) as [r'|] eqn:E; [|discriminate].
      injection H as _ <-. by apply consumed_literal in E. }
    destruct (c =? 102).
    { destruct (stripPrefix _ _) as [r'|] eqn:E; [|discriminate].
      injection H as _ <-. by apply consumed_literal in E. }
    destruct (c =? 110).
    { destruct (stripPrefix _ _) as [r'|] eqn:E; [|discriminate].
      injection H as _ <-. by apply consumed_literal in E. }
    destruct (parseNumber _) as [[lex r']|] eqn:E; [|discriminate].
    injection H as _ <-. by apply consumed_number in E.
  - intros s acc v r. rewrite parseElements_S.
    destruct (parseValue n s) as [v1 r1| |] eqn:Ev; [|discriminate..].
    apply IHv in Ev. intros H. apply (consumed_trans _ _ _ Ev).
    apply consumed_skipWs. destruct (skipWs r1) as [|c r2]; [discriminate|].
    destruct (c =? 44).
    { apply (consumed_more [c]). by apply IHe in H. }
    destruct (Z.eqb_spec c 93) as [->|]; [|discriminate].
    injection H as _ <-. apply (consumed_here []). unfold closer. lia.
  - intros s acc v r. rewrite parseMembers_S. intros H. apply consumed_skipWs.
    destruct (skipWs s) as [|q s0]; [discriminate|].
    destruct (q =? 34); [|discriminate]. apply (consumed_more [q]).
    destruct (parseStringChars s0) as [[k r1]|] eqn:Ek; [|discriminate].
    apply consumed_string in Ek. apply (consumed_trans _ _ _ Ek).
    apply consumed_skipWs. destruct (skipWs r1) as [|c r2]; [discriminate|].
    destruct (c =? 58); [|discriminate]. apply (consumed_more [c]).
    destruct (parseValue n r2) as [v1 r3| |] eqn:Ev; [|discriminate..].
    apply IHv in Ev. apply (consumed_trans _ _ _ Ev).
    apply consumed_skipWs. destruct (skipWs r3) as [|c' r4]; [discriminate|].
    destruct (c' =? 44).
    { apply (consumed_more [c']). by apply IHm in H. }
    destruct (Z.eqb_spec c' 125) as [->|]; [|discriminate].
    injection H as _ <-. apply (consumed_here []). unfold closer. lia.
Qed.

Lemma skipWs_length (s : jsstring) : (length (skipWs s) <= length s)%nat.
Proof.
  destruct (skipWs_consumes s) as (pre & E & _).
  rewrite E at 2. rewrite length_app. lia.
Qed.

(** ** The fuel of [JSON_parse] is never exhausted *)

Lemma parse_fuel_enough (n : nat) :
  (forall s, (2 * length s + 1 <= n)%nat -> parseValue n s <> PFuel)
  /\ (forall s acc, (2 * length s + 2 <= n)%nat -> parseElements n s acc <> PFuel)
  /\ (forall s acc, (2 * length s + 2 <= n)%nat -> parseMembers n s acc <> PFuel).
Proof.
  induction n as [|n (IHv & IHe & IHm)]; [repeat split; intros; lia|].
  repeat split.
  - intros s Hn. rewrite parseValue_S. pose proof (skipWs_length s) as Hs.
    destruct (skipWs s) as [|c s0]; [discriminate|]. cbn [length] in Hs.
    repeat (destruct (_ =? _);
            [try (destruct (skipWs s0) as [|c' r']; [discriminate|];
                  destruct (_ =? _); [discriminate|]; first [apply IHm|apply IHe]; lia);
             try (destruct (parseStringChars _) as [[? ?]|]; discriminate);
             try (destruct (stripPrefix _ _); discriminate)|]).
    destruct (parseNumber _) as [[? ?]|]; discriminate.
  - intros s acc Hn. rewrite parseElements_S.
    destruct (parseValue n s) as [v1 r1| |] eqn:Ev.
    + apply (proj1 (parse_consumed n)), consumed_length in Ev.
      pose proof (skipWs_length r1) as Hs.
      destruct (skipWs r1) as [|c r2]; [discriminate|]. cbn [length] in Hs.
      destruct (_ =? _); [apply IHe; lia|].
      destruct (_ =? _); discriminate.
    + discriminate.
    + exfalso. revert Ev. apply IHv. lia.
  - intros s acc Hn. rewrite parseMembers_S. pose proof (skipWs_length s) as Hs.
    destruct (skipWs s) as [|q s0]; [discriminate|]. cbn [length] in Hs.
    destruct (q =? 34); [|discriminate].
    destruct (parseStringChars s0) as [[k r1]|] eqn:Ek; [|discriminate].
    apply consumed_string, consumed_length in Ek.
    pose proof (skipWs_length r1) as Hs1.
    destruct (skipWs r1) as [|c r2]; [discriminate|]. cbn [length] in Hs1.
    destruct (c =? 58); [|discriminate].
    destruct (parseValue n r2) as [v1 r3| |] eqn:Ev.
    + apply (proj1 (parse_consumed n)), consumed_length in Ev.
      pose proof (skipWs_length r3) as Hs3.
      destruct (skipWs r3) as [|c' r4]; [discriminate|]. cbn [length] in Hs3.
      destruct (_ =? _); [apply IHm; lia|].
      destruct (_ =? _); discriminate.
    + discriminate.
    + exfalso. revert Ev. apply IHv. lia.
Qed.

Lemma parseValue_fuel (s : jsstring) : parseValue (parseFuel s) s <> PFuel.
Proof. apply parse_fuel_enough. unfold parseFuel. lia. Qed.

(** A parse with any fuel that gives an answer is the parse of [JSON_parse]. *)
Lemma JSON_parse_fuel (n : nat) (s : jsstring) v r :
  parseValue n s = POk v r ->
  JSON_parse s = match skipWs r with [] => Some v | _ :: _ => None end.
Proof.
  intros H. unfold JSON_parse.
  rewrite (parseValue_fuel_agree (parseFuel s) n), H;
    [reflexivity|apply parseValue_fuel|by rewrite H].
Qed.

Lemma JSON_parse_inv (s : jsstring) v :
  JSON_parse s = Some v ->
  exists r, parseValue (parseFuel s) s = POk v r /\ skipWs r = [].
Proof.
  unfold JSON_parse. destruct (parseValue _ s) as [v' r| |]; [|discriminate..].
  destruct (skipWs r) eqn:E; [|discriminate]. intros [= ->]. by exists r.
Qed.

(** ** A parse is not disturbed by what follows the value *)

Lemma skipWs_nonempty (s : jsstring) c r : skipWs s = c :: r -> s <> [].
Proof. by destruct s. Qed.

Lemma parse_app (n : nat) :
  (forall p v r x, parseValue n p = POk v r -> isNumber v = false \/ r <> [] ->
     parseValue n (p ++ x) = POk v (r ++ x))
  /\ (forall p acc v r x, parseElements n p acc = POk v r ->
        parseElements n (p ++ x) acc = POk v (r ++ x))
  /\ (forall p acc v r x, parseMembers n p acc = POk v r ->
        parseMembers n (p ++ x) acc = POk v (r ++ x)).
Proof.
  induction n as [|n (IHv & IHe & IHm)].
  { destruct parse_O as (Hv & He & Hm).
    repeat split; intros *; rewrite ?Hv, ?He, ?Hm; discriminate. }
  repeat split.
  - intros p v r x. rewrite !parseValue_S.
    destruct (skipWs p) as [|c s0] eqn:Ep; [discriminate|].
    rewrite (skipWs_app _ x _ _ Ep).
    destruct (c =? 123).
    { destruct (skipWs s0) as [|c' r'] eqn:E0; [discriminate|].
      rewrite (skipWs_app _ x _ _ E0).
      destruct (c' =? 125); [by intros [= <- <-]|]. intros H _. by apply IHm. }
    destruct (c =? 91).
    { destruct (skipWs s0) as [|c' r'] eqn:E0; [discriminate|].
      rewrite (skipWs_app _ x _ _ E0).
      destruct (c' =? 93); [by intros [= <- <-]|]. intros H _. by apply IHe. }
    destruct (c =? 34).
    { destruct (parseStringChars s0) as [[t r']|] eqn:E; [|discriminate].
      rewrite (parseStringChars_app _ x _ _ E). by intros [= <- <-]. }
    destruct (c =? 116).
    { change (c :: s0 ++ x) with ((c :: s0) ++ x).
      destruct (stripPrefix _ (c :: s0)) as [r'|] eqn:E; [|discriminate].
      rewrite (stripPrefix_app _ _ _ x E). by intros [= <- <-]. }
    destruct (c =? 102).
    { change (c :: s0 ++ x) with ((c :: s0) ++ x).
      destruct (stripPrefix _ (c :: s0)) as [r'|] eqn:E; [|discriminate].
      rewrite (stripPrefix_app _ _ _ x E). by intros [= <- <-]. }
    destruct (c =? 110).
    { change (c :: s0 ++ x) with ((c :: s0) ++ x).
      destruct (stripPrefix _ (c :: s0)) as [r'|] eqn:E; [|discriminate].
      rewrite (stripPrefix_app _ _ _ x E). by intros [= <- <-]. }
    change (c :: s0 ++ x) with ((c :: s0) ++ x).
    destruct (parseNumber (c :: s0)) as [[lex r']|] eqn:E; [|discriminate].
    intros [= <- <-] [Hv|Hr]; [discriminate|].
    by rewrite (parseNumber_app _ _ _ x E Hr).
  - intros p acc v r x. rewrite !parseElements_S.
    destruct (parseValue n p) as [v1 r1| |] eqn:Ev; [|discriminate..].
    destruct (skipWs r1) as [|c r2] eqn:E1; [discriminate|].
    rewrite (IHv _ _ _ x Ev) by (right; by eapply skipWs_nonempty).
    rewrite (skipWs_app _ x _ _ E1).
    destruct (c =? 44); [apply IHe|].
    destruct (c =? 93); [by intros [= <- <-]|discriminate].
  - intros p acc v r x. rewrite !parseMembers_S.
    destruct (skipWs p) as [|q s0] eqn:Ep; [discriminate|].
    rewrite (skipWs_app _ x _ _ Ep).
    destruct (q =? 34); [|discriminate].
    destruct (parseStringChars s0) as [[k r1]|] eqn:Ek; [|discriminate].
    rewrite (parseStringChars_app _ x _ _ Ek).
    destruct (skipWs r1) as [|c r2] eqn:E1; [discriminate|].
    rewrite (skipWs_app _ x _ _ E1).
    destruct (c =? 58); [|discriminate].
    destruct (parseValue n r2) as [v1 r3| |] eqn:Ev; [|discriminate..].
    destruct (skipWs r3) as [|c' r4] eqn:E3; [discriminate|].
    rewrite (IHv _ _ _ x Ev) by (right; by eapply skipWs_nonempty).
    rewrite (skipWs_app _ x _ _ E3).
    destruct (c' =? 44); [apply IHm|].
    destruct (c' =? 125); [by intros [= <- <-]|discriminate].
Qed.

Lemma parseMembers_object (n : nat) :
  forall s acc v r, parseMembers n s acc = POk v r -> isNumber v = false.
Proof.
  induction n as [|n IH]; intros s acc v r.
  { by rewrite (proj2 (proj2 parse_O)). }
  rewrite parseMembers_S.
  destruct (skipWs s) as [|q s0]; [discriminate|].
  destruct (q =? 34); [|discriminate].
  destruct (parseStringChars s0) as [[k r1]|]; [|discriminate].
  destruct (skipWs r1) as [|c r2]; [discriminate|].
  destruct (c =? 58); [|discriminate].
  destruct (parseValue n r2) as [v1 r3| |]; [|discriminate..].
  destruct (skipWs r3) as [|c' r4]; [discriminate|].
  destruct (c' =? 44); [apply IH|].
  destruct (c' =? 125); [by intros [= <- <-]|discriminate].
Qed.

Lemma parseValue_object (n : nat) (s : jsstring) v r :
  parseValue n (123 :: s) = POk v r -> isNumber v = false.
Proof.
  destruct n; [by rewrite (proj1 parse_O)|]. rewrite parseValue_S.
  cbn [skipWs isWs]. change (isWs 123) with false. cbv iota.
  change (123 =? 123) with true. cbv iota.
  destruct (skipWs s) as [|c' r']; [discriminate|].
  destruct (c' =? 125); [by intros [= <- <-]|]. apply parseMembers_object.
Qed.

(** No proper prefix of the text of an object is a JSON text. *)
Lemma JSON_parse_prefix (n : nat) (T' P X : jsstring) v :
  parseValue n (123 :: T') = POk v [] ->
  123 :: T' = P ++ X -> X <> [] ->
  JSON_parse P = None.
Proof.
  intros HT E HX. destruct (JSON_parse P) as [v'|] eqn:HP; [exfalso|reflexivity].
  apply JSON_parse_inv in HP as (r' & HP & Hws).
  destruct P as [|c P']. 
  { unfold parseFuel in HP. cbn in HP. rewrite parseValue_S in HP. discriminate. }
  injection E as <- E.
  pose proof (parseValue_object _ _ _ _ HP) as Hobj.
  apply (proj1 (parse_app _)) with (x := X) in HP; [|by left].
  change ((123 :: P') ++ X) with (123 :: P' ++ X) in HP. rewrite <- E in HP.
  assert (Heq : POk v' (r' ++ X) = POk v []).
  { rewrite <- HP, <- HT. apply parseValue_fuel_agree; [by rewrite HP|by rewrite HT]. }
  injection Heq as _ Heq. destruct r'; [cbn in Heq; by subst|discriminate].
Qed.

Lemma skipWs_nil (r : jsstring) : skipWs r = [] -> Forall (fun c => isWs c = true) r.
Proof.
  induction r as [|c r IH]; [constructor|]. cbn [skipWs].
  destruct (isWs c) eqn:E; [|discriminate]. intros H. constructor; auto.
Qed.

(** A text whose last character is U+FFFD is not a JSON text. *)
Lemma JSON_parse_replacement (P : jsstring) : JSON_parse (P ++ [0xFFFD]) = None.
Proof.
  destruct (JSON_parse _) as [v|] eqn:H; [exfalso|reflexivity].
  apply JSON_parse_inv in H as (r & H & Hws).
  apply (proj1 (parse_consumed _)) in H as (pre & c & E & Hc).
  apply skipWs_nil in Hws.
  destruct (decide (r = [])) as [->|Hr].
  - change (pre ++ [c]) with (pre ++ [c]) in E.
    apply app_inj_tail in E as [_ <-]. unfold closer in Hc. lia.
  - destruct (exists_last Hr) as (r0 & d & ->).
    rewrite app_comm_cons, app_assoc in E.
    apply app_inj_tail in E as [_ <-].
    apply Forall_app in Hws as [_ Hd]. inversion Hd as [|? ? Hd' _]. discriminate.
Qed.

(** * [JSON.parse] after [JSON.stringify] *)

Lemma hexVal_hexDigit (n : Z) : 0 <= n < 16 -> hexVal (hexDigit n) = Some n.
Proof.
  intros H. unfold hexVal, hexDigit, isDigit.
  destruct (Z.ltb_spec n 10); ztests; f_equal; lia.
Qed.

Lemma hexDigit_range (n : Z) : 0 <= n < 16 -> 48 <= hexDigit n <= 102.
Proof. intros H. unfold hexDigit. destruct (Z.ltb_spec n 10); lia. Qed.

Lemma stringStep_unicodeEscape (u : Z) (r : jsstring) :
  isCodeUnit u -> stringStep (unicodeEscape u ++ r) = Some (Some u, r).
Proof.
  unfold isCodeUnit, unicodeEscape. intros H. cbn [app stringStep]. ztests.
  assert (0 <= u / 4096 < 16 /\ 0 <= (u / 256) mod 16 < 16
          /\ 0 <= (u / 16) mod 16 < 16 /\ 0 <= u mod 16 < 16
          /\ u / 4096 * 4096 + (u / 256) mod 16 * 256 + (u / 16) mod 16 * 16 + u mod 16 = u)
    as (H1 & H2 & H3 & H4 & He) by (Z.div_mod_to_equations; lia).
  rewrite !hexVal_hexDigit by assumption. by rewrite He.
Qed.

Lemma stringStep_plain (c : Z) (r : jsstring) :
  32 <= c -> c <> 34 -> c <> 92 -> stringStep (c :: r) = Some (Some c, r).
Proof. intros. cbn [stringStep]. ztests. reflexivity. Qed.

Lemma quoteChars_cons (u : Z) (rest : jsstring) :
  quoteChars (u :: rest) =
  if u =? 8 then 92 :: 98 :: quoteChars rest
  else if u =? 9 then 92 :: 116 :: quoteChars rest
  else if u =? 10 then 92 :: 110 :: quoteChars rest
  else if u =? 12 then 92 :: 102 :: quoteChars rest
  else if u =? 13 then 92 :: 114 :: quoteChars rest
  else if u =? 34 then 92 :: 34 :: quoteChars rest
  else if u =? 92 then 92 :: 92 :: quoteChars rest
  else if u <? 32 then unicodeEscape u ++ quoteChars rest
  else if isHighSurrogate u then
    match rest with
    | v :: rest' =>
        if isLowSurrogate v then u :: v :: quoteChars rest'
        else unicodeEscape u ++ quoteChars rest
    | [] => unicodeEscape u
    end
  else if isLowSurrogate u then unicodeEscape u ++ quoteChars rest
  else u :: quoteChars rest.
Proof. destruct rest; reflexivity. Qed.

Lemma ascii_wellFormed (s : jsstring) :
  Forall (fun c => 0 <= c < 0xD800) s -> wellFormed s = true.
Proof.
  induction 1 as [|c s Hc _ IH]; [reflexivity|].
  rewrite wellFormed_cons. unfold isHighSurrogate, isLowSurrogate. ztests. exact IH.
Qed.

Lemma unicodeEscape_wellFormed (u : Z) : isCodeUnit u -> wellFormed (unicodeEscape u) = true.
Proof.
  unfold isCodeUnit, unicodeEscape. intros H. apply ascii_wellFormed.
  assert (0 <= u / 4096 < 16 /\ 0 <= (u / 256) mod 16 < 16
          /\ 0 <= (u / 16) mod 16 < 16 /\ 0 <= u mod 16 < 16)
    as (H1 & H2 & H3 & H4) by (Z.div_mod_to_equations; lia).
  apply hexDigit_range in H1, H2, H3, H4.
  repeat (apply Forall_cons; split; [lia|]). apply Forall_nil; exact I.
Qed.

Lemma quoteChars_step (u : Z) (rest : jsstring) :
  isCodeUnit u ->
  (isHighSurrogate u = true ->
   match rest with v :: _ => isLowSurrogate v = false | [] => True end) ->
  exists e, quoteChars (u :: rest) = e ++ quoteChars rest
            /\ (forall r, stringStep (e ++ r) = Some (Some u, r))
            /\ wellFormed e = true.
Proof.
  intros Hu Hpair. rewrite quoteChars_cons.
  assert (Hesc : exists e, unicodeEscape u ++ quoteChars rest = e ++ quoteChars rest
            /\ (forall r, stringStep (e ++ r) = Some (Some u, r))
            /\ wellFormed e = true).
  { exists (unicodeEscape u). split; [reflexivity|].
    split; [intros r; by apply stringStep_unicodeEscape
           |by apply unicodeEscape_wellFormed]. }
  destruct (Z.eqb_spec u 8) as [->|]; [by exists [92; 98]|].
  destruct (Z.eqb_spec u 9) as [->|]; [by exists [92; 116]|].
  destruct (Z.eqb_spec u 10) as [->|]; [by exists [92; 110]|].
  destruct (Z.eqb_spec u 12) as [->|]; [by exists [92; 102]|].
  destruct (Z.eqb_spec u 13) as [->|]; [by exists [92; 114]|].
  destruct (Z.eqb_spec u 34) as [->|]; [by exists [92; 34]|].
  destruct (Z.eqb_spec u 92) as [->|]; [by exists [92; 92]|].
  destruct (Z.ltb_spec u 32); [exact Hesc|].
  destruct (isHighSurrogate u) eqn:Hh.
  { specialize (Hpair eq_refl). destruct rest as [|v rest'].
    - exists (unicodeEscape u). change (quoteChars []) with (@nil Z).
      split; [by rewrite app_nil_r|].
      split; [intros r; by apply stringStep_unicodeEscape
             |by apply unicodeEscape_wellFormed].
    - rewrite Hpair. exact Hesc. }
  destruct (isLowSurrogate u) eqn:Hl; [exact Hesc|].
  exists [u]. split; [reflexivity|]. unfold isCodeUnit in Hu. split.
  - intros r. apply stringStep_plain; lia.
  - rewrite wellFormed_cons, Hh, Hl. ztests. reflexivity.
Qed.

Lemma quoteChars_quoted (s : jsstring) :
  Forall isCodeUnit s -> quoted s (quoteChars s).
Proof.
  induction s as [| u | u v s IH1 IH2] using jsstring_ind2; intros Hs.
  - constructor.
  - inversion Hs as [|? ? Hu _]; subst.
    destruct (quoteChars_step u [] Hu) as (e & -> & H1 & H2); [done|].
    apply quoted_escape; [assumption|constructor|assumption..].
  - inversion Hs as [|? ? Hu Hvs]; subst.
    assert (Hs' : Forall isCodeUnit s) by (by inversion Hvs).
    destruct (isHighSurrogate u && isLowSurrogate v) eqn:Hp.
    + apply andb_true_iff in Hp as [Hh Hv].
      replace (quoteChars (u :: v :: s)) with (u :: v :: quoteChars s).
      { apply quoted_pair; auto. }
      rewrite quoteChars_cons, Hh, Hv. unfold isHighSurrogate in Hh.
      apply andb_true_iff in Hh as [Hh1 Hh2]. apply Z.leb_le in Hh1, Hh2.
      ztests. reflexivity.
    + destruct (quoteChars_step u (v :: s) Hu) as (e & -> & H1 & H2).
      { intros Hh. rewrite Hh in Hp. exact Hp. }
      apply quoted_escape; auto.
Qed.

Lemma wellFormed_app (a b : jsstring) :
  wellFormed a = true -> wellFormed b = true -> wellFormed (a ++ b) = true.
Proof.
  intros Ha Hb. induction a as [| u | u v a IH1 IH2] using jsstring_ind2.
  - exact Hb.
  - revert Ha. cbn [app]. rewrite !wellFormed_cons.
    destruct ((0 <=? u) && (u <? 65536)); [|done]. cbn [andb].
    destruct (isHighSurrogate u); [done|].
    destruct (isLowSurrogate u); [done|]. intros _. exact Hb.
  - revert Ha. change ((u :: v :: a) ++ b) with (u :: (v :: a) ++ b).
    rewrite (wellFormed_cons u), (wellFormed_cons u ((v :: a) ++ b)).
    destruct ((0 <=? u) && (u <? 65536)); [|done]. cbn [andb].
    destruct (isHighSurrogate u).
    + cbn [app]. destruct (isLowSurrogate v); [|done]. cbn [andb]. exact IH1.
    + destruct (isLowSurrogate u); [done|]. cbn [negb andb]. exact IH2.
Qed.

Lemma quoted_wellFormed (s q : jsstring) : quoted s q -> wellFormed q = true.
Proof.
  induction 1 as [|u s q e Hu _ IH _ He|u v s q Hu Hv _ IH]; [reflexivity| |].
  - by apply wellFormed_app.
  - rewrite wellFormed_cons, Hu, Hv, IH.
    unfold isHighSurrogate in Hu. apply andb_true_iff in Hu as [H1 H2].
    apply Z.leb_le in H1, H2. ztests. reflexivity.
Qed.

Lemma quoted_parse (s q : jsstring) :
  quoted s q -> forall rest, parseStringChars (q ++ 34 :: rest) = Some (s, rest).
Proof.
  induction 1 as [|u s q e Hu _ IH He _|u v s q Hu Hv _ IH]; intros rest.
  - reflexivity.
  - rewrite parseStringChars_eq, <- app_assoc, He, IH. reflexivity.
  - unfold isHighSurrogate in Hu. unfold isLowSurrogate in Hv.
    apply andb_true_iff in Hu as [H1 H2]. apply Z.leb_le in H1, H2.
    apply andb_true_iff in Hv as [H3 H4]. apply Z.leb_le in H3, H4.
    cbn [app]. rewrite parseStringChars_eq, stringStep_plain by lia.
    rewrite parseStringChars_eq, stringStep_plain by lia.
    rewrite IH. reflexivity.
Qed.

Lemma parse_quoteJSONString (s rest : jsstring) :
  Forall isCodeUnit s ->
  parseStringChars (quoteChars s ++ 34 :: rest) = Some (s, rest).
Proof. intros H. by apply quoted_parse, quoteChars_quoted. Qed.

Lemma quoteJSONString_wellFormed (s : jsstring) :
  Forall isCodeUnit s -> wellFormed (quoteJSONString s) = true.
Proof.
  intros H. unfold quoteJSONString.
  change (34 :: quoteChars s ++ [34]) with ([34] ++ quoteChars s ++ [34]).
  apply wellFormed_app; [reflexivity|].
  apply wellFormed_app; [|reflexivity].
  by apply (quoted_wellFormed s), quoteChars_quoted.
Qed.

(** Decimal digits. *)
Lemma digitsAux_spec (fuel : nat) : forall (n : Z) (acc : jsstring),
  0 < n < 2 ^ Z.of_nat fuel ->
  exists d ds, digitsAux fuel n acc = d :: ds ++ acc
               /\ 49 <= d <= 57 /\ Forall (fun c => isDigit c = true) ds.
Proof.
  induction fuel as [|fuel IH]; intros n acc Hn.
  { change (2 ^ Z.of_nat 0) with 1 in Hn. lia. }
  cbn [digitsAux]. destruct (Z.ltb_spec n 10) as [Hlt|Hge].
  - exists (48 + n), []. repeat split; [lia|lia|constructor].
  - destruct (IH (n / 10) ((48 + n mod 10) :: acc)) as (d & ds & E & Hd & Hds).
    { rewrite Nat2Z.inj_succ, Z.pow_succ_r in Hn by lia.
      split; [Z.div_mod_to_equations; lia|].
      apply Z.div_lt_upper_bound; lia. }
    exists d, (ds ++ [48 + n mod 10]). rewrite E, <- app_assoc.
    repeat split; try lia. apply Forall_app. split; [exact Hds|].
    constructor; [|constructor]. unfold isDigit.
    assert (0 <= n mod 10 < 10) by (apply Z.mod_pos_bound; lia). ztests. reflexivity.
Qed.

Lemma numberToString_spec (n : Z) :
  0 <= n ->
  exists d ds, numberToString n = d :: ds
               /\ isDigit d = true /\ Forall (fun c => isDigit c = true) ds
               /\ (d = 48 -> ds = []).
Proof.
  intros Hn. destruct (Z.eq_dec n 0) as [->|Hne].
  { exists 48, []. repeat split; constructor. }
  unfold numberToString.
  destruct (digitsAux_spec (S (Z.to_nat (Z.log2 n))) n []) as (d & ds & E & Hd & Hds).
  { split; [lia|]. rewrite Nat2Z.inj_succ, Z2Nat.id by apply Z.log2_nonneg.
    apply Z.log2_spec. lia. }
  exists d, ds. rewrite E, app_nil_r. repeat split; [|exact Hds|lia].
  unfold isDigit. ztests. reflexivity.
Qed.

Lemma parse_numberToString (n : Z) (rest : jsstring) :
  0 <= n ->
  parseNumber (numberToString n ++ 125 :: rest) = Some (numberToString n, 125 :: rest).
Proof.
  intros Hn. destruct (numberToString_spec n Hn) as (d & ds & -> & Hd & Hds & H0).
  unfold parseNumber, numberSign. cbn [app].
  assert (Hd' : 48 <= d <= 57).
  { unfold isDigit in Hd. apply andb_true_iff in Hd as [H1 H2].
    apply Z.leb_le in H1, H2. lia. }
  replace (d =? 45) with false by (symmetry; apply Z.eqb_neq; lia).
  unfold numberInt. rewrite Hd. cbn [negb].
  assert (Hspan : spanDigits (ds ++ 125 :: rest) = (ds, 125 :: rest))
    by (by apply spanDigits_digits).
  destruct (Z.eqb_spec d 48) as [->|].
  - rewrite (H0 eq_refl). cbn [app]. reflexivity.
  - rewrite Hspan. cbn. rewrite !app_nil_r. reflexivity.
Qed.

Lemma numberToString_wellFormed (n : Z) :
  0 <= n -> wellFormed (numberToString n) = true.
Proof.
  intros Hn. destruct (numberToString_spec n Hn) as (d & ds & -> & Hd & Hds & _).
  apply ascii_wellFormed.
  assert (Hall : Forall (fun c => isDigit c = true) (d :: ds)) by (by constructor).
  eapply Forall_impl; [exact Hall|].
  intros c Hc. cbn in Hc. unfold isDigit in Hc. apply andb_true_iff in Hc as [H1 H2].
  apply Z.leb_le in H1, H2. lia.
Qed.

(** ** Parsing the metadata that [compressDirectory] writes *)

Lemma skipWs_here (c : Z) (r : jsstring) : isWs c = false -> skipWs (c :: r) = c :: r.
Proof. intros H. cbn [skipWs]. by rewrite H. Qed.

Lemma parseValue_string (n : nat) (s rest : jsstring) :
  Forall isCodeUnit s ->
  parseValue (S n) (quoteJSONString s ++ rest) = POk (JString s) rest.
Proof.
  intros Hs. rewrite parseValue_S. unfold quoteJSONString.
  cbn [app]. rewrite skipWs_here by reflexivity.
  change (34 =? 123) with false. change (34 =? 91) with false.
  change (34 =? 34) with true. cbv iota.
  rewrite <- app_assoc. cbn [app]. by rewrite parse_quoteJSONString.
Qed.

Lemma parseValue_number (n : nat) (k : Z) (rest : jsstring) :
  0 <= k ->
  parseValue (S n) (numberToString k ++ 125 :: rest)
  = POk (JNumber (numberToString k)) (125 :: rest).
Proof.
  intros Hk. rewrite parseValue_S.
  pose proof (parse_numberToString k rest Hk) as Hp.
  destruct (numberToString_spec k Hk) as (d & ds & E & Hd & _).
  rewrite E in *. cbn [app] in *.
  unfold isDigit in Hd. apply andb_true_iff in Hd as [H1 H2]. apply Z.leb_le in H1, H2.
  rewrite skipWs_here by (unfold isWs; ztests; reflexivity).
  ztests. by rewrite Hp.
Qed.

Lemma parseValue_members (n : nat) (t : jsstring) :
  parseValue (S n) (123 :: 34 :: t) = parseMembers n (34 :: t) [].
Proof. rewrite parseValue_S. reflexivity. Qed.

Lemma parseMembers_step (n : nat) (key vtext rest : jsstring) (c : Z) v acc :
  Forall isCodeUnit key -> c = 44 \/ c = 125 ->
  parseValue n (vtext ++ c :: rest) = POk v (c :: rest) ->
  parseMembers (S n) (quoteJSONString key ++ 58 :: vtext ++ c :: rest) acc
  = if c =? 44 then parseMembers n rest ((key, v) :: acc)
    else POk (JObject (rev ((key, v) :: acc))) rest.
Proof.
  intros Hk Hc Hv. rewrite parseMembers_S. unfold quoteJSONString.
  cbn [app]. rewrite skipWs_here by reflexivity.
  change (34 =? 34) with true. cbv iota.
  rewrite <- app_assoc. cbn [app]. rewrite parse_quoteJSONString by exact Hk.
  rewrite skipWs_here by reflexivity. change (58 =? 58) with true. cbv iota.
  rewrite Hv. destruct Hc as [-> | ->]; reflexivity.
Qed.

Lemma parseElements_step (n : nat) (vtext rest : jsstring) (c : Z) v acc :
  c = 44 \/ c = 93 ->
  parseValue n (vtext ++ c :: rest) = POk v (c :: rest) ->
  parseElements (S n) (vtext ++ c :: rest) acc
  = if c =? 44 then parseElements n rest (v :: acc)
    else POk (JArray (rev (v :: acc))) rest.
Proof.
  intros Hc Hv. rewrite parseElements_S, Hv.
  destruct Hc as [-> | ->]; reflexivity.
Qed.

Lemma stringify_array (vs : list json) :
  stringify (JArray vs) = 91 :: stringifyElements vs ++ [93].
Proof.
  reflexivity.
Qed.

Lemma stringify_descriptor (path : jsstring) (size : Z) (rest : jsstring) :
  stringify (fileDescriptor path size) ++ rest
  = 123 :: quoteJSONString (js "path") ++ 58 :: quoteJSONString path
    ++ 44 :: quoteJSONString (js "size") ++ 58 :: numberToString size ++ 125 :: rest.
Proof.
  unfold fileDescriptor. cbn [stringify].
  repeat (rewrite <- ?app_assoc; cbn [app]). reflexivity.
Qed.

Lemma js_codeUnits (s : string) : Forall isCodeUnit (js s).
Proof.
  unfold js. apply Forall_forall. intros c Hc.
  apply list_elem_of_In, in_map_iff in Hc as (a & <- & _).
  unfold isCodeUnit. pose proof (N_ascii_bounded a). lia.
Qed.

Lemma parse_descriptor (n : nat) (path : jsstring) (size : Z) (rest : jsstring) :
  Forall isCodeUnit path -> 0 <= size -> 
  parseValue (S (S (S (S n)))) (stringify (fileDescriptor path size) ++ rest)
  = POk (fileDescriptor path size) rest.
Proof.
  intros Hp Hs. rewrite stringify_descriptor.
  unfold quoteJSONString at 1. cbn [app]. rewrite parseValue_members.
  change (34 :: (quoteChars (js "path") ++ [34]) ++ ?t)
    with (quoteJSONString (js "path") ++ t).
  rewrite (parseMembers_step _ _ _ _ 44 (JString path));
    [|apply js_codeUnits|by left|by apply parseValue_string].
  change (44 =? 44) with true. cbv iota.
  rewrite (parseMembers_step _ _ _ _ 125 (JNumber (numberToString size)));
    [|apply js_codeUnits|by right|by apply parseValue_number].
  reflexivity.
Qed.

Lemma parse_descriptors (ds : list (jsstring * Z)) :
  Forall (fun d => Forall isCodeUnit d.1 /\ 0 <= d.2) ds -> ds <> [] ->
  forall fuel rest acc, (length ds + 4 <= fuel)%nat ->
  parseElements fuel
    (stringifyElements (map (fun d => fileDescriptor d.1 d.2) ds) ++ 93 :: rest) acc
  = POk (JArray (rev acc ++ map (fun d => fileDescriptor d.1 d.2) ds)) rest.
Proof.
  induction 1 as [|[p k] ds [Hp Hk] Hds IH]; [done|]. intros _ fuel rest acc Hfuel.
  cbn [map length fst snd] in *.
  destruct fuel as [|[|[|[|[|n]]]]]; try lia.
  destruct ds as [|d' ds'].
  - cbn [map stringifyElements].
    rewrite (parseElements_step _ _ _ 93 (fileDescriptor p k));
      [|by right|by apply parse_descriptor].
    change (93 =? 44) with false. cbv iota. cbn [rev]. reflexivity.
  - change (stringifyElements (fileDescriptor p k :: map _ (d' :: ds')))
      with (stringify (fileDescriptor p k) ++ 44 ::
            stringifyElements (map (fun d => fileDescriptor d.1 d.2) (d' :: ds'))).
    rewrite <- app_assoc. cbn [app].
    rewrite (parseElements_step _ _ _ 44 (fileDescriptor p k));
      [|by left|by apply parse_descriptor].
    change (44 =? 44) with true. cbv iota.
    rewrite IH; [|done|cbn [length] in *; lia].
    cbn [rev]. rewrite <- app_assoc. reflexivity.
Qed.

Lemma archiveMetadata_descriptors (created : jsstring) (files : JSObject) :
  archiveMetadata created files
  = JObject [(js "version", JString (js "1.0")); (js "created", JString created);
             (js "files", JArray (map (fun d => fileDescriptor d.1 d.2) (descriptors files)))].
Proof.
  unfold archiveMetadata, descriptors. rewrite map_map. reflexivity.
Qed.

Lemma stringify_archiveMetadata (created : jsstring) (files : JSObject) :
  stringify (archiveMetadata created files)
  = 123 :: quoteJSONString (js "version") ++ 58 :: quoteJSONString (js "1.0")
    ++ 44 :: quoteJSONString (js "created") ++ 58 :: quoteJSONString created
    ++ 44 :: quoteJSONString (js "files")
    ++ 58 :: (91 :: stringifyElements
                      (map (fun d => fileDescriptor d.1 d.2) (descriptors files))
              ++ [93]) ++ [125].
Proof.
  rewrite archiveMetadata_descriptors.
  set (ds := map _ (descriptors files)).
  change (stringify (JObject [(js "version", JString (js "1.0"));
                              (js "created", JString created); (js "files", JArray ds)]))
    with (123 :: (quoteJSONString (js "version") ++ 58 :: quoteJSONString (js "1.0")
            ++ 44 :: quoteJSONString (js "created") ++ 58 :: quoteJSONString created
            ++ 44 :: quoteJSONString (js "files") ++ 58 :: stringify (JArray ds)) ++ [125]).
  rewrite stringify_array.
  repeat (rewrite <- ?app_assoc; cbn [app]). reflexivity.
Qed.

Lemma descriptors_valid (files : JSObject) :
  Forall (fun p => Forall isCodeUnit p.1) files ->
  Forall (fun d => Forall isCodeUnit d.1 /\ 0 <= d.2) (descriptors files).
Proof.
  intros H. unfold descriptors. apply Forall_map, Forall_forall.
  intros k Hk. cbn. split; [|apply len_nonneg].
  unfold objectKeys in Hk. apply elem_of_app in Hk.
  assert (Hin : k ∈ map fst files).
  { destruct Hk as [Hk|Hk].
    - unfold sortBy in Hk.
      assert (Hgen : forall l acc, k ∈ fold_left
                (fun sorted x => insertSorted
                   (fun a b : jsstring => indexValue a 0 <? indexValue b 0) x sorted) l acc ->
                k ∈ l \/ k ∈ acc).
      { induction l as [|x l IH]; intros acc Hx; [by right|].
        cbn [fold_left] in Hx. destruct (IH _ Hx) as [Hl|Ha].
        - left. by right.
        - assert (Hins : forall y (l' : list jsstring),
                    k ∈ insertSorted (fun a b : jsstring => indexValue a 0 <? indexValue b 0) y l' ->
                    k = y \/ k ∈ l').
          { intros y l'. induction l' as [|z l' IH']; cbn [insertSorted].
            - intros Hy. apply list_elem_of_singleton in Hy. by left.
            - destruct (_ <? _); intros Hy; apply elem_of_cons in Hy.
              + destruct Hy as [->|Hy]; [by left|by right].
              + destruct Hy as [->|Hy]; [right; by left|].
                destruct (IH' Hy) as [->|Hz]; [by left|right; by right]. }
          destruct (Hins _ _ Ha) as [->|Hacc]; [left; by left|by right]. }
      destruct (Hgen _ _ Hk) as [Hf|Hf]; [|by apply not_elem_of_nil in Hf].
      by apply list_elem_of_filter in Hf as [_ Hf].
    - by apply list_elem_of_filter in Hk as [_ Hk]. }
  apply list_elem_of_fmap in Hin as ([k' c] & -> & Hin).
  rewrite Forall_forall in H. exact (H _ Hin).
Qed.

(** The metadata text is parsed back to the object that was serialised. *)
Lemma parse_archiveMetadata (created : jsstring) (files : JSObject) :
  Forall isCodeUnit created -> Forall (fun p => Forall isCodeUnit p.1) files ->
  descriptors files <> [] ->
  exists n, parseValue n (stringify (archiveMetadata created files))
            = POk (archiveMetadata created files) [].
Proof.
  intros Hc Hf Hne. exists (S (S (S (S (S (length (descriptors files) + 4)))))).
  rewrite stringify_archiveMetadata, archiveMetadata_descriptors.
  pose proof (descriptors_valid files Hf) as Hds.
  set (ds := descriptors files) in *.
  set (arr := 91 :: stringifyElements _ ++ [93]).
  unfold quoteJSONString at 1. cbn [app]. rewrite parseValue_members.
  change (34 :: (quoteChars (js "version") ++ [34]) ++ ?t)
    with (quoteJSONString (js "version") ++ t).
  rewrite (parseMembers_step _ _ _ _ 44 (JString (js "1.0")));
    [|apply js_codeUnits|by left|apply parseValue_string, js_codeUnits].
  change (44 =? 44) with true. cbv iota.
  rewrite (parseMembers_step _ _ _ _ 44 (JString created));
    [|apply js_codeUnits|by left|by apply parseValue_string].
  change (44 =? 44) with true. cbv iota.
  rewrite (parseMembers_step _ _ _ _ 125
             (JArray (map (fun d => fileDescriptor d.1 d.2) ds)));
    [reflexivity|apply js_codeUnits|by right|].
  subst arr. rewrite parseValue_S. cbn [app]. rewrite skipWs_here by reflexivity.
  change (91 =? 123) with false. change (91 =? 91) with true. cbv iota.
  rewrite <- app_assoc. cbn [app].
  destruct ds as [|[p k] ds'] eqn:Eds; [done|].
  assert (Hhead : exists t, stringifyElements
            (map (fun d => fileDescriptor d.1 d.2) ((p, k) :: ds')) ++ [93; 125]
            = 123 :: t).
  { cbn [map]. destruct ds' as [|d' ds''].
    - cbn [map stringifyElements]. rewrite stringify_descriptor. eexists. reflexivity.
    - change (stringifyElements (fileDescriptor (p, k).1 (p, k).2 :: map _ (d' :: ds'')))
        with (stringify (fileDescriptor p k) ++ 44 ::
              stringifyElements (map (fun d => fileDescriptor d.1 d.2) (d' :: ds''))).
      rewrite <- app_assoc, stringify_descriptor. eexists. reflexivity. }
  destruct Hhead as [t Ht]. rewrite Ht, skipWs_here by reflexivity.
  change (123 =? 93) with false. cbv iota. rewrite <- Ht.
  rewrite parse_descriptors; [reflexivity|assumption|done|lia].
Qed.

Lemma ascii_cons_wellFormed (c : Z) (s : jsstring) :
  0 <= c < 0xD800 -> wellFormed s = true -> wellFormed (c :: s) = true.
Proof.
  intros Hc Hs. rewrite wellFormed_cons. unfold isHighSurrogate, isLowSurrogate.
  ztests. exact Hs.
Qed.

Lemma separated_wellFormed (c : Z) (a b : jsstring) :
  0 <= c < 0xD800 -> wellFormed a = true -> wellFormed b = true ->
  wellFormed (c :: a ++ b) = true.
Proof. intros Hc Ha Hb. apply ascii_cons_wellFormed; [exact Hc|by apply wellFormed_app]. Qed.

Lemma separated_quoted_wellFormed (c : Z) (s b : jsstring) :
  0 <= c < 0xD800 -> Forall isCodeUnit s -> wellFormed b = true ->
  wellFormed (c :: quoteJSONString s ++ b) = true.
Proof.
  intros Hc Hs Hb. apply separated_wellFormed; [exact Hc| |exact Hb].
  by apply quoteJSONString_wellFormed.
Qed.

Lemma stringify_descriptor_wellFormed (path : jsstring) (size : Z) (rest : jsstring) :
  Forall isCodeUnit path -> 0 <= size -> wellFormed rest = true ->
  wellFormed (stringify (fileDescriptor path size) ++ rest) = true.
Proof.
  intros Hp Hs Hr. rewrite stringify_descriptor.
  apply (separated_quoted_wellFormed 123 (js "path")); [lia|apply js_codeUnits|].
  apply (separated_quoted_wellFormed 58 path); [lia|exact Hp|].
  apply (separated_quoted_wellFormed 44 (js "size")); [lia|apply js_codeUnits|].
  apply (separated_wellFormed 58 (numberToString size)); [lia| |].
  - by apply numberToString_wellFormed.
  - apply ascii_cons_wellFormed; [lia|exact Hr].
Qed.

Lemma stringifyElements_wellFormed (ds : list (jsstring * Z)) (rest : jsstring) :
  Forall (fun d => Forall isCodeUnit d.1 /\ 0 <= d.2) ds -> wellFormed rest = true ->
  wellFormed (stringifyElements (map (fun d => fileDescriptor d.1 d.2) ds) ++ rest) = true.
Proof.
  induction 1 as [|[p k] ds [Hp Hk] Hds IH]; intros Hr; [exact Hr|].
  cbn [map fst snd] in *. destruct ds as [|d' ds'].
  - by apply stringify_descriptor_wellFormed.
  - change (stringifyElements (fileDescriptor p k :: map _ (d' :: ds')))
      with (stringify (fileDescriptor p k) ++ 44 ::
            stringifyElements (map (fun d => fileDescriptor d.1 d.2) (d' :: ds'))).
    rewrite <- app_assoc. apply stringify_descriptor_wellFormed; [assumption..|].
    cbn [app]. apply ascii_cons_wellFormed; [lia|]. by apply IH.
Qed.

Lemma stringify_archiveMetadata_wellFormed (created : jsstring) (files : JSObject) :
  Forall isCodeUnit created -> Forall (fun p => Forall isCodeUnit p.1) files ->
  wellFormed (stringify (archiveMetadata created files)) = true.
Proof.
  intros Hc Hf. rewrite stringify_archiveMetadata.
  pose proof (descriptors_valid files Hf) as Hds.
  set (elements := stringifyElements _).
  assert (He : wellFormed (elements ++ [93]) = true)
    by (by apply stringifyElements_wellFormed).
  apply (separated_quoted_wellFormed 123 (js "version")); [lia|apply js_codeUnits|].
  apply (separated_quoted_wellFormed 58 (js "1.0")); [lia|apply js_codeUnits|].
  apply (separated_quoted_wellFormed 44 (js "created")); [lia|apply js_codeUnits|].
  apply (separated_quoted_wellFormed 58 created); [lia|exact Hc|].
  apply (separated_quoted_wellFormed 44 (js "files")); [lia|apply js_codeUnits|].
  apply ascii_cons_wellFormed; [lia|].
  apply wellFormed_app; [|reflexivity].
  apply ascii_cons_wellFormed; [lia|exact He].
Qed.

(** * Sorting and [Object.keys] *)

Section Sorting.
Context {A : Type} (lt : A -> A -> bool).

Hypothesis lt_asym : forall a b, lt a b = true -> lt b a = false.
Hypothesis le_trans : forall a b c, notAfter lt a b -> notAfter lt b c -> notAfter lt a c.
Hypothesis le_antisym : forall a b, notAfter lt a b -> notAfter lt b a -> a = b.

Lemma insertSorted_perm (x : A) (l : list A) : insertSorted lt x l ≡ₚ x :: l.
Proof.
  induction l as [|y l IH]; cbn [insertSorted]; [reflexivity|].
  destruct (lt x y); [reflexivity|]. rewrite IH. apply Permutation_swap.
Qed.

Lemma sortBy_perm (l : list A) : sortBy lt l ≡ₚ l.
Proof.
  unfold sortBy.
  assert (H : forall acc, fold_left (fun sorted x => insertSorted lt x sorted) l acc
                          ≡ₚ acc ++ l).
  { induction l as [|x l IH]; intros acc; cbn [fold_left].
    - by rewrite app_nil_r.
    - rewrite IH, insertSorted_perm. cbn [app]. apply Permutation_middle. }
  apply H.
Qed.

Lemma insertSorted_sorted (x : A) (l : list A) :
  StronglySorted (notAfter lt) l -> StronglySorted (notAfter lt) (insertSorted lt x l).
Proof.
  induction 1 as [|y l Hl IH Hy]; cbn [insertSorted].
  - repeat constructor.
  - destruct (lt x y) eqn:E.
    + constructor; [by constructor|]. constructor; [by apply lt_asym|].
      eapply Forall_impl; [exact Hy|]. intros z Hz. cbn in Hz.
      apply (le_trans x y z); [by apply lt_asym|exact Hz].
    + constructor; [exact IH|].
      rewrite (insertSorted_perm x l). by constructor.
Qed.

Lemma sortBy_sorted (l : list A) : StronglySorted (notAfter lt) (sortBy lt l).
Proof.
  unfold sortBy.
  assert (H : forall acc, StronglySorted (notAfter lt) acc ->
            StronglySorted (notAfter lt)
              (fold_left (fun sorted x => insertSorted lt x sorted) l acc)).
  { induction l as [|x l IH]; intros acc Hacc; cbn [fold_left]; [exact Hacc|].
    apply IH. by apply insertSorted_sorted. }
  apply H. constructor.
Qed.

(** A sorted list is determined by its elements. *)
Lemma sorted_unique (l1 l2 : list A) :
  StronglySorted (notAfter lt) l1 -> StronglySorted (notAfter lt) l2 -> l1 ≡ₚ l2 -> l1 = l2.
Proof.
  intros H1. revert l2. induction H1 as [|x l1 Hl1 IH Hx]; intros l2 H2 Hp.
  - by apply Permutation_nil_l in Hp.
  - destruct H2 as [|y l2 Hl2 Hy].
    + symmetry in Hp. by apply Permutation_nil_cons in Hp.
    + assert (x = y) as <-.
      { assert (Hxin : x ∈ y :: l2) by (rewrite <- Hp; by left).
        assert (Hyin : y ∈ x :: l1) by (rewrite Hp; by left).
        apply elem_of_cons in Hxin as [->|Hxin]; [reflexivity|].
        apply elem_of_cons in Hyin as [->|Hyin]; [reflexivity|].
        rewrite Forall_forall in Hx, Hy.
        apply le_antisym; [by apply Hx|by apply Hy]. }
      f_equal. apply IH; [exact Hl2|]. by apply Permutation_cons_inv in Hp.
Qed.

Lemma sortBy_unique (l1 l2 : list A) : l1 ≡ₚ l2 -> sortBy lt l1 = sortBy lt l2.
Proof.
  intros Hp. apply sorted_unique; try apply sortBy_sorted.
  by rewrite !sortBy_perm.
Qed.

End Sorting.

Lemma stringLt_irrefl (a : jsstring) : stringLt a a = false.
Proof.
  induction a as [|x a IH]; [reflexivity|]. cbn [stringLt].
  rewrite Z.ltb_irrefl, Z.eqb_refl. exact IH.
Qed.

Lemma stringLt_asym (a : jsstring) : forall b, stringLt a b = true -> stringLt b a = false.
Proof.
  induction a as [|x a IH]; intros [|y b]; cbn [stringLt]; try done.
  destruct (Z.ltb_spec x y), (Z.ltb_spec y x), (Z.eqb_spec x y), (Z.eqb_spec y x);
    cbn; try lia; try done. apply IH.
Qed.

Lemma stringLt_le_trans (a b c : jsstring) :
  stringLt b a = false -> stringLt c b = false -> stringLt c a = false.
Proof.
  revert b c. induction a as [|x a IH]; intros [|y b] [|z c]; cbn [stringLt]; try done.
  destruct (Z.ltb_spec y x), (Z.ltb_spec z y), (Z.ltb_spec z x),
    (Z.eqb_spec y x), (Z.eqb_spec z y), (Z.eqb_spec z x); cbn; try lia; try done.
  apply IH.
Qed.

Lemma stringLt_antisym (a : jsstring) :
  forall b, stringLt b a = false -> stringLt a b = false -> a = b.
Proof.
  induction a as [|x a IH]; intros [|y b]; cbn [stringLt]; try done.
  destruct (Z.ltb_spec y x), (Z.ltb_spec x y), (Z.eqb_spec y x), (Z.eqb_spec x y);
    cbn; try lia; try done.
  intros H1 H2. subst. f_equal. by apply IH.
Qed.

Lemma sortStrings_perm (l : list jsstring) : sortStrings l ≡ₚ l.
Proof. apply sortBy_perm. Qed.

Lemma sortStrings_unique (l1 l2 : list jsstring) :
  l1 ≡ₚ l2 -> sortStrings l1 = sortStrings l2.
Proof.
  apply sortBy_unique.
  - intros a b. apply stringLt_asym.
  - intros a b c. unfold notAfter. apply stringLt_le_trans.
  - intros a b. unfold notAfter. apply stringLt_antisym.
Qed.

Lemma objectKeys_perm {V} (o : list (jsstring * V)) : objectKeys o ≡ₚ map fst o.
Proof.
  unfold objectKeys. rewrite sortBy_perm.
  induction (map fst o) as [|k ks IH]; [reflexivity|].
  rewrite !filter_cons. destruct (decide (Is_true (isArrayIndex k))) as [H|H].
  - rewrite decide_False by tauto. cbn. by rewrite IH.
  - rewrite decide_True by tauto. rewrite <- Permutation_middle. by rewrite IH.
Qed.

Lemma objectGet_lookup {V} (o : list (jsstring * V)) (k : jsstring) (v : V) :
  NoDup (map fst o) -> (k, v) ∈ o -> objectGet o k = Some v.
Proof.
  unfold objectGet. induction o as [|[k' v'] o IH]; intros Hnd Hin.
  - by apply not_elem_of_nil in Hin.
  - cbn [map fst] in Hnd. apply NoDup_cons in Hnd as [Hk' Hnd].
    rewrite filter_cons. cbn [fst].
    apply elem_of_cons in Hin as [[= -> ->]|Hin].
    + rewrite decide_True by (by apply bool_decide_pack). reflexivity.
    + rewrite decide_False; [by apply IH|].
      intros Heq. apply bool_decide_unpack in Heq. subst k'.
      apply Hk'. apply list_elem_of_fmap. by exists (k, v).
Qed.

Lemma fileContent_lookup (files : JSObject) (k : jsstring) (c : list byte) :
  NoDup (map fst files) -> (k, c) ∈ files -> fileContent files k = c.
Proof. intros Hnd Hin. unfold fileContent. by rewrite (objectGet_lookup _ _ c). Qed.

(** The entries in the order of [Object.keys] are the properties. *)
Lemma keys_entries (files : JSObject) :
  NoDup (map fst files) ->
  map (fun k => (k, fileContent files k)) (map fst files) = files.
Proof.
  intros Hnd. rewrite map_map.
  rewrite <- (map_id files) at 2. apply map_ext_in.
  intros [k c] Hin. cbn. f_equal. apply fileContent_lookup; [exact Hnd|].
  by apply list_elem_of_In.
Qed.

Lemma fileContent_perm (f1 f2 : JSObject) (k : jsstring) :
  NoDup (map fst f1) -> f1 ≡ₚ f2 -> k ∈ map fst f1 ->
  fileContent f1 k = fileContent f2 k.
Proof.
  intros Hnd Hp Hk. apply list_elem_of_fmap in Hk as ([k' c] & -> & Hin).
  cbn. rewrite (fileContent_lookup f1 k' c), (fileContent_lookup f2 k' c); auto.
  - by rewrite <- Hp.
  - by rewrite <- Hp.
Qed.

(** * Reading a container *)

Lemma readMetadata_eq (d : Buffer) :
  readMetadata d =
  match newDataView (buffer d) (byteOffset d) 4 with
  | None => inl (Caught RangeError)
  | Some headerView =>
      checkMetadata (getUint32 headerView 0)
        (uint8ArrayToText (subarray d 4 (4 + getUint32 headerView 0)))
  end.
Proof. reflexivity. Qed.

Lemma len_take {A} (n : nat) (l : list A) : len (take n l) = Z.min (Z.of_nat n) (len l).
Proof. unfold len. rewrite length_take. lia. Qed.

(** The first [k] bytes of a container, for [4 <= k]: the header is read,
    and the metadata is what the cut leaves of it. *)
Lemma readMetadata_take (meta stream : list byte) (k : nat) :
  len meta < 2 ^ 32 -> (4 <= k)%nat ->
  readMetadata (ofBytes (take k (container meta stream)))
  = checkMetadata (len meta) (uint8ArrayToText (take (k - 4) meta)).
Proof.
  intros Hm Hk. rewrite readMetadata_eq. cbn [buffer byteOffset ofBytes].
  pose proof (len_nonneg meta). pose proof (len_nonneg stream).
  assert (Hlen : len (container meta stream) = 4 + len meta + len stream).
  { unfold container. rewrite !len_app, len_uint32LE. lia. }
  rewrite newDataView_ofBytes by lia.
  rewrite len_take, Hlen.
  replace (0 + 4 <=? _) with true by (symmetry; apply Z.leb_le; lia).
  change (Z.to_nat 0) with 0%nat. rewrite drop_0, take_take.
  change (Z.to_nat 4) with 4%nat. rewrite Nat.min_l by lia.
  unfold container.
  change 4%nat with (length (uint32LE (len meta))) at 1 2.
  rewrite !take_app_length.
  pose proof (getUint32_uint32LE (len meta) []) as Hg. rewrite app_nil_r in Hg.
  rewrite Hg. unfold toUint32. rewrite Z.mod_small by lia.
  rewrite subarray_ofBytes by lia.
  do 2 f_equal.
  replace (Z.to_nat (4 + len meta - 4)) with (length meta) by (unfold len; lia).
  change (Z.to_nat 4) with 4%nat.
  replace k with (4 + (k - 4))%nat at 1 by lia.
  rewrite <- take_drop_commute.
  assert (Hd : drop 4 (uint32LE (len meta) ++ meta ++ stream) = meta ++ stream)
    by reflexivity.
  rewrite Hd, take_take.
  destruct (Nat.le_gt_cases (k - 4) (length meta)).
  - rewrite Nat.min_r by lia. by rewrite take_app_le.
  - rewrite Nat.min_l by lia. rewrite take_app_length.
    by rewrite take_ge by lia.
Qed.

Lemma readMetadata_container (meta stream : list byte) :
  len meta < 2 ^ 32 ->
  readMetadata (ofBytes (container meta stream))
  = checkMetadata (len meta) (uint8ArrayToText meta).
Proof.
  intros Hm.
  assert (Hl : (4 + length meta <= length (container meta stream))%nat).
  { unfold container. rewrite !length_app. change (length (uint32LE _)) with 4%nat. lia. }
  rewrite <- (firstn_all (container meta stream)) at 1.
  rewrite readMetadata_take; [|exact Hm|lia].
  rewrite take_ge; [reflexivity|lia].
Qed.

Lemma readMetadata_short (bs : list byte) :
  len bs < 4 -> readMetadata (ofBytes bs) = inl (Caught RangeError).
Proof.
  intros H. rewrite readMetadata_eq. cbn [buffer byteOffset ofBytes].
  rewrite newDataView_ofBytes by lia.
  replace (0 + 4 <=? len bs) with false by (symmetry; apply Z.leb_gt; lia).
  reflexivity.
Qed.

(** The metadata written by [compressDirectory] passes the checks. *)
Lemma objectKeys_length {V} (o : list (jsstring * V)) :
  length (objectKeys o) = length o.
Proof. rewrite (Permutation_length (objectKeys_perm o)). apply length_map. Qed.

Lemma wellFormed_codeUnits (s : jsstring) : wellFormed s = true -> Forall isCodeUnit s.
Proof.
  induction s as [| u | u v s IH1 IH2] using jsstring_ind2; [constructor| |].
  - rewrite wellFormed_cons. intros H. apply andb_true_iff in H as [H _].
    apply andb_true_iff in H as [H1 H2]. apply Z.leb_le in H1. apply Z.ltb_lt in H2.
    constructor; [split; assumption|constructor].
  - rewrite wellFormed_cons. intros H. apply andb_true_iff in H as [H Hr].
    apply andb_true_iff in H as [H1 H2]. apply Z.leb_le in H1. apply Z.ltb_lt in H2.
    constructor; [split; assumption|].
    destruct (isHighSurrogate u).
    + apply andb_true_iff in Hr as [Hv Hs].
      unfold isLowSurrogate in Hv. apply andb_true_iff in Hv as [Hv1 Hv2].
      apply Z.leb_le in Hv1, Hv2. constructor; [unfold isCodeUnit; lia|by apply IH1].
    + apply andb_true_iff in Hr as [_ Hr]. by apply IH2.
Qed.

Lemma checkMetadata_archive (created : jsstring) (files : JSObject) (n : Z) :
  Forall isCodeUnit created -> Forall (fun p => Forall isCodeUnit p.1) files ->
  files <> [] ->
  checkMetadata n (uint8ArrayToText (metadataBuffer created files))
  = inr (n, map (fun d => fileDescriptor d.1 d.2) (descriptors files)).
Proof.
  intros Hc Hf Hne. unfold metadataBuffer, checkMetadata.
  rewrite text_roundtrip by (by apply stringify_archiveMetadata_wellFormed).
  assert (Hd : descriptors files <> []).
  { unfold descriptors. intros E. apply (f_equal length) in E.
    rewrite length_map, objectKeys_length in E. by destruct files. }
  destruct (parse_archiveMetadata created files Hc Hf Hd) as [fuel Hp].
  assert (Hstrip : stripBOM (stringify (archiveMetadata created files))
                   = stringify (archiveMetadata created files)).
  { rewrite stringify_archiveMetadata. reflexivity. }
  rewrite Hstrip, (JSON_parse_fuel _ _ _ _ Hp). cbn [skipWs].
  rewrite archiveMetadata_descriptors.
  change (getProperty _ (js "files"))
    with (Some (Some (JArray (map (fun d => fileDescriptor d.1 d.2) (descriptors files))))).
  cbn [toBoolean isArray negb orb].
  replace (len _ =? 0) with false; [reflexivity|].
  symmetry. apply Z.eqb_neq. unfold len. rewrite length_map.
  destruct (descriptors files); [done|cbn; lia].
Qed.

(** * The extraction loop and the file system *)

Section Extraction.
Variable cwd : list jsstring.

(** Induction along the iterations of the loop. *)
Lemma extractLoop_ind (outputDir : jsstring) (d : Buffer)
  (Q : Z -> Z -> list (jsstring * list byte) -> FS ->
       (failure + Z) * list (jsstring * list byte) * FS -> Prop) :
  (forall o total ex fs, length_ d <= o -> Q o total ex fs (inr total, ex, fs)) ->
  (forall o total ex fs, o < length_ d -> readEntry d o = None ->
     Q o total ex fs (inl (Caught RangeError), ex, fs)) ->
  (forall o total ex fs p c o', o < length_ d -> readEntry d o = Some (p, c, o') ->
     ensureDirectoryExists cwd fs (dirname (join outputDir p)) = None ->
     Q o total ex fs (inl (Caught MkdirError), ex, fs)) ->
  (forall o total ex fs p c o' fs1, o < length_ d -> readEntry d o = Some (p, c, o') ->
     ensureDirectoryExists cwd fs (dirname (join outputDir p)) = Some fs1 ->
     writeFileSync cwd fs1 (join outputDir p) c = None ->
     Q o total ex fs (inl (Caught WriteError), ex, fs1)) ->
  (forall o total ex fs p c o' fs1 fs2 r, o < length_ d ->
     readEntry d o = Some (p, c, o') ->
     ensureDirectoryExists cwd fs (dirname (join outputDir p)) = Some fs1 ->
     writeFileSync cwd fs1 (join outputDir p) c = Some fs2 ->
     Q o' (total + len c) (ex ++ [(p, c)]) fs2 r ->
     Q o total ex fs r) ->
  forall o total ex fs, Q o total ex fs (extractLoop cwd outputDir d o total ex fs).
Proof.
  intros Hend Hrange Hmkdir Hwrite Hstep o.
  remember (Z.to_nat (length_ d - o)) as n eqn:Hn. revert o Hn.
  induction n as [n IH] using lt_wf_ind. intros o Hn total ex fs.
  rewrite extractLoop_eq.
  destruct (Z.ltb_spec o (length_ d)) as [Hlt|Hge]; [|by apply Hend].
  destruct (readEntry d o) as [[[p c] o']|] eqn:He; [|by apply Hrange].
  destruct (ensureDirectoryExists _ _ _) as [fs1|] eqn:Em; [|by eapply Hmkdir].
  destruct (writeFileSync _ _ _ _) as [fs2|] eqn:Ew; [|by eapply Hwrite].
  eapply Hstep; try eassumption.
  apply readEntry_offset in He.
  apply (IH (Z.to_nat (length_ d - o'))); lia.
Qed.

(** A failure of the loop is a caught exception, never one of the
    messages of the checks before it. *)
Lemma extractLoop_failure (outputDir : jsstring) (d : Buffer) o total ex fs e :
  (extractLoop cwd outputDir d o total ex fs).1.1 = inl e -> exists x, e = Caught x.
Proof.
  revert e. pattern o, total, ex, fs, (extractLoop cwd outputDir d o total ex fs).
  apply extractLoop_ind; cbn; intros; try discriminate; eauto;
    match goal with H : inl _ = inl _ |- _ => injection H as <-; eauto end.
Qed.

(** When the loop ends normally, it has written the entries that the
    decode operation finds, in order. *)
Lemma extractLoop_success (outputDir : jsstring) (d : Buffer) o total ex fs :
  forall total' ex' fs',
  extractLoop cwd outputDir d o total ex fs = (inr total', ex', fs') ->
  exists entries, decodeEntries d o = Some entries /\ ex' = ex ++ entries.
Proof.
  pattern o, total, ex, fs, (extractLoop cwd outputDir d o total ex fs).
  apply extractLoop_ind; clear o total ex fs.
  - intros o total ex fs Hge total' ex' fs' [= <- <- <-].
    exists []. rewrite decodeEntries_eq.
    replace (o <? length_ d) with false by (symmetry; apply Z.ltb_ge; lia).
    by rewrite app_nil_r.
  - discriminate.
  - discriminate.
  - discriminate.
  - intros o total ex fs p c o' fs1 fs2 r Hlt He Hm Hw IH total' ex' fs' ->.
    destruct (IH _ _ _ eq_refl) as (entries & Hd & ->).
    exists ((p, c) :: entries). rewrite decodeEntries_eq.
    replace (o <? length_ d) with true by (symmetry; apply Z.ltb_lt; lia).
    rewrite He, Hd. by rewrite <- app_assoc.
Qed.

(** ** Directories and files *)

Lemma mkdirs_files (segs : list jsstring) : forall (fs fs' : FS) (pre : list jsstring),
  mkdirs fs pre segs = Some fs' ->
  forall k c, fs' !! k = Some (File c) <-> fs !! k = Some (File c).
Proof.
  induction segs as [|seg segs IH]; intros fs fs' pre; cbn [mkdirs].
  - by intros [= <-].
  - destruct (fs !! (pre ++ [seg])) as [[c0|]|] eqn:E; [discriminate| |].
    + apply IH.
    + intros H k c. rewrite (IH _ _ _ H k c).
      destruct (decide (k = pre ++ [seg])) as [->|Hne].
      * rewrite lookup_insert_eq, E. split; discriminate.
      * by rewrite lookup_insert_ne.
Qed.

Lemma mkdirSync_inv (fs fs' : FS) (path : jsstring) :
  mkdirSync cwd fs path = Some fs' ->
  (0 ∉ path) /\ mkdirs fs [] (resolve cwd path) = Some fs'.
Proof.
  unfold mkdirSync. destruct (decide (0 ∈ path)) as [H|H].
  - by rewrite bool_decide_eq_true_2.
  - by rewrite bool_decide_eq_false_2.
Qed.

Lemma ensureDirectoryExists_files (fs fs' : FS) (dirPath : jsstring) :
  ensureDirectoryExists cwd fs dirPath = Some fs' ->
  forall k c, fs' !! k = Some (File c) <-> fs !! k = Some (File c).
Proof.
  unfold ensureDirectoryExists.
  destruct (negb _); [|by intros [= <-]].
  intros H. apply mkdirSync_inv in H as [_ H]. by apply mkdirs_files with (1 := H).
Qed.

Lemma writeFileSync_inv (fs fs' : FS) (path : jsstring) (data : list byte) :
  writeFileSync cwd fs path data = Some fs' ->
  fs' = <[resolve cwd path := File data]> fs.
Proof.
  unfold writeFileSync. destruct (resolve cwd path) as [|s k]; [discriminate|].
  destruct (_ || _); [discriminate|].
  destruct (fs !! (s :: k)) as [[c|]|]; try discriminate; by intros [= <-].
Qed.

(** Every file that the loop creates or changes is the file of an entry
    it has extracted, at [join outputDir path]. *)
Lemma extractLoop_files (outputDir : jsstring) (d : Buffer) o total ex fs :
  forall r ex' fs',
  extractLoop cwd outputDir d o total ex fs = (r, ex', fs') ->
  exists new, ex' = ex ++ new /\
  forall k c, fs' !! k = Some (File c) ->
    fs !! k = Some (File c)
    \/ exists path, (path, c) ∈ new /\ k = resolve cwd (join outputDir path).
Proof.
  pattern o, total, ex, fs, (extractLoop cwd outputDir d o total ex fs).
  apply extractLoop_ind; clear o total ex fs.
  - intros o total ex fs _ r ex' fs' [= <- <- <-]. exists [].
    rewrite app_nil_r. split; [reflexivity|]. intros; by left.
  - intros o total ex fs _ _ r ex' fs' [= <- <- <-]. exists [].
    rewrite app_nil_r. split; [reflexivity|]. intros; by left.
  - intros o total ex fs p c o' _ _ _ r ex' fs' [= <- <- <-]. exists [].
    rewrite app_nil_r. split; [reflexivity|]. intros; by left.
  - intros o total ex fs p c o' fs1 _ _ Hm _ r ex' fs' [= <- <- <-]. exists [].
    rewrite app_nil_r. split; [reflexivity|]. intros k c0 Hk. left.
    by apply (ensureDirectoryExists_files _ _ _ Hm).
  - intros o total ex fs p c o' fs1 fs2 r0 _ _ Hm Hw IH r ex' fs' ->.
    destruct (IH _ _ _ eq_refl) as (new & -> & Hnew).
    exists ((p, c) :: new). split; [by rewrite <- app_assoc|].
    intros k c0 Hk. apply Hnew in Hk as [Hk|(path & Hin & ->)].
    + apply writeFileSync_inv in Hw. subst fs2.
      destruct (decide (k = resolve cwd (join outputDir p))) as [->|Hne].
      * rewrite lookup_insert_eq in Hk. injection Hk as <-.
        right. exists p. split; [by left|reflexivity].
      * rewrite lookup_insert_ne in Hk by done. left.
        by apply (ensureDirectoryExists_files _ _ _ Hm).
    + right. exists path. split; [by right|reflexivity].
Qed.

End Extraction.

(** * Paths *)

Lemma run_app allow (s1 s2 st : list jsstring) :
  run allow (s1 ++ s2) st = run allow s2 (run allow s1 st).
Proof. apply fold_left_app. Qed.

Lemma run_cons allow seg (segs st : list jsstring) :
  run allow (seg :: segs) st = run allow segs (normalizeStep allow st seg).
Proof. reflexivity. Qed.

Lemma normalizeStep_skip allow st seg : ~ proper seg -> normalizeStep allow st seg = st.
Proof.
  unfold proper, normalizeStep. intros H.
  destruct (decide (seg = [])) as [->|H1]; [reflexivity|].
  destruct (decide (seg = [46])) as [->|H2]; [reflexivity|]. tauto.
Qed.

Lemma normalizeStep_push allow st seg :
  proper seg -> seg <> dotdot -> normalizeStep allow st seg = seg :: st.
Proof.
  unfold proper, normalizeStep. intros [H1 H2] H3.
  rewrite !bool_decide_eq_false_2 by assumption. reflexivity.
Qed.

Lemma normalizeStep_dotdot allow st :
  normalizeStep allow st dotdot =
  match st with
  | last :: st' =>
      if bool_decide (last = dotdot) then (if allow then dotdot :: st else st) else st'
  | [] => if allow then [dotdot] else []
  end.
Proof. reflexivity. Qed.

Lemma proper_dec seg : proper seg \/ ~ proper seg.
Proof.
  unfold proper. destruct (decide (seg = [])), (decide (seg = [46])); tauto.
Qed.

Lemma normalizeStep_Forall (P : jsstring -> Prop) allow st seg :
  Forall P st -> P seg -> Forall P (normalizeStep allow st seg).
Proof.
  intros Hst Hseg. destruct (proper_dec seg) as [Hp|Hp].
  2:{ by rewrite normalizeStep_skip. }
  destruct (decide (seg = dotdot)) as [->|Hdd].
  2:{ rewrite normalizeStep_push by assumption. by constructor. }
  rewrite normalizeStep_dotdot.
  destruct Hst as [|top st' Hl Hst']; [destruct allow; repeat constructor; auto|].
  destruct (decide (top = dotdot)) as [->|Hne].
  - rewrite bool_decide_eq_true_2 by reflexivity.
    destruct allow; repeat constructor; auto.
  - by rewrite bool_decide_eq_false_2.
Qed.

Lemma normalizeStep_proper allow st seg :
  Forall proper st -> Forall proper (normalizeStep allow st seg).
Proof.
  intros Hst. destruct (proper_dec seg) as [H|H].
  - by apply normalizeStep_Forall.
  - by rewrite normalizeStep_skip.
Qed.

Lemma run_Forall (P : jsstring -> Prop) allow segs : forall st,
  Forall P st -> Forall P segs -> Forall P (run allow segs st).
Proof.
  induction segs as [|seg segs IH]; intros st Hst Hs; [exact Hst|].
  inversion Hs; subst. rewrite run_cons. apply IH; [|assumption].
  by apply normalizeStep_Forall.
Qed.

Lemma run_proper allow segs : forall st,
  Forall proper st -> Forall proper (run allow segs st).
Proof.
  induction segs as [|seg segs IH]; intros st Hst; [exact Hst|].
  rewrite run_cons. apply IH. by apply normalizeStep_proper.
Qed.

Lemma normalizeStep_no_dotdot st seg :
  Forall (fun s => s <> dotdot) st ->
  Forall (fun s => s <> dotdot) (normalizeStep false st seg).
Proof.
  intros Hst. destruct (proper_dec seg) as [Hp|Hp].
  2:{ by rewrite normalizeStep_skip. }
  destruct (decide (seg = dotdot)) as [->|Hdd].
  2:{ rewrite normalizeStep_push by assumption. by constructor. }
  rewrite normalizeStep_dotdot.
  destruct Hst as [|top st' Hl Hst']; [constructor|].
  by rewrite bool_decide_eq_false_2.
Qed.

Lemma run_no_dotdot segs : forall st,
  Forall (fun s => s <> dotdot) st ->
  Forall (fun s => s <> dotdot) (run false segs st).
Proof.
  induction segs as [|seg segs IH]; intros st Hst; [exact Hst|].
  rewrite run_cons. apply IH. by apply normalizeStep_no_dotdot.
Qed.

(** Normalising an already normalised list of segments changes nothing. *)
Lemma renormalize (allow : bool) (S : list jsstring) (st : list jsstring) :
  allow = true \/ st = [] ->
  run false (rev (run allow S [])) st = run false S st.
Proof.
  intros Hcase. induction S as [|seg S IH] using rev_ind; [reflexivity|].
  rewrite !run_app. cbn [run fold_left] in *. fold (run allow S []) in *.
  fold (run false S st) in *. rewrite <- IH.
  assert (Hprop : Forall proper (run allow S [])) by (apply run_proper; constructor).
  set (T := run allow S []) in *.
  destruct (proper_dec seg) as [Hseg|Hseg]; [|by rewrite !normalizeStep_skip].
  destruct (decide (seg = dotdot)) as [->|Hdd].
  2:{ rewrite !normalizeStep_push by assumption. cbn [rev].
      unfold run. rewrite fold_left_app. cbn [fold_left].
      by rewrite normalizeStep_push. }
  rewrite (normalizeStep_dotdot allow T).
  destruct T as [|top T'] eqn:ET.
  - destruct allow; [reflexivity|]. destruct Hcase as [?| ->]; [done|reflexivity].
  - inversion Hprop as [|? ? Hlast _]; subst.
    destruct (decide (top = dotdot)) as [->|Hne].
    + rewrite bool_decide_eq_true_2 by reflexivity.
      destruct allow.
      * cbn [rev]. unfold run. rewrite !fold_left_app. reflexivity.
      * exfalso. assert (Hnd : Forall (fun s => s <> dotdot) (dotdot :: T')).
        { rewrite <- ET. apply run_no_dotdot. constructor. }
        inversion Hnd; subst. done.
    + rewrite bool_decide_eq_false_2 by assumption.
      cbn [rev]. unfold run. rewrite fold_left_app. cbn [fold_left].
      rewrite (normalizeStep_push false _ top) by assumption.
      rewrite normalizeStep_dotdot.
      by rewrite bool_decide_eq_false_2 by assumption.
Qed.

(** Segments that are not [..] are pushed or skipped, never pop. *)
Lemma run_extend (segs : list jsstring) : forall st,
  Forall (fun s => s <> dotdot) segs ->
  exists ext, run false segs st = ext ++ st.
Proof.
  induction segs as [|seg segs IH]; intros st Hs; [by exists []|].
  inversion Hs as [|? ? Hseg Hsegs]; subst. rewrite run_cons.
  destruct (IH (normalizeStep false st seg) Hsegs) as [ext ->].
  destruct (proper_dec seg) as [Hp|Hp].
  - rewrite normalizeStep_push by assumption. exists (ext ++ [seg]).
    by rewrite <- app_assoc.
  - rewrite normalizeStep_skip by assumption. by exists ext.
Qed.

(** ** Splitting and joining *)

Lemma splitOn_cons (c : Z) (s : jsstring) :
  splitOn 47 (c :: s) =
  if c =? 47 then [] :: splitOn 47 s
  else match splitOn 47 s with
       | seg :: segs => (c :: seg) :: segs
       | [] => [[c]]
       end.
Proof. reflexivity. Qed.

Lemma splitOn_nonempty (s : jsstring) : splitOn 47 s <> [].
Proof.
  induction s as [|c s IH]; [done|]. rewrite splitOn_cons.
  destruct (c =? 47); [done|]. by destruct (splitOn 47 s).
Qed.

Lemma splitOn_noSlash (s : jsstring) : Forall noSlash (splitOn 47 s).
Proof.
  induction s as [|c s IH]; [repeat constructor; apply not_elem_of_nil|].
  rewrite splitOn_cons. destruct (Z.eqb_spec c 47) as [->|Hc].
  - constructor; [apply not_elem_of_nil|exact IH].
  - destruct (splitOn 47 s) as [|seg segs].
    + repeat constructor. unfold noSlash. rewrite list_elem_of_singleton. lia.
    + inversion IH; subst. constructor; [|assumption].
      unfold noSlash in *. rewrite elem_of_cons. intros [?|?]; [lia|done].
Qed.

Lemma splitOn_snoc_seg (a b : jsstring) :
  exists segs seg, splitOn 47 a = segs ++ [seg]
    /\ splitOn 47 (a ++ 47 :: b) = segs ++ seg :: splitOn 47 b
    /\ splitOn 47 (a ++ b) =
         match splitOn 47 b with
         | seg' :: segs' => segs ++ (seg ++ seg') :: segs'
         | [] => segs ++ [seg]
         end.
Proof.
  induction a as [|c a (segs & seg & E1 & E2 & E3)].
  - exists [], []. cbn [app]. rewrite splitOn_cons. cbn.
    split; [reflexivity|]. split; [reflexivity|].
    destruct (splitOn 47 b) eqn:E; [by apply splitOn_nonempty in E|reflexivity].
  - cbn [app]. rewrite !splitOn_cons, E1, E2, E3.
    destruct (c =? 47).
    + exists ([] :: segs), seg. repeat split.
      destruct (splitOn 47 b); reflexivity.
    + destruct segs as [|s0 segs].
      * exists [], (c :: seg). cbn. repeat split.
        destruct (splitOn 47 b); reflexivity.
      * exists ((c :: s0) :: segs), seg. cbn. repeat split.
        destruct (splitOn 47 b); reflexivity.
Qed.

Lemma splitOn_sep (a b : jsstring) :
  splitOn 47 (a ++ 47 :: b) = splitOn 47 a ++ splitOn 47 b.
Proof.
  destruct (splitOn_snoc_seg a b) as (segs & seg & -> & -> & _).
  by rewrite <- app_assoc.
Qed.

Lemma splitOn_noSlash_seg (seg : jsstring) : noSlash seg -> splitOn 47 seg = [seg].
Proof.
  unfold noSlash. induction seg as [|c seg IH]; [reflexivity|].
  rewrite elem_of_cons. intros H. rewrite splitOn_cons.
  destruct (Z.eqb_spec c 47) as [->|]; [tauto|].
  rewrite IH by tauto. reflexivity.
Qed.

Lemma splitOn_joinWith (segs : list jsstring) :
  Forall noSlash segs -> segs <> [] -> splitOn 47 (joinWith 47 segs) = segs.
Proof.
  induction 1 as [|seg segs Hs Hsegs IH]; [done|]. intros _.
  destruct segs as [|seg' segs'].
  - by apply splitOn_noSlash_seg.
  - change (joinWith 47 (seg :: seg' :: segs'))
      with (seg ++ 47 :: joinWith 47 (seg' :: segs')).
    rewrite splitOn_sep, splitOn_noSlash_seg, IH by done. reflexivity.
Qed.

Lemma run_skip allow (seg : jsstring) (segs st : list jsstring) :
  ~ proper seg -> run allow (seg :: segs) st = run allow segs st.
Proof. intros H. by rewrite run_cons, normalizeStep_skip. Qed.

Lemma not_proper_nil : ~ proper [].
Proof. unfold proper. tauto. Qed.

Lemma not_proper_dot : ~ proper [46].
Proof. unfold proper. tauto. Qed.

Lemma joinWith_head (seg : jsstring) (segs : list jsstring) :
  proper seg -> noSlash seg ->
  exists c t, joinWith 47 (seg :: segs) = c :: t /\ c <> 47.
Proof.
  intros [Hne _] Hs. destruct seg as [|c seg]; [done|].
  exists c. destruct segs; cbn; eexists; (split; [reflexivity|]);
    unfold noSlash in Hs; rewrite elem_of_cons in Hs; intros ->; tauto.
Qed.

Lemma normalize_eq (x : jsstring) :
  x <> [] ->
  normalize x =
  match joinWith 47 (normalizeSegments (negb (isAbsolute x)) (splitOn 47 x)) with
  | [] => if isAbsolute x then [47]
          else if hasTrailingSlash x then [46; 47] else [46]
  | c :: t =>
      if isAbsolute x
      then 47 :: (if hasTrailingSlash x then (c :: t) ++ [47] else c :: t)
      else (if hasTrailingSlash x then (c :: t) ++ [47] else c :: t)
  end.
Proof.
  destruct x as [|c0 x0]; [done|]. intros _. unfold normalize. cbv zeta.
  destruct (joinWith 47 _); reflexivity.
Qed.

Section Resolve.
Variable cwd : list jsstring.

Lemma resolve_eq (path : jsstring) :
  resolve cwd path
  = rev (run false (splitOn 47 path)
           (run false (if isAbsolute path then [] else cwd) [])).
Proof. unfold resolve, normalizeSegments. by rewrite <- run_app. Qed.

Lemma normalize_split (x : jsstring) :
  x <> [] ->
  isAbsolute (normalize x) = isAbsolute x
  /\ forall st, isAbsolute x = false \/ st = [] ->
       run false (splitOn 47 (normalize x)) st = run false (splitOn 47 x) st.
Proof.
  intros Hx. rewrite normalize_eq by exact Hx.
  set (N := normalizeSegments (negb (isAbsolute x)) (splitOn 47 x)).
  assert (HN : N = rev (run (negb (isAbsolute x)) (splitOn 47 x) [])) by reflexivity.
  assert (Hprop : Forall proper N).
  { rewrite HN. apply Forall_rev, run_proper. constructor. }
  assert (Hslash : Forall noSlash N).
  { rewrite HN. apply Forall_rev, run_Forall; [constructor|apply splitOn_noSlash]. }
  assert (Hrun : forall st, isAbsolute x = false \/ st = [] ->
            run false N st = run false (splitOn 47 x) st).
  { intros st Hst. rewrite HN. apply renormalize.
    destruct Hst as [-> | ->]; [by left|by right]. }
  destruct N as [|seg N'] eqn:EN.
  - cbn [joinWith]. split.
    + destruct (isAbsolute x); [reflexivity|]. by destruct (hasTrailingSlash x).
    + intros st Hst. rewrite <- Hrun by exact Hst.
      destruct (isAbsolute x); [reflexivity|]. by destruct (hasTrailingSlash x).
  - inversion Hprop as [|? ? Hseg _]; subst. inversion Hslash as [|? ? Hsl _]; subst.
    destruct (joinWith_head seg N' Hseg Hsl) as (c & t & Ej & Hc).
    assert (Hsplit : splitOn 47 (joinWith 47 (seg :: N')) = seg :: N')
      by (by apply splitOn_joinWith).
    rewrite Ej in *.
    assert (Habs : isAbsolute (c :: t) = false) by (cbn; by apply Z.eqb_neq).
    split.
    + destruct (hasTrailingSlash x), (isAbsolute x); try reflexivity; exact Habs.
    + intros st Hst. rewrite <- Hrun by exact Hst.
      assert (Htrail : splitOn 47 ((c :: t) ++ [47]) = (seg :: N') ++ [[]]).
      { rewrite splitOn_sep, Hsplit. reflexivity. }
      destruct (hasTrailingSlash x), (isAbsolute x); cbv beta iota zeta.
      * rewrite (splitOn_cons 47). cbn [Z.eqb Pos.eqb]. rewrite Htrail.
        rewrite run_skip by apply not_proper_nil.
        rewrite run_app. cbn [run fold_left].
        by rewrite normalizeStep_skip by apply not_proper_nil.
      * rewrite Htrail, run_app. cbn [run fold_left].
        by rewrite normalizeStep_skip by apply not_proper_nil.
      * rewrite (splitOn_cons 47). cbn [Z.eqb Pos.eqb]. rewrite Hsplit.
        by rewrite run_skip by apply not_proper_nil.
      * by rewrite Hsplit.
Qed.

Lemma resolve_normalize (x : jsstring) :
  x <> [] -> resolve cwd (normalize x) = resolve cwd x.
Proof.
  intros Hx. rewrite !resolve_eq.
  destruct (normalize_split x Hx) as [-> Hrun]. f_equal. apply Hrun.
  destruct (isAbsolute x); [by right|by left].
Qed.

(** Where [join] leads: the segments of [a], then those of [b]. *)
Lemma resolve_join (a b : jsstring) :
  a <> [] ->
  resolve cwd (join a b)
  = rev (run false (splitOn 47 b) (rev (resolve cwd a))).
Proof.
  intros Ha. rewrite (resolve_eq a), rev_involutive.
  destruct a as [|c a']; [done|]. destruct b as [|d b'].
  - cbn [join]. rewrite resolve_normalize by done. rewrite resolve_eq.
    change (splitOn 47 []) with [@nil Z].
    by rewrite run_skip by apply not_proper_nil.
  - cbn [join]. rewrite resolve_normalize by done. rewrite resolve_eq.
    change ((c :: a') ++ 47 :: d :: b') with ((c :: a') ++ 47 :: (d :: b')).
    rewrite splitOn_sep, run_app. reflexivity.
Qed.

(** Without [..] in the entry path, the file is at or below the output
    directory. *)
Lemma resolve_join_prefix (a b : jsstring) :
  a <> [] -> Forall (fun s => s <> dotdot) (splitOn 47 b) ->
  resolve cwd a `prefix_of` resolve cwd (join a b).
Proof.
  intros Ha Hb. rewrite resolve_join by exact Ha.
  destruct (run_extend (splitOn 47 b) (rev (resolve cwd a)) Hb) as [ext ->].
  rewrite rev_app_distr, rev_involutive. by exists (rev ext).
Qed.

Lemma normalize_nonempty (x : jsstring) : normalize x <> [].
Proof.
  destruct x as [|c x]; [done|]. rewrite normalize_eq by done.
  destruct (joinWith 47 _) as [|c' p].
  - destruct (isAbsolute _); [done|]. by destruct (hasTrailingSlash _).
  - destruct (hasTrailingSlash _), (isAbsolute _); done.
Qed.

Lemma join_nonempty (a b : jsstring) : join a b <> [].
Proof.
  unfold join. destruct a, b; try done; apply normalize_nonempty.
Qed.

End Resolve.

(** * Truncated containers *)

Lemma len_entryBytes (p c : list byte) : len (entryBytes p c) = 8 + len p + len c.
Proof. unfold entryBytes. rewrite !len_app, !len_uint32LE. lia. Qed.

Lemma readEntry_take (p c rest : list byte) (k : nat) :
  len p < 2 ^ 32 -> len c < 2 ^ 32 -> (8 <= k)%nat ->
  readEntry (ofBytes (take k (entryBytes p c ++ rest))) 0
  = Some (uint8ArrayToText (take (k - 8) p),
          take (k - 8 - length p) c, len (entryBytes p c)).
Proof.
  intros Hp Hc Hk. unfold readEntry. cbn [buffer byteOffset ofBytes].
  pose proof (len_nonneg p). pose proof (len_nonneg c). pose proof (len_nonneg rest).
  rewrite newDataView_ofBytes by lia.
  assert (Hlen : 8 <= len (take k (entryBytes p c ++ rest))).
  { rewrite len_take, len_app, len_entryBytes. lia. }
  replace (0 + 0 + 8 <=? _) with true by (symmetry; apply Z.leb_le; lia).
  change (Z.to_nat (0 + 0)) with 0%nat. change (Z.to_nat 8) with 8%nat.
  rewrite drop_0, take_take, Nat.min_l by lia.
  assert (Hv : take 8 (entryBytes p c ++ rest) = uint32LE (len p) ++ uint32LE (len c) ++ [])
    by reflexivity.
  rewrite Hv. destruct (getUint32_header (len p) (len c) []) as [-> ->].
  unfold toUint32. rewrite !Z.mod_small by lia.
  rewrite !subarray_ofBytes by lia.
  rewrite len_entryBytes.
  replace (0 + 8 + len p - (0 + 8)) with (len p) by lia.
  replace (0 + 8 + len p + len c - (0 + 8 + len p)) with (len c) by lia.
  assert (Hd8 : drop 8 (entryBytes p c ++ rest) = p ++ c ++ rest).
  { unfold entryBytes. rewrite <- !app_assoc. reflexivity. }
  assert (Hpath : take (Z.to_nat (len p)) (drop (Z.to_nat (0 + 8))
                    (take k (entryBytes p c ++ rest))) = take (k - 8) p).
  { change (Z.to_nat (0 + 8)) with 8%nat.
    replace k with (8 + (k - 8))%nat at 1 by lia.
    rewrite <- take_drop_commute, Hd8, take_take.
    unfold len. rewrite Nat2Z.id.
    destruct (Nat.le_gt_cases (k - 8) (length p)).
    - rewrite Nat.min_r by lia. by rewrite take_app_le.
    - rewrite Nat.min_l by lia. rewrite take_app_length. by rewrite take_ge by lia. }
  assert (Hcontent : take (Z.to_nat (len c)) (drop (Z.to_nat (0 + 8 + len p))
                    (take k (entryBytes p c ++ rest))) = take (k - 8 - length p) c).
  { replace (Z.to_nat (0 + 8 + len p)) with (8 + length p)%nat by (unfold len; lia).
    destruct (Nat.le_gt_cases k (8 + length p)).
    - rewrite drop_ge by (rewrite length_take; lia).
      replace (k - 8 - length p)%nat with 0%nat by lia. by rewrite take_nil.
    - replace k with ((8 + length p) + (k - 8 - length p))%nat at 1 by lia.
      rewrite <- take_drop_commute, <- drop_drop, Hd8, drop_app_length, take_take.
      unfold len. rewrite Nat2Z.id.
      destruct (Nat.le_gt_cases (k - 8 - length p) (length c)).
      + rewrite Nat.min_r by lia. by rewrite take_app_le.
      + rewrite Nat.min_l by lia. rewrite take_app_length. by rewrite take_ge by lia. }
  rewrite Hpath, Hcontent. repeat f_equal; lia.
Qed.

Lemma decodeEntries_end (bs : list byte) (o : Z) :
  len bs <= o -> decodeEntries (ofBytes bs) o = Some [].
Proof.
  intros H. rewrite decodeEntries_eq. cbn [length_ ofBytes].
  by replace (o <? len bs) with false by (symmetry; apply Z.ltb_ge; lia).
Qed.

Lemma decodeEntries_truncated (es : list (list byte * list byte)) :
  Forall (fun e => len e.1 < 2 ^ 32 /\ len e.2 < 2 ^ 32) es ->
  forall k : nat,
  decodeEntries (ofBytes (take k (flat_map (fun e => entryBytes e.1 e.2) es))) 0
  = if cutInHeader es (Z.of_nat k) then None
    else Some (truncatedEntries es (Z.of_nat k)).
Proof.
  induction 1 as [|[p c] es [Hp Hc] _ IH]; intros k.
  - cbn. rewrite take_nil. by apply decodeEntries_end.
  - cbn [flat_map fst snd cutInHeader truncatedEntries] in *.
    set (rest := flat_map _ es) in *.
    pose proof (len_nonneg p). pose proof (len_nonneg c).
    pose proof (len_entryBytes p c) as HL.
    destruct (Z.leb_spec (Z.of_nat k) 0) as [Hk0|Hk0].
    { replace k with 0%nat by lia. by apply decodeEntries_end. }
    assert (Hlen : len (take k (entryBytes p c ++ rest))
                   = Z.min (Z.of_nat k) (len (entryBytes p c) + len rest))
      by (by rewrite len_take, len_app).
    pose proof (len_nonneg rest).
    rewrite decodeEntries_eq. cbn [length_ ofBytes].
    replace (0 <? _) with true by (symmetry; apply Z.ltb_lt; lia).
    destruct (Z.ltb_spec (Z.of_nat k) 8) as [Hk8|Hk8].
    { unfold readEntry. cbn [buffer byteOffset ofBytes].
      rewrite newDataView_ofBytes by lia.
      by replace (0 + 0 + 8 <=? _) with false by (symmetry; apply Z.leb_gt; lia). }
    rewrite readEntry_take by (assumption || lia).
    replace (Z.to_nat (Z.of_nat k - 8)) with (k - 8)%nat by lia.
    replace (Z.to_nat (Z.of_nat k - 8 - len p)) with (k - 8 - length p)%nat
      by (unfold len; lia).
    destruct (Z.le_gt_cases (Z.of_nat k) (len (entryBytes p c))) as [Hle|Hgt].
    + rewrite decodeEntries_end by lia.
      assert (Hno : forall j, j <= 0 ->
                cutInHeader es j = false /\ truncatedEntries es j = []).
      { intros j Hj. destruct es as [|[p' c'] es']; [done|]. cbn.
        by replace (j <=? 0) with true by (symmetry; apply Z.leb_le; lia). }
      destruct (Hno (Z.of_nat k - len (entryBytes p c))) as [-> ->]; [lia|].
      reflexivity.
    + assert (Hsplit : take k (entryBytes p c ++ rest)
                       = entryBytes p c ++ take (k - length (entryBytes p c)) rest).
      { apply take_app_ge. unfold len in Hgt. lia. }
      rewrite Hsplit.
      rewrite <- (Z.add_0_r (len (entryBytes p c))) at 1.
      rewrite decodeEntries_shift, IH by lia.
      replace (Z.of_nat (k - length (entryBytes p c)))
        with (Z.of_nat k - len (entryBytes p c)) by (unfold len in *; lia).
      by destruct (cutInHeader es _).
Qed.

(** ** A cut inside the metadata *)

Lemma utf8_length (c : Z) : (1 <= length (utf8EncodeCodePoint c) <= 4)%nat.
Proof.
  unfold utf8EncodeCodePoint.
  destruct (c <? 0x80), (c <? 0x800), (c <? 0x10000); cbn; lia.
Qed.

Lemma utf8Decode_partial (c : Z) (k : nat) :
  isScalar c -> (0 < k < length (utf8EncodeCodePoint c))%nat ->
  utf8Decode (take k (utf8EncodeCodePoint c)) 0 0 0x80 0xBF = [0xFFFD].
Proof.
  intros Hc. unfold utf8EncodeCodePoint, isScalar in *.
  destruct (Z.ltb_spec c 0x80) as [H1|H1]; [cbn; lia|].
  destruct (Z.ltb_spec c 0x800) as [H2|H2].
  { cbn [length]. intros Hk. replace k with 1%nat by lia. cbn [take].
    assert (0xC2 <= 0xC0 + c / 64 <= 0xDF) by (Z.div_mod_to_equations; lia).
    rewrite utf8Decode_lead2; rewrite !byteToZ_byteOfZ_small by lia; [|lia].
    reflexivity. }
  destruct (Z.ltb_spec c 0x10000) as [H3|H3].
  { set (b1 := 0xE0 + c / 4096). set (b2 := 0x80 + (c / 64) mod 64).
    assert (0xE0 <= b1 <= 0xEF /\ 0x80 <= b2 <= 0xBF
            /\ (b1 = 0xE0 -> 0xA0 <= b2) /\ (b1 = 0xED -> b2 <= 0x9F))
      as (Ha & Hb & Hlo & Hhi)
      by (subst b1 b2; Z.div_mod_to_equations; lia).
    cbn [length]. intros Hk.
    assert (k = 1 \/ k = 2)%nat as [-> | ->] by lia; cbn [take].
    - rewrite utf8Decode_lead3; rewrite !byteToZ_byteOfZ_small by lia; [|lia].
      reflexivity.
    - rewrite utf8Decode_lead3; rewrite !byteToZ_byteOfZ_small by lia; [|lia].
      rewrite utf8Decode_more; rewrite !byteToZ_byteOfZ_small by lia; [reflexivity|].
      destruct (Z.eqb_spec b1 0xE0), (Z.eqb_spec b1 0xED); lia. }
  { set (b1 := 0xF0 + c / 262144). set (b2 := 0x80 + (c / 4096) mod 64).
    set (b3 := 0x80 + (c / 64) mod 64).
    assert (0xF0 <= b1 <= 0xF4 /\ 0x80 <= b2 <= 0xBF /\ 0x80 <= b3 <= 0xBF
            /\ (b1 = 0xF0 -> 0x90 <= b2) /\ (b1 = 0xF4 -> b2 <= 0x8F))
      as (Ha & Hb & Hd & Hlo & Hhi)
      by (subst b1 b2 b3; Z.div_mod_to_equations; lia).
    cbn [length]. intros Hk.
    assert (k = 1 \/ k = 2 \/ k = 3)%nat as [-> | [-> | ->]] by lia; cbn [take].
    - rewrite utf8Decode_lead4; rewrite !byteToZ_byteOfZ_small by lia; [|lia].
      reflexivity.
    - rewrite utf8Decode_lead4; rewrite !byteToZ_byteOfZ_small by lia; [|lia].
      rewrite utf8Decode_more; rewrite !byteToZ_byteOfZ_small by lia; [reflexivity|].
      destruct (Z.eqb_spec b1 0xF0), (Z.eqb_spec b1 0xF4); lia.
    - rewrite utf8Decode_lead4; rewrite !byteToZ_byteOfZ_small by lia; [|lia].
      rewrite utf8Decode_more; rewrite !byteToZ_byteOfZ_small by lia.
      2:{ destruct (Z.eqb_spec b1 0xF0), (Z.eqb_spec b1 0xF4); lia. }
      rewrite utf8Decode_more; rewrite !byteToZ_byteOfZ_small by lia; [reflexivity|lia]. }
Qed.

Lemma utf8Decode_take (cps : list Z) :
  Forall isScalar cps ->
  forall k, (k < length (flat_map utf8EncodeCodePoint cps))%nat ->
  exists j tail, (j < length cps)%nat /\ (tail = [] \/ tail = [0xFFFD])
    /\ utf8Decode (take k (flat_map utf8EncodeCodePoint cps)) 0 0 0x80 0xBF
       = take j cps ++ tail.
Proof.
  induction 1 as [|c cps Hc _ IH]; intros k Hk; [cbn in Hk; lia|].
  cbn [flat_map] in *. rewrite length_app in Hk.
  pose proof (utf8_length c) as Hl.
  destruct (Nat.lt_ge_cases k (length (utf8EncodeCodePoint c))) as [Hlt|Hge].
  - rewrite take_app_le by lia. exists 0%nat. cbn [take app length].
    destruct k as [|k].
    + exists []. repeat split; [lia|by left].
    + exists [0xFFFD]. split; [lia|]. split; [by right|].
      apply utf8Decode_partial; [exact Hc|lia].
  - rewrite take_app_ge by lia. rewrite utf8Decode_encode by exact Hc.
    destruct (IH (k - length (utf8EncodeCodePoint c))%nat) as (j & tail & Hj & Ht & ->);
      [lia|].
    exists (S j), tail. cbn [length take app]. repeat split; [lia|exact Ht].
Qed.

(** The text recovered from a cut encoding of an object text: a proper
    prefix, followed by U+FFFD when the cut is inside a character. *)
Lemma truncated_text (T' : jsstring) (k : nat) :
  wellFormed (123 :: T') = true ->
  (k < length (textToUint8Array (123%Z :: T')))%nat ->
  exists P X tail, 123 :: T' = P ++ X /\ X <> [] /\ (tail = [] \/ tail = [0xFFFD])
    /\ uint8ArrayToText (take k (textToUint8Array (123 :: T'))) = P ++ tail.
Proof.
  intros Hwf Hk. destruct (wellFormed_scalars _ Hwf) as [Hsc Hunits].
  unfold textToUint8Array, uint8ArrayToText in *.
  destruct (utf8Decode_take _ Hsc k Hk) as (j & tail & Hj & Ht & ->).
  set (cps := toScalarValues (123 :: T')) in *.
  assert (Hhead : exists cps', cps = 123 :: cps') by (eexists; reflexivity).
  destruct Hhead as [cps' Ecps].
  exists (flat_map codePointToUnits (take j cps)),
         (flat_map codePointToUnits (drop j cps)), tail.
  split; [|split; [|split; [exact Ht|]]].
  - rewrite <- flat_map_app, take_drop. by symmetry.
  - destruct (drop j cps) as [|c rest] eqn:Ed.
    + assert (Hz : length (drop j cps) = 0%nat) by (by rewrite Ed).
      rewrite length_drop in Hz. lia.
    + cbn [flat_map]. unfold codePointToUnits. by destruct (c <? 0x10000).
  - assert (Hstrip : stripBOM (take j cps ++ tail) = take j cps ++ tail).
    { rewrite Ecps. destruct j; [|reflexivity]. cbn [take app].
      destruct Ht as [-> | ->]; reflexivity. }
    rewrite Hstrip, flat_map_app. f_equal.
    destruct Ht as [-> | ->]; reflexivity.
Qed.

Lemma checkMetadata_truncated (created : jsstring) (files : JSObject) (n : Z) (k : nat) :
  Forall isCodeUnit created -> Forall (fun p => Forall isCodeUnit p.1) files ->
  files <> [] ->
  (k < length (metadataBuffer created files))%nat ->
  checkMetadata n (uint8ArrayToText (take k (metadataBuffer created files)))
  = inl (Caught SyntaxError).
Proof.
  intros Hc Hf Hne Hk. unfold metadataBuffer in *.
  assert (Hd : descriptors files <> []).
  { unfold descriptors. intros E. apply (f_equal length) in E.
    rewrite length_map, objectKeys_length in E. by destruct files. }
  destruct (parse_archiveMetadata created files Hc Hf Hd) as [fuel Hp].
  pose proof (stringify_archiveMetadata_wellFormed created files Hc Hf) as Hwf.
  assert (HT : exists T', stringify (archiveMetadata created files) = 123 :: T').
  { rewrite stringify_archiveMetadata. eexists; reflexivity. }
  destruct HT as [T' ET]. rewrite ET in *.
  destruct (truncated_text T' k Hwf Hk) as (P & X & tail & E & HX & Ht & ->).
  unfold checkMetadata.
  destruct Ht as [-> | ->].
  - rewrite app_nil_r. by rewrite (JSON_parse_prefix fuel T' P X _ Hp E HX).
  - by rewrite JSON_parse_replacement.
Qed.

(** * The claims *)

Lemma entryStream_entries (files : JSObject) :
  entryStream files = flat_map (fun e => entryBytes e.1 e.2) (streamEntries files).
Proof.
  unfold entryStream, streamEntries.
  induction (sortStrings (objectKeys files)) as [|k ks IH]; [reflexivity|].
  cbn [flat_map map fst snd]. by rewrite IH.
Qed.

Lemma sortedKeys_in (files : JSObject) (k : jsstring) :
  k ∈ sortStrings (objectKeys files) -> k ∈ map fst files.
Proof. intros H. by rewrite sortStrings_perm, objectKeys_perm in H. Qed.

Lemma streamEntries_fit (files : JSObject) :
  NoDup (map fst files) ->
  Forall (fun f => len (textToUint8Array f.1) < 2 ^ 32 /\ len f.2 < 2 ^ 32) files ->
  Forall (fun e => len e.1 < 2 ^ 32 /\ len e.2 < 2 ^ 32) (streamEntries files).
Proof.
  intros Hnd Hfit. unfold streamEntries. apply Forall_map, Forall_forall.
  intros k Hk. apply sortedKeys_in, list_elem_of_fmap in Hk as ([k' c] & -> & Hin).
  cbn [fst snd]. rewrite (fileContent_lookup files k' c Hnd Hin).
  rewrite Forall_forall in Hfit. exact (Hfit _ Hin).
Qed.

Lemma stripBOM_plain (path : jsstring) : head path <> Some 0xFEFF -> stripBOM path = path.
Proof.
  destruct path as [|c p]; [reflexivity|]. cbn.
  destruct (Z.eqb_spec c 0xFEFF) as [->|]; [done|reflexivity].
Qed.

(** The entries that [compressDirectory] writes for [files], as decoding
    returns them. *)
Lemma decodeContainer_encoded (created : jsstring) (files : JSObject) :
  files <> [] -> NoDup (map fst files) ->
  Forall isCodeUnit created ->
  Forall (fun f => plainPath f.1) files ->
  fitsUint32 created files ->
  decodeContainer (ofBytes (finalBuffer created files))
  = inr (metadataList files,
         map (fun k => (k, fileContent files k)) (sortStrings (objectKeys files))).
Proof.
  intros Hne Hnd Hc Hplain [Hm Hfit].
  assert (Hunits : Forall (fun p : jsstring * list byte => Forall isCodeUnit p.1) files).
  { eapply Forall_impl; [exact Hplain|]. intros f [Hwf _]. by apply wellFormed_codeUnits. }
  rewrite finalBuffer_layout. unfold decodeContainer.
  rewrite readMetadata_container, checkMetadata_archive by assumption.
  unfold container. rewrite app_assoc.
  replace (4 + len (metadataBuffer created files))
    with (len (uint32LE (len (metadataBuffer created files)) ++ metadataBuffer created files) + 0)
    by (rewrite len_app, len_uint32LE; lia).
  rewrite decodeEntries_shift by lia.
  rewrite entryStream_entries, decodeEntries_stream by (by apply streamEntries_fit).
  unfold streamEntries, metadataList. rewrite map_map. do 2 f_equal.
  apply map_ext_in. intros k Hk. cbn [fst snd].
  apply list_elem_of_In, sortedKeys_in, list_elem_of_fmap in Hk as ([k' c] & -> & Hin).
  rewrite Forall_forall in Hplain. destruct (Hplain _ Hin) as [Hwf Hbom].
  cbn [fst] in *. by rewrite text_roundtrip, stripBOM_plain.
Qed.

(** The container of a directory decodes to the files of the directory,
    when every length field fits and no path begins with U+FEFF. *)
Theorem container_roundtrip (created : jsstring) (files : JSObject) :
  files <> [] -> NoDup (map fst files) ->
  Forall isCodeUnit created ->
  Forall (fun f => plainPath f.1) files ->
  fitsUint32 created files ->
  exists entries,
    decodeContainer (ofBytes (finalBuffer created files))
    = inr (metadataList files, entries)
    /\ entries ≡ₚ files.
Proof.
  intros Hne Hnd Hc Hplain Hfit.
  exists (map (fun k => (k, fileContent files k)) (sortStrings (objectKeys files))).
  split; [by apply decodeContainer_encoded|].
  rewrite <- (keys_entries files Hnd) at 2.
  apply Permutation_map. by rewrite sortStrings_perm, objectKeys_perm.
Qed.

(** C1: the round trip fails for a path that begins with U+FEFF. The file
    [<U+FEFF>a] with content [hi] comes back as the file [a]: the decoder
    of [uint8ArrayToText] drops the leading U+FEFF of the path. *)
Theorem C1_leading_feff_path_not_restored :
  let files : JSObject := [([0xFEFF; 97], [Byte.x68; Byte.x69])] in
  decodeContainer (ofBytes (finalBuffer (js "2024-01-01T00:00:00.000Z") files))
  = inr (metadataList files, [([97], [Byte.x68; Byte.x69])]).
Proof. vm_compute. reflexivity. Qed.

(** C2 as stated fails: the container of one file [a] with three bytes of
    content, cut one byte before its end, decodes without an error to the
    file [a] with two bytes. *)
Lemma C2_truncated_content_accepted :
  let files : JSObject := [(js "a", [Byte.x01; Byte.x02; Byte.x03])] in
  let buf := finalBuffer (js "2024-01-01T00:00:00.000Z") files in
  decodeContainer (ofBytes (take (length buf - 1) buf))
  = inr (metadataList files, [(js "a", [Byte.x01; Byte.x02])]).
Proof. vm_compute. reflexivity. Qed.

(** C2, amended: a valid container cut after [k] bytes, [k] less than its
    length, fails to decode with a [RangeError] when the cut is inside the
    4-byte metadata length or strictly inside the 8-byte header of an entry,
    and with a JSON [SyntaxError] when it is inside the metadata; a cut
    anywhere else (inside the path or the content of an entry, or between
    two entries) is not detected: decoding succeeds with the entries before
    the cut, the last of them clamped to the bytes that remain. *)
Theorem C2_truncation (created : jsstring) (files : JSObject) (k : nat) :
  files <> [] -> NoDup (map fst files) ->
  Forall isCodeUnit created ->
  Forall (fun f => Forall isCodeUnit f.1) files ->
  fitsUint32 created files ->
  (k < length (finalBuffer created files))%nat ->
  decodeContainer (ofBytes (take k (finalBuffer created files))) =
  let M := len (metadataBuffer created files) in
  if Z.of_nat k <? 4 then inl (Caught RangeError)
  else if Z.of_nat k <? 4 + M then inl (Caught SyntaxError)
  else if cutInHeader (streamEntries files) (Z.of_nat k - 4 - M)
       then inl (Caught RangeError)
       else inr (metadataList files,
                 truncatedEntries (streamEntries files) (Z.of_nat k - 4 - M)).
Proof.
  intros Hne Hnd Hc Hunits [Hm Hfit] Hk. cbv zeta.
  rewrite finalBuffer_layout in *. unfold decodeContainer.
  set (meta := metadataBuffer created files) in *.
  pose proof (len_nonneg meta) as Hmeta.
  destruct (Z.ltb_spec (Z.of_nat k) 4) as [Hk4|Hk4].
  { rewrite readMetadata_short; [reflexivity|]. rewrite len_take. lia. }
  rewrite readMetadata_take by (assumption || lia).
  destruct (Z.ltb_spec (Z.of_nat k) (4 + len meta)) as [HkM|HkM].
  { subst meta. rewrite checkMetadata_truncated; try assumption; [reflexivity|].
    unfold len in HkM. lia. }
  rewrite take_ge by (unfold len in HkM; lia). subst meta.
  rewrite checkMetadata_archive by assumption.
  set (meta := metadataBuffer created files) in *.
  unfold container. rewrite app_assoc.
  assert (Hpre : length (uint32LE (len meta) ++ meta) = (4 + length meta)%nat)
    by (by rewrite length_app).
  rewrite take_app_ge by (unfold len in HkM; lia).
  replace (4 + len meta) with (len (uint32LE (len meta) ++ meta) + 0)
    by (rewrite len_app, len_uint32LE; lia).
  rewrite decodeEntries_shift by lia.
  rewrite entryStream_entries.
  rewrite decodeEntries_truncated by (by apply streamEntries_fit).
  rewrite Hpre.
  replace (Z.of_nat (k - (4 + length meta))) with (Z.of_nat k - 4 - len meta)
    by (unfold len in *; lia).
  by destruct (cutInHeader _ _).
Qed.

(** * The compression level *)

Lemma indexValue_app (k1 k2 : jsstring) (acc : Z) :
  indexValue (k1 ++ k2) acc = indexValue k2 (indexValue k1 acc).
Proof. revert acc. induction k1 as [|c k1 IH]; intros acc; [reflexivity|]. cbn. apply IH. Qed.

Lemma digitsAux_S (fuel : nat) (n : Z) (acc : jsstring) :
  digitsAux (S fuel) n acc =
  if n <? 10 then (48 + n) :: acc
  else digitsAux fuel (n / 10) ((48 + n mod 10) :: acc).
Proof. reflexivity. Qed.

Lemma digitsAux_value (fuel : nat) : forall (n : Z) (acc : jsstring),
  0 <= n < 2 ^ Z.of_nat (S fuel) ->
  exists d ds, digitsAux (S fuel) n acc = (d :: ds) ++ acc
               /\ Forall (fun c => isDigit c = true) (d :: ds)
               /\ indexValue (d :: ds) 0 = n.
Proof.
  induction fuel as [|fuel IH]; intros n acc Hn.
  - change (2 ^ Z.of_nat 1) with 2 in Hn.
    exists (48 + n), []. rewrite digitsAux_S.
    destruct (Z.ltb_spec n 10); [|lia]. split; [reflexivity|]. split.
    + constructor; [unfold isDigit; lia|constructor].
    + cbn. lia.
  - rewrite digitsAux_S.
    destruct (Z.ltb_spec n 10) as [Hlt|Hge].
    + exists (48 + n), []. split; [reflexivity|]. split.
      * constructor; [unfold isDigit; lia|constructor].
      * cbn. lia.
    + assert (Hq : 0 <= n / 10 < 2 ^ Z.of_nat (S fuel)).
      { split; [apply Z.div_pos; lia|].
        apply Z.div_lt_upper_bound; [lia|].
        rewrite (Nat2Z.inj_succ (S fuel)), Z.pow_succ_r in Hn by lia. lia. }
      destruct (IH (n / 10) ((48 + n mod 10) :: acc) Hq) as (d & ds & -> & Hds & Hv).
      exists d, (ds ++ [48 + n mod 10]). split; [|split].
      * cbn [app]. by rewrite <- app_assoc.
      * change (d :: ds ++ [48 + n mod 10]) with ((d :: ds) ++ [48 + n mod 10]).
        apply Forall_app. split; [exact Hds|].
        pose proof (Z.mod_pos_bound n 10 ltac:(lia)).
        constructor; [unfold isDigit; lia|constructor].
      * change (d :: ds ++ [48 + n mod 10]) with ((d :: ds) ++ [48 + n mod 10]).
        rewrite indexValue_app, Hv. cbn [indexValue].
        pose proof (Z.div_mod n 10 ltac:(lia)). lia.
Qed.

Lemma numberToString_value (n : Z) :
  0 <= n ->
  exists d ds, numberToString n = d :: ds
               /\ Forall (fun c => isDigit c = true) (d :: ds)
               /\ indexValue (d :: ds) 0 = n.
Proof.
  intros Hn. unfold numberToString.
  assert (Hb : 0 <= n < 2 ^ Z.of_nat (S (Z.to_nat (Z.log2 n)))).
  { split; [exact Hn|]. rewrite Nat2Z.inj_succ, Z2Nat.id by apply Z.log2_nonneg.
    destruct (Z.eq_dec n 0) as [->|]; [reflexivity|].
    apply Z.log2_spec. lia. }
  destruct (digitsAux_value _ n [] Hb) as (d & ds & E & Hds & Hv).
  exists d, ds. by rewrite E, app_nil_r.
Qed.

Lemma parseDigits_decimal (ds : jsstring) : forall acc : Z,
  Forall (fun c => isDigit c = true) ds ->
  parseDigits 10 ds (Some acc) = Some (indexValue ds acc).
Proof.
  induction ds as [|c ds IH]; intros acc Hds; [reflexivity|].
  inversion Hds as [|? ? Hc Hds']; subst.
  cbn [parseDigits indexValue]. unfold digitValue. rewrite Hc.
  unfold isDigit in Hc. destruct (Z.ltb_spec (c - 48) 10); [|lia].
  cbn [default]. by apply IH.
Qed.

Lemma roundToDouble_exact (n : Z) : Z.abs n < 2 ^ 53 -> roundToDouble n = Finite n.
Proof.
  intros H. unfold roundToDouble. cbv zeta.
  destruct (Z.ltb_spec (Z.abs n) (2 ^ 53)); [reflexivity|lia].
Qed.

Lemma parseInt_digits (d : Z) (ds : jsstring) :
  Forall (fun c => isDigit c = true) (d :: ds) ->
  parseInt (d :: ds) = Some (roundToDouble (indexValue (d :: ds) 0)).
Proof.
  intros Hds. inversion Hds as [|? ? Hd Hds']; subst.
  assert (Hr : 48 <= d <= 57) by (unfold isDigit in Hd; lia).
  unfold parseInt. cbn [dropWhile].
  replace (isStrWhiteSpace d) with false
    by (unfold isStrWhiteSpace; symmetry; repeat (apply orb_false_intro); lia).
  destruct (Z.eqb_spec d 45); [lia|]. destruct (Z.eqb_spec d 43); [lia|].
  assert (Hp : parseDigits 10 (d :: ds) None = Some (indexValue (d :: ds) 0)).
  { cbn [parseDigits indexValue]. unfold digitValue. rewrite Hd.
    destruct (Z.ltb_spec (d - 48) 10); [|lia]. cbn [default].
    by apply parseDigits_decimal. }
  destruct ds as [|x r].
  - rewrite Hp. do 2 f_equal. lia.
  - inversion Hds' as [|? ? Hx _]; subst. unfold isDigit in Hx.
    replace ((d =? 48) && ((x =? 120) || (x =? 88))) with false
      by (symmetry; apply andb_false_intro2, orb_false_intro; lia).
    rewrite Hp. do 2 f_equal. lia.
Qed.

Lemma parseInt_minus_digits (d : Z) (ds : jsstring) :
  Forall (fun c => isDigit c = true) (d :: ds) ->
  parseInt (45 :: d :: ds) = Some (roundToDouble (- indexValue (d :: ds) 0)).
Proof.
  intros Hds. inversion Hds as [|? ? Hd Hds']; subst.
  assert (Hr : 48 <= d <= 57) by (unfold isDigit in Hd; lia).
  unfold parseInt. cbn [dropWhile].
  change (isStrWhiteSpace 45) with false. cbv iota. change (45 =? 45) with true. cbv iota.
  assert (Hp : parseDigits 10 (d :: ds) None = Some (indexValue (d :: ds) 0)).
  { cbn [parseDigits indexValue]. unfold digitValue. rewrite Hd.
    destruct (Z.ltb_spec (d - 48) 10); [|lia]. cbn [default].
    by apply parseDigits_decimal. }
  destruct ds as [|x r].
  - rewrite Hp. reflexivity.
  - inversion Hds' as [|? ? Hx _]; subst. unfold isDigit in Hx.
    replace ((d =? 48) && ((x =? 120) || (x =? 88))) with false
      by (symmetry; apply andb_false_intro2, orb_false_intro; lia).
    rewrite Hp. reflexivity.
Qed.

Lemma splitOn_digits (ds : jsstring) :
  Forall (fun c => isDigit c = true) ds -> splitOn 61 ds = [ds].
Proof.
  induction 1 as [|c ds Hc _ IH]; [reflexivity|]. cbn [splitOn].
  unfold isDigit in Hc. destruct (Z.eqb_spec c 61); [lia|]. by rewrite IH.
Qed.

Lemma splitOn_first (sep : Z) (pre rest : jsstring) :
  sep ∉ pre -> splitOn sep (pre ++ sep :: rest) = pre :: splitOn sep rest.
Proof.
  induction pre as [|c pre IH]; intros Hp.
  - cbn [app splitOn]. by rewrite Z.eqb_refl.
  - rewrite not_elem_of_cons in Hp. destruct Hp as [Hc Hp].
    cbn [app splitOn]. destruct (Z.eqb_spec c sep); [congruence|]. by rewrite IH.
Qed.

Lemma splitOn_absent (sep : Z) (s : jsstring) : sep ∉ s -> splitOn sep s = [s].
Proof.
  induction s as [|c s IH]; [reflexivity|].
  rewrite not_elem_of_cons. intros [Hc Hs]. cbn [splitOn].
  destruct (Z.eqb_spec c sep); [congruence|]. by rewrite IH.
Qed.

Lemma digits_no_equals (ds : jsstring) :
  Forall (fun c => isDigit c = true) ds -> 61 ∉ ds.
Proof.
  intros H Hin. rewrite Forall_forall in H. apply H in Hin. discriminate Hin.
Qed.

Lemma parseInt_decimal (n : Z) :
  parseInt (decimal n) = Some (roundToDouble n) /\ splitOn 61 (decimal n) = [decimal n].
Proof.
  unfold decimal. destruct (Z.ltb_spec n 0) as [Hneg|Hpos].
  - destruct (numberToString_value (- n) ltac:(lia)) as (d & ds & -> & Hds & Hv).
    rewrite (parseInt_minus_digits _ _ Hds), Hv, Z.opp_involutive. split; [reflexivity|].
    apply splitOn_absent. rewrite not_elem_of_cons. split; [lia|].
    by apply digits_no_equals.
  - destruct (numberToString_value n Hpos) as (d & ds & -> & Hds & Hv).
    rewrite (parseInt_digits _ _ Hds), Hv. split; [reflexivity|].
    by apply splitOn_digits.
Qed.

(** The level for a command line whose first level option is
    [<prefix>=<n>], [n] in decimal: the Number value of [n], or 9 for 0. *)
Lemma level_of_option (args : list jsstring) (prefix : jsstring) (n : Z) :
  compressionLevelArg args = Some (prefix ++ 61 :: decimal n) -> 61 ∉ prefix ->
  level args = match roundToDouble n with Finite 0 => Finite 9 | v => v end.
Proof.
  intros Harg Hp. unfold level. rewrite Harg.
  destruct (parseInt_decimal n) as [Hparse Hsplit].
  rewrite (splitOn_first 61 prefix (decimal n) Hp), Hsplit.
  cbn [lookup list_lookup]. rewrite Hparse.
  by destruct (roundToDouble n) as [[|p|p]|b].
Qed.

Lemma level_exact (args : list jsstring) (prefix : jsstring) (n : Z) :
  compressionLevelArg args = Some (prefix ++ 61 :: decimal n) -> 61 ∉ prefix ->
  Z.abs n < 2 ^ 53 ->
  level args = Finite (if n =? 0 then 9 else n).
Proof.
  intros Harg Hp Hn. rewrite (level_of_option args prefix n Harg Hp).
  rewrite (roundToDouble_exact n Hn). by destruct n.
Qed.

(** * Unpacking as a whole *)

Section Unpack.
Variable cwd : list jsstring.
Variable gunzipSync : list byte -> option Buffer.

Lemma outputDirOrDefault_nonempty (archivePath : jsstring) (outputDir : option jsstring) :
  outputDirOrDefault archivePath outputDir <> [].
Proof.
  unfold outputDirOrDefault, defaultOutputDir.
  destruct outputDir as [[|c d]|]; try done; apply join_nonempty.
Qed.

Lemma lookupPath_file (fs : FS) (path : jsstring) (c : list byte) :
  lookupPath cwd fs path = Some (File c)
  <-> resolve cwd path <> [] /\ hasTrailingSlash path = false
      /\ fs !! resolve cwd path = Some (File c).
Proof.
  unfold lookupPath. destruct (resolve cwd path) as [|s k] eqn:E.
  - split; [discriminate|]. by intros [? _].
  - destruct (fs !! (s :: k)) as [[c'|]|]; [destruct (hasTrailingSlash path)|..];
      split; try discriminate; try (intros (_ & _ & [=]); done);
      try (intros (_ & [=] & _); done).
    + intros [= ->]. done.
    + intros (_ & _ & [= ->]). done.
Qed.

Lemma readFileSync_ensureDirectoryExists (fs fs1 : FS) (dirPath path : jsstring) :
  ensureDirectoryExists cwd fs dirPath = Some fs1 ->
  forall c, lookupPath cwd fs path = Some (File c) -> readFileSync cwd fs1 path = Some c.
Proof.
  intros He c Hl. apply lookupPath_file in Hl as (Hr & Ht & Hf).
  apply (ensureDirectoryExists_files cwd _ _ _ He) in Hf.
  unfold readFileSync.
  by rewrite (proj2 (lookupPath_file fs1 path c) (conj Hr (conj Ht Hf))).
Qed.

Lemma extractLoop_caught (outputDir : jsstring) (d : Buffer) (o total : Z)
  (ex : list (jsstring * list byte)) (fs : FS) e log fs' :
  extractLoop cwd outputDir d o total ex fs = (inl e, log, fs') -> exists x, e = Caught x.
Proof.
  intros H. apply (extractLoop_failure cwd outputDir d o total ex fs). by rewrite H.
Qed.

(** The two ways in which [extractContainer] ends. *)
Lemma extractContainer_inv (fs : FS) (outputDir : jsstring) (d : Buffer) r log fs' :
  extractContainer cwd fs outputDir d = (r, log, fs') ->
  (exists e, readMetadata d = inl e /\ r = inl e /\ log = [] /\ fs' = fs)
  \/ (exists n files rl, readMetadata d = inr (n, files)
        /\ extractLoop cwd outputDir d (4 + n) 0 [] fs = (rl, log, fs')
        /\ r = match rl with
               | inl e => inl e
               | inr total => inr (mkExtractStats (len files) total)
               end).
Proof.
  unfold extractContainer. destruct (readMetadata d) as [e|[n files]].
  - intros [= <- <- <-]. left. by exists e.
  - destruct (extractLoop cwd outputDir d (4 + n) 0 [] fs) as [[rl l] f] eqn:E.
    right. exists n, files, rl.
    destruct rl; injection H as <- <- <-; done.
Qed.

(** The ways in which [uncompressArchive] ends: with the container
    processed, or with an earlier failure and no file written. *)
Lemma uncompressArchive_inv (fs : FS) (archivePath : jsstring)
  (outputDir : option jsstring) r log fs' :
  uncompressArchive cwd gunzipSync fs archivePath outputDir = (r, log, fs') ->
  (exists fs1 data d,
      ensureDirectoryExists cwd fs (outputDirOrDefault archivePath outputDir) = Some fs1
      /\ lookupPath cwd fs archivePath = Some (File data)
      /\ gunzipSync data = Some d
      /\ extractContainer cwd fs1 (outputDirOrDefault archivePath outputDir) d
         = (r, log, fs'))
  \/ (log = []
      /\ (fs' = fs
          \/ ensureDirectoryExists cwd fs (outputDirOrDefault archivePath outputDir)
             = Some fs')
      /\ exists e, r = inl e
           /\ e ∈ [Caught StatError; NotAFile; Caught MkdirError; Caught ReadError;
                    Caught ZlibError]).
Proof.
  unfold uncompressArchive.
  destruct (lookupPath cwd fs archivePath) as [[c|]|] eqn:El.
  - destruct (ensureDirectoryExists cwd fs _) as [fs1|] eqn:Ee.
    + rewrite (readFileSync_ensureDirectoryExists _ _ _ _ Ee c El).
      destruct (gunzipSync c) as [d|] eqn:Eg.
      * intros H. left. by exists fs1, c, d.
      * intros [= <- <- <-]. right. split; [done|]. split; [by right|].
        eexists; split; [done|]. set_solver.
    + intros [= <- <- <-]. right. split; [done|]. split; [by left|].
      eexists; split; [done|]. set_solver.
  - intros [= <- <- <-]. right. split; [done|]. split; [by left|].
    eexists; split; [done|]. set_solver.
  - intros [= <- <- <-]. right. split; [done|]. split; [by left|].
    eexists; split; [done|]. set_solver.
Qed.

(** C3, amended: every regular file present after unpack either was there
    before with the same content, or is an entry of the stream written at
    [join(outputDir, path)]; this place is the output directory or below it
    whenever the entry path has no [..] segment (a leading slash changes
    nothing: the path is joined to the output directory all the same). *)
Theorem C3_files_written_by_unpack (fs : FS) (archivePath : jsstring)
  (outputDir : option jsstring) r log fs' (k : list jsstring) (c : list byte) :
  uncompressArchive cwd gunzipSync fs archivePath outputDir = (r, log, fs') ->
  fs' !! k = Some (File c) ->
  fs !! k = Some (File c)
  \/ exists path,
       (path, c) ∈ log
       /\ k = resolve cwd (join (outputDirOrDefault archivePath outputDir) path)
       /\ (Forall (fun seg => seg <> dotdot) (splitOn 47 path) ->
           resolve cwd (outputDirOrDefault archivePath outputDir) `prefix_of` k).
Proof.
  intros Hu Hk. set (out := outputDirOrDefault archivePath outputDir) in *.
  apply uncompressArchive_inv in Hu as [(fs1 & data & d & He & _ & _ & Hx)|(_ & [->|He] & _)].
  - pose proof (ensureDirectoryExists_files cwd _ _ _ He) as Hfiles.
    apply extractContainer_inv in Hx
      as [(e & _ & _ & _ & ->)|(n & files & rl & _ & Hloop & _)].
    + left. by apply Hfiles.
    + destruct (extractLoop_files cwd _ _ _ _ _ _ _ _ _ Hloop) as (new & -> & Hnew).
      destruct (Hnew k c Hk) as [Hold|(path & Hin & ->)].
      * left. by apply Hfiles.
      * right. exists path. split; [exact Hin|]. split; [reflexivity|].
        intros Hdd. apply resolve_join_prefix; [|exact Hdd].
        apply outputDirOrDefault_nonempty.
  - by left.
  - left. by apply (ensureDirectoryExists_files cwd _ _ _ He).
Qed.

(** C5: two containers that differ in their metadata only, both with
    metadata that is valid JSON with a non-empty [files] array, are
    unpacked to the same files: the writes and the resulting file system
    are the same. *)
Theorem C5_unpack_independent_of_metadata_list (fs : FS) (outputDir : jsstring)
  (meta1 meta2 stream : list byte) (metadata1 metadata2 : json)
  (files1 files2 : list json) :
  len meta1 < 2 ^ 32 -> len meta2 < 2 ^ 32 ->
  JSON_parse (uint8ArrayToText meta1) = Some metadata1 ->
  JSON_parse (uint8ArrayToText meta2) = Some metadata2 ->
  getProperty metadata1 (js "files") = Some (Some (JArray files1)) ->
  getProperty metadata2 (js "files") = Some (Some (JArray files2)) ->
  files1 <> [] -> files2 <> [] ->
  let run1 := extractContainer cwd fs outputDir (ofBytes (container meta1 stream)) in
  let run2 := extractContainer cwd fs outputDir (ofBytes (container meta2 stream)) in
  run1.1.2 = run2.1.2 /\ run1.2 = run2.2.
Proof.
  intros Hm1 Hm2 Hp1 Hp2 Hg1 Hg2 Hn1 Hn2.
  assert (Hrun : forall meta metadata files,
    len meta < 2 ^ 32 -> JSON_parse (uint8ArrayToText meta) = Some metadata ->
    getProperty metadata (js "files") = Some (Some (JArray files)) -> files <> [] ->
    let run := extractContainer cwd fs outputDir (ofBytes (container meta stream)) in
    run.1.2 = (extractLoop cwd outputDir (ofBytes stream) 0 0 [] fs).1.2
    /\ run.2 = (extractLoop cwd outputDir (ofBytes stream) 0 0 [] fs).2).
  { intros meta metadata files Hm Hp Hg Hn. cbv zeta. unfold extractContainer.
    rewrite readMetadata_container by exact Hm. unfold checkMetadata.
    rewrite Hp, Hg. cbn [toBoolean isArray negb orb].
    destruct (Z.eqb_spec (len files) 0) as [H0|_];
      [destruct files; [done|unfold len in H0; cbn in H0; lia]|].
    unfold container. rewrite app_assoc.
    replace (4 + len meta) with (len (uint32LE (len meta) ++ meta) + 0)
      by (rewrite len_app, len_uint32LE; lia).
    rewrite extractLoop_shift by lia.
    by destruct (extractLoop cwd outputDir (ofBytes stream) 0 0 [] fs) as [[[e|t] l] f]. }
  cbv zeta in *.
  destruct (Hrun meta1 metadata1 files1 Hm1 Hp1 Hg1 Hn1) as [-> ->].
  destruct (Hrun meta2 metadata2 files2 Hm2 Hp2 Hg2 Hn2) as [-> ->].
  done.
Qed.

(** C6, amended: processing a container fails with "No files found in the
    archive" exactly when the metadata is valid JSON whose [files] is the
    empty array; the entries of the stream are not looked at. *)
Theorem C6_empty_archive_iff_metadata_list_empty (fs : FS) (outputDir : jsstring)
  (d : Buffer) :
  (extractContainer cwd fs outputDir d).1.1 = inl NoFilesInArchive
  <-> exists headerView metadata,
        newDataView (buffer d) (byteOffset d) 4 = Some headerView
        /\ JSON_parse (uint8ArrayToText (subarray d 4 (4 + getUint32 headerView 0)))
           = Some metadata
        /\ getProperty metadata (js "files") = Some (Some (JArray [])).
Proof.
  assert (Hfail : (extractContainer cwd fs outputDir d).1.1 = inl NoFilesInArchive
                  <-> readMetadata d = inl NoFilesInArchive).
  { destruct (extractContainer cwd fs outputDir d) as [[r log] fs'] eqn:E.
    apply extractContainer_inv in E
      as [(e & Hr & -> & _)|(n & files & rl & Hr & Hl & ->)]; rewrite Hr; cbn [fst].
    - split; intros [= ->]; reflexivity.
    - split; [|discriminate]. destruct rl as [e|t]; [|discriminate]. intros [= ->].
      by destruct (extractLoop_caught _ _ _ _ _ _ _ _ _ Hl). }
  rewrite Hfail, readMetadata_eq. clear Hfail.
  destruct (newDataView (buffer d) (byteOffset d) 4) as [v|].
  2:{ split; [discriminate|]. intros (? & ? & H & _). discriminate H. }
  unfold checkMetadata.
  set (text := uint8ArrayToText (subarray d 4 (4 + getUint32 v 0))).
  split.
  - intros H. exists v.
    destruct (JSON_parse text) as [metadata|] eqn:Ep; [|discriminate]. exists metadata.
    split; [done|]. split; [exact Ep|].
    destruct (getProperty metadata (js "files")) as [files|]; [|discriminate].
    destruct (negb (toBoolean files) || negb (isArray files)); [discriminate|].
    destruct files as [[| | | |elements|]|]; try discriminate.
    destruct elements as [|x l]; [done|]. exfalso. revert H.
    replace (len (x :: l) =? 0) with false; [discriminate|].
    symmetry. apply Z.eqb_neq. unfold len. cbn [length]. lia.
  - intros (hv & md & [= <-] & Hp & Hg). fold text in Hp. rewrite Hp, Hg. reflexivity.
Qed.

(** C9, amended: packing leaves the file system as it was whenever it
    fails; unpacking leaves it as it was when the archive path is not a
    file; when the metadata lists no files, no file has been written, but
    the output directory has been created if it was missing. *)
Theorem C9_validation_failures (args : list jsstring) (now : jsstring)
  (gzipSync : list byte -> number -> option (list byte))
  (maxByteLength : Z) (fs : FS)
  (path : jsstring) (outputFile outputDir : option jsstring) :
  (forall e,
     (compressDirectory cwd args now gzipSync maxByteLength fs path outputFile).1 = inl e ->
     (compressDirectory cwd args now gzipSync maxByteLength fs path outputFile).2 = fs)
  /\ ((uncompressArchive cwd gunzipSync fs path outputDir).1.1 = inl NotAFile ->
      (uncompressArchive cwd gunzipSync fs path outputDir).2 = fs)
  /\ ((uncompressArchive cwd gunzipSync fs path outputDir).1.1 = inl NoFilesInArchive ->
      (uncompressArchive cwd gunzipSync fs path outputDir).1.2 = []
      /\ ensureDirectoryExists cwd fs (outputDirOrDefault path outputDir)
         = Some (uncompressArchive cwd gunzipSync fs path outputDir).2
      /\ forall k c, (uncompressArchive cwd gunzipSync fs path outputDir).2 !! k
                     = Some (File c) <-> fs !! k = Some (File c)).
Proof.
  split; [|split].
  - intros e. unfold compressDirectory.
    destruct (lookupPath cwd fs path) as [[c|]|]; try done.
    destruct (_ =? 0); [done|]. destruct (_ <? _); [done|].
    destruct (gzipSync _ _); [|done]. by destruct (writeFileSync _ _ _ _).
  - destruct (uncompressArchive cwd gunzipSync fs path outputDir) as [[r log] fs'] eqn:E.
    cbn [fst snd]. intros ->.
    unfold uncompressArchive in E.
    destruct (lookupPath cwd fs path) as [[c|]|]; [|by injection E|by injection E].
    destruct (ensureDirectoryExists cwd fs _) as [fs1|]; [|by injection E].
    destruct (readFileSync cwd fs1 path); [|by injection E].
    destruct (gunzipSync _) as [d|]; [|by injection E].
    apply extractContainer_inv in E as [(e & Hr & [= <-] & _)|(n & files & rl & _ & Hl & Hr)].
    + unfold readMetadata in Hr. destruct (newDataView _ _ _); [|done]. cbv zeta in Hr.
      destruct (JSON_parse _); [|done]. destruct (getProperty _ _) as [files|]; [|done].
      destruct (negb _ || negb _); [done|].
      destruct files as [[| | | |els|]|]; try done. by destruct (_ =? 0).
    + destruct rl as [e|t]; [|done]. injection Hr as <-.
      by destruct (extractLoop_caught _ _ _ _ _ _ _ _ _ Hl).
  - destruct (uncompressArchive cwd gunzipSync fs path outputDir) as [[r log] fs'] eqn:E.
    cbn [fst snd]. intros ->.
    apply uncompressArchive_inv in E
      as [(fs1 & data & d & He & _ & _ & Hx)|(_ & _ & e & [= <-] & He)].
    + apply extractContainer_inv in Hx
        as [(e & _ & _ & -> & ->)|(n & files & rl & _ & Hl & Hr)].
      * split; [done|]. split; [done|]. by apply (ensureDirectoryExists_files cwd _ _ _ He).
      * destruct rl as [e|t]; [|done]. injection Hr as <-.
        by destruct (extractLoop_caught _ _ _ _ _ _ _ _ _ Hl).
    + repeat (apply elem_of_cons in He as [He|He]; [discriminate He|]).
      by apply elem_of_nil in He.
Qed.

End Unpack.

(** * Packing *)

Lemma entryStream_perm (f1 f2 : JSObject) :
  NoDup (map fst f1) -> f1 ≡ₚ f2 -> entryStream f1 = entryStream f2.
Proof.
  intros Hnd Hp. unfold entryStream.
  assert (Hk : sortStrings (objectKeys f1) = sortStrings (objectKeys f2)).
  { apply sortStrings_unique. rewrite !objectKeys_perm. by apply Permutation_map. }
  rewrite <- Hk. clear Hk.
  assert (Hin : forall k, k ∈ sortStrings (objectKeys f1) -> k ∈ map fst f1)
    by apply sortedKeys_in.
  induction (sortStrings (objectKeys f1)) as [|k ks IH]; [reflexivity|].
  cbn [flat_map]. rewrite IH by (intros k' Hk'; apply Hin; by right).
  by rewrite (fileContent_perm f1 f2 k Hnd Hp) by (apply Hin; left).
Qed.

Lemma metadataBuffer_keys (created : jsstring) (f1 f2 : JSObject) :
  NoDup (map fst f1) -> f1 ≡ₚ f2 -> objectKeys f1 = objectKeys f2 ->
  metadataBuffer created f1 = metadataBuffer created f2.
Proof.
  intros Hnd Hp Hk. unfold metadataBuffer.
  rewrite !archiveMetadata_descriptors.
  assert (Hd : descriptors f1 = descriptors f2); [|by rewrite Hd].
  unfold descriptors. rewrite <- Hk. apply map_ext_in. intros k Hin.
  rewrite (fileContent_perm f1 f2 k Hnd Hp); [reflexivity|].
  apply list_elem_of_In in Hin. by rewrite objectKeys_perm in Hin.
Qed.

Lemma drop_container (meta stream : list byte) :
  drop (4 + length meta) (container meta stream) = stream.
Proof.
  unfold container. rewrite app_assoc.
  replace (4 + length meta)%nat with (length (uint32LE (len meta) ++ meta))
    by (by rewrite length_app).
  apply drop_app_length.
Qed.

(** * Examples *)

Lemma exampleFiles_valid :
  exampleFiles <> [] /\ NoDup (map fst exampleFiles)
  /\ Forall isCodeUnit exampleCreated
  /\ Forall (fun f : jsstring * list byte => plainPath f.1) exampleFiles
  /\ fitsUint32 exampleCreated exampleFiles.
Proof.
  split; [discriminate|]. split; [apply (bool_decide_unpack _); vm_compute; exact I|].
  split; [apply wellFormed_codeUnits; reflexivity|]. split.
  - constructor; [split; [reflexivity|discriminate]|].
    constructor; [split; [reflexivity|discriminate]|constructor].
  - split; [vm_compute; reflexivity|].
    constructor; [split; vm_compute; reflexivity|].
    constructor; [split; vm_compute; reflexivity|constructor].
Defined.

Lemma plainPath_codeUnits (files : JSObject) :
  Forall (fun f : jsstring * list byte => plainPath f.1) files ->
  Forall (fun f : jsstring * list byte => Forall isCodeUnit f.1) files.
Proof.
  intros H. eapply Forall_impl; [exact H|]. intros f [Hwf _]. by apply wellFormed_codeUnits.
Qed.

(** The container of the example of the specification, cut in the middle
    of its metadata. *)
Lemma C2_truncation_witness :
  decodeContainer (ofBytes (take 40 (finalBuffer exampleCreated exampleFiles)))
  = inl (Caught SyntaxError).
Proof.
  destruct exampleFiles_valid as (Hne & Hnd & Hc & Hp & Hfit).
  rewrite (C2_truncation exampleCreated exampleFiles 40 Hne Hnd Hc
             (plainPath_codeUnits _ Hp) Hfit).
  - vm_compute. reflexivity.
  - vm_compute. lia.
Defined.

(** C3 as stated fails: unpacking, into [out], an archive with the entry
    [../evil.txt] creates the file [/w/evil.txt], which is not under
    [/w/out]. *)
Lemma C3_dotdot_entry_written_outside :
  let archive := exampleContainer (jsq "{'files':[1]}") [(js "../evil.txt", [Byte.x78])] in
  let run := unpackExample archive (Some (js "out")) in
  run.1.1 = inr (mkExtractStats 1 1)
  /\ exampleFS archive !! [js "w"; js "evil.txt"] = None
  /\ run.2 !! [js "w"; js "evil.txt"] = Some (File [Byte.x78])
  /\ resolve [js "w"] (js "out") = [js "w"; js "out"]
  /\ ~ [js "w"; js "out"] `prefix_of` [js "w"; js "evil.txt"].
Proof.
  cbv zeta. repeat split; try (vm_compute; reflexivity).
  intros [ext H]. discriminate H.
Qed.

(** The example of the specification unpacked into [out]: the file
    [/w/out/sub/b.txt] is an entry written below [/w/out]. *)
Lemma C3_files_written_by_unpack_witness :
  let archive := finalBuffer exampleCreated exampleFiles in
  let run := unpackExample archive (Some (js "out")) in
  let k := [js "w"; js "out"; js "sub"; js "b.txt"] in
  exampleFS archive !! k = Some (File [])
  \/ exists path,
       (path, []) ∈ run.1.2
       /\ k = resolve [js "w"] (join (outputDirOrDefault (js "a.bunz") (Some (js "out"))) path)
       /\ (Forall (fun seg => seg <> dotdot) (splitOn 47 path) ->
           resolve [js "w"] (outputDirOrDefault (js "a.bunz") (Some (js "out")))
             `prefix_of` k).
Proof.
  intros archive run k.
  apply (C3_files_written_by_unpack [js "w"] storeGunzip (exampleFS archive) (js "a.bunz")
           (Some (js "out")) run.1.1 run.1.2 run.2 k []).
  - change (run = (run.1.1, run.1.2, run.2)). clearbody run. by destruct run as [[? ?] ?].
  - vm_compute. reflexivity.
Defined.

(** C4 as stated fails: the same two files enumerated in the two possible
    orders give different containers. *)
Lemma C4_enumeration_order_changes_container :
  let files1 : JSObject := [(js "a", [Byte.x01]); (js "b", [Byte.x02])] in
  let files2 : JSObject := [(js "b", [Byte.x02]); (js "a", [Byte.x01])] in
  files1 ≡ₚ files2
  /\ finalBuffer exampleCreated files1 <> finalBuffer exampleCreated files2.
Proof.
  cbv zeta. split; [apply perm_swap|].
  intros H. vm_compute in H. discriminate H.
Qed.

(** Two containers with the same entry and different metadata lists. *)
Lemma C5_unpack_independent_of_metadata_list_witness :
  let stream := entryBytes (textToUint8Array (js "a.txt")) [Byte.x68; Byte.x69] in
  let meta1 := textToUint8Array (jsq "{'files':[1]}") in
  let meta2 := textToUint8Array (jsq "{'version':'2','files':[{'path':'zzz','size':7},null]}") in
  let run1 := extractContainer [js "w"] ∅ (js "out") (ofBytes (container meta1 stream)) in
  let run2 := extractContainer [js "w"] ∅ (js "out") (ofBytes (container meta2 stream)) in
  run1.1.2 = run2.1.2 /\ run1.2 = run2.2.
Proof.
  intros stream meta1 meta2.
  apply (C5_unpack_independent_of_metadata_list [js "w"] ∅ (js "out") meta1 meta2 stream
           (JObject [(js "files", JArray [JNumber (js "1")])])
           (JObject [(js "version", JString (js "2"));
                     (js "files", JArray [JObject [(js "path", JString (js "zzz"));
                                                   (js "size", JNumber (js "7"))];
                                          JNull])])
           [JNumber (js "1")]
           [JObject [(js "path", JString (js "zzz")); (js "size", JNumber (js "7"))]; JNull]);
    try (vm_compute; reflexivity); discriminate.
Defined.

(** C6 as stated fails in both directions: a container whose metadata has
    an empty [files] list and whose stream has one entry is refused as
    empty, and a container whose metadata lists one file and whose stream
    has no entry is unpacked with success. *)
Lemma C6_entry_count_not_consulted :
  let listed := exampleContainer (jsq "{'files':[]}") [(js "a", [Byte.x78])] in
  let unlisted := exampleContainer (jsq "{'files':[1]}") [] in
  decodeEntries (ofBytes listed) (4 + 12) = Some [(js "a", [Byte.x78])]
  /\ (unpackExample listed (Some (js "out"))).1 = (inl NoFilesInArchive, [])
  /\ decodeEntries (ofBytes unlisted) (4 + 13) = Some []
  /\ (unpackExample unlisted (Some (js "out"))).1 = (inr (mkExtractStats 1 0), []).
Proof. cbv zeta. repeat split; vm_compute; reflexivity. Qed.

(** C9 as stated fails: an archive whose metadata lists no files is
    refused, but by then the missing output directory has been created. *)
Lemma C9_output_directory_created_before_failure :
  let archive := exampleContainer (jsq "{'files':[]}") [] in
  let run := unpackExample archive (Some (js "out")) in
  run.1.1 = inl NoFilesInArchive
  /\ exampleFS archive !! [js "w"; js "out"] = None
  /\ run.2 !! [js "w"; js "out"] = Some Directory.
Proof. cbv zeta. repeat split; vm_compute; reflexivity. Qed.

Lemma C9_validation_failures_witness :
  let archive := exampleContainer (jsq "{'files':[]}") [] in
  let run := unpackExample archive (Some (js "out")) in
  run.1.2 = []
  /\ ensureDirectoryExists [js "w"] (exampleFS archive)
       (outputDirOrDefault (js "a.bunz") (Some (js "out"))) = Some run.2
  /\ forall k c, run.2 !! k = Some (File c) <-> exampleFS archive !! k = Some (File c).
Proof.
  intros archive run.
  apply (C9_validation_failures [js "w"] storeGunzip [] exampleCreated storeGzip
           exampleLimit (exampleFS archive) (js "a.bunz") None (Some (js "out"))).
  vm_compute. reflexivity.
Defined.

(** The container of a directory with an empty metadata list is refused. *)
Lemma C6_empty_archive_iff_metadata_list_empty_witness :
  (extractContainer [js "w"] ∅ (js "out")
     (ofBytes (exampleContainer (jsq "{'files':[]}") [(js "a", [Byte.x78])]))).1.1
  = inl NoFilesInArchive.
Proof.
  apply (proj2 (C6_empty_archive_iff_metadata_list_empty [js "w"] ∅ (js "out") _)).
  eexists _, _. repeat split; vm_compute; reflexivity.
Defined.

(** * Further properties of the codec *)

(** Text that is well-formed UTF-16 survives [textToUint8Array] followed by
    [uint8ArrayToText] exactly when it does not begin with U+FEFF, which the
    decoder takes for a byte order mark and drops. *)
Theorem text_roundtrip_iff (s : jsstring) :
  wellFormed s = true ->
  uint8ArrayToText (textToUint8Array s) = s <-> head s <> Some 0xFEFF.
Proof.
  intros Hwf. rewrite (text_roundtrip s Hwf). split.
  - intros Hs Hh. destruct s as [|c r]; [discriminate|]. injection Hh as ->.
    cbn in Hs. apply (f_equal length) in Hs. cbn in Hs. lia.
  - apply stripBOM_plain.
Qed.

Lemma text_roundtrip_iff_witness :
  uint8ArrayToText (textToUint8Array (js "sub/b.txt")) = js "sub/b.txt"
  <-> head (js "sub/b.txt") <> Some 0xFEFF.
Proof. apply (text_roundtrip_iff (js "sub/b.txt")). reflexivity. Defined.

(** The round trip of the container, shown on the example. *)
Lemma container_roundtrip_witness :
  exists entries,
    decodeContainer (ofBytes (finalBuffer exampleCreated exampleFiles))
    = inr (metadataList exampleFiles, entries)
    /\ entries ≡ₚ exampleFiles.
Proof.
  destruct exampleFiles_valid as (Hne & Hnd & Hc & Hp & Hfit).
  exact (container_roundtrip exampleCreated exampleFiles Hne Hnd Hc Hp Hfit).
Defined.

(** [JSON.parse] gives back the object that [JSON.stringify] wrote for the
    archive metadata. *)
Theorem metadata_parse_stringify (created : jsstring) (files : JSObject) :
  Forall isCodeUnit created -> Forall (fun f => Forall isCodeUnit f.1) files ->
  files <> [] ->
  JSON_parse (stringify (archiveMetadata created files))
  = Some (archiveMetadata created files).
Proof.
  intros Hc Hf Hne.
  assert (Hd : descriptors files <> []).
  { unfold descriptors. intros H. apply map_eq_nil in H.
    apply (f_equal length) in H. rewrite objectKeys_length in H. by destruct files. }
  destruct (parse_archiveMetadata created files Hc Hf Hd) as [n Hn].
  by rewrite (JSON_parse_fuel n _ _ _ Hn).
Qed.

Lemma metadata_parse_stringify_witness :
  JSON_parse (stringify (archiveMetadata exampleCreated exampleFiles))
  = Some (archiveMetadata exampleCreated exampleFiles).
Proof.
  destruct exampleFiles_valid as (Hne & _ & Hc & Hp & _).
  exact (metadata_parse_stringify exampleCreated exampleFiles Hc
           (plainPath_codeUnits _ Hp) Hne).
Defined.

(** What unpack reads at the head of a container that pack wrote: the
    metadata length is the byte length of the metadata, and the list has
    one descriptor per file, so that the file count that unpack reports is
    the one that pack reported. *)
Theorem metadata_read_back (created : jsstring) (files : JSObject) :
  Forall isCodeUnit created -> Forall (fun f => Forall isCodeUnit f.1) files ->
  files <> [] -> len (metadataBuffer created files) < 2 ^ 32 ->
  exists descriptors,
    readMetadata (ofBytes (finalBuffer created files))
    = inr (len (metadataBuffer created files), descriptors)
    /\ len descriptors = len (objectKeys files)
    /\ descriptors
       = map (fun path => JObject [(js "path", JString path);
                                   (js "size", JNumber (numberToString
                                                          (len (fileContent files path))))])
             (objectKeys files).
Proof.
  intros Hc Hf Hne Hm. eexists. split; [|split].
  - rewrite finalBuffer_layout, readMetadata_container by exact Hm.
    by apply checkMetadata_archive.
  - unfold len, descriptors. by rewrite !length_map.
  - unfold descriptors. rewrite map_map. reflexivity.
Qed.

Lemma metadata_read_back_witness :
  exists descriptors,
    readMetadata (ofBytes (finalBuffer exampleCreated exampleFiles))
    = inr (len (metadataBuffer exampleCreated exampleFiles), descriptors)
    /\ len descriptors = len (objectKeys exampleFiles)
    /\ descriptors
       = map (fun path => JObject [(js "path", JString path);
                                   (js "size", JNumber (numberToString
                                                          (len (fileContent exampleFiles path))))])
             (objectKeys exampleFiles).
Proof.
  destruct exampleFiles_valid as (Hne & _ & Hc & Hp & Hm & _).
  exact (metadata_read_back exampleCreated exampleFiles Hc (plainPath_codeUnits _ Hp) Hne Hm).
Defined.

Lemma sorted_strict (l : list jsstring) :
  NoDup l -> StronglySorted (notAfter stringLt) l ->
  StronglySorted (fun a b => stringLt a b = true) l.
Proof.
  intros Hnd Hs. induction Hs as [|a l Hs IH Ha]; [constructor|].
  apply NoDup_cons in Hnd as [Hin Hnd].
  constructor; [by apply IH|].
  rewrite Forall_forall in Ha |- *. intros b Hb.
  destruct (stringLt a b) eqn:E; [reflexivity|]. exfalso. apply Hin.
  assert (a = b) as ->; [|exact Hb].
  apply stringLt_antisym; [exact (Ha b Hb)|exact E].
Qed.

(** The order of the entries in the stream: every path once, each before
    the paths that are greater in the order of the code units. *)
Theorem stream_paths_ascending (files : JSObject) :
  NoDup (map fst files) ->
  sortStrings (objectKeys files) ≡ₚ map fst files
  /\ StronglySorted (fun a b => stringLt a b = true) (sortStrings (objectKeys files)).
Proof.
  intros Hnd.
  assert (Hp : sortStrings (objectKeys files) ≡ₚ map fst files)
    by (by rewrite sortStrings_perm, objectKeys_perm).
  split; [exact Hp|]. apply sorted_strict; [by rewrite Hp|].
  apply sortBy_sorted.
  - intros a b. apply stringLt_asym.
  - intros a b c. unfold notAfter. apply stringLt_le_trans.
Qed.

Lemma stream_paths_ascending_witness :
  sortStrings (objectKeys exampleFiles) ≡ₚ map fst exampleFiles
  /\ StronglySorted (fun a b => stringLt a b = true) (sortStrings (objectKeys exampleFiles)).
Proof.
  apply (stream_paths_ascending exampleFiles).
  apply (bool_decide_unpack _). vm_compute. exact I.
Defined.

(** Entries followed by other bytes: the entries are read, then the rest. *)
Lemma decodeEntries_app (es : list (list byte * list byte)) (rest : list byte) :
  Forall (fun e => len e.1 < 2 ^ 32 /\ len e.2 < 2 ^ 32) es ->
  decodeEntries (ofBytes (flat_map (fun e => entryBytes e.1 e.2) es ++ rest)) 0
  = (fun l => map (fun e => (uint8ArrayToText e.1, e.2)) es ++ l)
    <$> decodeEntries (ofBytes rest) 0.
Proof.
  induction 1 as [|[p c] es [Hp Hc] _ IH].
  - cbn [flat_map map app]. by destruct (decodeEntries (ofBytes rest) 0).
  - cbn [flat_map map fst snd] in *. rewrite <- app_assoc.
    rewrite decodeEntries_eq. cbn [length_ ofBytes]. rewrite len_app, len_entryBytes.
    pose proof (len_nonneg p). pose proof (len_nonneg c).
    pose proof (len_nonneg (flat_map (fun e => entryBytes e.1 e.2) es ++ rest)).
    destruct (Z.ltb_spec 0 (8 + len p + len c + len (flat_map (fun e => entryBytes e.1 e.2) es ++ rest)));
      [|lia].
    rewrite readEntry_entryBytes by assumption.
    replace (len (entryBytes p c)) with (len (entryBytes p c) + 0) by lia.
    rewrite decodeEntries_shift by lia. rewrite IH.
    by destruct (decodeEntries (ofBytes rest) 0).
Qed.

(** Between one and seven bytes after the last entry are not ignored: the
    header of a further entry is looked for there, and decoding fails with
    a [RangeError]. *)
Theorem trailing_bytes_rejected (created : jsstring) (files : JSObject)
  (extra : list byte) :
  files <> [] -> NoDup (map fst files) ->
  Forall isCodeUnit created -> Forall (fun f => Forall isCodeUnit f.1) files ->
  fitsUint32 created files ->
  0 < len extra < 8 ->
  decodeContainer (ofBytes (finalBuffer created files ++ extra))
  = inl (Caught RangeError).
Proof.
  intros Hne Hnd Hc Hunits [Hm Hfit] Hx.
  rewrite finalBuffer_layout. unfold decodeContainer, container.
  rewrite <- !app_assoc.
  change (uint32LE (len (metadataBuffer created files)) ++ metadataBuffer created files
          ++ entryStream files ++ extra)
    with (container (metadataBuffer created files) (entryStream files ++ extra)).
  rewrite readMetadata_container, checkMetadata_archive by assumption.
  unfold container. rewrite app_assoc.
  replace (4 + len (metadataBuffer created files))
    with (len (uint32LE (len (metadataBuffer created files)) ++ metadataBuffer created files) + 0)
    by (rewrite len_app, len_uint32LE; lia).
  rewrite decodeEntries_shift by lia.
  rewrite entryStream_entries, decodeEntries_app by (by apply streamEntries_fit).
  rewrite decodeEntries_eq. cbn [length_ ofBytes].
  destruct (Z.ltb_spec 0 (len extra)); [|lia].
  unfold readEntry. cbn [buffer byteOffset ofBytes].
  rewrite newDataView_ofBytes by lia.
  destruct (Z.leb_spec (0 + 0 + 8) (len extra)); [lia|]. reflexivity.
Qed.

Lemma trailing_bytes_rejected_witness :
  decodeContainer (ofBytes (finalBuffer exampleCreated exampleFiles ++ [Byte.x00]))
  = inl (Caught RangeError).
Proof.
  destruct exampleFiles_valid as (Hne & Hnd & Hc & Hp & Hfit).
  apply (trailing_bytes_rejected exampleCreated exampleFiles [Byte.x00] Hne Hnd Hc
           (plainPath_codeUnits _ Hp) Hfit).
  vm_compute. split; reflexivity.
Defined.

(** * Further properties of the file system operations *)

Section Files.
Variable cwd : list jsstring.

(** Without [..], the segments that name something are taken one after
    the other. *)
Lemma run_names (segs : list jsstring) : forall st,
  Forall (fun seg => seg <> dotdot) segs ->
  run false segs st = rev (filter (fun seg => seg <> [] /\ seg <> [46]) segs) ++ st.
Proof.
  induction segs as [|seg segs IH]; intros st Hs; [reflexivity|].
  inversion Hs as [|? ? Hseg Hsegs]; subst. rewrite run_cons, IH by exact Hsegs.
  destruct (proper_dec seg) as [Hp|Hp].
  - rewrite normalizeStep_push by assumption.
    rewrite filter_cons_True by exact Hp. cbn [rev]. by rewrite <- app_assoc.
  - rewrite normalizeStep_skip by assumption. by rewrite filter_cons_False by exact Hp.
Qed.

Lemma resolve_names (path : jsstring) :
  Forall (fun seg => seg <> dotdot) (splitOn 47 path) ->
  resolve cwd path = (if isAbsolute path then [] else resolve cwd [46]) ++ names path.
Proof.
  intros Hs. rewrite !resolve_eq, (run_names _ _ Hs).
  rewrite rev_app_distr, rev_involutive. unfold names.
  destruct (isAbsolute path); [reflexivity|].
  change (isAbsolute [46]) with false. change (splitOn 47 [46]) with [[46]].
  by rewrite (run_skip false [46]) by apply not_proper_dot.
Qed.

Lemma mkdirs_preserves (segs : list jsstring) : forall (fs fs' : FS) (pre : list jsstring),
  mkdirs fs pre segs = Some fs' ->
  forall k n, fs !! k = Some n -> fs' !! k = Some n.
Proof.
  induction segs as [|seg segs IH]; intros fs fs' pre; cbn [mkdirs].
  - by intros [= <-].
  - destruct (fs !! (pre ++ [seg])) as [[c0|]|] eqn:E; [discriminate| |].
    + apply IH.
    + intros H k n Hk. apply (IH _ _ _ H).
      rewrite lookup_insert_ne; [exact Hk|]. intros <-. congruence.
Qed.

Lemma mkdirs_new (segs : list jsstring) : forall (fs fs' : FS) (pre : list jsstring),
  mkdirs fs pre segs = Some fs' ->
  forall k n, fs !! k = None -> fs' !! k = Some n ->
  n = Directory /\ exists m, (0 < m <= length segs)%nat /\ k = pre ++ take m segs.
Proof.
  induction segs as [|seg segs IH]; intros fs fs' pre; cbn [mkdirs].
  - intros [= <-] k n H1 H2. congruence.
  - assert (Hshift : forall (k : list jsstring) (m : nat), (0 < m <= length segs)%nat ->
              k = (pre ++ [seg]) ++ take m segs ->
              exists m', (0 < m' <= length (seg :: segs))%nat /\ k = pre ++ take m' (seg :: segs)).
    { intros k m Hm ->. exists (S m). cbn [length take]. split; [lia|].
      by rewrite <- app_assoc. }
    destruct (fs !! (pre ++ [seg])) as [[c0|]|] eqn:E; [discriminate| |].
    + intros H k n H1 H2. destruct (IH _ _ _ H k n H1 H2) as (-> & m & Hm & Hk).
      split; [reflexivity|]. by apply (Hshift k m).
    + intros H k n H1 H2. destruct (decide (k = pre ++ [seg])) as [->|Hne].
      * assert (Hd : fs' !! (pre ++ [seg]) = Some Directory).
        { apply (mkdirs_preserves _ _ _ _ H). apply lookup_insert_eq. }
        split; [congruence|]. exists 1%nat. cbn [length take]. split; [lia|].
        by destruct segs.
      * assert (H1' : <[pre ++ [seg] := Directory]> fs !! k = None)
          by (by rewrite lookup_insert_ne).
        destruct (IH _ _ _ H k n H1' H2) as (-> & m & Hm & Hk).
        split; [reflexivity|]. by apply (Hshift k m).
Qed.

Lemma mkdirs_target (segs : list jsstring) : forall (fs fs' : FS) (pre : list jsstring),
  mkdirs fs pre segs = Some fs' -> segs <> [] ->
  fs' !! (pre ++ segs) = Some Directory.
Proof.
  induction segs as [|seg segs IH]; intros fs fs' pre; cbn [mkdirs]; [done|].
  intros H _.
  assert (Hhere : forall fs0, mkdirs fs0 (pre ++ [seg]) segs = Some fs' ->
            fs0 !! (pre ++ [seg]) = Some Directory ->
            fs' !! (pre ++ seg :: segs) = Some Directory).
  { intros fs0 H0 Hd. destruct segs as [|s segs'].
    - injection H0 as <-. exact Hd.
    - replace (pre ++ seg :: s :: segs') with ((pre ++ [seg]) ++ s :: segs')
        by (by rewrite <- app_assoc).
      by apply (IH fs0). }
  destruct (fs !! (pre ++ [seg])) as [[c0|]|] eqn:E; [discriminate| |].
  - by apply (Hhere fs).
  - apply (Hhere _ H). apply lookup_insert_eq.
Qed.

Lemma ensureDirectoryExists_preserves (fs fs' : FS) (dirPath : jsstring) :
  ensureDirectoryExists cwd fs dirPath = Some fs' ->
  forall k n, fs !! k = Some n -> fs' !! k = Some n.
Proof.
  unfold ensureDirectoryExists. destruct (negb _); [|by intros [= <-]].
  intros H. apply mkdirSync_inv in H as [_ H]. apply (mkdirs_preserves _ _ _ _ H).
Qed.

(** [ensureDirectoryExists] (lines 100-104) on a path that is not empty
    and has no [..] segment, when it returns: the path exists afterwards, so that a second
    call changes nothing; every node that was there is still there,
    unchanged; and the only new nodes are directories on the way to the
    path, which is the working directory (for a relative path) followed by
    the names of the path as they are given. *)
Theorem ensureDirectoryExists_creates_only_directories (fs fs' : FS) (dirPath : jsstring) :
  dirPath <> [] -> Forall (fun seg => seg <> dotdot) (splitOn 47 dirPath) ->
  ensureDirectoryExists cwd fs dirPath = Some fs' ->
  existsSync cwd fs' dirPath = true
  /\ ensureDirectoryExists cwd fs' dirPath = Some fs'
  /\ (forall k n, fs !! k = Some n -> fs' !! k = Some n)
  /\ (forall k n, fs !! k = None -> fs' !! k = Some n ->
      n = Directory
      /\ k `prefix_of` (if isAbsolute dirPath then [] else resolve cwd [46]) ++ names dirPath).
Proof.
  intros _ Hs H. rewrite <- (resolve_names dirPath Hs).
  assert (Hex : existsSync cwd fs' dirPath = true).
  { unfold ensureDirectoryExists in H.
    destruct (existsSync cwd fs dirPath) eqn:E; cbn [negb] in H.
    - by injection H as <-.
    - apply mkdirSync_inv in H as [_ H]. unfold existsSync, lookupPath.
      destruct (resolve cwd dirPath) as [|s k] eqn:Er; [by apply bool_decide_eq_true_2|].
      pose proof (mkdirs_target _ _ _ _ H ltac:(done)) as Ht. cbn [app] in Ht.
      rewrite Ht. by apply bool_decide_eq_true_2. }
  split; [exact Hex|]. split; [unfold ensureDirectoryExists; by rewrite Hex|].
  unfold ensureDirectoryExists in H.
  destruct (negb _); [|injection H as <-; split; [done|intros; congruence]].
  apply mkdirSync_inv in H as [_ H].
  split; [apply (mkdirs_preserves _ _ _ _ H)|].
  intros k n H1 H2. destruct (mkdirs_new _ _ _ _ H k n H1 H2) as (-> & m & _ & ->).
  split; [reflexivity|]. cbn [app]. apply prefix_take.
Qed.

Lemma fileAt_ensureDirectoryExists (fs fs' : FS) (dirPath : jsstring) (k : list jsstring) :
  ensureDirectoryExists cwd fs dirPath = Some fs' -> fileAt fs' k = fileAt fs k.
Proof.
  intros H. unfold fileAt.
  destruct (fs' !! k) as [[c|]|] eqn:E1; destruct (fs !! k) as [[c'|]|] eqn:E2;
    try reflexivity;
    pose proof (ensureDirectoryExists_files cwd _ _ _ H k) as Hf;
    try (apply Hf in E1; congruence); apply Hf in E2; congruence.
Qed.

Lemma lastWrite_app (outputDir : jsstring) (l1 l2 : list (jsstring * list byte))
  (k : list jsstring) :
  lastWrite cwd outputDir (l1 ++ l2) k
  = match lastWrite cwd outputDir l2 k with
    | Some c => Some c
    | None => lastWrite cwd outputDir l1 k
    end.
Proof.
  induction l1 as [|[p c] l1 IH]; cbn [app lastWrite].
  - by destruct (lastWrite cwd outputDir l2 k).
  - rewrite IH. by destruct (lastWrite cwd outputDir l2 k).
Qed.

(** The regular files after the loop: those written, with the content of
    the last write at each place, and the others as they were. *)
Lemma extractLoop_written (outputDir : jsstring) (d : Buffer) (o total : Z)
  (ex : list (jsstring * list byte)) (fs : FS) :
  exists new,
    (extractLoop cwd outputDir d o total ex fs).1.2 = ex ++ new
    /\ forall k, fileAt (extractLoop cwd outputDir d o total ex fs).2 k
                 = match lastWrite cwd outputDir new k with
                   | Some c => Some c
                   | None => fileAt fs k
                   end.
Proof.
  pattern o, total, ex, fs, (extractLoop cwd outputDir d o total ex fs).
  apply extractLoop_ind; clear o total ex fs.
  - intros o total ex fs _. exists []. by rewrite app_nil_r.
  - intros o total ex fs _ _. exists []. by rewrite app_nil_r.
  - intros o total ex fs p c o' _ _ _. exists []. by rewrite app_nil_r.
  - intros o total ex fs p c o' fs1 _ _ He _. exists []. rewrite app_nil_r.
    split; [done|]. intros k. cbn. by apply fileAt_ensureDirectoryExists with (1 := He).
  - intros o total ex fs p c o' fs1 fs2 r _ _ He Hw (new & Hlog & Hfiles).
    exists ((p, c) :: new). split; [by rewrite Hlog, <- app_assoc|].
    intros k. rewrite Hfiles. cbn [lastWrite].
    destruct (lastWrite cwd outputDir new k); [reflexivity|].
    apply writeFileSync_inv in Hw. subst fs2. unfold fileAt at 1.
    destruct (decide (resolve cwd (join outputDir p) = k)) as [<-|Hne].
    + rewrite lookup_insert_eq. by rewrite bool_decide_eq_true_2.
    + rewrite lookup_insert_ne by exact Hne. rewrite bool_decide_eq_false_2 by exact Hne.
      by apply fileAt_ensureDirectoryExists with (1 := He).
Qed.

(** The total that the loop reports is the sum of the lengths of the
    contents it has written. *)
Lemma extractLoop_total (outputDir : jsstring) (d : Buffer) (o total : Z)
  (ex : list (jsstring * list byte)) (fs : FS) t :
  (extractLoop cwd outputDir d o total ex fs).1.1 = inr t ->
  exists new, (extractLoop cwd outputDir d o total ex fs).1.2 = ex ++ new
              /\ t = total + contentSize new.
Proof.
  revert t. pattern o, total, ex, fs, (extractLoop cwd outputDir d o total ex fs).
  apply extractLoop_ind; clear o total ex fs; cbn [fst snd]; try discriminate.
  - intros o total ex fs _ t [= <-]. exists []. rewrite app_nil_r. cbn. split; [done|lia].
  - intros o total ex fs p c o' fs1 fs2 r _ _ _ _ IH t Ht.
    destruct (IH t Ht) as (new & Hlog & ->).
    exists ((p, c) :: new). split; [by rewrite Hlog, <- app_assoc|].
    unfold contentSize. cbn [foldr snd]. lia.
Qed.

End Files.

(** * Packing and unpacking as wholes *)

Lemma setOwnProperty_keys {V} (o : list (jsstring * V)) (k : jsstring) (v : V) :
  map fst (setOwnProperty o k v)
  = if bool_decide (k ∈ map fst o) then map fst o else map fst o ++ [k].
Proof.
  induction o as [|[k' w] o IH]; cbn [setOwnProperty map fst app].
  - rewrite bool_decide_eq_false_2; [reflexivity|apply not_elem_of_nil].
  - destruct (decide (k' = k)) as [->|Hne].
    + rewrite bool_decide_eq_true_2 by reflexivity.
      rewrite bool_decide_eq_true_2 by apply list_elem_of_here. reflexivity.
    + rewrite (bool_decide_eq_false_2 (k' = k)) by exact Hne.
      cbn [map fst]. rewrite IH.
      destruct (decide (k ∈ map fst o)) as [Hin|Hout].
      * rewrite !bool_decide_eq_true_2; [reflexivity| |exact Hin].
        by apply list_elem_of_further.
      * rewrite !bool_decide_eq_false_2; [reflexivity| |exact Hout].
        rewrite elem_of_cons. intros [->|]; done.
Qed.

Lemma objectSet_NoDup {V} (o : list (jsstring * V)) (k : jsstring) (v : V) :
  NoDup (map fst o) -> NoDup (map fst (objectSet o k v)).
Proof.
  intros H. unfold objectSet. destruct (bool_decide (k = js "__proto__")); [exact H|].
  rewrite setOwnProperty_keys.
  destruct (decide (k ∈ map fst o)) as [Hin|Hout].
  - by rewrite bool_decide_eq_true_2.
  - rewrite bool_decide_eq_false_2 by exact Hout.
    apply NoDup_app. split; [exact H|]. split.
    + intros x Hx Hk. apply list_elem_of_singleton in Hk. by subst x.
    + apply NoDup_singleton.
Qed.

Lemma fold_objectSet_NoDup {V} (keys : list jsstring) (value : jsstring -> V) :
  forall o : list (jsstring * V),
  NoDup (map fst o) ->
  NoDup (map fst (fold_left (fun files key => objectSet files key (value key)) keys o)).
Proof.
  induction keys as [|k keys IH]; intros o H; cbn [fold_left]; [exact H|].
  apply IH. by apply objectSet_NoDup.
Qed.

(** The walker returns an object: no path twice. *)
Lemma readFilesRecursively_NoDup (cwd : list jsstring) (depth : nat) :
  forall (fs : FS) (dir baseDir : jsstring),
  NoDup (map fst (readFilesRecursively cwd depth fs dir baseDir)).
Proof.
  induction depth as [|depth IH]; intros fs dir baseDir; cbn [readFilesRecursively].
  - apply NoDup_nil_2.
  - assert (H : forall (entries : list (jsstring * bool)) (o : JSObject),
              NoDup (map fst o) ->
              NoDup (map fst (fold_left
                (fun (files : JSObject) '(name, isDir) =>
                   let fullPath := join dir name in
                   let relativePath := drop (length baseDir + 1) fullPath in
                   if (isDir : bool) then
                     let subDirFiles := readFilesRecursively cwd depth fs fullPath baseDir in
                     fold_left (fun files key => objectSet files key (fileContent subDirFiles key))
                               (objectKeys subDirFiles) files
                   else
                     objectSet files relativePath (default [] (readFileSync cwd fs fullPath)))
                entries o))).
    { induction entries as [|[name isDir] entries IHe]; intros o Ho; cbn [fold_left];
        [exact Ho|].
      apply IHe. cbv zeta. destruct isDir.
      - by apply fold_objectSet_NoDup.
      - by apply objectSet_NoDup. }
    apply H. apply NoDup_nil_2.
Qed.

Lemma objectValues_contents (files : JSObject) :
  NoDup (map fst files) ->
  objectValues files = map (fileContent files) (objectKeys files).
Proof.
  intros Hnd. unfold objectValues.
  assert (H : forall keys, (forall k, k ∈ keys -> k ∈ map fst files) ->
            omap (objectGet files) keys = map (fileContent files) keys).
  { induction keys as [|k keys IH]; intros Hk; [reflexivity|].
    cbn [omap list_omap map].
    assert (Hin : k ∈ map fst files) by (apply Hk; left).
    apply list_elem_of_fmap in Hin as ([k' c] & -> & Hin). cbn [fst].
    unfold fileContent. rewrite (objectGet_lookup files k' c Hnd Hin). cbn.
    f_equal. apply IH. intros x Hx. apply Hk. by right. }
  apply H. intros k Hk. by rewrite objectKeys_perm in Hk.
Qed.

Lemma fold_left_lengths (l : list (list byte)) (a : Z) :
  fold_left (fun sum content => sum + len content) l a
  = a + foldr (fun content sum => len content + sum) 0 l.
Proof.
  revert a. induction l as [|c l IH]; intros a; cbn [fold_left foldr]; [lia|].
  rewrite IH. lia.
Qed.

Lemma sum_lengths_perm (l1 l2 : list (list byte)) :
  l1 ≡ₚ l2 ->
  foldr (fun content sum => len content + sum) 0 l1
  = foldr (fun content sum => len content + sum) 0 l2.
Proof. induction 1; cbn [foldr]; lia. Qed.

Lemma contentSize_contents (files : JSObject) (keys : list jsstring) :
  contentSize (map (fun k => (k, fileContent files k)) keys)
  = foldr (fun content sum => len content + sum) 0 (map (fileContent files) keys).
Proof.
  unfold contentSize. induction keys as [|k keys IH]; cbn [map foldr snd]; [reflexivity|].
  by rewrite IH.
Qed.

Lemma writeFileSync_lookup (cwd : list jsstring) (fs fs' : FS) (path : jsstring)
  (data : list byte) :
  writeFileSync cwd fs path data = Some fs' ->
  lookupPath cwd fs' path = Some (File data).
Proof.
  intros H. pose proof (writeFileSync_inv cwd _ _ _ _ H) as ->.
  apply lookupPath_file. unfold writeFileSync in H.
  destruct (resolve cwd path) as [|s k] eqn:E; [discriminate|].
  destruct (bool_decide (0 ∈ path)); [discriminate|].
  destruct (hasTrailingSlash path); [discriminate|].
  split; [done|]. split; [reflexivity|]. apply lookup_insert_eq.
Qed.

Section Whole.
Variable cwd : list jsstring.
Variable gunzipSync : list byte -> option Buffer.

(** Whether unpack ends with success or with a failure, the regular files
    afterwards are: at each place where entries were written, the content
    of the last entry written there; everywhere else, what was there. *)
Theorem unpack_leaves_last_writes (fs : FS) (archivePath : jsstring)
  (outputDir : option jsstring) r log fs' :
  uncompressArchive cwd gunzipSync fs archivePath outputDir = (r, log, fs') ->
  forall k,
    fileAt fs' k
    = match lastWrite cwd (outputDirOrDefault archivePath outputDir) log k with
      | Some c => Some c
      | None => fileAt fs k
      end.
Proof.
  intros Hu k.
  apply uncompressArchive_inv in Hu
    as [(fs1 & data & d & He & _ & _ & Hx)|(-> & [->|He] & _)].
  - apply extractContainer_inv in Hx
      as [(e & _ & _ & -> & ->)|(n & files & rl & _ & Hloop & _)].
    + cbn [lastWrite]. by apply fileAt_ensureDirectoryExists with (1 := He).
    + destruct (extractLoop_written cwd (outputDirOrDefault archivePath outputDir)
                  d (4 + n) 0 [] fs1) as (new & Hlog & Hfiles).
      rewrite Hloop in Hlog, Hfiles. cbn [fst snd app] in Hlog, Hfiles. subst new.
      rewrite Hfiles. destruct (lastWrite _ _ _ _); [reflexivity|].
      by apply fileAt_ensureDirectoryExists with (1 := He).
  - reflexivity.
  - cbn [lastWrite]. by apply fileAt_ensureDirectoryExists with (1 := He).
Qed.

(** When unpack succeeds, the total size it reports is the sum of the
    lengths of the contents it has written. *)
Theorem unpack_total_is_sum_of_contents (fs : FS) (archivePath : jsstring)
  (outputDir : option jsstring) (stats : ExtractStats)
  (log : list (jsstring * list byte)) (fs' : FS) :
  uncompressArchive cwd gunzipSync fs archivePath outputDir = (inr stats, log, fs') ->
  totalExtractedSize stats = contentSize log.
Proof.
  intros Hu.
  apply uncompressArchive_inv in Hu
    as [(fs1 & data & d & He & Hl & Hg & Hx)|(_ & _ & e & [=] & _)].
  apply extractContainer_inv in Hx
    as [(e & _ & [=] & _)|(n & files & rl & Hr & Hloop & Hs)].
  destruct rl as [e|total]; [done|]. injection Hs as ->. cbn [totalExtractedSize].
  destruct (extractLoop_total cwd (outputDirOrDefault archivePath outputDir)
              d (4 + n) 0 [] fs1 total) as (new & Hlog & ->); [by rewrite Hloop|].
  rewrite Hloop in Hlog. cbn [fst snd app] in Hlog. subst new. lia.
Qed.

(** Packing a directory and unpacking the archive, when both succeed and
    [gunzipSync] undoes [gzipSync]: the entries written by unpack are the
    files that the walker found, in the order of their paths; the two
    file counts agree; and the size that unpack reports is the original
    size that pack reported less the length of the metadata. *)
Theorem archive_roundtrip (args : list jsstring) (now : jsstring)
  (gzipSync : list byte -> number -> option (list byte))
  (maxByteLength : Z) (fs fs1 fs2 : FS)
  (directoryPath archivePath : jsstring) (outputDir : option jsstring)
  (packed : CompressStats) (unpacked : ExtractStats)
  (log : list (jsstring * list byte)) :
  let files := readFilesRecursively cwd (S (size fs)) fs directoryPath directoryPath in
  (forall data level compressed,
     gzipSync data level = Some compressed -> gunzipSync compressed = Some (ofBytes data)) ->
  Forall isCodeUnit now ->
  Forall (fun f : jsstring * list byte => plainPath f.1) files ->
  fitsUint32 now files ->
  archivePath <> [] ->
  compressDirectory cwd args now gzipSync maxByteLength fs directoryPath (Some archivePath)
  = (inr packed, fs1) ->
  uncompressArchive cwd gunzipSync fs1 archivePath outputDir = (inr unpacked, log, fs2) ->
  log = map (fun path => (path, fileContent files path)) (sortStrings (objectKeys files))
  /\ log ≡ₚ files
  /\ fileCount unpacked = cFileCount packed
  /\ totalExtractedSize unpacked + len (metadataBuffer now files) = originalSize packed.
Proof.
  intros files Hzlib Hnow Hplain Hfit Hpath Hpack Hunpack.
  assert (Hnd : NoDup (map fst files)) by apply readFilesRecursively_NoDup.
  unfold compressDirectory in Hpack. fold files in Hpack.
  destruct (lookupPath cwd fs directoryPath) as [[c|]|]; try discriminate.
  destruct archivePath as [|a0 archivePath']; [done|].
  set (archivePath := a0 :: archivePath') in *.
  destruct (Z.eqb_spec (len (objectKeys files)) 0) as [|Hcount]; [discriminate|].
  assert (Hne : files <> []).
  { intros E. apply Hcount. by rewrite E. }
  destruct (_ <? _); [discriminate|].
  destruct (gzipSync _ _) as [compressed|] eqn:Eg; [|discriminate].
  destruct (writeFileSync cwd fs archivePath compressed) as [fs1'|] eqn:Ew; [|discriminate].
  injection Hpack as <- <-.
  apply writeFileSync_lookup in Ew.
  apply uncompressArchive_inv in Hunpack
    as [(fs1'' & data & d & He & Hl & Hg & Hx)|(_ & _ & e & [=] & _)].
  rewrite Ew in Hl. injection Hl as <-.
  rewrite (Hzlib _ _ _ Eg) in Hg. injection Hg as <-.
  apply extractContainer_inv in Hx
    as [(e & _ & [=] & _)|(n & l & rl & Hr & Hloop & Hs)].
  destruct rl as [e|total]; [done|]. injection Hs as ->.
  destruct (extractLoop_total cwd (outputDirOrDefault archivePath outputDir)
              (ofBytes (finalBuffer now files)) (4 + n) 0 [] fs1'' total)
    as (new & Hlog & Htotal); [by rewrite Hloop|].
  rewrite Hloop in Hlog. cbn [fst snd app] in Hlog. subst new.
  destruct (extractLoop_success cwd _ _ _ _ _ _ _ _ _ Hloop) as (entries & Hd & ->).
  pose proof (decodeContainer_encoded now files Hne Hnd Hnow Hplain Hfit) as Hdec.
  unfold decodeContainer in Hdec. rewrite Hr, Hd in Hdec.
  injection Hdec as -> ->. cbn [app fileCount totalExtractedSize cFileCount originalSize] in *.
  split; [reflexivity|]. split; [|split].
  - rewrite <- (keys_entries files Hnd) at 2.
    apply Permutation_map. by rewrite sortStrings_perm, objectKeys_perm.
  - unfold metadataList, descriptors, len. by rewrite !length_map.
  - rewrite Htotal, contentSize_contents, fold_left_lengths.
    rewrite (objectValues_contents files Hnd).
    rewrite (sum_lengths_perm (map (fileContent files) (sortStrings (objectKeys files)))
               (map (fileContent files) (objectKeys files)));
      [lia|]. apply Permutation_map, sortStrings_perm.
Qed.

End Whole.

(** * Further examples *)

Lemma exampleTree_files :
  readFilesRecursively [js "w"] (S (size exampleTree)) exampleTree (js "d") (js "d")
  ≡ₚ exampleFiles.
Proof.
  assert (E : readFilesRecursively [js "w"] (S (size exampleTree)) exampleTree (js "d") (js "d")
              = exampleFiles \/
              readFilesRecursively [js "w"] (S (size exampleTree)) exampleTree (js "d") (js "d")
              = rev exampleFiles).
  { vm_compute. by first [left; reflexivity|right; reflexivity]. }
  destruct E as [->| ->]; [reflexivity|]. apply perm_swap.
Qed.

Lemma exampleTree_walk :
  readFilesRecursively [js "w"] (S (size exampleTree)) exampleTree (js "d") (js "d")
  = rev exampleFiles.
Proof. vm_compute. reflexivity. Qed.

Lemma result_components {A B C} (x : A * B * C) (a : A) (b : B) :
  x.1.1 = a -> x.1.2 = b -> x = (a, b, x.2).
Proof. destruct x as [[? ?] ?]. cbn. by intros -> ->. Qed.

Lemma pair_components {A B} (x : A * B) (a : A) : x.1 = a -> x = (a, x.2).
Proof. destruct x. cbn. by intros ->. Qed.

Lemma Some_default {A} (x : option A) (d : A) :
  match x with Some _ => true | None => false end = true ->
  x = Some (default d x).
Proof. by destruct x. Qed.

Lemma ensureDirectoryExists_creates_only_directories_witness :
  let fs' : FS := default ∅ (ensureDirectoryExists [js "w"] exampleTree (js "out/sub")) in
  existsSync [js "w"] fs' (js "out/sub") = true
  /\ ensureDirectoryExists [js "w"] fs' (js "out/sub") = Some fs'
  /\ (forall k n, exampleTree !! k = Some n -> fs' !! k = Some n)
  /\ (forall k n, exampleTree !! k = None -> fs' !! k = Some n ->
      n = Directory /\ k `prefix_of` [js "w"; js "out"; js "sub"]).
Proof.
  intros fs'.
  apply (ensureDirectoryExists_creates_only_directories [js "w"] exampleTree fs' (js "out/sub")).
  - discriminate.
  - apply (bool_decide_unpack _). vm_compute. reflexivity.
  - apply Some_default. vm_compute. reflexivity.
Defined.

Lemma unpack_leaves_last_writes_witness :
  let archive := exampleContainer (jsq "{'files':[1]}")
                   [(js "a", [Byte.x01]); (js "b/../a", [Byte.x02])] in
  let run := unpackExample archive (Some (js "out")) in
  let k := [js "w"; js "out"; js "a"] in
  fileAt run.2 k
  = match lastWrite [js "w"] (outputDirOrDefault (js "a.bunz") (Some (js "out")))
            run.1.2 k with
    | Some c => Some c
    | None => fileAt (exampleFS archive) k
    end.
Proof.
  intros archive run k.
  apply (unpack_leaves_last_writes [js "w"] storeGunzip (exampleFS archive) (js "a.bunz")
           (Some (js "out")) run.1.1 run.1.2 run.2).
  by apply result_components.
Defined.

Lemma unpack_total_is_sum_of_contents_witness :
  2 = contentSize [(js "a.txt", [Byte.x68; Byte.x69]); (js "sub/b.txt", [])].
Proof.
  apply (unpack_total_is_sum_of_contents [js "w"] storeGunzip
           (exampleFS (finalBuffer exampleCreated exampleFiles))
           (js "a.bunz") (Some (js "out")) (mkExtractStats 2 2)
           [(js "a.txt", [Byte.x68; Byte.x69]); (js "sub/b.txt", [])]
           (unpackExample (finalBuffer exampleCreated exampleFiles) (Some (js "out"))).2).
  apply result_components; vm_compute; reflexivity.
Defined.

Lemma archive_roundtrip_witness :
  let files :=
    readFilesRecursively [js "w"] (S (size exampleTree)) exampleTree (js "d") (js "d") in
  let log : list (jsstring * list byte) :=
    [(js "a.txt", [Byte.x68; Byte.x69]); (js "sub/b.txt", [])] in
  log = map (fun path => (path, fileContent files path)) (sortStrings (objectKeys files))
  /\ log ≡ₚ files
  /\ 2 = 2
  /\ 2 + len (metadataBuffer exampleCreated files) = 122.
Proof.
  intros files log.
  set (packed := compressDirectory [js "w"] [] exampleCreated storeGzip exampleLimit
                   exampleTree (js "d") (Some (js "d.bunz"))).
  apply (archive_roundtrip [js "w"] storeGunzip [] exampleCreated storeGzip exampleLimit
           exampleTree packed.2
           (uncompressArchive [js "w"] storeGunzip packed.2 (js "d.bunz")
              (Some (js "out"))).2
           (js "d") (js "d.bunz") (Some (js "out"))
           (mkCompressStats 2 122 156) (mkExtractStats 2 2) log).
  - intros data level compressed [= <-]. reflexivity.
  - apply wellFormed_codeUnits. reflexivity.
  - subst files. rewrite exampleTree_walk.
    constructor; [split; [reflexivity|discriminate]|].
    constructor; [split; [reflexivity|discriminate]|constructor].
  - subst files. rewrite exampleTree_walk. split; [vm_compute; reflexivity|].
    constructor; [split; vm_compute; reflexivity|].
    constructor; [split; vm_compute; reflexivity|constructor].
  - discriminate.
  - apply pair_components. vm_compute. reflexivity.
  - apply result_components; vm_compute; reflexivity.
Defined.

(** * The command line *)

Section CommandLine.
Variable cwd : list jsstring.
Variable args : list jsstring.
Variable now : jsstring.
Variable gzipSync : list byte -> number -> option (list byte).
Variable gunzipSync : list byte -> option Buffer.
Variable maxByteLength : Z.

(** The test of line 16. *)
Lemma help_asked :
  js "-h" ∈ args \/ js "--help" ∈ args \/ args = [] ->
  bool_decide (js "-h" ∈ flags args) || bool_decide (js "--help" ∈ flags args)
  || (len args =? 0) = true.
Proof.
  intros H. destruct H as [H|[H|H]]; [| |subst args].
  - rewrite (bool_decide_eq_true_2 (js "-h" ∈ flags args)); [reflexivity|].
    unfold flags. apply list_elem_of_filter. split; [|exact H]. vm_compute. exact I.
  - rewrite (bool_decide_eq_true_2 (js "--help" ∈ flags args));
      [apply orb_true_iff; left; apply orb_true_r|].
    unfold flags. apply list_elem_of_filter. split; [|exact H]. vm_compute. exact I.
  - apply orb_true_r.
Qed.

(** With [-h] or [--help] anywhere on the command line, or with no
    argument at all, the script stops at the usage text: whatever command
    and paths are given besides, nothing is read or written. *)
Theorem main_help_wins (fs : FS) :
  js "-h" ∈ args \/ js "--help" ∈ args \/ args = [] ->
  main cwd args now gzipSync gunzipSync maxByteLength fs = (Usage, fs).
Proof.
  intros H. unfold main.
  rewrite (help_asked H). reflexivity.
Qed.

(** The file system changes only when there is no help option, the first
    argument that is not an option is [compress] or [uncompress], and a
    second one, not empty, is there to be the input path; an argument that
    begins with [-] is never taken for the command or for a path. *)
Theorem main_changes_only_on_command (fs : FS) :
  (main cwd args now gzipSync gunzipSync maxByteLength fs).2 <> fs ->
  (js "-h" ∉ args) /\ (js "--help" ∉ args)
  /\ exists command inputPath,
       positionalArgs args !! 0%nat = Some command
       /\ (command = js "compress" \/ command = js "uncompress")
       /\ positionalArgs args !! 1%nat = Some inputPath
       /\ inputPath <> [] /\ inputPath ∈ args
       /\ startsWith inputPath (js "-") = false
       /\ Forall (fun arg => startsWith arg (js "-") = false) (positionalArgs args).
Proof.
  intros Hfs.
  assert (Hpos : Forall (fun arg => startsWith arg (js "-") = false) (positionalArgs args)).
  { unfold positionalArgs. apply Forall_forall. intros a Ha.
    apply list_elem_of_filter in Ha as [Ha _].
    destruct (startsWith a (js "-")); [by destruct Ha|reflexivity]. }
  split; [|split].
  - intros H. apply Hfs. unfold main. by rewrite help_asked by (by left).
  - intros H. apply Hfs. unfold main. by rewrite help_asked by (by right; left).
  - unfold main in Hfs. destruct (_ || _ || _); [done|].
    destruct (positionalArgs args !! 0%nat) as [[|c0 command]|] eqn:E0; [done| |done].
    destruct (positionalArgs args !! 1%nat) as [[|c1 inputPath]|] eqn:E1; [done| |done].
    exists (c0 :: command), (c1 :: inputPath).
    assert (Hin : (c1 :: inputPath) ∈ positionalArgs args)
      by (by apply list_elem_of_lookup_2 in E1).
    split; [reflexivity|]. split.
    + destruct (decide (c0 :: command = js "compress")) as [->|H1]; [by left|].
      destruct (decide (c0 :: command = js "uncompress")) as [->|H2]; [by right|].
      rewrite !bool_decide_eq_false_2 in Hfs by assumption. done.
    + split; [reflexivity|]. split; [done|]. split.
      * unfold positionalArgs in Hin. by apply list_elem_of_filter in Hin as [_ Hin].
      * split; [|exact Hpos]. rewrite Forall_forall in Hpos. by apply Hpos.
Qed.

End CommandLine.

Lemma main_help_wins_witness :
  main [js "w"] [js "compress"; js "d"; js "--help"] exampleCreated storeGzip storeGunzip
    exampleLimit exampleTree
  = (Usage, exampleTree).
Proof.
  apply (main_help_wins [js "w"] [js "compress"; js "d"; js "--help"] exampleCreated
           storeGzip storeGunzip exampleLimit exampleTree).
  right. left. apply (bool_decide_unpack _). vm_compute. exact I.
Defined.

Lemma main_changes_only_on_command_witness :
  let args := [js "-v"; js "compress"; js "d"] in
  (js "-h" ∉ args) /\ (js "--help" ∉ args)
  /\ exists command inputPath,
       positionalArgs args !! 0%nat = Some command
       /\ (command = js "compress" \/ command = js "uncompress")
       /\ positionalArgs args !! 1%nat = Some inputPath
       /\ inputPath <> [] /\ inputPath ∈ args
       /\ startsWith inputPath (js "-") = false
       /\ Forall (fun arg => startsWith arg (js "-") = false) (positionalArgs args).
Proof.
  intros args.
  apply (main_changes_only_on_command [js "w"] args exampleCreated storeGzip storeGunzip
           exampleLimit exampleTree).
  intros E. apply (f_equal (fun fs : FS => fs !! [js "w"; js "d.bunz"])) in E.
  vm_compute in E. discriminate E.
Defined.

(** * The walker *)

Lemma hasTrailingSlash_child (a name : jsstring) :
  name <> [] -> noSlash name -> hasTrailingSlash (a ++ 47 :: name) = false.
Proof.
  intros Hne Hs. unfold hasTrailingSlash.
  rewrite rev_app_distr. cbn [rev]. rewrite <- app_assoc.
  destruct (rev name) as [|c r] eqn:E.
  - apply (f_equal (@rev Z)) in E. rewrite rev_involutive in E. done.
  - cbn [app]. apply Z.eqb_neq. intros ->. apply Hs.
    apply list_elem_of_In, in_rev. rewrite E. by left.
Qed.

Lemma joinWith_snoc (N : list jsstring) (s : jsstring) :
  N <> [] -> joinWith 47 (N ++ [s]) = joinWith 47 N ++ 47 :: s.
Proof.
  induction N as [|a N IH]; [done|]. intros _. destruct N as [|b N].
  - reflexivity.
  - change (joinWith 47 ((a :: b :: N) ++ [s]))
      with (a ++ 47 :: joinWith 47 ((b :: N) ++ [s])).
    rewrite IH by done.
    change (joinWith 47 (a :: b :: N)) with (a ++ 47 :: joinWith 47 (b :: N)).
    by rewrite <- app_assoc.
Qed.

Lemma isAbsolute_app (a b : jsstring) : a <> [] -> isAbsolute (a ++ b) = isAbsolute a.
Proof. by destruct a. Qed.

Lemma normalPath_nonempty (p : jsstring) : normalPath p -> p <> [].
Proof. intros [H _] ->. discriminate H. Qed.

(** The segments of a normal path: not empty, and the path is their
    join, after a slash when it is absolute. *)
Lemma normalPath_segments (p : jsstring) :
  normalPath p ->
  let N := normalizeSegments (negb (isAbsolute p)) (splitOn 47 p) in
  N <> [] /\ p = (if isAbsolute p then [47] else []) ++ joinWith 47 N.
Proof.
  intros (Hn & Ht & Hd) N. pose proof (normalPath_nonempty p (conj Hn (conj Ht Hd))) as Hne.
  rewrite normalize_eq in Hn by exact Hne. fold N in Hn. rewrite Ht in Hn.
  destruct (joinWith 47 N) as [|c t] eqn:E.
  - destruct (isAbsolute p) eqn:Ea.
    + subst p. discriminate Ht.
    + by subst p.
  - split; [intros EN; rewrite EN in E; discriminate E|].
    destruct (isAbsolute p); by rewrite <- Hn.
Qed.

(** A name joined to any way of writing a normal path: the normal path,
    a slash, and the name. *)
Lemma normalize_child_of (given cur name : jsstring) :
  normalPath cur -> sameDirectory given cur -> segmentName name ->
  normalize (given ++ 47 :: name) = cur ++ 47 :: name.
Proof.
  intros Hcur (Hne & Habs & Hseg) (Hp & Hs & Hdd).
  destruct (normalPath_segments cur Hcur) as [HN Hcur_eq]. cbv zeta in *.
  set (N := normalizeSegments (negb (isAbsolute cur)) (splitOn 47 cur)) in *.
  assert (Hprop : Forall proper N) by (apply Forall_rev, run_proper; constructor).
  rewrite normalize_eq by (by destruct given).
  rewrite isAbsolute_app, Habs by exact Hne.
  rewrite hasTrailingSlash_child by (destruct Hp; assumption).
  rewrite splitOn_sep, (splitOn_noSlash_seg name Hs).
  unfold normalizeSegments. rewrite fold_left_app. cbn [fold_left].
  rewrite normalizeStep_push by assumption. cbn [rev].
  change (rev (fold_left (normalizeStep (negb (isAbsolute cur))) (splitOn 47 given) []))
    with (normalizeSegments (negb (isAbsolute cur)) (splitOn 47 given)).
  rewrite Hseg. fold N.
  rewrite joinWith_snoc by exact HN.
  destruct (joinWith 47 N) as [|c t] eqn:E.
  - exfalso. clearbody N. destruct N as [|a N']; [done|].
    inversion Hprop as [|? ? [Ha _] _]; subst.
    destruct a; [done|]. destruct N'; discriminate E.
  - cbn [app]. destruct (isAbsolute cur) eqn:Ea; rewrite Hcur_eq at 1; reflexivity.
Qed.

Lemma sameDirectory_refl (cur : jsstring) : normalPath cur -> sameDirectory cur cur.
Proof. intros H. split; [by apply normalPath_nonempty|]. by split. Qed.

(** A normal path followed by a name is normal: [join] adds the name after
    a slash and changes nothing else. *)
Lemma normalize_child (cur name : jsstring) :
  normalPath cur -> segmentName name ->
  normalize (cur ++ 47 :: name) = cur ++ 47 :: name.
Proof. intros Hcur. apply normalize_child_of; [exact Hcur|by apply sameDirectory_refl]. Qed.

Lemma sameDirectory_trailing_slash (cur : jsstring) :
  normalPath cur -> sameDirectory (cur ++ [47]) cur.
Proof.
  intros H. pose proof (normalPath_nonempty cur H) as Hne.
  split; [by destruct cur|]. split; [by apply isAbsolute_app|].
  intros allow. rewrite splitOn_sep. unfold normalizeSegments.
  rewrite fold_left_app. cbn [splitOn fold_left].
  by rewrite normalizeStep_skip by apply not_proper_nil.
Qed.

Lemma sameDirectory_dot_slash (cur : jsstring) :
  normalPath cur -> isAbsolute cur = false -> sameDirectory ([46; 47] ++ cur) cur.
Proof.
  intros H Hrel. split; [done|]. split; [by rewrite Hrel|].
  intros allow. change ([46; 47] ++ cur) with ([46] ++ 47 :: cur).
  rewrite splitOn_sep. unfold normalizeSegments.
  rewrite fold_left_app. cbn [splitOn fold_left Z.eqb Pos.eqb].
  by rewrite normalizeStep_skip by apply not_proper_dot.
Qed.

Lemma join_child_of (given cur name : jsstring) :
  normalPath cur -> sameDirectory given cur -> segmentName name ->
  join given name = cur ++ 47 :: name.
Proof.
  intros Hcur Hsame Hname. pose proof Hsame as (Hne & _).
  pose proof Hname as ([Hn0 Hn1] & Hs & Hdd).
  unfold join. destruct given as [|c0 given']; [done|]. destruct name as [|n0 name']; [done|].
  by apply normalize_child_of.
Qed.

Lemma join_child (cur name : jsstring) :
  normalPath cur -> segmentName name -> join cur name = cur ++ 47 :: name.
Proof.
  intros Hcur Hname. pose proof (normalPath_nonempty cur Hcur) as Hne.
  destruct Hname as ([Hn0 Hn1] & Hs & Hdd).
  unfold join. destruct cur as [|c0 cur']; [done|]. destruct name as [|n0 name']; [done|].
  apply normalize_child; [exact Hcur|]. repeat split; assumption.
Qed.

Lemma normalPath_child (cur name : jsstring) :
  normalPath cur -> segmentName name -> normalPath (cur ++ 47 :: name).
Proof.
  intros Hcur Hname. split; [by apply normalize_child|]. split.
  - destruct Hname as ([Hn0 _] & Hs & _). by apply hasTrailingSlash_child.
  - intros E. apply (f_equal length) in E. rewrite length_app in E. cbn in E.
    pose proof (normalPath_nonempty cur Hcur). destruct cur; [done|]. cbn in E. lia.
Qed.

Lemma objectGet_setOwnProperty {V} (o : list (jsstring * V)) (k k' : jsstring) (v : V) :
  objectGet (setOwnProperty o k v) k' = if bool_decide (k = k') then Some v else objectGet o k'.
Proof.
  unfold objectGet. induction o as [|[k0 w] o IH]; cbn [setOwnProperty].
  - rewrite filter_cons, filter_nil. cbn [fst].
    destruct (decide (k = k')) as [->|Hne].
    + rewrite decide_True by (by apply bool_decide_pack).
      by rewrite bool_decide_eq_true_2.
    + rewrite decide_False by (intros H; by apply bool_decide_unpack in H).
      by rewrite bool_decide_eq_false_2.
  - destruct (decide (k0 = k)) as [->|Hk0].
    + rewrite (bool_decide_eq_true_2 (k = k)) by reflexivity.
      rewrite !filter_cons. cbn [fst].
      destruct (decide (k = k')) as [->|Hne].
      * rewrite !decide_True by (by apply bool_decide_pack).
        by rewrite bool_decide_eq_true_2.
      * rewrite !decide_False by (intros H; by apply bool_decide_unpack in H).
        by rewrite bool_decide_eq_false_2.
    + rewrite (bool_decide_eq_false_2 (k0 = k)) by exact Hk0.
      rewrite !filter_cons. cbn [fst].
      destruct (decide (k0 = k')) as [->|Hne].
      * rewrite !decide_True by (by apply bool_decide_pack). cbn.
        by rewrite bool_decide_eq_false_2 by (intros ->; done).
      * rewrite !decide_False by (intros H; by apply bool_decide_unpack in H).
        exact IH.
Qed.

Lemma objectGet_objectSet {V} (o : list (jsstring * V)) (k k' : jsstring) (v : V) :
  objectGet (objectSet o k v) k'
  = if bool_decide (k = k') && negb (bool_decide (k' = js "__proto__"))
    then Some v else objectGet o k'.
Proof.
  unfold objectSet. destruct (decide (k = js "__proto__")) as [->|Hk].
  - rewrite (bool_decide_eq_true_2 (js "__proto__" = js "__proto__")) by reflexivity.
    destruct (decide (js "__proto__" = k')) as [<-|Hne].
    + rewrite !bool_decide_eq_true_2 by reflexivity. reflexivity.
    + by rewrite (bool_decide_eq_false_2 (js "__proto__" = k')) by exact Hne.
  - rewrite (bool_decide_eq_false_2 (k = js "__proto__")) by exact Hk.
    rewrite objectGet_setOwnProperty.
    destruct (decide (k = k')) as [<-|Hne].
    + rewrite bool_decide_eq_true_2 by reflexivity.
      by rewrite (bool_decide_eq_false_2 (k = js "__proto__")) by exact Hk.
    + by rewrite bool_decide_eq_false_2 by exact Hne.
Qed.

(** No assignment gives an object the own property [__proto__]. *)
Lemma objectSet_proto {V} (o : list (jsstring * V)) (k : jsstring) (v : V) :
  js "__proto__" ∉ map fst o -> js "__proto__" ∉ map fst (objectSet o k v).
Proof.
  intros H. unfold objectSet. destruct (decide (k = js "__proto__")) as [->|Hk].
  - by rewrite bool_decide_eq_true_2.
  - rewrite bool_decide_eq_false_2 by exact Hk. rewrite setOwnProperty_keys.
    destruct (bool_decide (k ∈ map fst o)); [exact H|].
    rewrite elem_of_app, list_elem_of_singleton. intros [Hin|E]; [by apply H|by apply Hk].
Qed.

Lemma fold_objectSet_proto {V} (keys : list jsstring) (value : jsstring -> V) :
  forall o : list (jsstring * V),
  js "__proto__" ∉ map fst o ->
  js "__proto__" ∉ map fst (fold_left (fun files key => objectSet files key (value key))
                                       keys o).
Proof.
  induction keys as [|k keys IH]; intros o H; cbn [fold_left]; [exact H|].
  apply IH. by apply objectSet_proto.
Qed.

Lemma readFilesRecursively_proto (cwd : list jsstring) (depth : nat) :
  forall (fs : FS) (dir baseDir : jsstring),
  js "__proto__" ∉ map fst (readFilesRecursively cwd depth fs dir baseDir).
Proof.
  induction depth as [|depth IH]; intros fs dir baseDir; cbn [readFilesRecursively].
  - apply not_elem_of_nil.
  - assert (H : forall (entries : list (jsstring * bool)) (o : JSObject),
              js "__proto__" ∉ map fst o ->
              js "__proto__" ∉ map fst (fold_left
                (fun (files : JSObject) '(name, isDir) =>
                   let fullPath := join dir name in
                   let relativePath := drop (length baseDir + 1) fullPath in
                   if (isDir : bool) then
                     let subDirFiles := readFilesRecursively cwd depth fs fullPath baseDir in
                     fold_left (fun files key => objectSet files key (fileContent subDirFiles key))
                               (objectKeys subDirFiles) files
                   else
                     objectSet files relativePath (default [] (readFileSync cwd fs fullPath)))
                entries o)).
    { induction entries as [|[name isDir] entries IHe]; intros o Ho; cbn [fold_left];
        [exact Ho|].
      apply IHe. cbv zeta. destruct isDir.
      - by apply fold_objectSet_proto.
      - by apply objectSet_proto. }
    apply H. apply not_elem_of_nil.
Qed.

Lemma objectGet_fold {V} (keys : list jsstring) (value : jsstring -> V) :
  js "__proto__" ∉ keys ->
  forall (o : list (jsstring * V)) (k' : jsstring),
  objectGet (fold_left (fun files key => objectSet files key (value key)) keys o) k'
  = if bool_decide (k' ∈ keys) then Some (value k') else objectGet o k'.
Proof.
  induction keys as [|k keys IH]; intros Hproto o k'; cbn [fold_left].
  - rewrite bool_decide_eq_false_2; [reflexivity|apply not_elem_of_nil].
  - rewrite not_elem_of_cons in Hproto. destruct Hproto as [Hk Hkeys].
    rewrite IH, objectGet_objectSet by exact Hkeys.
    destruct (decide (k' ∈ keys)) as [Hin|Hout].
    + rewrite !bool_decide_eq_true_2; [reflexivity| |exact Hin]. by right.
    + rewrite (bool_decide_eq_false_2 (k' ∈ keys)) by exact Hout.
      destruct (decide (k = k')) as [->|Hne].
      * rewrite (bool_decide_eq_true_2 (k' = k')) by reflexivity.
        rewrite (bool_decide_eq_false_2 (k' = js "__proto__")) by (intros E; by apply Hk).
        rewrite bool_decide_eq_true_2 by (by left). reflexivity.
      * rewrite (bool_decide_eq_false_2 (k = k')) by exact Hne. cbn [andb].
        rewrite (bool_decide_eq_false_2 (k' ∈ k :: keys)); [reflexivity|].
        rewrite elem_of_cons. intros [->|]; done.
Qed.

Lemma objectGet_elem {V} (o : list (jsstring * V)) (k : jsstring) (v : V) :
  objectGet o k = Some v -> (k, v) ∈ o.
Proof.
  unfold objectGet. induction o as [|[k0 w] o IH]; [discriminate|].
  rewrite filter_cons. cbn [fst]. destruct (decide _) as [H|H].
  - apply bool_decide_unpack in H. subst k0. cbn. intros [= ->]. by left.
  - intros Hg. right. by apply IH.
Qed.

Lemma objectGet_iff {V} (o : list (jsstring * V)) (k : jsstring) (v : V) :
  NoDup (map fst o) -> objectGet o k = Some v <-> (k, v) ∈ o.
Proof. intros H. split; [apply objectGet_elem|by apply objectGet_lookup]. Qed.

Lemma objectGet_keys (sub : JSObject) (path : jsstring) :
  NoDup (map fst sub) ->
  (if bool_decide (path ∈ objectKeys sub) then Some (fileContent sub path) else None)
  = objectGet sub path.
Proof.
  intros Hnd. destruct (objectGet sub path) as [c|] eqn:E.
  - rewrite bool_decide_eq_true_2.
    + unfold fileContent. by rewrite E.
    + rewrite objectKeys_perm. apply objectGet_elem in E.
      apply list_elem_of_fmap. by exists (path, c).
  - rewrite bool_decide_eq_false_2; [reflexivity|].
    rewrite objectKeys_perm. intros Hin.
    apply list_elem_of_fmap in Hin as ([k c] & -> & Hin). cbn [fst] in E.
    by rewrite (objectGet_lookup sub k c Hnd Hin) in E.
Qed.

Lemma below_snoc (dir : jsstring) (pre : list jsstring) (name : jsstring) :
  below dir (pre ++ [name]) = below dir pre ++ 47 :: name.
Proof. unfold below. by rewrite fold_left_app. Qed.

Lemma below_join (dir : jsstring) (pre : list jsstring) :
  pre <> [] -> below dir pre = dir ++ 47 :: joinWith 47 pre.
Proof.
  induction pre as [|name pre IH] using rev_ind; [done|]. intros _.
  rewrite below_snoc. destruct pre as [|p0 pre'].
  - reflexivity.
  - rewrite IH, joinWith_snoc by done. by rewrite <- app_assoc.
Qed.

Lemma below_normalPath (dir : jsstring) (pre : list jsstring) :
  normalPath dir -> Forall segmentName pre -> normalPath (below dir pre).
Proof.
  intros Hdir. induction pre as [|name pre IH] using rev_ind; intros Hpre; [exact Hdir|].
  apply Forall_app in Hpre as [Hpre Hname]. inversion Hname; subst.
  rewrite below_snoc. apply normalPath_child; [by apply IH|assumption].
Qed.

Section Walker.
Variable cwd : list jsstring.

Lemma resolve_child (cur name : jsstring) :
  normalPath cur -> segmentName name ->
  resolve cwd (cur ++ 47 :: name) = resolve cwd cur ++ [name].
Proof.
  intros Hcur Hname. rewrite <- (join_child cur name Hcur Hname).
  rewrite resolve_join by (by apply normalPath_nonempty).
  destruct Hname as (Hp & Hs & Hdd).
  rewrite (splitOn_noSlash_seg name Hs). unfold run. cbn [fold_left].
  rewrite normalizeStep_push by assumption. cbn [rev]. by rewrite rev_involutive.
Qed.

Lemma resolve_below (dir : jsstring) (pre : list jsstring) :
  normalPath dir -> Forall segmentName pre ->
  resolve cwd (below dir pre) = resolve cwd dir ++ pre.
Proof.
  intros Hdir. induction pre as [|name pre IH] using rev_ind; intros Hpre.
  - by rewrite app_nil_r.
  - apply Forall_app in Hpre as [Hpre Hname]. inversion Hname; subst.
    rewrite below_snoc, resolve_child, IH by (try apply below_normalPath; assumption).
    by rewrite <- app_assoc.
Qed.

(** The entries that [readdir] lists: the nodes just below the directory. *)
Lemma readdir_elem (fs : FS) (dir name : jsstring) (isDir : bool) :
  (name, isDir) ∈ readdir cwd fs dir
  <-> exists n, fs !! (resolve cwd dir ++ [name]) = Some n
                /\ isDir = match n with Directory => true | File _ => false end.
Proof.
  unfold readdir. rewrite list_elem_of_omap. split.
  - intros ([k n] & Hin & Hf). apply elem_of_map_to_list in Hin.
    destruct (last k) as [x|] eqn:El; [|discriminate].
    destruct (decide (removelast k = resolve cwd dir)) as [Hr|Hr].
    + rewrite bool_decide_eq_true_2 in Hf by exact Hr. injection Hf as -> <-.
      exists n. split; [|reflexivity].
      apply last_Some in El as [k' ->]. rewrite removelast_last in Hr. by subst k'.
    + by rewrite bool_decide_eq_false_2 in Hf.
  - intros (n & Hk & ->). exists (resolve cwd dir ++ [name], n). split.
    + by apply elem_of_map_to_list.
    + rewrite last_snoc, removelast_last. by rewrite bool_decide_eq_true_2.
Qed.

Lemma readFilesRecursively_S (depth : nat) (fs : FS) (dir baseDir : jsstring) :
  readFilesRecursively cwd (S depth) fs dir baseDir
  = fold_left (walkEntry cwd (fun p => readFilesRecursively cwd depth fs p baseDir)
                 fs dir baseDir)
              (readdir cwd fs dir) [].
Proof. reflexivity. Qed.

Lemma objectGet_walkEntry (subDir : jsstring -> JSObject) (fs : FS)
  (dir baseDir : jsstring) (files : JSObject) (entry : jsstring * bool)
  (path : jsstring) :
  (forall p, NoDup (map fst (subDir p)) /\ js "__proto__" ∉ map fst (subDir p)) ->
  objectGet (walkEntry cwd subDir fs dir baseDir files entry) path
  = match contribution cwd subDir fs dir baseDir entry path with
    | Some c => Some c
    | None => objectGet files path
    end.
Proof.
  intros Hnd. destruct entry as [name [|]]; unfold walkEntry, contribution; cbv zeta.
  - rewrite objectGet_fold by (rewrite objectKeys_perm; apply Hnd).
    rewrite <- (objectGet_keys (subDir (join dir name)) path (proj1 (Hnd _))).
    by destruct (bool_decide _).
  - rewrite objectGet_objectSet. by destruct (_ && _).
Qed.

Lemma walk_sound (subDir : jsstring -> JSObject) (fs : FS) (dir baseDir : jsstring)
  (path : jsstring) (c : list byte) (entries : list (jsstring * bool)) :
  (forall p, NoDup (map fst (subDir p)) /\ js "__proto__" ∉ map fst (subDir p)) ->
  forall acc : JSObject,
  objectGet (fold_left (walkEntry cwd subDir fs dir baseDir) entries acc) path = Some c ->
  objectGet acc path = Some c
  \/ exists e, e ∈ entries /\ contribution cwd subDir fs dir baseDir e path = Some c.
Proof.
  intros Hnd. induction entries as [|e entries IH]; intros acc; cbn [fold_left].
  - by left.
  - intros H. destruct (IH _ H) as [Hacc|(e' & Hin & He')].
    + rewrite objectGet_walkEntry in Hacc by exact Hnd.
      destruct (contribution cwd subDir fs dir baseDir e path) as [c'|] eqn:E.
      * right. exists e. split; [by left|]. by rewrite E.
      * by left.
    + right. exists e'. split; [by right|exact He'].
Qed.

Lemma walk_complete (subDir : jsstring -> JSObject) (fs : FS) (dir baseDir : jsstring)
  (path : jsstring) (c : list byte) (entries : list (jsstring * bool)) :
  (forall p, NoDup (map fst (subDir p)) /\ js "__proto__" ∉ map fst (subDir p)) ->
  (forall e c', e ∈ entries -> contribution cwd subDir fs dir baseDir e path = Some c' ->
                c' = c) ->
  forall acc : JSObject,
  objectGet acc path = Some c
  \/ (exists e, e ∈ entries /\ contribution cwd subDir fs dir baseDir e path = Some c) ->
  objectGet (fold_left (walkEntry cwd subDir fs dir baseDir) entries acc) path = Some c.
Proof.
  intros Hnd. induction entries as [|e entries IH]; intros Hagree acc H; cbn [fold_left].
  - destruct H as [H|(e & Hin & _)]; [exact H|]. by apply not_elem_of_nil in Hin.
  - apply IH; [intros e' c' Hin; apply Hagree; by right|].
    rewrite objectGet_walkEntry by exact Hnd.
    destruct (contribution cwd subDir fs dir baseDir e path) as [c'|] eqn:E.
    + left. f_equal. apply (Hagree e c'); [by left|exact E].
    + destruct H as [Hacc|(e' & Hin & He')]; [by left|].
      apply elem_of_cons in Hin as [->|Hin]; [congruence|]. right. by exists e'.
Qed.

End Walker.

Lemma drop_past {A} (l : list A) (a : A) (x : list A) :
  drop (length l + 1) (l ++ a :: x) = x.
Proof. induction l as [|b l IH]; [reflexivity|]. exact IH. Qed.

Section Tree.
Variable cwd : list jsstring.
Variable fs : FS.
Variable dir baseDir : jsstring.
Hypothesis Htree : wellFormedTree fs.
Hypothesis Hdir : normalPath dir.

Lemma tree_names (pre segs : list jsstring) (n : node) :
  fs !! (resolve cwd dir ++ pre ++ segs) = Some n -> Forall segmentName (pre ++ segs).
Proof.
  intros H. destruct (Htree _ _ H) as [Hnames _].
  by apply Forall_app in Hnames as [_ Hnames].
Qed.

(** What an entry of the directory reached through [pre] is. *)
Lemma readdir_below (pre : list jsstring) (name : jsstring) (isDir : bool) :
  Forall segmentName pre ->
  (name, isDir) ∈ readdir cwd fs (below dir pre)
  <-> exists n, fs !! (resolve cwd dir ++ pre ++ [name]) = Some n
                /\ isDir = match n with Directory => true | File _ => false end.
Proof.
  intros Hpre. rewrite readdir_elem, resolve_below by assumption.
  by rewrite <- app_assoc.
Qed.

Lemma entry_name (pre : list jsstring) (name : jsstring) (n : node) :
  fs !! (resolve cwd dir ++ pre ++ [name]) = Some n -> segmentName name.
Proof.
  intros H. apply tree_names in H. apply Forall_app in H as [_ H]. by inversion H.
Qed.

Lemma join_below (pre : list jsstring) (name : jsstring) :
  Forall segmentName pre -> segmentName name ->
  join (below dir pre) name = below dir (pre ++ [name]).
Proof.
  intros Hpre Hname. rewrite below_snoc. apply join_child; [|exact Hname].
  by apply below_normalPath.
Qed.

Lemma readFileSync_below (pre : list jsstring) (c : list byte) :
  Forall segmentName pre -> pre <> [] ->
  fs !! (resolve cwd dir ++ pre) = Some (File c) ->
  readFileSync cwd fs (below dir pre) = Some c.
Proof.
  intros Hpre Hne Hk. unfold readFileSync.
  rewrite (proj2 (lookupPath_file cwd fs (below dir pre) c)); [reflexivity|].
  rewrite resolve_below by assumption. split; [|split; [|exact Hk]].
  - by destruct (resolve cwd dir), pre.
  - by destruct (below_normalPath dir pre Hdir Hpre) as (_ & Ht & _).
Qed.

(** What one entry gives: a file found below it. *)
Lemma contribution_sound (m : nat) (pre : list jsstring) (path : jsstring) :
  Forall segmentName pre ->
  (forall pre' c, Forall segmentName pre' ->
     objectGet (readFilesRecursively cwd m fs (below dir pre') baseDir) path = Some c ->
     foundBelow cwd fs dir baseDir m pre' path c) ->
  forall e c, e ∈ readdir cwd fs (below dir pre) ->
    contribution cwd (fun p => readFilesRecursively cwd m fs p baseDir) fs
      (below dir pre) baseDir e path = Some c ->
    foundBelow cwd fs dir baseDir (S m) pre path c.
Proof.
  intros Hpre IH [name isDir] c Hin Hc.
  apply readdir_below in Hin as (node & Hk & ->); [|exact Hpre].
  pose proof (entry_name _ _ _ Hk) as Hname.
  unfold contribution in Hc. rewrite join_below in Hc by assumption.
  destruct node as [c0|].
  - fold (relativeTo baseDir dir (pre ++ [name])) in Hc.
    destruct (decide (relativeTo baseDir dir (pre ++ [name]) = path)) as [<-|Hne];
      [|by rewrite bool_decide_eq_false_2 in Hc].
    rewrite bool_decide_eq_true_2 in Hc by reflexivity.
    destruct (negb _); [|discriminate Hc]. cbn [andb] in Hc.
    rewrite (readFileSync_below (pre ++ [name]) c0) in Hc;
      [|apply Forall_app; split; [exact Hpre|by constructor]
       |by destruct pre|exact Hk].
    injection Hc as <-. exists [name]. cbn [length]. repeat split; try done; lia.
  - apply IH in Hc; [|apply Forall_app; split; [exact Hpre|by constructor]].
    destruct Hc as (segs & Hne & Hlen & -> & Hf).
    exists (name :: segs). rewrite <- !app_assoc in *. cbn [app length] in *.
    repeat split; try done. lia.
Qed.

(** Every property of the object that the walker returns is a regular
    file below the directory, under its relative path. *)
Lemma walk_sound_spec (n : nat) : forall pre : list jsstring,
  Forall segmentName pre ->
  forall path c,
  objectGet (readFilesRecursively cwd n fs (below dir pre) baseDir) path = Some c ->
  foundBelow cwd fs dir baseDir n pre path c.
Proof.
  induction n as [|m IH]; intros pre Hpre path c; [discriminate|].
  rewrite readFilesRecursively_S. intros H.
  apply walk_sound in H as [H|(e & Hin & He)];
    [discriminate|
    |intros p; split; [apply readFilesRecursively_NoDup|apply readFilesRecursively_proto]].
  apply (contribution_sound m pre path Hpre) with (e := e); try assumption.
  intros pre' c' Hpre'. by apply IH.
Qed.

Hypothesis Hdistinct : distinctPaths cwd fs dir baseDir.

Lemma foundBelow_functional (n n' : nat) (pre : list jsstring) (path : jsstring)
  (c c' : list byte) :
  foundBelow cwd fs dir baseDir n pre path c ->
  foundBelow cwd fs dir baseDir n' pre path c' -> c = c'.
Proof.
  intros (segs & Hne & _ & Hp & Hk) (segs' & Hne' & _ & Hp' & Hk').
  assert (E : pre ++ segs = pre ++ segs').
  { apply (Hdistinct _ _ _ _ Hk Hk'). by rewrite <- Hp, <- Hp'. }
  rewrite E in Hk. congruence.
Qed.

(** Every regular file below the directory is a property of the object,
    when no two of them get the same relative path. *)
Lemma walk_complete_spec (n : nat) : forall pre : list jsstring,
  Forall segmentName pre ->
  forall path c,
  path <> js "__proto__" ->
  foundBelow cwd fs dir baseDir n pre path c ->
  objectGet (readFilesRecursively cwd n fs (below dir pre) baseDir) path = Some c.
Proof.
  induction n as [|m IH]; intros pre Hpre path c Hproto.
  { intros (segs & Hne & Hlen & _). destruct segs; [done|]. cbn in Hlen. lia. }
  intros Hfound. rewrite readFilesRecursively_S.
  set (subDir := fun p => readFilesRecursively cwd m fs p baseDir).
  apply walk_complete;
    [intros p; split; [apply readFilesRecursively_NoDup|apply readFilesRecursively_proto]
    | |right].
  - intros e c' Hin He. symmetry.
    apply (foundBelow_functional (S m) (S m) pre path c c' Hfound).
    apply (contribution_sound m pre path Hpre) with (e := e); try assumption.
    intros pre' c'' Hpre'. by apply walk_sound_spec.
  - destruct Hfound as (segs & Hne & Hlen & -> & Hf).
    destruct segs as [|name rest]; [done|]. destruct rest as [|r0 rest].
    + exists (name, false). pose proof (entry_name _ _ _ Hf) as Hname. split.
      * apply readdir_below; [exact Hpre|]. by exists (File c).
      * unfold contribution. rewrite join_below by assumption.
        fold (relativeTo baseDir dir (pre ++ [name])).
        rewrite bool_decide_eq_true_2 by reflexivity.
        rewrite (bool_decide_eq_false_2 (_ = js "__proto__")) by exact Hproto.
        cbn [andb negb].
        rewrite (readFileSync_below (pre ++ [name]) c);
          [reflexivity|apply Forall_app; split; [exact Hpre|by constructor]
          |by destruct pre|exact Hf].
    + assert (Hd : fs !! (resolve cwd dir ++ pre ++ [name]) = Some Directory).
      { destruct (Htree _ _ Hf) as [_ Hpref]. apply Hpref.
        - by destruct (resolve cwd dir), pre.
        - exists (r0 :: rest). by rewrite <- !app_assoc.
        - intros E. apply (f_equal length) in E. rewrite !length_app in E.
          cbn [length] in E. lia. }
      exists (name, true). pose proof (entry_name _ _ _ Hd) as Hname. split.
      * apply readdir_below; [exact Hpre|]. by exists Directory.
      * unfold contribution. rewrite join_below by assumption. unfold subDir.
        apply IH; [apply Forall_app; split; [exact Hpre|by constructor]|exact Hproto|].
        exists (r0 :: rest). rewrite <- !app_assoc. cbn [app length] in *.
        repeat split; try done. lia.
Qed.

(** A node is not deeper than there are nodes. *)
Lemma depth_bound (segs : list jsstring) (n : node) :
  fs !! (resolve cwd dir ++ segs) = Some n -> (length segs <= size fs)%nat.
Proof.
  intros Hk. set (D := resolve cwd dir) in *.
  set (l := map (fun i => D ++ take i segs) (seq 1 (length segs))).
  assert (Hnd : NoDup l).
  { apply NoDup_fmap_2_strong; [|apply NoDup_seq].
    intros i j Hi Hj E. apply elem_of_seq in Hi, Hj.
    apply (f_equal length) in E. rewrite !length_app, !length_take in E. lia. }
  assert (Hsub : (list_to_set l : gset (list jsstring)) ⊆ dom fs).
  { intros k Hin. apply elem_of_list_to_set in Hin.
    apply list_elem_of_fmap in Hin as (i & -> & Hi). apply elem_of_seq in Hi.
    apply elem_of_dom. destruct (decide (i = length segs)) as [->|Hlt].
    - rewrite firstn_all. by exists n.
    - exists Directory. destruct (Htree _ _ Hk) as [_ Hpref]. apply Hpref.
      + destruct D; [|done]. destruct segs; [cbn in Hi; lia|].
        destruct i; [lia|done].
      + apply prefix_app, prefix_take.
      + intros E. apply (f_equal length) in E. rewrite !length_app, length_take in E. lia. }
  apply subseteq_size in Hsub. rewrite size_list_to_set, size_dom in Hsub by exact Hnd.
  unfold l in Hsub. by rewrite length_map, length_seq in Hsub.
Qed.

End Tree.

Lemma resolve_sameDirectory (cwd : list jsstring) (given cur : jsstring) :
  sameDirectory given cur -> resolve cwd given = resolve cwd cur.
Proof.
  intros (_ & Habs & Hseg). rewrite !resolve_eq, Habs. f_equal.
  set (st := run false (if isAbsolute cur then [] else cwd) []).
  rewrite <- (renormalize true (splitOn 47 given) st) by (by left).
  rewrite <- (renormalize true (splitOn 47 cur) st) by (by left).
  pose proof (Hseg true) as E. unfold normalizeSegments in E. unfold run at 2 4.
  by rewrite E.
Qed.

Lemma fold_left_ext_in {A B} (f g : A -> B -> A) (l : list B) :
  (forall a b, b ∈ l -> f a b = g a b) ->
  forall a, fold_left f l a = fold_left g l a.
Proof.
  induction l as [|b l IH]; intros H a; [reflexivity|]. cbn [fold_left].
  rewrite (H a b) by (by left). apply IH. intros a' b' Hb. apply H. by right.
Qed.

(** The walk from a directory does not depend on the way its path is
    written, the relative paths aside, which are cut at the length of the
    base directory as it was given. *)
Lemma readFilesRecursively_sameDirectory (cwd : list jsstring) (fs : FS)
  (given cur baseDir : jsstring) (depth : nat) :
  wellFormedTree fs -> normalPath cur -> sameDirectory given cur ->
  readFilesRecursively cwd depth fs given baseDir
  = readFilesRecursively cwd depth fs cur baseDir.
Proof.
  intros Htree Hcur Hsame. destruct depth as [|depth]; [reflexivity|].
  rewrite !readFilesRecursively_S.
  assert (Hreaddir : readdir cwd fs given = readdir cwd fs cur).
  { unfold readdir. by rewrite (resolve_sameDirectory cwd given cur Hsame). }
  rewrite Hreaddir. apply fold_left_ext_in.
  intros files [name isDir] Hin.
  apply readdir_elem in Hin as (n & Hk & _).
  assert (Hname : segmentName name).
  { destruct (Htree _ _ Hk) as [Hnames _]. apply Forall_app in Hnames as [_ Hnames].
    by inversion Hnames. }
  unfold walkEntry.
  by rewrite (join_child_of given cur name Hcur Hsame Hname), (join_child cur name Hcur Hname).
Qed.

Lemma relativeTo_self (dir : jsstring) (segs : list jsstring) :
  segs <> [] -> relativeTo dir dir segs = joinWith 47 segs.
Proof. intros H. unfold relativeTo. rewrite below_join by exact H. apply drop_past. Qed.

Lemma distinctPaths_self (cwd : list jsstring) (fs : FS) (dir : jsstring) :
  wellFormedTree fs -> distinctPaths cwd fs dir dir.
Proof.
  intros Htree segs segs' c c' Hk Hk' E.
  assert (Hs : forall s m, fs !! (resolve cwd dir ++ s) = Some m -> Forall noSlash s).
  { intros s m Hm. destruct (Htree _ _ Hm) as [Hnames _].
    apply Forall_app in Hnames as [_ Hnames].
    eapply Forall_impl; [exact Hnames|]. by intros x (_ & Hx & _). }
  destruct segs as [|s0 segs], segs' as [|s0' segs'].
  - reflexivity.
  - exfalso. rewrite (relativeTo_self dir (s0' :: segs')) in E by done.
    unfold relativeTo, below in E.
    cbn [fold_left] in E. rewrite drop_ge in E by lia.
    pose proof (Hs _ _ Hk') as Hn. destruct (Htree _ _ Hk') as [Hnames _].
    apply Forall_app in Hnames as [_ Hnames]. inversion Hnames as [|? ? ([H0 _] & _) _].
    subst. destruct s0'; [done|]. destruct segs'; discriminate E.
  - exfalso. rewrite (relativeTo_self dir (s0 :: segs)) in E by done.
    unfold relativeTo, below in E.
    cbn [fold_left] in E. rewrite drop_ge in E by lia.
    destruct (Htree _ _ Hk) as [Hnames _].
    apply Forall_app in Hnames as [_ Hnames]. inversion Hnames as [|? ? ([H0 _] & _) _].
    subst. destruct s0; [done|]. destruct segs; discriminate E.
  - rewrite !relativeTo_self in E by done.
    rewrite <- (splitOn_joinWith (s0 :: segs)), <- (splitOn_joinWith (s0' :: segs'));
      [by rewrite E|by eapply Hs|done|by eapply Hs|done].
Qed.

(** Only a file named [__proto__] in the directory itself gets the
    relative path [__proto__]. *)
Lemma proto_path (cwd : list jsstring) (fs : FS) (dir : jsstring)
  (segs : list jsstring) (c : list byte) :
  wellFormedTree fs -> segs <> [] ->
  fs !! (resolve cwd dir ++ segs) = Some (File c) ->
  joinWith 47 segs = js "__proto__" -> segs = [js "__proto__"].
Proof.
  intros Htree Hne Hk E.
  assert (Hs : Forall noSlash segs).
  { destruct (Htree _ _ Hk) as [Hnames _]. apply Forall_app in Hnames as [_ Hnames].
    eapply Forall_impl; [exact Hnames|]. by intros x (_ & Hx & _). }
  rewrite <- (splitOn_joinWith segs Hs Hne), E. reflexivity.
Qed.

(** The walker on a directory given by a normal path, in a file system
    whose names are names of entries, when no regular file in the
    directory itself is named [__proto__]: the object it returns has
    exactly one property for each regular file at any depth below the
    directory, the path from the directory with [/] between the names, and
    the content of the file as its value. *)
Theorem walker_finds_the_files (cwd : list jsstring) (fs : FS) (dir : jsstring) :
  wellFormedTree fs -> normalPath dir ->
  fileAt fs (resolve cwd dir ++ [js "__proto__"]) = None ->
  forall path c,
    (path, c) ∈ readFilesRecursively cwd (S (size fs)) fs dir dir
    <-> exists segs, segs <> [] /\ path = joinWith 47 segs
                     /\ fs !! (resolve cwd dir ++ segs) = Some (File c).
Proof.
  intros Htree Hdir Hproto path c.
  rewrite <- objectGet_iff by apply readFilesRecursively_NoDup.
  change dir with (below dir []) at 1. split.
  - intros H. apply (walk_sound_spec cwd fs dir dir Htree Hdir) in H; [|constructor].
    destruct H as (segs & Hne & _ & Hp & Hk). exists segs. cbn [app] in *.
    by rewrite relativeTo_self in Hp.
  - intros (segs & Hne & Hp & Hk).
    apply (walk_complete_spec cwd fs dir dir Htree Hdir (distinctPaths_self cwd fs dir Htree));
      [constructor| |].
    + intros E. rewrite E in Hp. symmetry in Hp.
      rewrite (proto_path cwd fs dir segs c Htree Hne Hk Hp) in Hk.
      unfold fileAt in Hproto. by rewrite Hk in Hproto.
    + exists segs. cbn [app]. rewrite relativeTo_self by exact Hne. repeat split; try done.
      pose proof (depth_bound cwd fs dir Htree segs _ Hk). lia.
Qed.

(** The walker on a directory whose path is written with a slash at the
    end, or with [./] in front: the files are found, but their relative
    paths are cut one or two characters too far, because as many more
    characters than the normal path has are skipped on line 70. Every
    property of the object that the walker returns is a regular file
    below the directory, under its path less its first one or two
    characters. *)
Theorem walker_cuts_relative_paths (cwd : list jsstring) (fs : FS)
  (given dir : jsstring) (cut : nat) :
  wellFormedTree fs -> normalPath dir ->
  (given = dir ++ [47] /\ cut = 1%nat)
  \/ (given = [46; 47] ++ dir /\ isAbsolute dir = false /\ cut = 2%nat) ->
  forall path c,
    (path, c) ∈ readFilesRecursively cwd (S (size fs)) fs given given ->
    exists segs, segs <> [] /\ fs !! (resolve cwd dir ++ segs) = Some (File c)
                 /\ path = drop cut (joinWith 47 segs).
Proof.
  intros Htree Hdir Hgiven path c Hin.
  assert (Hsame : sameDirectory given dir /\ length given = (length dir + cut)%nat).
  { destruct Hgiven as [[-> ->]|(-> & Hrel & ->)].
    - split; [by apply sameDirectory_trailing_slash|]. by rewrite length_app.
    - split; [by apply sameDirectory_dot_slash|]. cbn [length app]. lia. }
  destruct Hsame as [Hsame Hlen].
  rewrite (readFilesRecursively_sameDirectory cwd fs given dir given _ Htree Hdir Hsame) in Hin.
  apply objectGet_iff in Hin; [|apply readFilesRecursively_NoDup].
  change dir with (below dir []) in Hin at 1.
  apply (walk_sound_spec cwd fs dir given Htree Hdir) in Hin; [|constructor].
  destruct Hin as (segs & Hne & _ & -> & Hk). cbn [app] in *.
  exists segs. split; [exact Hne|]. split; [exact Hk|].
  unfold relativeTo. rewrite below_join, Hlen by exact Hne.
  replace (length dir + cut + 1)%nat with (length dir + 1 + cut)%nat by lia.
  by rewrite <- drop_drop, drop_past.
Qed.

(** * The walker on the example *)

Lemma segmentName_checked (s : jsstring) :
  bool_decide (s <> [] /\ s <> [46] /\ (47 ∉ s) /\ s <> dotdot) = true -> segmentName s.
Proof.
  intros H. apply bool_decide_eq_true_1 in H as (H1 & H2 & H3 & H4).
  by repeat split.
Qed.

Lemma prefix_cases {A} (pre k : list A) :
  pre `prefix_of` k -> pre <> k -> exists i, (i < length k)%nat /\ pre = take i k.
Proof.
  intros [ext ->] Hne. exists (length pre). split.
  - rewrite length_app. destruct ext; [by rewrite app_nil_r in Hne|cbn; lia].
  - by rewrite take_app_length.
Qed.

Lemma node_checked (fs : FS) (k : list jsstring) :
  Forall segmentName k ->
  (forall i, (0 < i < length k)%nat -> fs !! take i k = Some Directory) ->
  Forall segmentName k
  /\ forall pre, pre <> [] -> pre `prefix_of` k -> pre <> k ->
       fs !! pre = Some Directory.
Proof.
  intros Hnames Hpre. split; [exact Hnames|]. intros pre Hne Hp Hneq.
  destruct (prefix_cases pre k Hp Hneq) as (i & Hi & ->).
  apply Hpre. split; [|exact Hi]. destruct i; [by destruct k|lia].
Qed.

Lemma exampleTree_wellFormed : wellFormedTree exampleTree.
Proof.
  intros k n Hk. unfold exampleTree in Hk.
  repeat (apply lookup_insert_Some in Hk as [[<- <-]|[_ Hk]];
          [|try (apply lookup_singleton_Some in Hk as [<- <-])]);
    (apply node_checked;
     [repeat (constructor; [apply segmentName_checked; vm_compute; reflexivity|]);
      constructor
     |intros i Hi; cbn [length] in Hi;
      do 4 (destruct i as [|i]; [first [lia|vm_compute; reflexivity]|]); lia]).
Qed.

Lemma emptyTree_wellFormed : wellFormedTree emptyTree.
Proof.
  intros k n Hk. unfold emptyTree in Hk.
  repeat (apply lookup_insert_Some in Hk as [[<- <-]|[_ Hk]];
          [|try (apply lookup_singleton_Some in Hk as [<- <-])]);
    (apply node_checked;
     [repeat (constructor; [apply segmentName_checked; vm_compute; reflexivity|]);
      constructor
     |intros i Hi; cbn [length] in Hi;
      do 4 (destruct i as [|i]; [first [lia|vm_compute; reflexivity]|]); lia]).
Qed.

Lemma normalPath_d : normalPath (js "d").
Proof.
  split; [vm_compute; reflexivity|]. split; [vm_compute; reflexivity|discriminate].
Qed.

Lemma walker_finds_the_files_witness :
  (js "sub/b.txt", []) ∈
    readFilesRecursively [js "w"] (S (size exampleTree)) exampleTree (js "d") (js "d")
  <-> exists segs, segs <> [] /\ js "sub/b.txt" = joinWith 47 segs
                   /\ exampleTree !! (resolve [js "w"] (js "d") ++ segs) = Some (File []).
Proof.
  apply (walker_finds_the_files [js "w"] exampleTree (js "d") exampleTree_wellFormed
           normalPath_d).
  vm_compute. reflexivity.
Defined.

Lemma walker_cuts_relative_paths_witness :
  exists segs, segs <> []
    /\ exampleTree !! (resolve [js "w"] (js "d") ++ segs) = Some (File [Byte.x68; Byte.x69])
    /\ js ".txt" = drop 1 (joinWith 47 segs).
Proof.
  apply (walker_cuts_relative_paths [js "w"] exampleTree (js "d/") (js "d") 1
           exampleTree_wellFormed normalPath_d).
  - left. split; reflexivity.
  - replace (readFilesRecursively [js "w"] (S (size exampleTree)) exampleTree
               (js "d/") (js "d/"))
      with [(js "ub/b.txt", [] : list byte); (js ".txt", [Byte.x68; Byte.x69])]
      by (vm_compute; reflexivity).
    apply list_elem_of_further, list_elem_of_here.
Defined.

(** * Empty directories *)

(** The walker finds nothing exactly when there is no regular file below
    the directory. *)
Lemma walker_finds_nothing (cwd : list jsstring) (fs : FS) (dir : jsstring) :
  wellFormedTree fs -> normalPath dir ->
  fileAt fs (resolve cwd dir ++ [js "__proto__"]) = None ->
  readFilesRecursively cwd (S (size fs)) fs dir dir = []
  <-> forall segs c, segs <> [] -> fs !! (resolve cwd dir ++ segs) <> Some (File c).
Proof.
  intros Htree Hdir Hproto.
  set (files := readFilesRecursively cwd (S (size fs)) fs dir dir).
  assert (Hnd : NoDup (map fst files)) by apply readFilesRecursively_NoDup.
  split.
  - intros E segs c Hne Hk.
    assert (Hget : objectGet files (joinWith 47 segs) = Some c).
    { unfold files. change dir with (below dir []) at 1.
      apply (walk_complete_spec cwd fs dir dir Htree Hdir (distinctPaths_self cwd fs dir Htree));
        [constructor| |].
      - intros Hp. rewrite (proto_path cwd fs dir segs c Htree Hne Hk Hp) in Hk.
        unfold fileAt in Hproto. by rewrite Hk in Hproto.
      - exists segs. cbn [app]. rewrite relativeTo_self by exact Hne.
        repeat split; try done.
        pose proof (depth_bound cwd fs dir Htree segs _ Hk). lia. }
    rewrite E in Hget. discriminate Hget.
  - intros H. destruct files as [|[path c] files'] eqn:E; [reflexivity|]. exfalso.
    assert (Hget : objectGet ((path, c) :: files') path = Some c).
    { apply objectGet_iff; [exact Hnd|by left]. }
    rewrite <- E in Hget. unfold files in Hget. change dir with (below dir []) in Hget at 1.
    apply (walk_sound_spec cwd fs dir dir Htree Hdir) in Hget; [|constructor].
    destruct Hget as (segs & Hne & _ & _ & Hk). by apply (H segs c).
Qed.

(** Packing a directory given by a normal path, with no regular file
    named [__proto__] in the directory itself, fails with "No files found"
    exactly when there is no regular file at any depth below it:
    directories, however many, do not count. *)
Theorem pack_refuses_trees_without_files (cwd args : list jsstring) (now : jsstring)
  (gzipSync : list byte -> number -> option (list byte))
  (maxByteLength : Z) (fs : FS)
  (directoryPath : jsstring) (outputFile : option jsstring) :
  wellFormedTree fs -> normalPath directoryPath ->
  fileAt fs (resolve cwd directoryPath ++ [js "__proto__"]) = None ->
  lookupPath cwd fs directoryPath = Some Directory ->
  (compressDirectory cwd args now gzipSync maxByteLength fs directoryPath outputFile).1
  = inl NoFilesInDirectory
  <-> forall segs c, segs <> [] ->
        fs !! (resolve cwd directoryPath ++ segs) <> Some (File c).
Proof.
  intros Htree Hdir Hproto Hl. unfold compressDirectory. rewrite Hl.
  rewrite <- (walker_finds_nothing cwd fs directoryPath Htree Hdir Hproto).
  set (files := readFilesRecursively cwd (S (size fs)) fs directoryPath directoryPath).
  assert (Hlen : (len (objectKeys files) =? 0) = true <-> files = []).
  { unfold len. rewrite objectKeys_length. split.
    - intros H. apply Z.eqb_eq in H. destruct files; [done|cbn in H; lia].
    - by intros ->. }
  split.
  - intros H. apply Hlen. destruct (len (objectKeys files) =? 0); [done|].
    destruct (_ <? _); [done|].
    destruct (gzipSync _ _); [|done]. by destruct (writeFileSync _ _ _ _).
  - intros H. by rewrite (proj2 Hlen).
Qed.

Lemma pack_refuses_trees_without_files_witness :
  (compressDirectory [js "w"] [] exampleCreated storeGzip exampleLimit emptyTree
     (js "e") None).1
  = inl NoFilesInDirectory
  <-> forall segs c, segs <> [] ->
        emptyTree !! (resolve [js "w"] (js "e") ++ segs) <> Some (File c).
Proof.
  apply (pack_refuses_trees_without_files [js "w"] [] exampleCreated storeGzip exampleLimit
           emptyTree (js "e") None emptyTree_wellFormed).
  - split; [vm_compute; reflexivity|]. split; [vm_compute; reflexivity|discriminate].
  - vm_compute. reflexivity.
  - vm_compute. reflexivity.
Defined.

(** * What packing and unpacking leave alone *)

Section Untouched.
Variable cwd : list jsstring.

(** Packing changes one node at most, the archive file; when it succeeds,
    that node is a regular file holding what [gzipSync] returned for the
    container at the level of the command line. *)
Theorem pack_writes_the_archive_only (args : list jsstring) (now : jsstring)
  (gzipSync : list byte -> number -> option (list byte))
  (maxByteLength : Z) (fs fs' : FS)
  (directoryPath : jsstring) (outputFile : option jsstring)
  (result : failure + CompressStats) :
  compressDirectory cwd args now gzipSync maxByteLength fs directoryPath outputFile
  = (result, fs') ->
  (forall k, k <> resolve cwd (outputFileOrDefault directoryPath outputFile) ->
             fs' !! k = fs !! k)
  /\ (forall stats, result = inr stats ->
        exists compressed,
          gzipSync (finalBuffer now (readFilesRecursively cwd (S (size fs)) fs
                                       directoryPath directoryPath))
                   (level args) = Some compressed
          /\ fs' !! resolve cwd (outputFileOrDefault directoryPath outputFile)
             = Some (File compressed)
          /\ compressedSize stats = len compressed)
  /\ (forall e, result = inl e -> fs' = fs).
Proof.
  unfold compressDirectory. fold (outputFileOrDefault directoryPath outputFile).
  destruct (lookupPath cwd fs directoryPath) as [[c|]|];
    try (intros [= <- <-]; split; [done|split; [discriminate|done]]).
  destruct (_ =? 0);
    try (intros [= <- <-]; split; [done|split; [discriminate|done]]).
  destruct (_ <? _);
    try (intros [= <- <-]; split; [done|split; [discriminate|done]]).
  destruct (gzipSync _ _) as [compressed|] eqn:Eg;
    try (intros [= <- <-]; split; [done|split; [discriminate|done]]).
  destruct (writeFileSync _ _ _ _) as [fs1|] eqn:Ew;
    try (intros [= <- <-]; split; [done|split; [discriminate|done]]).
  intros [= <- <-]. apply writeFileSync_inv in Ew. subst fs1. split; [|split].
  - intros k Hk. by rewrite lookup_insert_ne.
  - intros stats [= <-]. exists compressed. split; [reflexivity|].
    split; [apply lookup_insert_eq|reflexivity].
  - discriminate.
Qed.

Lemma extractLoop_keeps_directories (outputDir : jsstring) (d : Buffer) (o total : Z)
  (ex : list (jsstring * list byte)) (fs : FS) :
  forall k, fs !! k = Some Directory ->
            (extractLoop cwd outputDir d o total ex fs).2 !! k = Some Directory.
Proof.
  pattern o, total, ex, fs, (extractLoop cwd outputDir d o total ex fs).
  apply extractLoop_ind; clear o total ex fs; cbn [snd]; try done.
  - intros o total ex fs p c o' fs1 _ _ He _ k Hk.
    by apply (ensureDirectoryExists_preserves cwd _ _ _ He).
  - intros o total ex fs p c o' fs1 fs2 r _ _ He Hw IH k Hk. apply IH.
    apply (ensureDirectoryExists_preserves cwd _ _ _ He) in Hk.
    pose proof (writeFileSync_inv cwd _ _ _ _ Hw) as ->.
    rewrite lookup_insert_ne; [exact Hk|]. intros <-.
    unfold writeFileSync in Hw. destruct (resolve cwd (join outputDir p)); [done|].
    destruct (_ || _); [done|]. by rewrite Hk in Hw.
Qed.

Lemma extractLoop_keeps_nodes (outputDir : jsstring) (d : Buffer) (o total : Z)
  (ex : list (jsstring * list byte)) (fs : FS) :
  forall k, is_Some (fs !! k) ->
            is_Some ((extractLoop cwd outputDir d o total ex fs).2 !! k).
Proof.
  pattern o, total, ex, fs, (extractLoop cwd outputDir d o total ex fs).
  apply extractLoop_ind; clear o total ex fs; cbn [snd]; try done.
  - intros o total ex fs p c o' fs1 _ _ He _ k [n Hk]. exists n.
    by apply (ensureDirectoryExists_preserves cwd _ _ _ He).
  - intros o total ex fs p c o' fs1 fs2 r _ _ He Hw IH k [n Hk]. apply IH.
    apply (ensureDirectoryExists_preserves cwd _ _ _ He) in Hk.
    pose proof (writeFileSync_inv cwd _ _ _ _ Hw) as ->.
    destruct (decide (resolve cwd (join outputDir p) = k)) as [<-|Hne].
    + rewrite lookup_insert_eq. by eexists.
    + rewrite lookup_insert_ne by exact Hne. by exists n.
Qed.

(** Unpacking removes nothing and turns no directory into a file:
    whatever the archive holds and however unpacking ends, every node
    that existed still exists, and every directory is still a directory. *)
Theorem unpack_removes_nothing (gunzipSync : list byte -> option Buffer) (fs : FS)
  (archivePath : jsstring) (outputDir : option jsstring) r log fs' :
  uncompressArchive cwd gunzipSync fs archivePath outputDir = (r, log, fs') ->
  forall k, (is_Some (fs !! k) -> is_Some (fs' !! k))
            /\ (fs !! k = Some Directory -> fs' !! k = Some Directory).
Proof.
  intros Hu k.
  apply uncompressArchive_inv in Hu
    as [(fs1 & data & d & He & _ & _ & Hx)|(_ & [->|He] & _)]; [|done|].
  - pose proof (ensureDirectoryExists_preserves cwd _ _ _ He) as Hkeep.
    apply extractContainer_inv in Hx
      as [(e & _ & _ & _ & ->)|(n & files & rl & _ & Hloop & _)].
    + split; [intros [x Hx]; exists x|]; by apply Hkeep.
    + pose proof (extractLoop_keeps_nodes (outputDirOrDefault archivePath outputDir)
                    d (4 + n) 0 [] fs1 k) as H1.
      pose proof (extractLoop_keeps_directories (outputDirOrDefault archivePath outputDir)
                    d (4 + n) 0 [] fs1 k) as H2.
      rewrite Hloop in H1, H2. cbn [snd] in H1, H2. split.
      * intros [x Hx]. apply H1. exists x. by apply Hkeep.
      * intros Hd. apply H2. by apply Hkeep.
  - pose proof (ensureDirectoryExists_preserves cwd _ _ _ He) as Hkeep.
    split; [intros [x Hx]; exists x|]; by apply Hkeep.
Qed.

Lemma extractLoop_errors (outputDir : jsstring) (d : Buffer) (o total : Z)
  (ex : list (jsstring * list byte)) (fs : FS) (e : failure) :
  (extractLoop cwd outputDir d o total ex fs).1.1 = inl e ->
  e = Caught RangeError \/ e = Caught MkdirError \/ e = Caught WriteError.
Proof.
  revert e. pattern o, total, ex, fs, (extractLoop cwd outputDir d o total ex fs).
  apply extractLoop_ind; clear o total ex fs; cbn [fst].
  - discriminate.
  - intros o total ex fs _ _ e [= <-]. by left.
  - intros o total ex fs p c o' _ _ _ e [= <-]. right. by left.
  - intros o total ex fs p c o' fs1 _ _ _ _ e [= <-]. right. by right.
  - intros o total ex fs p c o' fs1 fs2 r _ _ _ _ IH e. apply IH.
Qed.

(** Reading the metadata ends with "Invalid archive format" exactly when
    the metadata is valid JSON, is not [null], and its [files] is missing,
    falsy or not an array; for the JSON text [null], reading [files]
    throws a [TypeError] instead. *)
Theorem invalid_format_iff (fs : FS) (outputDir : jsstring) (d : Buffer)
  (headerView : list byte) (metadata : json) :
  newDataView (buffer d) (byteOffset d) 4 = Some headerView ->
  JSON_parse (uint8ArrayToText (subarray d 4 (4 + getUint32 headerView 0)))
  = Some metadata ->
  ((extractContainer cwd fs outputDir d).1.1 = inl InvalidArchiveFormat
   <-> exists files, getProperty metadata (js "files") = Some files
                     /\ isArray files = false)
  /\ ((extractContainer cwd fs outputDir d).1.1 = inl (Caught TypeError)
      <-> metadata = JNull).
Proof.
  intros Hv Hp.
  assert (Hr : forall e, e <> Caught RangeError -> e <> Caught MkdirError ->
            e <> Caught WriteError ->
            ((extractContainer cwd fs outputDir d).1.1 = inl e
             <-> readMetadata d = inl e)).
  { intros e H1 H2 H3.
    destruct (extractContainer cwd fs outputDir d) as [[r log] fs'] eqn:E.
    apply extractContainer_inv in E
      as [(e' & Hr & -> & _)|(n & files & rl & Hr & Hl & ->)]; rewrite Hr; cbn [fst].
    - split; intros [= ->]; reflexivity.
    - split; [|discriminate]. destruct rl as [e'|t]; [|discriminate]. intros [= ->].
      exfalso.
      destruct (extractLoop_errors outputDir d (4 + n) 0 [] fs e) as [ -> | [ -> | -> ] ];
        [by rewrite Hl|done..]. }
  rewrite !Hr by discriminate.
  rewrite readMetadata_eq, Hv. unfold checkMetadata. rewrite Hp.
  assert (Hnull : getProperty metadata (js "files") = None <-> metadata = JNull).
  { destruct metadata; cbn [getProperty]; split; done. }
  destruct (getProperty metadata (js "files")) as [files|].
  2:{ split; [|split; [intros _; by apply Hnull|reflexivity]].
      split; [discriminate|]. intros (files & H & _). discriminate H. }
  assert (Hcheck : forall e, e <> InvalidArchiveFormat -> e <> NoFilesInArchive ->
            (if negb (toBoolean files) || negb (isArray files)
             then inl InvalidArchiveFormat
             else match files with
                  | Some (JArray elements) =>
                      if len elements =? 0 then inl NoFilesInArchive
                      else inr (getUint32 headerView 0, elements)
                  | _ => inl InvalidArchiveFormat
                  end) <> (inl e : failure + (Z * list json))).
  { intros e H1 H2. destruct (negb _ || negb _); [congruence|].
    destruct files as [[| | | |elements|]|]; try congruence.
    destruct (len elements =? 0); [congruence|discriminate]. }
  split.
  - destruct (isArray files) eqn:Ea.
    + split; [|intros (files' & [= <-] & H); congruence].
      destruct files as [[| | | |elements|]|]; try discriminate Ea.
      cbn [toBoolean negb orb]. by destruct (len elements =? 0).
    + cbn [negb]. rewrite orb_true_r. split; [|reflexivity].
      intros _. by exists files.
  - split; [|intros H; apply Hnull in H; discriminate H].
    intros H. exfalso. by apply (Hcheck (Caught TypeError)) in H.
Qed.

End Untouched.

(** * Examples of what is left alone *)

Lemma pack_writes_the_archive_only_witness :
  let run := compressDirectory [js "w"] [] exampleCreated storeGzip exampleLimit exampleTree
               (js "d") None in
  (forall k, k <> resolve [js "w"] (outputFileOrDefault (js "d") None) ->
             run.2 !! k = exampleTree !! k)
  /\ (forall stats, run.1 = inr stats ->
        exists compressed,
          storeGzip (finalBuffer exampleCreated
                       (readFilesRecursively [js "w"] (S (size exampleTree)) exampleTree
                          (js "d") (js "d")))
                    (level []) = Some compressed
          /\ run.2 !! resolve [js "w"] (outputFileOrDefault (js "d") None)
             = Some (File compressed)
          /\ compressedSize stats = len compressed)
  /\ (forall e, run.1 = inl e -> run.2 = exampleTree).
Proof.
  intros run.
  apply (pack_writes_the_archive_only [js "w"] [] exampleCreated storeGzip exampleLimit exampleTree
           run.2 (js "d") None run.1).
  apply surjective_pairing.
Defined.

Lemma unpack_removes_nothing_witness :
  let archive := exampleContainer (jsq "{'files':[1]}") [(js "../a.bunz/x", [Byte.x01])] in
  let run := unpackExample archive (Some (js "out")) in
  let k := [js "w"; js "a.bunz"] in
  (is_Some (exampleFS archive !! k) -> is_Some (run.2 !! k))
  /\ (exampleFS archive !! k = Some Directory -> run.2 !! k = Some Directory).
Proof.
  intros archive run k.
  apply (unpack_removes_nothing [js "w"] storeGunzip (exampleFS archive) (js "a.bunz")
           (Some (js "out")) run.1.1 run.1.2 run.2).
  by apply result_components.
Defined.

Lemma invalid_format_iff_witness :
  let d := ofBytes (exampleContainer (jsq "{'version':'1.0'}") []) in
  ((extractContainer [js "w"] ∅ (js "out") d).1.1 = inl InvalidArchiveFormat
   <-> exists files,
         getProperty (JObject [(js "version", JString (js "1.0"))]) (js "files") = Some files
         /\ isArray files = false)
  /\ ((extractContainer [js "w"] ∅ (js "out") d).1.1 = inl (Caught TypeError)
      <-> JObject [(js "version", JString (js "1.0"))] = JNull).
Proof.
  intros d.
  apply (invalid_format_iff [js "w"] ∅ (js "out") d
           (viewBytes (ofBytes (take 4 (exampleContainer (jsq "{'version':'1.0'}") []))))
           (JObject [(js "version", JString (js "1.0"))]));
    vm_compute; reflexivity.
Defined.

(** * Sizes for the reader *)

Lemma digitsAux_acc (fuel : nat) : forall (n : Z) (acc : jsstring),
  0 <= n < 2 ^ Z.of_nat (S fuel) ->
  digitsAux (S fuel) n acc = digitsAux (S fuel) n [] ++ acc.
Proof.
  induction fuel as [|fuel IH]; intros n acc Hn.
  - change (2 ^ Z.of_nat 1) with 2 in Hn. rewrite !digitsAux_S.
    destruct (Z.ltb_spec n 10); [reflexivity|lia].
  - rewrite !(digitsAux_S (S fuel)). destruct (Z.ltb_spec n 10) as [|Hge]; [reflexivity|].
    assert (Hq : 0 <= n / 10 < 2 ^ Z.of_nat (S fuel)).
    { split; [apply Z.div_pos; lia|]. apply Z.div_lt_upper_bound; [lia|].
      rewrite (Nat2Z.inj_succ (S fuel)), Z.pow_succ_r in Hn by lia. lia. }
    rewrite (IH (n / 10) ((48 + n mod 10) :: acc) Hq), (IH (n / 10) [48 + n mod 10] Hq).
    by rewrite <- app_assoc.
Qed.

Lemma digitsAux_fuel (f1 : nat) : forall (f2 : nat) (n : Z),
  0 <= n < 2 ^ Z.of_nat (S f1) -> 0 <= n < 2 ^ Z.of_nat (S f2) ->
  digitsAux (S f1) n [] = digitsAux (S f2) n [].
Proof.
  induction f1 as [|f1 IH]; intros f2 n H1 H2.
  - change (2 ^ Z.of_nat 1) with 2 in H1. rewrite !digitsAux_S.
    destruct (Z.ltb_spec n 10); [reflexivity|lia].
  - rewrite (digitsAux_S (S f1)), (digitsAux_S f2).
    destruct (Z.ltb_spec n 10) as [|Hge]; [reflexivity|].
    assert (Hq : forall f, 0 <= n < 2 ^ Z.of_nat (S (S f)) ->
              0 <= n / 10 < 2 ^ Z.of_nat (S f)).
    { intros f Hn. split; [apply Z.div_pos; lia|]. apply Z.div_lt_upper_bound; [lia|].
      rewrite (Nat2Z.inj_succ (S f)), Z.pow_succ_r in Hn by lia. lia. }
    destruct f2 as [|f2]; [change (2 ^ Z.of_nat 1) with 2 in H2; lia|].
    rewrite (digitsAux_acc f1), (digitsAux_acc f2) by (by apply Hq).
    f_equal. apply IH; by apply Hq.
Qed.

Lemma numberToString_fuel (n : Z) :
  0 <= n -> 0 <= n < 2 ^ Z.of_nat (S (Z.to_nat (Z.log2 n))).
Proof.
  intros Hn. split; [exact Hn|].
  rewrite Nat2Z.inj_succ, Z2Nat.id by apply Z.log2_nonneg.
  destruct (Z.eq_dec n 0) as [->|]; [reflexivity|]. apply Z.log2_spec. lia.
Qed.

(** The decimal digits of a number: those of its tenth, then its last. *)
Lemma numberToString_step (n : Z) :
  10 <= n -> numberToString n = numberToString (n / 10) ++ [48 + n mod 10].
Proof.
  intros Hn. unfold numberToString at 1. rewrite digitsAux_S.
  destruct (Z.ltb_spec n 10); [lia|].
  pose proof (numberToString_fuel n ltac:(lia)) as Hf.
  assert (Hq : 0 <= n / 10) by (apply Z.div_pos; lia).
  pose proof (numberToString_fuel (n / 10) Hq) as Hf'.
  destruct (Z.to_nat (Z.log2 n)) as [|f] eqn:E.
  { change (2 ^ Z.of_nat 1) with 2 in Hf. lia. }
  assert (Hq' : 0 <= n / 10 < 2 ^ Z.of_nat (S f)).
  { split; [exact Hq|]. apply Z.div_lt_upper_bound; [lia|].
    rewrite (Nat2Z.inj_succ (S f)), Z.pow_succ_r in Hf by lia. lia. }
  rewrite (digitsAux_acc f) by exact Hq'. f_equal.
  unfold numberToString. by apply digitsAux_fuel.
Qed.

Lemma numberToString_hundred (n : Z) :
  100 <= n ->
  numberToString n = numberToString (n / 100) ++ [48 + (n / 10) mod 10; 48 + n mod 10].
Proof.
  intros Hn. rewrite (numberToString_step n) by lia.
  assert (10 <= n / 10) by (apply Z.div_le_lower_bound; lia).
  rewrite (numberToString_step (n / 10)) by assumption.
  rewrite Z.div_div by lia. by rewrite <- app_assoc.
Qed.

Lemma toFixed2_hundred (num den : Z) :
  0 < den -> den <= num ->
  let n := (200 * num + den) / (2 * den) in
  toFixed2 num den
  = numberToString (n / 100) ++ [46; 48 + (n / 10) mod 10; 48 + n mod 10].
Proof.
  intros Hden Hnum n. unfold toFixed2. fold n.
  assert (Hn : 100 <= n).
  { unfold n. apply Z.div_le_lower_bound; nia. }
  rewrite (numberToString_hundred n Hn).
  set (whole := numberToString (n / 100)).
  assert (Hlen : length (whole ++ [48 + (n / 10) mod 10; 48 + n mod 10])
                 = (length whole + 2)%nat) by (rewrite length_app; reflexivity).
  rewrite Hlen.
  assert (Hw : (0 < length whole)%nat).
  { destruct (numberToString_value (n / 100)) as (d & ds & E & _);
      [apply Z.div_pos; lia|]. unfold whole. rewrite E. cbn. lia. }
  destruct (Nat.leb_spec (length whole + 2) 2); [lia|].
  rewrite Hlen. replace (length whole + 2 - 2)%nat with (length whole) by lia.
  by rewrite take_app_length, drop_app_length.
Qed.

(** [formatSize] from one kibibyte on: the unit is KB below 2^20 bytes, MB
    below 2^30 and GB from there; the number printed has two decimals and
    is the size in that unit rounded to the nearest hundredth, a half
    upwards. So 1048575 bytes are printed as [1024.00 KB]. *)
Theorem formatSize_rounds_to_hundredths (bytes : Z) :
  1024 <= bytes ->
  let unit := if bytes <? 2 ^ 20 then 2 ^ 10 else if bytes <? 2 ^ 30 then 2 ^ 20 else 2 ^ 30 in
  let suffix := if bytes <? 2 ^ 20 then js " KB"
                else if bytes <? 2 ^ 30 then js " MB" else js " GB" in
  exists n,
    formatSize bytes
    = numberToString (n / 100) ++ [46; 48 + (n / 10) mod 10; 48 + n mod 10] ++ suffix
    /\ 2 * unit * n - unit <= 200 * bytes < 2 * unit * n + unit.
Proof.
  intros Hb unit suffix.
  exists ((200 * bytes + unit) / (2 * unit)).
  assert (Hu : 0 < unit /\ unit <= bytes).
  { unfold unit. destruct (Z.ltb_spec bytes (2 ^ 20)); [lia|].
    destruct (Z.ltb_spec bytes (2 ^ 30)); lia. }
  split.
  - unfold formatSize. destruct (Z.ltb_spec bytes 1024); [lia|].
    change (1024 * 1024 * 1024) with (2 ^ 30). change (1024 * 1024) with (2 ^ 20).
    change 1024 with (2 ^ 10) at 1.
    unfold unit, suffix.
    destruct (Z.ltb_spec bytes (2 ^ 20)); [|destruct (Z.ltb_spec bytes (2 ^ 30))];
      rewrite toFixed2_hundred by lia; cbv zeta; by rewrite <- app_assoc.
  - pose proof (Z.div_mod (200 * bytes + unit) (2 * unit) ltac:(lia)) as Hd.
    pose proof (Z.mod_pos_bound (200 * bytes + unit) (2 * unit) ltac:(lia)) as Hm.
    nia.
Qed.

Lemma formatSize_rounds_to_hundredths_witness :
  exists n,
    formatSize 1048575
    = numberToString (n / 100) ++ [46; 48 + (n / 10) mod 10; 48 + n mod 10] ++ js " KB"
    /\ 2 * 2 ^ 10 * n - 2 ^ 10 <= 200 * 1048575 < 2 * 2 ^ 10 * n + 2 ^ 10.
Proof. apply (formatSize_rounds_to_hundredths 1048575). lia. Defined.

(** * Default names *)

Lemma indexed_snoc (s : jsstring) (c : Z) :
  indexed (s ++ [c]) = indexed s ++ [(len s, c)].
Proof.
  unfold indexed. rewrite length_app. cbn [length].
  rewrite Nat.add_1_r, seq_S, map_app. cbn [map Nat.add].
  rewrite zip_with_app by (by rewrite length_map, length_seq). reflexivity.
Qed.

Lemma scan_snoc (suffix s : jsstring) (c : Z) (st : basenameState) :
  scan suffix (s ++ [c]) st = scan suffix s (basenameStep suffix st (len s, c)).
Proof. unfold scan. rewrite indexed_snoc, rev_app_distr. reflexivity. Qed.

Lemma scan_nil (suffix : jsstring) (st : basenameState) : scan suffix [] st = st.
Proof. reflexivity. Qed.

Lemma scan_stopped (suffix s : jsstring) (st : basenameState) :
  stopped st = true -> scan suffix s st = st.
Proof.
  revert st. induction s as [|c s IH] using rev_ind; intros st H; [reflexivity|].
  rewrite scan_snoc. unfold basenameStep. rewrite H. by apply IH.
Qed.

(** Once the end of the name is known and no suffix is looked for, the
    scan of characters that are not slashes changes nothing. *)
Lemma scan_name (suffix name : jsstring) (st : basenameState) (pre : jsstring) :
  noSlash name -> stopped st = false -> extIdx st < 0 -> firstNonSlashEnd st <> -1 ->
  scan suffix (pre ++ name) st = scan suffix pre st.
Proof.
  intros Hs Hst Hext Hf. induction name as [|c name IH] using rev_ind.
  - by rewrite app_nil_r.
  - unfold noSlash in *. rewrite app_assoc, scan_snoc.
    assert (Hc : c <> 47) by (intros ->; apply Hs; apply elem_of_app; right; by left).
    assert (Hstep : basenameStep suffix st (len (pre ++ name), c) = st).
    { unfold basenameStep. rewrite Hst.
      destruct (Z.eqb_spec c 47); [done|].
      destruct (Z.eqb_spec (firstNonSlashEnd st) (-1)); [done|].
      destruct (Z.leb_spec 0 (extIdx st)); [lia|reflexivity]. }
    rewrite Hstep. apply IH. intros H. apply Hs. apply elem_of_app. by left.
Qed.

(** The slash before the name stops the scan. *)
Lemma scan_slash (suffix pre : jsstring) (st : basenameState) :
  stopped st = false -> matchedSlash st = false ->
  scan suffix (pre ++ [47]) st
  = mkBasenameState (len pre + 1) (bEnd st) false (extIdx st) (firstNonSlashEnd st) true.
Proof.
  intros Hst Hm. rewrite scan_snoc.
  assert (E : basenameStep suffix st (len pre, 47)
              = mkBasenameState (len pre + 1) (bEnd st) false (extIdx st)
                  (firstNonSlashEnd st) true).
  { unfold basenameStep. by rewrite Hst, Hm. }
  rewrite E. by apply scan_stopped.
Qed.

Lemma slice_middle (a b c : jsstring) :
  slice (a ++ b ++ c) (len a) (len a + len b) = b.
Proof.
  unfold slice, len. rewrite Nat2Z.id.
  replace (Z.to_nat (Z.of_nat (length a) + Z.of_nat (length b) - Z.of_nat (length a)))
    with (length b) by lia.
  by rewrite drop_app_length, take_app_length.
Qed.

(** The scan of a last component: its end is noted, the rest is scanned
    in search of the slash before it. *)
Lemma scan_last (suffix whole name : jsstring) (st : basenameState) :
  name <> [] -> noSlash name ->
  stopped st = false -> extIdx st < 0 -> firstNonSlashEnd st = -1 ->
  scan suffix (whole ++ name) st
  = scan suffix whole
      (mkBasenameState (bStart st) (bEnd st) false (extIdx st) (len (whole ++ name)) false).
Proof.
  intros Hne Hs Hst Hext Hf.
  destruct name as [|c0 name0] using rev_ind; [done|]. clear IHname0.
  assert (Hc : c0 <> 47).
  { intros ->. apply Hs. apply elem_of_app. right. by left. }
  assert (Hs0 : noSlash name0).
  { intros H. apply Hs. apply elem_of_app. by left. }
  rewrite app_assoc, scan_snoc.
  assert (E : basenameStep suffix st (len (whole ++ name0), c0)
              = mkBasenameState (bStart st) (bEnd st) false (extIdx st)
                  (len (whole ++ name0) + 1) false).
  { unfold basenameStep. rewrite Hst, Hf, Z.eqb_refl.
    destruct (Z.eqb_spec c0 47); [done|]. cbn [extIdx].
    destruct (Z.leb_spec 0 (extIdx st)); [lia|reflexivity]. }
  rewrite E. rewrite scan_name; cbn; try done.
  - do 2 f_equal. rewrite (len_app (whole ++ name0)). unfold len. cbn [length]. lia.
  - pose proof (len_nonneg (whole ++ name0)). lia.
Qed.

Lemma slice_last (a b : jsstring) : slice (a ++ b) (len a) (len (a ++ b)) = b.
Proof.
  rewrite len_app. rewrite <- (app_nil_r b) at 1. apply slice_middle.
Qed.

(** [path.basename]: the last component of a path. *)
Lemma basename_last (pre name : jsstring) :
  name <> [] -> noSlash name -> basename (pre ++ 47 :: name) = name.
Proof.
  intros Hne Hs. unfold basename.
  change (fold_left (basenameStep []) (rev (indexed (pre ++ 47 :: name))))
    with (scan [] (pre ++ 47 :: name)).
  change (pre ++ 47 :: name) with (pre ++ [47] ++ name).
  rewrite (app_assoc pre [47]), scan_last, scan_slash by (cbn; done || lia).
  cbn [firstNonSlashEnd bStart].
  pose proof (len_nonneg ((pre ++ [47]) ++ name)).
  destruct (Z.eqb_spec (len ((pre ++ [47]) ++ name)) (-1)); [lia|].
  replace (len pre + 1) with (len (pre ++ [47])) by (rewrite len_app; reflexivity).
  apply slice_last.
Qed.

Lemma basename_plain (name : jsstring) :
  name <> [] -> noSlash name -> basename name = name.
Proof.
  intros Hne Hs. unfold basename.
  change (fold_left (basenameStep []) (rev (indexed name))) with (scan [] ([] ++ name)).
  rewrite scan_last, scan_nil by (cbn; done || lia).
  cbn [firstNonSlashEnd bStart app].
  pose proof (len_nonneg name).
  destruct (Z.eqb_spec (len name) (-1)); [lia|].
  apply (slice_last [] name).
Qed.

(** A character of the suffix, found where it is looked for. *)
Lemma basenameStep_match (suffix : jsstring) (st : basenameState) (i code : Z) :
  stopped st = false -> code <> 47 -> firstNonSlashEnd st <> -1 -> 0 <= extIdx st ->
  nth (Z.to_nat (extIdx st)) suffix 0 = code ->
  basenameStep suffix st (i, code)
  = mkBasenameState (bStart st) (if extIdx st - 1 =? -1 then i else bEnd st)
      (matchedSlash st) (extIdx st - 1) (firstNonSlashEnd st) false.
Proof.
  intros Hst Hc Hf Hext Hnth. unfold basenameStep. rewrite Hst.
  destruct (Z.eqb_spec code 47); [done|].
  destruct (Z.eqb_spec (firstNonSlashEnd st) (-1)); [done|].
  destruct (Z.leb_spec 0 (extIdx st)); [|lia].
  rewrite Hnth, Z.eqb_refl. reflexivity.
Qed.

(** The scan of [.bunz] at the end of a path, in search of that suffix. *)
Lemma scan_extension (whole : jsstring) :
  scan DEFAULT_EXTENSION (whole ++ DEFAULT_EXTENSION)
    (mkBasenameState 0 (-1) true (len DEFAULT_EXTENSION - 1) (-1) false)
  = scan DEFAULT_EXTENSION whole
      (mkBasenameState 0 (len whole) false (-1) (len whole + 5) false).
Proof.
  change DEFAULT_EXTENSION with [46; 98; 117; 110; 122].
  change (len [46; 98; 117; 110; 122] - 1) with 4.
  change (whole ++ [46; 98; 117; 110; 122])
    with (whole ++ [46] ++ [98] ++ [117] ++ [110] ++ [122]).
  pose proof (len_nonneg whole) as Hw.
  rewrite !app_assoc, scan_snoc.
  assert (E1 : basenameStep [46; 98; 117; 110; 122]
                 (mkBasenameState 0 (-1) true 4 (-1) false)
                 (len ((((whole ++ [46]) ++ [98]) ++ [117]) ++ [110]), 122)
               = mkBasenameState 0 (-1) false 3 (len whole + 5) false).
  { unfold basenameStep. cbn. f_equal. rewrite !len_app.
    change (len [46]) with 1. change (len [98]) with 1.
    change (len [117]) with 1. change (len [110]) with 1. lia. }
  rewrite E1, scan_snoc.
  rewrite basenameStep_match by (cbn; done || lia). cbn [bStart bEnd matchedSlash extIdx
    firstNonSlashEnd Z.sub Z.eqb Z.add Z.opp Z.pos_sub Pos.pred_double Z.succ_double
    Z.pred_double Z.double Pos.eqb].
  rewrite scan_snoc.
  rewrite basenameStep_match by (cbn; done || lia). cbn [bStart bEnd matchedSlash extIdx
    firstNonSlashEnd Z.sub Z.eqb Z.add Z.opp Z.pos_sub Pos.pred_double Z.succ_double
    Z.pred_double Z.double Pos.eqb].
  rewrite scan_snoc.
  rewrite basenameStep_match by (cbn; done || lia). cbn [bStart bEnd matchedSlash extIdx
    firstNonSlashEnd Z.sub Z.eqb Z.add Z.opp Z.pos_sub Pos.pred_double Z.succ_double
    Z.pred_double Z.double Pos.eqb].
  rewrite scan_snoc.
  rewrite basenameStep_match by (cbn; done || lia). cbn [bStart bEnd matchedSlash extIdx
    firstNonSlashEnd Z.sub Z.eqb Z.add Z.opp Z.pos_sub Pos.pred_double Z.succ_double
    Z.pred_double Z.double Pos.eqb].
  reflexivity.
Qed.

Lemma basenameExt_scan (a name : jsstring) :
  name <> [] ->
  basenameExt ((a ++ name) ++ DEFAULT_EXTENSION) DEFAULT_EXTENSION
  = let st := scan DEFAULT_EXTENSION (a ++ name)
                (mkBasenameState 0 (len (a ++ name)) false (-1) (len (a ++ name) + 5) false) in
    let e := if bStart st =? bEnd st then firstNonSlashEnd st
             else if bEnd st =? -1 then len ((a ++ name) ++ DEFAULT_EXTENSION) else bEnd st in
    slice ((a ++ name) ++ DEFAULT_EXTENSION) (bStart st) e.
Proof.
  intros Hne. unfold basenameExt.
  assert (Hlen : 0 < len (a ++ name)).
  { rewrite len_app. pose proof (len_nonneg a). destruct name; [done|].
    unfold len. cbn [length]. lia. }
  destruct (Z.leb_spec (len DEFAULT_EXTENSION) (len ((a ++ name) ++ DEFAULT_EXTENSION))) as [_|H].
  2: { rewrite len_app in H. lia. }
  rewrite bool_decide_eq_false_2.
  2: { intros E. apply (f_equal len) in E. rewrite len_app in E. lia. }
  change (fold_left (basenameStep DEFAULT_EXTENSION)
            (rev (indexed ((a ++ name) ++ DEFAULT_EXTENSION))))
    with (scan DEFAULT_EXTENSION ((a ++ name) ++ DEFAULT_EXTENSION)).
  rewrite scan_extension. reflexivity.
Qed.

(** [path.basename(path, '.bunz')]: the last component without [.bunz]. *)
Lemma basenameExt_last (pre name : jsstring) :
  name <> [] -> noSlash name ->
  basenameExt (pre ++ 47 :: name ++ DEFAULT_EXTENSION) DEFAULT_EXTENSION = name.
Proof.
  intros Hne Hs.
  change (pre ++ 47 :: name ++ DEFAULT_EXTENSION)
    with (pre ++ [47] ++ name ++ DEFAULT_EXTENSION).
  replace (pre ++ [47] ++ name ++ DEFAULT_EXTENSION)
    with (((pre ++ [47]) ++ name) ++ DEFAULT_EXTENSION) by (by rewrite <- !app_assoc).
  assert (Hn : 0 < len name) by (destruct name; [done|unfold len; cbn [length]; lia]).
  rewrite (basenameExt_scan (pre ++ [47]) name Hne).
  rewrite scan_name by (cbn; done || (pose proof (len_nonneg ((pre ++ [47]) ++ name)); lia)).
  rewrite scan_slash by done.
  cbn [bStart bEnd firstNonSlashEnd]. cbv zeta.
  rewrite !len_app. change (len [47]) with 1.
  pose proof (len_nonneg pre).
  destruct (Z.eqb_spec (len pre + 1) (len pre + 1 + len name)); [lia|].
  destruct (Z.eqb_spec (len pre + 1 + len name) (-1)); [lia|].
  rewrite <- (app_assoc (pre ++ [47])).
  replace (len pre + 1) with (len (pre ++ [47])) by (rewrite len_app; reflexivity).
  apply slice_middle.
Qed.

Lemma basenameExt_plain (name : jsstring) :
  name <> [] -> noSlash name ->
  basenameExt (name ++ DEFAULT_EXTENSION) DEFAULT_EXTENSION = name.
Proof.
  intros Hne Hs.
  assert (Hn : 0 < len name) by (destruct name; [done|unfold len; cbn [length]; lia]).
  change (name ++ DEFAULT_EXTENSION) with (([] ++ name) ++ DEFAULT_EXTENSION).
  rewrite (basenameExt_scan [] name Hne).
  rewrite scan_name by (cbn; done || lia).
  rewrite scan_nil. cbn [bStart bEnd firstNonSlashEnd app]. cbv zeta.
  destruct (Z.eqb_spec 0 (len name)); [lia|].
  destruct (Z.eqb_spec (len name) (-1)); [lia|].
  change (slice (name ++ DEFAULT_EXTENSION) 0 (len name))
    with (slice ([] ++ name ++ DEFAULT_EXTENSION) (len (@nil Z)) (len (@nil Z) + len name)).
  apply slice_middle.
Qed.

Lemma dropWhile_head {A} (p : A -> bool) (x : A) (l : list A) :
  p x = false -> dropWhile p (x :: l) = x :: l.
Proof. intros H. cbn. by rewrite H. Qed.

Lemma dropWhile_all {A} (p : A -> bool) (a b : list A) :
  Forall (fun x => p x = true) a -> dropWhile p (a ++ b) = dropWhile p b.
Proof. induction 1 as [|x a Hx _ IH]; [reflexivity|]. cbn. by rewrite Hx. Qed.

Lemma noSlash_rev_is_slash (s : jsstring) :
  noSlash s -> Forall (fun c => (c =? 47) = false) (rev s).
Proof.
  unfold noSlash. intros H. apply Forall_forall. intros c Hc.
  rewrite list_elem_of_In, <- in_rev, <- list_elem_of_In in Hc.
  apply Z.eqb_neq. by intros ->.
Qed.

Lemma noSlash_rev_not_slash (s : jsstring) :
  noSlash s -> Forall (fun c => negb (c =? 47) = true) (rev s).
Proof.
  intros H. eapply Forall_impl; [apply (noSlash_rev_is_slash s H)|].
  cbn. intros c ->. reflexivity.
Qed.

Lemma dropWhile_slashes_name (file rest : jsstring) :
  file <> [] -> noSlash file ->
  dropWhile (fun c => c =? 47) (rev file ++ rest) = rev file ++ rest.
Proof.
  intros Hf Hs. pose proof (noSlash_rev_is_slash file Hs) as H.
  destruct (rev file) as [|c r] eqn:E.
  - apply (f_equal (@rev Z)) in E. rewrite rev_involutive in E. done.
  - inversion H; subst. cbn [app]. by apply dropWhile_head.
Qed.

(** [path.dirname] of a file in a directory, and of a bare name. *)
Lemma dirname_child (pre file : jsstring) :
  pre <> [] -> pre <> [47] -> file <> [] -> noSlash file ->
  dirname (pre ++ 47 :: file) = pre.
Proof.
  intros Hne Hroot Hf Hs. destruct pre as [|p0 pre']; [done|].
  cbn [app dirname]. rewrite rev_app_distr. cbn [rev]. rewrite <- app_assoc. cbn [app].
  rewrite dropWhile_slashes_name by assumption.
  rewrite dropWhile_all by (by apply noSlash_rev_not_slash).
  cbn [dropWhile Z.eqb Pos.eqb negb]. rewrite rev_involutive.
  destruct (Z.eqb_spec p0 47) as [->|]; [|reflexivity].
  rewrite bool_decide_eq_false_2; [reflexivity|].
  intros E. apply (f_equal (@rev Z)) in E. rewrite rev_involutive in E. by subst.
Qed.

Lemma dirname_plain (name : jsstring) :
  name <> [] -> noSlash name -> dirname name = [46].
Proof.
  intros Hne Hs. destruct name as [|c0 tl]; [done|]. cbn [dirname].
  assert (Htl : noSlash tl).
  { unfold noSlash in *. intros H. apply Hs. by right. }
  assert (Hc : c0 <> 47).
  { intros ->. apply Hs. by left. }
  replace (dropWhile (fun c => negb (c =? 47)) (dropWhile (fun c => c =? 47) (rev tl)))
    with (@nil Z).
  - by destruct (Z.eqb_spec c0 47).
  - destruct (decide (tl = [])) as [->|Hn]; [reflexivity|].
    rewrite <- (app_nil_r (rev tl)), dropWhile_slashes_name by assumption.
    by rewrite dropWhile_all by (by apply noSlash_rev_not_slash).
Qed.

Lemma normalize_dot_slash (name : jsstring) :
  segmentName name -> normalize (46 :: 47 :: name) = name.
Proof.
  intros ([Hn0 Hn1] & Hs & Hdd).
  rewrite normalize_eq by done.
  change (isAbsolute (46 :: 47 :: name)) with false.
  change (46 :: 47 :: name) with ([46] ++ 47 :: name).
  rewrite hasTrailingSlash_child by assumption.
  change ([46] ++ 47 :: name) with (46 :: 47 :: name).
  rewrite 2!splitOn_cons. change (46 =? 47) with false. change (47 =? 47) with true.
  cbv iota. rewrite (splitOn_noSlash_seg name Hs).
  unfold normalizeSegments. cbn [fold_left negb].
  rewrite (normalizeStep_skip true [] [46]) by (unfold proper; tauto).
  rewrite normalizeStep_push by (done || by split).
  cbn [rev app joinWith]. by destruct name.
Qed.

Lemma join_dot (name : jsstring) : segmentName name -> join [46] name = name.
Proof.
  intros Hname. rewrite <- (normalize_dot_slash name Hname) at 2.
  destruct Hname as ([Hn0 _] & _). by destruct name.
Qed.

Lemma extension_noSlash (name : jsstring) :
  noSlash name -> noSlash (name ++ DEFAULT_EXTENSION).
Proof.
  unfold noSlash. intros H. rewrite elem_of_app. intros [H1|H1]; [done|].
  change DEFAULT_EXTENSION with [46; 98; 117; 110; 122] in H1.
  repeat (apply elem_of_cons in H1 as [H1|H1]; [discriminate H1|]).
  by apply elem_of_nil in H1.
Qed.

Lemma extension_segmentName (name : jsstring) :
  name <> [] -> noSlash name -> segmentName (name ++ DEFAULT_EXTENSION).
Proof.
  intros Hne Hs.
  assert (Hlen : 5 < len (name ++ DEFAULT_EXTENSION)).
  { rewrite len_app. change (len DEFAULT_EXTENSION) with 5.
    destruct name; [done|]. unfold len. cbn [length]. lia. }
  repeat split.
  - intros E. rewrite E in Hlen. vm_compute in Hlen. discriminate Hlen.
  - intros E. rewrite E in Hlen. vm_compute in Hlen. discriminate Hlen.
  - by apply extension_noSlash.
  - intros E. rewrite E in Hlen. vm_compute in Hlen. discriminate Hlen.
Qed.

(** Without an output directory (or with an empty one), an archive
    [name.bunz] is unpacked into [name] beside it: the default is the
    archive's path without the extension. *)
Theorem unpack_default_directory_is_the_stem (pre name : jsstring)
  (outputDir : option jsstring) :
  segmentName name -> normalPath pre -> outputDir = None \/ outputDir = Some [] ->
  outputDirOrDefault (pre ++ 47 :: name ++ DEFAULT_EXTENSION) outputDir = pre ++ 47 :: name
  /\ outputDirOrDefault (name ++ DEFAULT_EXTENSION) outputDir = name.
Proof.
  intros Hname Hpre Hout.
  pose proof Hname as ([Hn0 Hn1] & Hs & Hdd).
  pose proof (extension_segmentName name Hn0 Hs) as ([He0 _] & Hes & _).
  assert (E : forall p, outputDirOrDefault p outputDir = defaultOutputDir p).
  { intros p. by destruct Hout as [-> | ->]. }
  rewrite !E. unfold defaultOutputDir. split.
  - rewrite (dirname_child pre (name ++ DEFAULT_EXTENSION)); try assumption.
    + rewrite basenameExt_last by assumption. by apply join_child.
    + by apply normalPath_nonempty.
    + intros ->. by destruct Hpre as (_ & Ht & _).
  - rewrite dirname_plain, basenameExt_plain by assumption. by apply join_dot.
Qed.

Section DefaultArchive.
Variable cwd : list jsstring.

(** A bare name leads into the working directory. *)
Lemma resolve_name (seg : jsstring) :
  segmentName seg -> resolve cwd seg = resolve cwd [46] ++ [seg].
Proof.
  intros ([Hn0 Hn1] & Hs & Hdd). rewrite !resolve_eq.
  assert (Habs : isAbsolute seg = false).
  { destruct seg as [|c seg']; [done|]. cbn. apply Z.eqb_neq. intros ->.
    apply Hs. by left. }
  rewrite Habs, (splitOn_noSlash_seg seg Hs). change (isAbsolute [46]) with false.
  change (splitOn 47 [46]) with [[46]].
  rewrite (run_skip false [46]) by apply not_proper_dot.
  rewrite run_cons, normalizeStep_push by (done || by split). reflexivity.
Qed.

(** Without an output file (or with an empty one), the archive of a
    directory [.../name] is the file [name.bunz] of the working directory,
    wherever the directory lies. *)
Theorem pack_default_archive_in_working_directory (args : list jsstring) (now : jsstring)
  (gzipSync : list byte -> number -> option (list byte))
  (maxByteLength : Z) (fs fs' : FS)
  (pre name directoryPath : jsstring) (outputFile : option jsstring)
  (stats : CompressStats) :
  name <> [] -> noSlash name ->
  directoryPath = name \/ directoryPath = pre ++ 47 :: name ->
  outputFile = None \/ outputFile = Some [] ->
  compressDirectory cwd args now gzipSync maxByteLength fs directoryPath outputFile
  = (inr stats, fs') ->
  exists compressed,
    fs' !! (resolve cwd [46] ++ [name ++ DEFAULT_EXTENSION]) = Some (File compressed)
    /\ compressedSize stats = len compressed.
Proof.
  intros Hne Hs Hdir Hout.
  assert (Ebase : basename directoryPath = name).
  { destruct Hdir as [-> | ->]; [by apply basename_plain|by apply basename_last]. }
  unfold compressDirectory.
  replace (match outputFile with
           | Some (c :: f) => c :: f
           | _ => basename directoryPath ++ DEFAULT_EXTENSION
           end) with (name ++ DEFAULT_EXTENSION)
    by (rewrite Ebase; by destruct Hout as [-> | ->]).
  destruct (lookupPath cwd fs directoryPath) as [[c|]|]; try discriminate.
  destruct (_ =? 0); try discriminate.
  destruct (_ <? _); try discriminate.
  destruct (gzipSync _ _) as [compressed|]; try discriminate.
  destruct (writeFileSync _ _ _ _) as [fs1|] eqn:Ew; try discriminate.
  intros [= <- <-]. apply writeFileSync_inv in Ew. subst fs1.
  exists compressed. split; [|reflexivity].
  rewrite <- resolve_name by (by apply extension_segmentName).
  apply lookup_insert_eq.
Qed.

End DefaultArchive.

(** * Examples of the default names *)

Lemma normalPath_x_y : normalPath (js "x/y").
Proof.
  split; [vm_compute; reflexivity|]. split; [vm_compute; reflexivity|discriminate].
Qed.

Lemma unpack_default_directory_is_the_stem_witness :
  outputDirOrDefault (js "x/y/a.bunz") None = js "x/y/a"
  /\ outputDirOrDefault (js "a.bunz") None = js "a".
Proof.
  apply (unpack_default_directory_is_the_stem (js "x/y") (js "a") None).
  - apply segmentName_checked. vm_compute. reflexivity.
  - exact normalPath_x_y.
  - left. reflexivity.
Defined.

Lemma pack_default_archive_in_working_directory_witness :
  let run := compressDirectory [js "w"] [] exampleCreated storeGzip exampleLimit exampleTree
               (js "d/sub") None in
  exists compressed,
    run.2 !! [js "w"; js "sub.bunz"] = Some (File compressed)
    /\ 107 = len compressed.
Proof.
  intros run.
  apply (pack_default_archive_in_working_directory [js "w"] [] exampleCreated storeGzip
           exampleLimit exampleTree run.2 (js "d") (js "sub") (js "d/sub") None
           (mkCompressStats 1 90 107)).
  - discriminate.
  - apply (bool_decide_unpack _). vm_compute. reflexivity.
  - right. reflexivity.
  - left. reflexivity.
  - apply pair_components. vm_compute. reflexivity.
Defined.

(** * Archives that are not named [*.bunz] *)

(** Two lists from their heads on: one continues the other, or they part
    at some element. *)
Lemma compare_prefix (a : jsstring) : forall b : jsstring,
  (exists r, a = b ++ r)
  \/ (exists r, r <> [] /\ b = a ++ r)
  \/ (exists q c c' ra rb, a = q ++ c :: ra /\ b = q ++ c' :: rb /\ c <> c').
Proof.
  induction a as [|x a IH]; intros [|y b].
  - left. by exists [].
  - right. left. by exists (y :: b).
  - left. by exists (x :: a).
  - destruct (decide (x = y)) as [->|Hxy].
    + destruct (IH b) as [(r & ->)|[(r & Hr & ->)|(q & c & c' & ra & rb & -> & -> & Hc)]].
      * left. by exists r.
      * right. left. by exists r.
      * right. right. by exists (y :: q), c, c', ra, rb.
    + right. right. by exists [], x, y, a, b.
Qed.

(** The same from their ends on. *)
Lemma compare_suffix (name ext : jsstring) :
  (exists stem, name = stem ++ ext)
  \/ (exists s, s <> [] /\ ext = s ++ name)
  \/ (exists w c t s c', name = w ++ c :: t /\ ext = s ++ c' :: t /\ c <> c').
Proof.
  destruct (compare_prefix (rev name) (rev ext))
    as [(r & E)|[(r & Hr & E)|(q & c & c' & ra & rb & E1 & E2 & Hc)]].
  - left. exists (rev r). apply (f_equal (@rev Z)) in E.
    by rewrite rev_involutive, rev_app_distr, rev_involutive in E.
  - right. left. exists (rev r). split.
    + intros H. apply Hr. apply (f_equal (@rev Z)) in H. by rewrite rev_involutive in H.
    + apply (f_equal (@rev Z)) in E.
      by rewrite rev_involutive, rev_app_distr, rev_involutive in E.
  - right. right. exists (rev ra), c, (rev q), (rev rb), c'.
    apply (f_equal (@rev Z)) in E1, E2.
    rewrite rev_involutive, rev_app_distr in E1, E2. cbn [rev] in E1, E2.
    rewrite <- app_assoc in E1, E2. by repeat split.
Qed.

Lemma step_first_match (suffix : jsstring) (k i code : Z) :
  code <> 47 -> 0 < k -> nth (Z.to_nat k) suffix 0 = code ->
  basenameStep suffix (looking k) (i, code) = searching (k - 1) (i + 1).
Proof. intros Hc Hk Hn. step_cases. Qed.

Lemma step_first_mismatch (suffix : jsstring) (k i code : Z) :
  code <> 47 -> 0 <= k -> nth (Z.to_nat k) suffix 0 <> code ->
  basenameStep suffix (looking k) (i, code) = givenUp (i + 1).
Proof. intros Hc Hk Hn. step_cases. Qed.

Lemma step_match (suffix : jsstring) (k L i code : Z) :
  L <> -1 -> code <> 47 -> 0 < k -> nth (Z.to_nat k) suffix 0 = code ->
  basenameStep suffix (searching k L) (i, code) = searching (k - 1) L.
Proof. intros HL Hc Hk Hn. step_cases. Qed.

Lemma step_mismatch (suffix : jsstring) (k L i code : Z) :
  L <> -1 -> code <> 47 -> 0 <= k -> nth (Z.to_nat k) suffix 0 <> code ->
  basenameStep suffix (searching k L) (i, code) = givenUp L.
Proof. intros HL Hc Hk Hn. step_cases. Qed.

Lemma len_pos {A} (l : list A) : l <> [] -> 0 < len l.
Proof. destruct l; [done|]. unfold len. cbn [length]. lia. Qed.

Lemma nth_between (s t u : jsstring) (c : Z) :
  nth (Z.to_nat (len s + len t)) (s ++ (t ++ [c]) ++ u) 0 = c.
Proof.
  replace (s ++ (t ++ [c]) ++ u) with ((s ++ t) ++ c :: u)
    by (by rewrite <- !app_assoc).
  replace (Z.to_nat (len s + len t)) with (length (s ++ t))
    by (rewrite length_app; unfold len; lia).
  apply nth_middle.
Qed.

Lemma noSlash_app (a b : jsstring) : noSlash (a ++ b) <-> noSlash a /\ noSlash b.
Proof. unfold noSlash. rewrite elem_of_app. tauto. Qed.

Lemma noSlash_cons (c : Z) (a : jsstring) : noSlash (c :: a) <-> c <> 47 /\ noSlash a.
Proof. unfold noSlash. rewrite elem_of_cons. intuition congruence. Qed.

(** While the characters are those of the suffix and some of it is left,
    the search goes on. *)
Lemma scan_tail (suffix s : jsstring) (L : Z) (whole : jsstring) : forall t u,
  suffix = s ++ t ++ u -> s <> [] -> noSlash t -> L <> -1 ->
  scan suffix (whole ++ t) (searching (len s + len t - 1) L)
  = scan suffix whole (searching (len s - 1) L).
Proof.
  induction t as [|c t IH] using rev_ind; intros u Hsuf Hs Ht HL.
  - rewrite app_nil_r. change (len (@nil Z)) with 0. by rewrite Z.add_0_r.
  - apply noSlash_app in Ht as [Ht Hc]. apply noSlash_cons in Hc as [Hc _].
    pose proof (len_pos s Hs). pose proof (len_nonneg t).
    rewrite app_assoc, scan_snoc, len_app. change (len [c]) with 1.
    rewrite step_match; try assumption; try lia.
    + replace (len s + (len t + 1) - 1 - 1) with (len s + len t - 1) by lia.
      apply (IH (c :: u)); try assumption.
      rewrite Hsuf. by rewrite <- !app_assoc.
    + replace (len s + (len t + 1) - 1) with (len s + len t) by lia.
      rewrite Hsuf. apply nth_between.
Qed.

(** The same from the last character of the path on. *)
Lemma scan_tail_first (suffix s t whole : jsstring) :
  suffix = s ++ t -> s <> [] -> t <> [] -> noSlash t ->
  scan suffix (whole ++ t) (looking (len suffix - 1))
  = scan suffix whole (searching (len s - 1) (len (whole ++ t))).
Proof.
  intros Hsuf Hs Hne Ht. destruct t as [|c t _] using rev_ind; [done|].
  apply noSlash_app in Ht as [Ht Hc]. apply noSlash_cons in Hc as [Hc _].
  pose proof (len_pos s Hs). pose proof (len_nonneg t).
  pose proof (len_nonneg (whole ++ t)).
  assert (Hlen : len suffix - 1 = len s + len t).
  { rewrite Hsuf, !len_app. change (len [c]) with 1. lia. }
  rewrite app_assoc, scan_snoc, Hlen.
  rewrite step_first_match; try assumption; try lia.
  - rewrite (len_app (whole ++ t)). change (len [c]) with 1.
    apply (scan_tail suffix s _ whole t [c]); try assumption; try lia.
  - rewrite Hsuf. rewrite <- (app_nil_r (t ++ [c])). apply nth_between.
Qed.

(** A character that is not the one of the suffix ends the search, at
    whatever point. *)
Lemma scan_parted (suffix s t w whole : jsstring) (c c' : Z) :
  suffix = s ++ c' :: t -> c <> c' -> noSlash (w ++ c :: t) ->
  scan suffix (whole ++ w ++ c :: t) (looking (len suffix - 1))
  = scan suffix whole (givenUp (len (whole ++ w ++ c :: t))).
Proof.
  intros Hsuf Hcc Hs. apply noSlash_app in Hs as [Hw Hs].
  apply noSlash_cons in Hs as [Hc Ht].
  pose proof (len_nonneg s). pose proof (len_nonneg (whole ++ w)).
  assert (Hnth : nth (Z.to_nat (len s)) suffix 0 = c').
  { rewrite Hsuf. replace (Z.to_nat (len s)) with (length s) by (unfold len; lia).
    apply nth_middle. }
  replace (whole ++ w ++ c :: t) with (((whole ++ w) ++ [c]) ++ t)
    by (by rewrite <- !app_assoc).
  destruct (decide (t = [])) as [->|Hne].
  - rewrite app_nil_r, scan_snoc.
    assert (Hlen : len suffix - 1 = len s).
    { rewrite Hsuf, len_app. change (len [c']) with 1. lia. }
    rewrite Hlen, step_first_mismatch by (congruence || lia).
    rewrite (len_app (whole ++ w)). change (len [c]) with 1.
    apply scan_name; try assumption; cbn; lia.
  - rewrite (scan_tail_first suffix (s ++ [c']) t); try assumption.
    + rewrite scan_snoc, len_app. change (len [c']) with 1.
      replace (len s + 1 - 1) with (len s) by lia.
      pose proof (len_nonneg (((whole ++ w) ++ [c]) ++ t)).
      rewrite step_mismatch by (congruence || lia).
      apply scan_name; try assumption; cbn; lia.
    + rewrite Hsuf. by rewrite <- app_assoc.
    + by destruct s.
Qed.

(** [path.basename(path, '.bunz')] of a path whose last component does not
    end in [.bunz]: the last component. *)
Lemma basenameExt_other (whole pre name : jsstring) :
  name <> [] -> noSlash name -> (forall stem, name <> stem ++ DEFAULT_EXTENSION) ->
  whole = [] \/ whole = pre ++ [47] ->
  basenameExt (whole ++ name) DEFAULT_EXTENSION = name.
Proof.
  intros Hne Hs Hext Hwhole.
  assert (Hbase : basename (whole ++ name) = name).
  { destruct Hwhole as [-> | ->]; [by apply basename_plain|].
    rewrite <- app_assoc. by apply basename_last. }
  unfold basenameExt.
  destruct (Z.leb_spec (len DEFAULT_EXTENSION) (len (whole ++ name))) as [_|_];
    [|exact Hbase].
  rewrite bool_decide_eq_false_2.
  2: { intros E. destruct Hwhole as [-> | ->]; [by apply (Hext [])|].
       assert (H47 : 47 ∈ DEFAULT_EXTENSION).
       { rewrite E, !elem_of_app. left. right. by left. }
       by apply (extension_noSlash [] (not_elem_of_nil 47)) in H47. }
  change (fold_left (basenameStep DEFAULT_EXTENSION) (rev (indexed (whole ++ name))))
    with (scan DEFAULT_EXTENSION (whole ++ name)).
  change (mkBasenameState 0 (-1) true (len DEFAULT_EXTENSION - 1) (-1) false)
    with (looking (len DEFAULT_EXTENSION - 1)).
  pose proof (len_pos name Hne) as Hn. pose proof (len_nonneg whole) as Hw.
  pose proof (len_app whole name) as Hl.
  assert (Hslice : slice (whole ++ name) (len whole) (len (whole ++ name)) = name)
    by apply slice_last.
  destruct (compare_suffix name DEFAULT_EXTENSION)
    as [(stem & E)|[(s & Hs0 & E)|(w & c & t & s & c' & E1 & E2 & Hc)]].
  - by apply Hext in E.
  - rewrite (scan_tail_first DEFAULT_EXTENSION s name whole E Hs0 Hne Hs).
    destruct Hwhole as [-> | ->].
    + rewrite scan_nil. unfold searching. cbn [bStart bEnd firstNonSlashEnd]. cbv zeta.
      cbn [Z.eqb]. exact Hslice.
    + rewrite scan_slash by done. unfold searching.
      cbn [bStart bEnd firstNonSlashEnd]. cbv zeta.
      pose proof (len_nonneg pre).
      assert (Hp : len (pre ++ [47]) = len pre + 1) by (rewrite len_app; reflexivity).
      rewrite Hp in *.
      destruct (Z.eqb_spec (len pre + 1) (-1)); [lia|]. cbn [Z.eqb].
      exact Hslice.
  - rewrite E1 in Hs |- *.
    rewrite (scan_parted DEFAULT_EXTENSION s t w whole c c' E2 Hc Hs).
    rewrite <- E1. destruct Hwhole as [-> | ->].
    + rewrite scan_nil. unfold givenUp. cbn [bStart bEnd firstNonSlashEnd]. cbv zeta.
      change (len (@nil Z)) with 0 in *.
      destruct (Z.eqb_spec 0 (len ([] ++ name))); [lia|].
      destruct (Z.eqb_spec (len ([] ++ name)) (-1)); [lia|]. exact Hslice.
    + rewrite scan_slash by done. unfold givenUp.
      cbn [bStart bEnd firstNonSlashEnd]. cbv zeta.
      assert (Hp : len (pre ++ [47]) = len pre + 1) by (rewrite len_app; reflexivity).
      rewrite Hp in *.
      destruct (Z.eqb_spec (len pre + 1) (len ((pre ++ [47]) ++ name))); [lia|].
      destruct (Z.eqb_spec (len ((pre ++ [47]) ++ name)) (-1)); [lia|]. exact Hslice.
Qed.

(** Without an output directory (or with an empty one), an archive whose
    name does not end in [.bunz] is unpacked into a directory of its own
    path: the default names the archive itself. *)
Theorem unpack_default_directory_is_the_archive (pre name : jsstring)
  (outputDir : option jsstring) :
  segmentName name -> normalPath pre -> ~ DEFAULT_EXTENSION `suffix_of` name ->
  outputDir = None \/ outputDir = Some [] ->
  outputDirOrDefault (pre ++ 47 :: name) outputDir = pre ++ 47 :: name
  /\ outputDirOrDefault name outputDir = name.
Proof.
  intros Hname Hpre Hsuffix Hout.
  assert (Hext : forall stem, name <> stem ++ DEFAULT_EXTENSION).
  { intros stem E. apply Hsuffix. by exists stem. }
  pose proof Hname as ([Hn0 Hn1] & Hs & Hdd).
  assert (E : forall p, outputDirOrDefault p outputDir = defaultOutputDir p).
  { intros p. by destruct Hout as [-> | ->]. }
  rewrite !E. unfold defaultOutputDir. split.
  - rewrite (dirname_child pre name); try assumption.
    + change (pre ++ 47 :: name) with (pre ++ [47] ++ name) at 1. rewrite app_assoc.
      rewrite (basenameExt_other (pre ++ [47]) pre name) by (done || by right).
      by apply join_child.
    + by apply normalPath_nonempty.
    + intros ->. by destruct Hpre as (_ & Ht & _).
  - rewrite dirname_plain by assumption.
    rewrite (basenameExt_other [] [] name Hn0 Hs Hext (or_introl eq_refl) : basenameExt name _ = _).
    by apply join_dot.
Qed.

Lemma unpack_default_directory_is_the_archive_witness :
  outputDirOrDefault (js "x/y/a.tar") None = js "x/y/a.tar"
  /\ outputDirOrDefault (js "a.tar") None = js "a.tar".
Proof.
  apply (unpack_default_directory_is_the_archive (js "x/y") (js "a.tar") None).
  - apply segmentName_checked. vm_compute. reflexivity.
  - exact normalPath_x_y.
  - apply (bool_decide_unpack _). vm_compute. reflexivity.
  - left. reflexivity.
Defined.

(** * The container of a directory *)

(** A container determines its metadata and its stream, when the metadata
    length fits its field. *)
Lemma container_inj (m1 m2 s1 s2 : list byte) :
  len m1 < 2 ^ 32 -> len m2 < 2 ^ 32 ->
  container m1 s1 = container m2 s2 -> m1 = m2 /\ s1 = s2.
Proof.
  intros H1 H2 E. unfold container in E.
  apply app_inj_1 in E as [Eh E]; [|by rewrite !length_uint32LE].
  assert (El : len m1 = len m2).
  { pose proof (getUint32_uint32LE (len m1) []) as G1.
    pose proof (getUint32_uint32LE (len m2) []) as G2.
    rewrite Eh, G2 in G1. unfold toUint32 in G1.
    pose proof (len_nonneg m1). pose proof (len_nonneg m2).
    rewrite !Z.mod_small in G1 by lia. by symmetry. }
  apply app_inj_1 in E; [exact E|]. unfold len in El. lia.
Qed.

(** The metadata determines the creation time and the list of the paths. *)
Lemma metadataBuffer_inj (c1 c2 : jsstring) (f1 f2 : JSObject) :
  Forall isCodeUnit c1 -> Forall isCodeUnit c2 ->
  Forall (fun p => Forall isCodeUnit p.1) f1 -> Forall (fun p => Forall isCodeUnit p.1) f2 ->
  f1 <> [] -> f2 <> [] ->
  metadataBuffer c1 f1 = metadataBuffer c2 f2 ->
  c1 = c2 /\ objectKeys f1 = objectKeys f2.
Proof.
  intros Hc1 Hc2 Hf1 Hf2 Hn1 Hn2 E. unfold metadataBuffer in E.
  apply (f_equal uint8ArrayToText) in E.
  rewrite !text_roundtrip in E by (by apply stringify_archiveMetadata_wellFormed).
  assert (Hstrip : forall c f, stripBOM (stringify (archiveMetadata c f))
                               = stringify (archiveMetadata c f)).
  { intros c f. rewrite stringify_archiveMetadata. reflexivity. }
  rewrite !Hstrip in E.
  assert (Hd : forall f : JSObject, f <> [] -> descriptors f <> []).
  { intros f Hf Ed. apply (f_equal length) in Ed. unfold descriptors in Ed.
    rewrite length_map, objectKeys_length in Ed. by destruct f. }
  destruct (parse_archiveMetadata c1 f1 Hc1 Hf1 (Hd f1 Hn1)) as [n1 P1].
  destruct (parse_archiveMetadata c2 f2 Hc2 Hf2 (Hd f2 Hn2)) as [n2 P2].
  rewrite E in P1.
  assert (Ea : archiveMetadata c1 f1 = archiveMetadata c2 f2).
  { pose proof (parseValue_fuel_agree n1 n2 (stringify (archiveMetadata c2 f2))) as A.
    rewrite P1, P2 in A.
    assert (A' : POk (archiveMetadata c1 f1) [] = POk (archiveMetadata c2 f2) [])
      by (apply A; discriminate).
    congruence. }
  unfold archiveMetadata in Ea. injection Ea as Ec Ek. split; [exact Ec|].
  revert Ek. generalize (objectKeys f2). induction (objectKeys f1) as [|k ks IH];
    intros [|k' ks']; cbn [map]; try discriminate; [reflexivity|].
  intros [= -> _ Hks]. f_equal. by apply IH.
Qed.

(** C4, amended: the entries after the metadata do not depend on the
    order in which the files were enumerated (nor on the creation time);
    the metadata lists the files in the order of [Object.keys] and holds
    the creation time, so the whole container is the same when that order
    and the creation time are the same, and only then. *)
Theorem C4_entry_stream_independent_of_enumeration_order
  (created1 created2 : jsstring) (files1 files2 : JSObject) :
  NoDup (map fst files1) -> files1 ≡ₚ files2 ->
  drop (4 + length (metadataBuffer created1 files1)) (finalBuffer created1 files1)
  = drop (4 + length (metadataBuffer created2 files2)) (finalBuffer created2 files2)
  /\ (created1 = created2 -> objectKeys files1 = objectKeys files2 ->
      finalBuffer created1 files1 = finalBuffer created2 files2)
  /\ (files1 <> [] ->
      Forall isCodeUnit created1 -> Forall isCodeUnit created2 ->
      Forall (fun p => Forall isCodeUnit p.1) files1 ->
      len (metadataBuffer created1 files1) < 2 ^ 32 ->
      len (metadataBuffer created2 files2) < 2 ^ 32 ->
      finalBuffer created1 files1 = finalBuffer created2 files2 ->
      created1 = created2 /\ objectKeys files1 = objectKeys files2).
Proof.
  intros Hnd Hp. rewrite !finalBuffer_layout, !drop_container. split; [|split].
  - by apply entryStream_perm.
  - intros <- Hk. by rewrite (entryStream_perm _ _ Hnd Hp), (metadataBuffer_keys _ _ _ Hnd Hp Hk).
  - intros Hne Hc1 Hc2 Hf1 Hm1 Hm2 E.
    apply container_inj in E as [E _]; [|assumption|assumption].
    apply (metadataBuffer_inj created1 created2 files1 files2); try assumption.
    + rewrite <- Hp. exact Hf1.
    + intros ->. apply Permutation_nil_r in Hp. by apply Hne.
Qed.

(** * Sizes *)

Lemma totalLength_eq (created : jsstring) (files : JSObject) :
  totalLength created files
  = 4 + len (metadataBuffer created files) + len (entryStream files).
Proof.
  unfold totalLength. cbv zeta. rewrite total_length.
  cbn [concat]. rewrite concat_contentBuffers, !len_app.
  change (len (setUint32 (newArrayBuffer 4) 0 (len (metadataBuffer created files)))) with 4.
  lia.
Qed.

Lemma len_flat_map_elem {A} (g : A -> list byte) (l : list A) (x : A) :
  x ∈ l -> len (g x) <= len (flat_map g l).
Proof.
  induction l as [|y l IH]; [by intros H; apply not_elem_of_nil in H|].
  cbn [flat_map]. rewrite len_app. pose proof (len_nonneg (g y)).
  pose proof (len_nonneg (flat_map g l)).
  intros [->|Hin]%elem_of_cons; [lia|]. apply IH in Hin. lia.
Qed.

(** Each path and each content is shorter than the whole by 12 bytes at
    least. *)
Lemma totalLength_entry (created : jsstring) (files : JSObject) (path : jsstring) :
  path ∈ objectKeys files ->
  12 + len (textToUint8Array path) + len (fileContent files path)
  <= totalLength created files.
Proof.
  intros Hin. rewrite totalLength_eq. unfold entryStream.
  assert (Hs : path ∈ sortStrings (objectKeys files)) by (by rewrite sortStrings_perm).
  pose proof (len_flat_map_elem
                (fun p => entryBytes (textToUint8Array p) (fileContent files p)) _ _ Hs) as H.
  cbv beta in H. rewrite len_entryBytes in H.
  pose proof (len_nonneg (metadataBuffer created files)). lia.
Qed.

Lemma getUint32_exact (n : Z) (rest : list byte) :
  0 <= n < 2 ^ 32 -> getUint32 (uint32LE n ++ rest) 0 = n.
Proof. intros H. rewrite getUint32_uint32LE. unfold toUint32. by apply Z.mod_small. Qed.

(** C7: where a typed array holds 2^32 bytes at most, packing fails, and
    nothing is written, whenever the bytes of a path or a content are more
    than 2^32 - 1: the buffer for the container cannot be created (line
    211). So when packing succeeds, the container is the 4-byte metadata
    length, the metadata, and for each path in sorted order the two 4-byte
    lengths, the path and the content, and each of these length fields
    reads back as the byte count it stands for. *)
Theorem C7_oversize_is_refused_and_fields_are_exact
  (cwd args : list jsstring) (now : jsstring)
  (gzipSync : list byte -> number -> option (list byte)) (maxByteLength : Z)
  (fs fs' : FS) (directoryPath : jsstring) (outputFile : option jsstring)
  (result : failure + CompressStats) :
  maxByteLength <= 2 ^ 32 ->
  compressDirectory cwd args now gzipSync maxByteLength fs directoryPath outputFile
  = (result, fs') ->
  let files := readFilesRecursively cwd (S (size fs)) fs directoryPath directoryPath in
  (forall path, path ∈ objectKeys files ->
     2 ^ 32 - 1 < len (textToUint8Array path)
     \/ 2 ^ 32 - 1 < len (fileContent files path) ->
     (exists e, result = inl e) /\ fs' = fs
     /\ (lookupPath cwd fs directoryPath = Some Directory ->
         result = inl (Caught OutOfMemory)))
  /\ (forall stats, result = inr stats ->
        finalBuffer now files
        = uint32LE (len (metadataBuffer now files)) ++ metadataBuffer now files
          ++ flat_map (fun path =>
                         uint32LE (len (textToUint8Array path))
                         ++ uint32LE (len (fileContent files path))
                         ++ textToUint8Array path ++ fileContent files path)
                      (sortStrings (objectKeys files))
        /\ (forall rest,
              getUint32 (uint32LE (len (metadataBuffer now files)) ++ rest) 0
              = len (metadataBuffer now files))
        /\ (forall path rest, path ∈ objectKeys files ->
              getUint32 (uint32LE (len (textToUint8Array path)) ++ rest) 0
              = len (textToUint8Array path)
              /\ getUint32 (uint32LE (len (fileContent files path)) ++ rest) 0
                 = len (fileContent files path))).
Proof.
  intros Hmax Hrun files. unfold compressDirectory in Hrun. fold files in Hrun.
  split.
  - intros path Hin Hover.
    pose proof (totalLength_entry now files path Hin) as Htotal.
    pose proof (len_nonneg (textToUint8Array path)).
    pose proof (len_nonneg (fileContent files path)).
    destruct (lookupPath cwd fs directoryPath) as [[c|]|];
      try (injection Hrun as <- <-; split; [by eexists|split; [reflexivity|discriminate]]).
    destruct (Z.eqb_spec (len (objectKeys files)) 0) as [E|_].
    { unfold len in E. destruct (objectKeys files); [by apply not_elem_of_nil in Hin|].
      cbn [length] in E. lia. }
    destruct (Z.ltb_spec maxByteLength (totalLength now files)) as [_|Hfit]; [|lia].
    injection Hrun as <- <-. split; [by eexists|]. split; reflexivity.
  - intros stats ->.
    destruct (lookupPath cwd fs directoryPath) as [[c|]|]; try discriminate.
    destruct (_ =? 0); [discriminate|].
    destruct (Z.ltb_spec maxByteLength (totalLength now files)) as [|Hfit]; [discriminate|].
    clear Hrun. split; [apply finalBuffer_layout|].
    pose proof (len_nonneg (metadataBuffer now files)) as Hm.
    pose proof (len_nonneg (entryStream files)) as Hs.
    split.
    + intros rest. apply getUint32_exact. rewrite totalLength_eq in Hfit. lia.
    + intros path rest Hin. pose proof (totalLength_entry now files path Hin).
      pose proof (len_nonneg (textToUint8Array path)).
      pose proof (len_nonneg (fileContent files path)).
      split; apply getUint32_exact; lia.
Qed.

(** * The level on the command line *)

(** C8, amended: when the first level option of the command line is
    [--level=<n>] or [-l=<n>], with [n] an integer in decimal, below 2^53
    in magnitude, the level is [n] itself, in or out of the range 1-9,
    negative or not, except that 0 gives 9; and that level is the one
    [gzipSync] is called with in the run of the script, whatever else is
    on the command line: no check of the range is made. *)
Theorem C8_level_is_the_number_given (cwd args : list jsstring) (now : jsstring)
  (gzipSync : list byte -> number -> option (list byte))
  (gunzipSync : list byte -> option Buffer) (maxByteLength : Z) (fs : FS) (n : Z) :
  compressionLevelArg args = Some (js "--level=" ++ decimal n)
  \/ compressionLevelArg args = Some (js "-l=" ++ decimal n) ->
  Z.abs n < 2 ^ 53 ->
  level args = Finite (if n =? 0 then 9 else n)
  /\ main cwd args now gzipSync gunzipSync maxByteLength fs
     = main cwd args now
         (fun data _ => gzipSync data (Finite (if n =? 0 then 9 else n)))
         gunzipSync maxByteLength fs.
Proof.
  intros Harg Hn.
  assert (Hlevel : level args = Finite (if n =? 0 then 9 else n)).
  { destruct Harg as [Harg|Harg].
    - apply (level_exact args (js "--level") n); [exact Harg| |exact Hn].
      apply (bool_decide_unpack _). vm_compute. reflexivity.
    - apply (level_exact args (js "-l") n); [exact Harg| |exact Hn].
      apply (bool_decide_unpack _). vm_compute. reflexivity. }
  split; [exact Hlevel|].
  unfold main, compressDirectory. rewrite Hlevel. reflexivity.
Qed.

(** * The count that unpack reports *)

Section Count.
Variable cwd : list jsstring.
Variable gunzipSync : list byte -> option Buffer.

Lemma lastWrite_written (outputDir : jsstring) (log : list (jsstring * list byte))
  (k : list jsstring) :
  is_Some (lastWrite cwd outputDir log k) <-> k ∈ placesWritten cwd outputDir log.
Proof.
  unfold placesWritten. rewrite elem_of_remove_dups.
  induction log as [|[p c] log IH]; cbn [lastWrite map fst].
  - split; [by intros [? ?]|by intros ?%not_elem_of_nil].
  - rewrite elem_of_cons, <- IH.
    destruct (lastWrite cwd outputDir log k) as [c'|].
    + split; [by right|by eexists].
    + destruct (decide (resolve cwd (join outputDir p) = k)) as [E|E].
      * rewrite bool_decide_eq_true_2 by exact E. split; [by left|by eexists].
      * rewrite bool_decide_eq_false_2 by exact E.
        split; [by intros [? ?]|]. intros [H|[? H]]; [by symmetry in H|discriminate H].
Qed.

Lemma remove_dups_shorter {A} `{EqDecision A} (l : list A) :
  (length (remove_dups l) <= length l)%nat.
Proof.
  induction l as [|x l IH]; [reflexivity|]. cbn [remove_dups length].
  destruct (decide_rel elem_of x l); cbn [length]; lia.
Qed.

Lemma remove_dups_NoDup {A} `{EqDecision A} (l : list A) : NoDup l -> remove_dups l = l.
Proof.
  induction 1 as [|x l Hx _ IH]; [reflexivity|]. cbn [remove_dups].
  destruct (decide_rel elem_of x l); [done|]. by rewrite IH.
Qed.

Lemma placesWritten_length (outputDir : jsstring) (log : list (jsstring * list byte)) :
  len (placesWritten cwd outputDir log) <= len log
  /\ (NoDup (map (fun e => resolve cwd (join outputDir e.1)) log) ->
      len (placesWritten cwd outputDir log) = len log).
Proof.
  unfold placesWritten, len. split.
  - pose proof (remove_dups_shorter
                  (map (fun e => resolve cwd (join outputDir e.1)) log)) as H.
    rewrite length_map in H. lia.
  - intros Hnd. rewrite (remove_dups_NoDup _ Hnd). by rewrite length_map.
Qed.

(** C10, amended: when unpack succeeds, the file count it reports is the
    length of the [files] list of the metadata. The entries of the stream
    are written one by one, and the files written are the places of these
    writes, each counted once: every such place holds a regular file
    afterwards, no other regular file has changed, and there are as many
    places as entries when no two entries go to the same place, fewer
    otherwise. So the reported count differs from the number of files
    written whenever the metadata list and the stream differ in length and
    the entries go to different places. *)
Theorem C10_reported_count_and_files_written (fs : FS) (archivePath : jsstring)
  (outputDir : option jsstring) (stats : ExtractStats)
  (log : list (jsstring * list byte)) (fs' : FS) :
  uncompressArchive cwd gunzipSync fs archivePath outputDir = (inr stats, log, fs') ->
  let places := placesWritten cwd (outputDirOrDefault archivePath outputDir) log in
  exists data decompressed metadataLength files,
    readFileSync cwd fs archivePath = Some data
    /\ gunzipSync data = Some decompressed
    /\ readMetadata decompressed = inr (metadataLength, files)
    /\ decodeEntries decompressed (4 + metadataLength) = Some log
    /\ fileCount stats = len files
    /\ (forall k, k ∈ places -> is_Some (fileAt fs' k))
    /\ (forall k, k ∉ places -> fileAt fs' k = fileAt fs k)
    /\ len places <= len log
    /\ (NoDup (map (fun e => resolve cwd (join (outputDirOrDefault archivePath outputDir)
                                               e.1)) log) ->
        len places = len log
        /\ (len files <> len log -> fileCount stats <> len places)).
Proof.
  intros Hu places.
  apply uncompressArchive_inv in Hu
    as [(fs1 & data & d & He & Hl & Hg & Hx)|(_ & _ & e & [=] & _)].
  apply extractContainer_inv in Hx
    as [(e & _ & [=] & _)|(n & files & rl & Hr & Hloop & Hs)].
  destruct rl as [e|total]; [done|]. injection Hs as ->.
  destruct (extractLoop_success cwd _ _ _ _ _ _ _ _ _ Hloop) as (entries & Hd & ->).
  destruct (extractLoop_written cwd (outputDirOrDefault archivePath outputDir)
              d (4 + n) 0 [] fs1) as (new & Hlog & Hfiles).
  rewrite Hloop in Hlog, Hfiles. cbn [fst snd app] in Hlog, Hfiles. subst new.
  cbn [app] in *.
  destruct (placesWritten_length (outputDirOrDefault archivePath outputDir) entries)
    as [Hle Heq].
  exists data, d, n, files. unfold readFileSync. rewrite Hl. cbn [fileCount].
  repeat split; try done.
  - intros k Hin. rewrite Hfiles.
    apply lastWrite_written in Hin as [c Hc]. rewrite Hc. by eexists.
  - intros k Hout. rewrite Hfiles.
    destruct (lastWrite cwd (outputDirOrDefault archivePath outputDir) entries k) as [c|] eqn:E.
    + exfalso. apply Hout. apply lastWrite_written. rewrite E. by eexists.
    + by apply fileAt_ensureDirectoryExists with (1 := He).
  - by apply Heq.
  - intros Hne. fold places in Heq. rewrite (Heq H). exact Hne.
Qed.

End Count.

(** * Examples of the container, the sizes, the level and the count *)

(** The same two files enumerated in the two possible orders. *)
Lemma C4_entry_stream_independent_of_enumeration_order_witness :
  let files1 : JSObject := [(js "a", [Byte.x01]); (js "b", [Byte.x02])] in
  let files2 : JSObject := [(js "b", [Byte.x02]); (js "a", [Byte.x01])] in
  drop (4 + length (metadataBuffer exampleCreated files1)) (finalBuffer exampleCreated files1)
  = drop (4 + length (metadataBuffer (js "later") files2)) (finalBuffer (js "later") files2)
  /\ (exampleCreated = js "later" -> objectKeys files1 = objectKeys files2 ->
      finalBuffer exampleCreated files1 = finalBuffer (js "later") files2)
  /\ (files1 <> [] ->
      Forall isCodeUnit exampleCreated -> Forall isCodeUnit (js "later") ->
      Forall (fun p : jsstring * list byte => Forall isCodeUnit p.1) files1 ->
      len (metadataBuffer exampleCreated files1) < 2 ^ 32 ->
      len (metadataBuffer (js "later") files2) < 2 ^ 32 ->
      finalBuffer exampleCreated files1 = finalBuffer (js "later") files2 ->
      exampleCreated = js "later" /\ objectKeys files1 = objectKeys files2).
Proof.
  intros files1 files2.
  apply (C4_entry_stream_independent_of_enumeration_order exampleCreated (js "later")
           files1 files2).
  - apply (bool_decide_unpack _). vm_compute. exact I.
  - apply perm_swap.
Defined.

(** Packing the example directory where a typed array holds 2^32 bytes. *)
Lemma C7_oversize_is_refused_and_fields_are_exact_witness :
  let run := compressDirectory [js "w"] [] exampleCreated storeGzip exampleLimit
               exampleTree (js "d") None in
  let files :=
    readFilesRecursively [js "w"] (S (size exampleTree)) exampleTree (js "d") (js "d") in
  run.1 = inr (mkCompressStats 2 122 156)
  /\ (forall path, path ∈ objectKeys files ->
     2 ^ 32 - 1 < len (textToUint8Array path)
     \/ 2 ^ 32 - 1 < len (fileContent files path) ->
     (exists e, run.1 = inl e) /\ run.2 = exampleTree
     /\ (lookupPath [js "w"] exampleTree (js "d") = Some Directory ->
         run.1 = inl (Caught OutOfMemory)))
  /\ (forall stats, run.1 = inr stats ->
        finalBuffer exampleCreated files
        = uint32LE (len (metadataBuffer exampleCreated files))
          ++ metadataBuffer exampleCreated files
          ++ flat_map (fun path =>
                         uint32LE (len (textToUint8Array path))
                         ++ uint32LE (len (fileContent files path))
                         ++ textToUint8Array path ++ fileContent files path)
                      (sortStrings (objectKeys files))
        /\ (forall rest,
              getUint32 (uint32LE (len (metadataBuffer exampleCreated files)) ++ rest) 0
              = len (metadataBuffer exampleCreated files))
        /\ (forall path rest, path ∈ objectKeys files ->
              getUint32 (uint32LE (len (textToUint8Array path)) ++ rest) 0
              = len (textToUint8Array path)
              /\ getUint32 (uint32LE (len (fileContent files path)) ++ rest) 0
                 = len (fileContent files path))).
Proof.
  intros run. split; [vm_compute; reflexivity|].
  apply (C7_oversize_is_refused_and_fields_are_exact [js "w"] [] exampleCreated storeGzip
           exampleLimit exampleTree run.2 (js "d") None run.1).
  - vm_compute. discriminate.
  - apply surjective_pairing.
Defined.

(** C8 as stated fails: the levels 12 and -1 are outside 1-9 and are used
    as they are; with a compressor that records the level it is given, the
    archive that [--level=12 compress d] writes begins with 12. *)
Lemma C8_out_of_range_level_is_used :
  let args := [js "--level=12"; js "compress"; js "d"] in
  let run := main [js "w"] args exampleCreated recordGzip storeGunzip exampleLimit
               exampleTree in
  level args = Finite 12
  /\ level [js "-l=-1"; js "compress"; js "d"] = Finite (-1)
  /\ exitCode run.1 = 0
  /\ exists rest, run.2 !! [js "w"; js "d.bunz"] = Some (File (Byte.x0c :: rest)).
Proof.
  cbv zeta. split; [vm_compute; reflexivity|]. split; [vm_compute; reflexivity|].
  split; [vm_compute; reflexivity|]. eexists. vm_compute. reflexivity.
Qed.

Lemma C8_level_is_the_number_given_witness :
  let args := [js "-v"; js "--level=12"; js "compress"; js "d"] in
  (level args = Finite 12
   /\ main [js "w"] args exampleCreated recordGzip storeGunzip exampleLimit exampleTree
      = main [js "w"] args exampleCreated (fun data _ => recordGzip data (Finite 12))
          storeGunzip exampleLimit exampleTree)
  /\ exitCode (main [js "w"] args exampleCreated recordGzip storeGunzip exampleLimit
                 exampleTree).1 = 0.
Proof.
  intros args. split.
  - apply (C8_level_is_the_number_given [js "w"] args exampleCreated recordGzip storeGunzip
             exampleLimit exampleTree 12).
    + left. vm_compute. reflexivity.
    + vm_compute. reflexivity.
  - vm_compute. reflexivity.
Defined.

(** C10 as stated fails: the metadata lists one file and the stream has
    two entries, which go to the same place; one file is written, and the
    count reported is 1. *)
Lemma C10_entries_at_one_place :
  let archive := exampleContainer (jsq "{'files':[1]}")
                   [(js "a", [Byte.x01]); (js "a", [Byte.x02])] in
  let run := unpackExample archive (Some (js "out")) in
  run.1.1 = inr (mkExtractStats 1 2)
  /\ decodeEntries (ofBytes archive) (4 + 13)
     = Some [(js "a", [Byte.x01]); (js "a", [Byte.x02])]
  /\ run.1.2 = [(js "a", [Byte.x01]); (js "a", [Byte.x02])]
  /\ placesWritten [js "w"] (js "out") run.1.2 = [[js "w"; js "out"; js "a"]]
  /\ fileAt run.2 [js "w"; js "out"; js "a"] = Some [Byte.x02].
Proof. cbv zeta. repeat split; vm_compute; reflexivity. Qed.

(** An archive whose metadata lists three files and whose stream has one
    entry: the count reported is 3, one file is written. *)
Lemma C10_reported_count_and_files_written_witness :
  let archive := exampleContainer (jsq "{'files':[1,2,3]}") [(js "a", [Byte.x78])] in
  let run := unpackExample archive (Some (js "out")) in
  let places := placesWritten [js "w"] (js "out") run.1.2 in
  exists data decompressed metadataLength files,
    readFileSync [js "w"] (exampleFS archive) (js "a.bunz") = Some data
    /\ storeGunzip data = Some decompressed
    /\ readMetadata decompressed = inr (metadataLength, files)
    /\ decodeEntries decompressed (4 + metadataLength) = Some run.1.2
    /\ 3 = len files
    /\ (forall k, k ∈ places -> is_Some (fileAt run.2 k))
    /\ (forall k, k ∉ places -> fileAt run.2 k = fileAt (exampleFS archive) k)
    /\ len places <= len run.1.2
    /\ (NoDup (map (fun e : jsstring * list byte =>
                      resolve [js "w"] (join (js "out") e.1)) run.1.2) ->
        len places = len run.1.2
        /\ (len files <> len run.1.2 -> 3 <> len places)).
Proof.
  intros archive run places.
  apply (C10_reported_count_and_files_written [js "w"] storeGunzip (exampleFS archive)
           (js "a.bunz") (Some (js "out")) (mkExtractStats 3 1) run.1.2 run.2).
  apply result_components; vm_compute; reflexivity.
Defined.
